(** * ros3d-evolve: frame-anchored scene nodes, point-stream decoders,
      marker lifecycle and interactive-marker drag buffering.

    A shallow embedding of the JavaScript sources.  A JS number is an IEEE
    binary64 value, so numbers are Rocq's primitive floats and every
    arithmetic step below rounds exactly as the running program does.
    Array lengths, indices and counters are integer-valued numbers and are
    kept in [nat].  Objects of the rendering engine (three.js) are records
    holding the fields the sources read and write. *)

From Stdlib Require Import Floats ZArith Lia.
From Stdlib.Strings Require Import Byte Ascii.
From stdpp Require Import base option list strings gmap sorting pretty.

Set Default Proof Using "Type".
#[local] Set Warnings "-inexact-float".

(** ** JavaScript numbers *)

Module JS.

(** [a === b] and [a !== b] on numbers: NaN differs from itself and the
    two zeros are equal. *)
Definition strict_eq (a b : float) : bool := PrimFloat.eqb a b.
Definition strict_ne (a b : float) : bool := negb (PrimFloat.eqb a b).

(** [a < b], [a <= b], [a > b], [a >= b]: false as soon as one side is NaN. *)
Definition lt (a b : float) : bool := PrimFloat.ltb a b.
Definition le (a b : float) : bool := PrimFloat.leb a b.
Definition gt (a b : float) : bool := PrimFloat.ltb b a.
Definition ge (a b : float) : bool := PrimFloat.leb b a.

Definition Math_abs (a : float) : float := PrimFloat.abs a.
Definition Math_sqrt (a : float) : float := PrimFloat.sqrt a.

(** A property that may be missing from an object reads as [undefined];
    a relational operator turns [undefined] into NaN, so the comparison
    is false. *)
Definition lt_maybe (a : float) (b : option float) : bool :=
  match b with
  | Some b' => lt a b'
  | None => false
  end.

(** Truthiness of a string-valued option ([undefined] and the empty
    string are falsy). *)
Definition truthy_string (s : option string) : bool :=
  match s with
  | Some s' => negb (String.eqb s' "")
  | None => false
  end.

(** A count the rendering engine holds (the draw range of a geometry,
    the [count] of a buffer attribute): a number that is a non-negative
    integer, [Infinity] (the draw range of a geometry on which
    [setDrawRange] was never called) or NaN (what [Math.floor(0 / 0)]
    passes on). *)
Inductive Count : Type :=
| Finite (n : nat)
| Infinity
| NaN.

(** [Math.floor] of a quotient of counters, [None] standing for the NaN
    of [0 / 0], as the count it is stored as. *)
Definition count_of (n : option nat) : Count :=
  match n with
  | Some k => Finite k
  | None => NaN
  end.

End JS.

(** An integer counter is read as the count of that value. *)
Coercion JS.Finite : nat >-> JS.Count.

(** Outcome of a computation that may throw. *)
Inductive JSError : Type := RangeError | TypeError.

Inductive Result (A : Type) : Type :=
| Ok (a : A)
| Throw (e : JSError).
Arguments Ok {A}.
Arguments Throw {A}.

Definition bindR {A B : Type} (m : Result A) (k : A -> Result B) : Result B :=
  match m with
  | Ok a => k a
  | Throw e => Throw e
  end.

#[export] Instance Result_bind : MBind Result := fun A B k m => bindR m k.
#[export] Instance Result_ret : MRet Result := fun A a => Ok a.

(** ** three.js value objects

    The methods of [THREE.Quaternion] and [THREE.Vector3] the sources call,
    written out as the library computes them (release 0.89, the one the
    project documentation names).  A method that mutates its receiver
    returns the receiver's new value. *)

Module Quaternion.

Record t := mk { x : float; y : float; z : float; w : float }.

Definition identity : t := mk 0 0 0 1.

Definition set (_ : t) (x' y' z' w' : float) : t := mk x' y' z' w'.

Definition length (q : t) : float :=
  JS.Math_sqrt (x q * x q + y q * y q + z q * z q + w q * w q)%float.

Definition normalize (q : t) : t :=
  let l := length q in
  if JS.strict_eq l 0 then mk 0 0 0 1
  else
    let l := (1 / l)%float in
    mk (x q * l) (y q * l) (z q * l) (w q * l)%float.

Definition multiplyQuaternions (a b : t) : t :=
  let qax := x a in let qay := y a in let qaz := z a in let qaw := w a in
  let qbx := x b in let qby := y b in let qbz := z b in let qbw := w b in
  mk (qax * qbw + qaw * qbx + qay * qbz - qaz * qby)%float
     (qay * qbw + qaw * qby + qaz * qbx - qax * qbz)%float
     (qaz * qbw + qaw * qbz + qax * qby - qay * qbx)%float
     (qaw * qbw - qax * qbx - qay * qby - qaz * qbz)%float.

(** [this.premultiply(q)] is [multiplyQuaternions(q, this)]. *)
Definition premultiply (this q : t) : t := multiplyQuaternions q this.

Definition multiply (this q : t) : t := multiplyQuaternions this q.

End Quaternion.

Module Vector3.

Record t := mk { x : float; y : float; z : float }.

Definition zero : t := mk 0 0 0.

Definition set (_ : t) (x' y' z' : float) : t := mk x' y' z'.

Definition add (this v : t) : t :=
  mk (x this + x v) (y this + y v) (z this + z v)%float.

Definition addVectors (a b : t) : t :=
  mk (x a + x b) (y a + y b) (z a + z b)%float.

Definition subVectors (a b : t) : t :=
  mk (x a - x b) (y a - y b) (z a - z b)%float.

Definition multiplyScalar (this : t) (s : float) : t :=
  mk (x this * s) (y this * s) (z this * s)%float.

Definition dot (this v : t) : float :=
  (x this * x v + y this * y v + z this * z v)%float.

Definition applyQuaternion (this : t) (q : Quaternion.t) : t :=
  let vx := x this in let vy := y this in let vz := z this in
  let qx := Quaternion.x q in let qy := Quaternion.y q in
  let qz := Quaternion.z q in let qw := Quaternion.w q in
  (* quat * vector *)
  let ix := (qw * vx + qy * vz - qz * vy)%float in
  let iy := (qw * vy + qz * vx - qx * vz)%float in
  let iz := (qw * vz + qx * vy - qy * vx)%float in
  let iw := ((- qx) * vx - qy * vy - qz * vz)%float in
  (* result * inverse quat *)
  mk (ix * qw + iw * (- qx) + iy * (- qz) - iz * (- qy))%float
     (iy * qw + iw * (- qy) + iz * (- qx) - ix * (- qz))%float
     (iz * qw + iw * (- qz) + ix * (- qy) - iy * (- qx))%float.

End Vector3.

(** ** ROS message values: plain [{x,y,z}] and [{x,y,z,w}] objects *)

Module Msg.

Record Point := mkPoint { x : float; y : float; z : float }.
Record Quat := mkQuat { qx : float; qy : float; qz : float; qw : float }.

Record Pose := mkPose { position : Point; orientation : Quat }.
Record Transform := mkTransform { translation : Point; rotation : Quat }.

Definition identityPose : Pose := mkPose (mkPoint 0 0 0) (mkQuat 0 0 0 1).
Definition identityTransform : Transform :=
  mkTransform (mkPoint 0 0 0) (mkQuat 0 0 0 1).

End Msg.

(** ** utils/ros.js *)

(** [applyTransform(pose, transform)]: four fresh engine objects are built
    from the fields of the two arguments, the two built from [pose] are
    updated by the engine's methods, and a fresh plain object is returned. *)
Definition applyTransform (pose : Msg.Pose) (transform : Msg.Transform) : Msg.Pose :=
  let currentPosition :=
    Vector3.mk (Msg.x (Msg.position pose)) (Msg.y (Msg.position pose))
               (Msg.z (Msg.position pose)) in
  let currentOrientation :=
    Quaternion.mk (Msg.qx (Msg.orientation pose)) (Msg.qy (Msg.orientation pose))
                  (Msg.qz (Msg.orientation pose)) (Msg.qw (Msg.orientation pose)) in
  let transformTranslation :=
    Vector3.mk (Msg.x (Msg.translation transform)) (Msg.y (Msg.translation transform))
               (Msg.z (Msg.translation transform)) in
  let transformRotation :=
    Quaternion.mk (Msg.qx (Msg.rotation transform)) (Msg.qy (Msg.rotation transform))
                  (Msg.qz (Msg.rotation transform)) (Msg.qw (Msg.rotation transform)) in
  let currentPosition := Vector3.applyQuaternion currentPosition transformRotation in
  let currentPosition := Vector3.add currentPosition transformTranslation in
  let currentOrientation := Quaternion.premultiply currentOrientation transformRotation in
  let currentOrientation := Quaternion.normalize currentOrientation in
  Msg.mkPose
    (Msg.mkPoint (Vector3.x currentPosition) (Vector3.y currentPosition)
                 (Vector3.z currentPosition))
    (Msg.mkQuat (Quaternion.x currentOrientation) (Quaternion.y currentOrientation)
                (Quaternion.z currentOrientation) (Quaternion.w currentOrientation)).

(** *** [applyTransform] on the object store

    The same function with its arguments as references into a store of
    objects, so that what it reads, what it allocates and what it mutates
    is explicit: the engine methods update their receiver in place. *)

Module Store.

Inductive Object : Type :=
| Plain3 (x y z : float)
| Plain4 (x y z w : float)
| PoseObject (position orientation : nat)
| TransformObject (translation rotation : nat)
| EngineVector3 (v : Vector3.t)
| EngineQuaternion (q : Quaternion.t).

(** The objects by address, and the next free address. *)
Record t := mk { cells : gmap nat Object; next : nat }.

Definition alloc (s : t) (o : Object) : nat * t :=
  (next s, mk (<[ next s := o ]> (cells s)) (S (next s))).

Definition write (s : t) (l : nat) (o : Object) : t :=
  mk (<[ l := o ]> (cells s)) (next s).

(** Property reads; a read through something that is not an object of
    the expected shape throws. *)
Definition readPlain3 (s : t) (l : nat) : Result Vector3.t :=
  match cells s !! l with
  | Some (Plain3 x y z) => Ok (Vector3.mk x y z)
  | _ => Throw TypeError
  end.

Definition readPlain4 (s : t) (l : nat) : Result Quaternion.t :=
  match cells s !! l with
  | Some (Plain4 x y z w) => Ok (Quaternion.mk x y z w)
  | _ => Throw TypeError
  end.

Definition readPose (s : t) (l : nat) : Result (nat * nat) :=
  match cells s !! l with
  | Some (PoseObject position orientation) => Ok (position, orientation)
  | _ => Throw TypeError
  end.

Definition readTransform (s : t) (l : nat) : Result (nat * nat) :=
  match cells s !! l with
  | Some (TransformObject translation rotation) => Ok (translation, rotation)
  | _ => Throw TypeError
  end.

Definition readVector3 (s : t) (l : nat) : Result Vector3.t :=
  match cells s !! l with
  | Some (EngineVector3 v) => Ok v
  | _ => Throw TypeError
  end.

Definition readQuaternion (s : t) (l : nat) : Result Quaternion.t :=
  match cells s !! l with
  | Some (EngineQuaternion q) => Ok q
  | _ => Throw TypeError
  end.

(** [this.applyQuaternion(q)], [this.add(v)], [this.premultiply(q)] and
    [this.normalize()] on references: the receiver is overwritten. *)
Definition applyQuaternion (s : t) (this q : nat) : Result t :=
  v ← readVector3 s this;
  q' ← readQuaternion s q;
  Ok (write s this (EngineVector3 (Vector3.applyQuaternion v q'))).

Definition add (s : t) (this v : nat) : Result t :=
  a ← readVector3 s this;
  b ← readVector3 s v;
  Ok (write s this (EngineVector3 (Vector3.add a b))).

Definition premultiply (s : t) (this q : nat) : Result t :=
  a ← readQuaternion s this;
  b ← readQuaternion s q;
  Ok (write s this (EngineQuaternion (Quaternion.premultiply a b))).

Definition normalize (s : t) (this : nat) : Result t :=
  a ← readQuaternion s this;
  Ok (write s this (EngineQuaternion (Quaternion.normalize a))).

(** [applyTransform(pose, transform)]: the reference of the returned
    object and the store as the call leaves it. *)
Definition applyTransform (pose transform : nat) (s : t) : Result (nat * t) :=
  p ← readPose s pose;
  position ← readPlain3 s p.1;
  let a := alloc s (EngineVector3 position) in
  let currentPosition := a.1 in
  let s := a.2 in
  orientation ← readPlain4 s p.2;
  let a := alloc s (EngineQuaternion orientation) in
  let currentOrientation := a.1 in
  let s := a.2 in
  tr ← readTransform s transform;
  translation ← readPlain3 s tr.1;
  let a := alloc s (EngineVector3 translation) in
  let transformTranslation := a.1 in
  let s := a.2 in
  rotation ← readPlain4 s tr.2;
  let a := alloc s (EngineQuaternion rotation) in
  let transformRotation := a.1 in
  let s := a.2 in
  s ← applyQuaternion s currentPosition transformRotation;
  s ← add s currentPosition transformTranslation;
  s ← premultiply s currentOrientation transformRotation;
  s ← normalize s currentOrientation;
  v ← readVector3 s currentPosition;
  q ← readQuaternion s currentOrientation;
  let a := alloc s (Plain3 (Vector3.x v) (Vector3.y v) (Vector3.z v)) in
  let s := a.2 in
  let b :=
    alloc s (Plain4 (Quaternion.x q) (Quaternion.y q) (Quaternion.z q)
                    (Quaternion.w q)) in
  let s := b.2 in
  Ok (alloc s (PoseObject a.1 b.1)).

(** The pose and the transform found at a reference. *)
Definition poseAt (s : t) (l : nat) : option Msg.Pose :=
  match cells s !! l with
  | Some (PoseObject position orientation) =>
      match cells s !! position, cells s !! orientation with
      | Some (Plain3 x y z), Some (Plain4 qx qy qz qw) =>
          Some (Msg.mkPose (Msg.mkPoint x y z) (Msg.mkQuat qx qy qz qw))
      | _, _ => None
      end
  | _ => None
  end.

Definition transformAt (s : t) (l : nat) : option Msg.Transform :=
  match cells s !! l with
  | Some (TransformObject translation rotation) =>
      match cells s !! translation, cells s !! rotation with
      | Some (Plain3 x y z), Some (Plain4 qx qy qz qw) =>
          Some (Msg.mkTransform (Msg.mkPoint x y z) (Msg.mkQuat qx qy qz qw))
      | _, _ => None
      end
  | _ => None
  end.

(** Every object lies below the next free address. *)
Definition wf (s : t) : Prop := ∀ l o, cells s !! l = Some o → l < next s.

End Store.

(** ** visualization/SceneNode.js *)

Module SceneNode.

(** The handle of the shared transform store ([tfClient]); the store
    itself belongs to the transport layer. *)
Inductive TFClient : Type := tfClientHandle.

(** The [options] object of the constructor; a missing property is [None]. *)
Record Options (O : Type) := mkOptions {
  opt_tfClient : option TFClient;
  opt_frameID : option string;
  opt_object : option O;
  opt_pose : option Msg.Pose
}.
Arguments mkOptions {O}.
Arguments opt_tfClient {O}.
Arguments opt_frameID {O}.
Arguments opt_object {O}.
Arguments opt_pose {O}.

(** A [SceneNode] is a [THREE.Object3D]: the inherited [position],
    [quaternion], [visible] and [children], and the node's own fields. *)
Record t (O : Type) := mk {
  tfClient : option TFClient;
  frameID : option string;
  initialPose : Msg.Pose;
  position : Vector3.t;
  quaternion : Quaternion.t;
  visible : bool;
  children : list O
}.
Arguments mk {O}.
Arguments tfClient {O}.
Arguments frameID {O}.
Arguments initialPose {O}.
Arguments position {O}.
Arguments quaternion {O}.
Arguments visible {O}.
Arguments children {O}.

Section Methods.
Context {O : Type}.

(** What [super()] leaves behind: an [Object3D] at the origin,
    unrotated, visible, without children. *)
Definition object3D : t O :=
  mk None None Msg.identityPose Vector3.zero Quaternion.identity true [].

(** [static #updateObjectPose(object, pose)] *)
Definition updateObjectPose (object : t O) (pose : Msg.Pose) : t O :=
  let position' :=
    Vector3.set (position object) (Msg.x (Msg.position pose))
                (Msg.y (Msg.position pose)) (Msg.z (Msg.position pose)) in
  let quaternion' :=
    Quaternion.set (quaternion object) (Msg.qx (Msg.orientation pose))
                   (Msg.qy (Msg.orientation pose)) (Msg.qz (Msg.orientation pose))
                   (Msg.qw (Msg.orientation pose)) in
  let quaternion' := Quaternion.normalize quaternion' in
  mk (tfClient object) (frameID object) (initialPose object)
     position' quaternion' true (children object).

(** [updatePose(pose)] *)
Definition updatePose (this : t O) (pose : Msg.Pose) : t O :=
  updateObjectPose this pose.

(** The closure made by [static #createTFUpdateHandler(sceneNodeInstance)],
    applied to the instance's current state and a transform message. *)
Definition tfUpdateBound (sceneNodeInstance : t O) (msg : Msg.Transform) : t O :=
  let poseTransformed := applyTransform (initialPose sceneNodeInstance) msg in
  updatePose sceneNodeInstance poseTransformed.

(** Whether [#setup] registers [tfUpdateBound] with the store:
    [if (tfClient && frameID)]. *)
Definition subscribes (options : Options O) : bool :=
  match opt_tfClient options with
  | Some _ => JS.truthy_string (opt_frameID options)
  | None => false
  end.

(** [#setup(options)], the state it leaves in the node. *)
Definition setup (this : t O) (options : Options O) : t O :=
  let pose := default Msg.identityPose (opt_pose options) in
  let this :=
    mk (opt_tfClient options) (opt_frameID options) pose
       (position this) (quaternion this) false (children this) in
  let this :=
    match opt_object options with
    | Some object =>
        mk (tfClient this) (frameID this) (initialPose this)
           (position this) (quaternion this) (visible this)
           (children this ++ [object])
    | None => this
    end in
  updatePose this pose.

(** [new SceneNode(options)] *)
Definition new (options : Options O) : t O := setup object3D options.

(** The guard of [unsubscribeTf], which is the guard of the
    registration in [#setup] read from the node's own fields. *)
Definition subscribed (this : t O) : bool :=
  match tfClient this with
  | Some _ => JS.truthy_string (frameID this)
  | None => false
  end.

(** The store calls the registered handler once per delivered
    transform; a node that did not subscribe receives nothing. *)
Definition deliver (this : t O) (msg : Msg.Transform) : t O :=
  if subscribed this then tfUpdateBound this msg else this.

Definition deliverAll (this : t O) (msgs : list Msg.Transform) : t O :=
  foldl deliver this msgs.

(** The pose a node shows, read back as a plain object. *)
Definition pose (this : t O) : Msg.Pose :=
  Msg.mkPose
    (Msg.mkPoint (Vector3.x (position this)) (Vector3.y (position this))
                 (Vector3.z (position this)))
    (Msg.mkQuat (Quaternion.x (quaternion this)) (Quaternion.y (quaternion this))
                (Quaternion.z (quaternion this)) (Quaternion.w (quaternion this))).

End Methods.

End SceneNode.

(** ** Host functions

    [Math.cos] and [Math.sin] are implementation-approximated by the
    language standard, and [new THREE.Color(number)] belongs to the engine;
    the decoders are written against this interface. *)

Record Color := mkColor { r : float; g : float; b : float }.

Class Host := {
  Math_cos : float -> float;
  Math_sin : float -> float;
  Color_ofNumber : float -> Color
}.

(** ** Typed arrays and data views *)

Module TypedArray.

Import SpecFloat.

(** Rounding of a binary64 value to binary32, nearest-even. *)
Definition round32 (f : spec_float) : spec_float :=
  match f with
  | S754_finite s m e => binary_round 24 128 s m e
  | _ => f
  end.

(** A binary32 value written back in binary64 (exact). *)
Definition widen64 (f : spec_float) : spec_float :=
  match f with
  | S754_finite s m e => binary_round 53 1024 s m e
  | _ => f
  end.

(** [Math.fround], the conversion a [Float32Array] applies on a store. *)
Definition Math_fround (v : float) : float :=
  SF2Prim (widen64 (round32 (Prim2SF v))).

(** [new Float32Array(n)]: [n] zeros. *)
Definition Float32Array (n : nat) : list float := replicate n 0%float.

(** [a[i] = v] on a [Float32Array]: the value is rounded to binary32;
    an index at or past the length is ignored and the array keeps its
    length. *)
Definition store (a : list float) (i : nat) (v : float) : list float :=
  <[ i := Math_fround v ]> a.

(** [new Uint8Array(n)] *)
Definition Uint8Array (n : nat) : list byte := replicate n x00.

Definition byte_of_Z (v : Z) : byte :=
  default x00 (Byte.of_N (Z.to_N (v mod 256))).

Definition Z_of_byte (c : byte) : Z := Z.of_N (Byte.to_N c).

(** [a[i] = v] on a [Uint8Array], [v] an integer. *)
Definition store8 (a : list byte) (i : nat) (v : Z) : list byte :=
  <[ i := byte_of_Z v ]> a.

(** The bit pattern of the binary32 rounding of [v]. *)
Definition bits_of_float32 (v : float) : Z :=
  let sign (s : bool) : Z := if s then 2147483648%Z else 0%Z in
  match round32 (Prim2SF v) with
  | S754_zero s => sign s
  | S754_infinity s => (sign s + 2139095040)%Z
  | S754_nan => 2143289344%Z
  | S754_finite s m e =>
      if (Z.pos m <? 8388608)%Z then (sign s + Z.pos m)%Z
      else (sign s + (e + 150) * 8388608 + (Z.pos m - 8388608))%Z
  end.

End TypedArray.

Module DataView.

Import SpecFloat.

(** [width] bytes from [byteOffset]; reading past the end throws. *)
Definition bytesAt (dv : list byte) (byteOffset width : nat) : Result (list byte) :=
  if decide (byteOffset + width <= length dv)
  then Ok (take width (drop byteOffset dv))
  else Throw RangeError.

(** Little-endian value of a byte sequence. *)
Fixpoint le_value (bs : list byte) : Z :=
  match bs with
  | [] => 0
  | c :: bs' => TypedArray.Z_of_byte c + 256 * le_value bs'
  end%Z.

Definition getUint (dv : list byte) (byteOffset width : nat) (littleEndian : bool)
    : Result Z :=
  bs ← bytesAt dv byteOffset width;
  Ok (le_value (if littleEndian then bs else reverse bs)).

Definition getInt (dv : list byte) (byteOffset width : nat) (littleEndian : bool)
    : Result Z :=
  u ← getUint dv byteOffset width littleEndian;
  let half := (2 ^ (8 * Z.of_nat width - 1))%Z in
  Ok (if (u <? half)%Z then u else (u - 2 * half)%Z).

(** An integer as a number (exact below 2^53). *)
Definition number_of_Z (v : Z) : float :=
  if (v <? 0)%Z then (- of_uint63 (Uint63.of_Z (- v)))%float
  else of_uint63 (Uint63.of_Z v).

(** The binary32 value with bit pattern [bits], as a number. *)
Definition float32_of_bits (bits : Z) : float :=
  let s := (2147483648 <=? bits)%Z in
  let e := ((bits / 8388608) mod 256)%Z in
  let m := (bits mod 8388608)%Z in
  SF2Prim
    (if (e =? 255)%Z then
       if (m =? 0)%Z then S754_infinity s else S754_nan
     else if (e =? 0)%Z then
       match m with
       | Z.pos mp => binary_round 53 1024 s mp (-149)
       | _ => S754_zero s
       end
     else
       match (8388608 + m)%Z with
       | Z.pos mp => binary_round 53 1024 s mp (e - 150)
       | _ => S754_zero s
       end).

(** The binary64 value with bit pattern [bits]. *)
Definition float64_of_bits (bits : Z) : float :=
  let s := (9223372036854775808 <=? bits)%Z in
  let e := ((bits / 4503599627370496) mod 2048)%Z in
  let m := (bits mod 4503599627370496)%Z in
  SF2Prim
    (if (e =? 2047)%Z then
       if (m =? 0)%Z then S754_infinity s else S754_nan
     else if (e =? 0)%Z then
       match m with
       | Z.pos mp => binary_round 53 1024 s mp (-1074)
       | _ => S754_zero s
       end
     else
       match (4503599627370496 + m)%Z with
       | Z.pos mp => binary_round 53 1024 s mp (e - 1075)
       | _ => S754_zero s
       end).

Definition getInt8 dv o (le : bool) : Result float :=
  v ← getInt dv o 1 le; Ok (number_of_Z v).
Definition getUint8 dv o (le : bool) : Result float :=
  v ← getUint dv o 1 le; Ok (number_of_Z v).
Definition getInt16 dv o (le : bool) : Result float :=
  v ← getInt dv o 2 le; Ok (number_of_Z v).
Definition getUint16 dv o (le : bool) : Result float :=
  v ← getUint dv o 2 le; Ok (number_of_Z v).
Definition getInt32 dv o (le : bool) : Result float :=
  v ← getInt dv o 4 le; Ok (number_of_Z v).
Definition getUint32 dv o (le : bool) : Result float :=
  v ← getUint dv o 4 le; Ok (number_of_Z v).
Definition getFloat32 dv o (le : bool) : Result float :=
  v ← getUint dv o 4 le; Ok (float32_of_bits v).
Definition getFloat64 dv o (le : bool) : Result float :=
  v ← getUint dv o 8 le; Ok (float64_of_bits v).

End DataView.

(** ** utils/encoding.js *)

Module Encoding.

Definition DECODE_64_CHAR_SET : string :=
  "ABCDEFGHIJKLMNOPQRSTUVWXYZabcdefghijklmnopqrstuvwxyz0123456789+/".

Fixpoint index_of (c : ascii) (set : string) (i : Z) : option Z :=
  match set with
  | EmptyString => None
  | String c' set' => if Ascii.eqb c c' then Some i else index_of c set' (i + 1)%Z
  end.

(** [DECODE_64_TABLE[inbytes.charAt(x)]]: [charAt] past the end is the
    empty string, and a key outside the table reads [undefined]. *)
Definition DECODE_64_TABLE (inbytes : string) (x : nat) : option Z :=
  match String.get x inbytes with
  | Some c => index_of c DECODE_64_CHAR_SET 0
  | None => None
  end.

(** [ToInt32]; a value that is not a number ([None]) converts to 0. *)
Definition toInt32 (v : option Z) : Z :=
  match v with
  | Some v' => ((v' + 2147483648) mod 4294967296 - 2147483648)%Z
  | None => 0%Z
  end.

Definition toUint32 (v : option Z) : Z :=
  match v with
  | Some v' => (v' mod 4294967296)%Z
  | None => 0%Z
  end.

(** [(b << 6) + t] *)
Definition shift_add (b t : option Z) : option Z :=
  match t with
  | Some t' => Some (toInt32 (Some (Z.shiftl (toInt32 b) 6)) + t')%Z
  | None => None
  end.

(** [(b >>> l) & 0xff] *)
Definition extract (b : option Z) (l : nat) : Z :=
  Z.land (Z.shiftr (toUint32 b) (Z.of_nat l)) 255.

(** The [for] loop of [decode64]; [x] grows by at least one per round,
    so [L] rounds of fuel are never exhausted before the guard fails. *)
Fixpoint decode64_loop (fuel : nat) (inbytes : string) (L A record_size bitskip : nat)
    (x : nat) (b : option Z) (l j : nat) (outbytes : list byte) : nat * list byte :=
  match fuel with
  | 0 => (j, outbytes)
  | S fuel' =>
      if (x <? L) && (j <? A) then
        let b := shift_add b (DECODE_64_TABLE inbytes x) in
        let l := l + 6 in
        if 8 <=? l then
          let l := l - 8 in
          let outbytes := TypedArray.store8 outbytes j (extract b l) in
          let j := j + 1 in
          if (negb (record_size =? 0)) && (j mod record_size =? 0) && (0 <? bitskip) then
            let x := x + (bitskip - l + 5) / 6 in
            let l := l mod 8 in
            let b := if 0 <? l then DECODE_64_TABLE inbytes x else b in
            decode64_loop fuel' inbytes L A record_size bitskip (x + 1) b l j outbytes
          else
            decode64_loop fuel' inbytes L A record_size bitskip (x + 1) b l j outbytes
        else
          decode64_loop fuel' inbytes L A record_size bitskip (x + 1) b l j outbytes
      else (j, outbytes)
  end.

(** [decode64(inbytes, outbytes, record_size, pointRatio)]: the number of
    records decoded and the output array as the call leaves it. *)
Definition decode64 (inbytes : string) (outbytes : list byte)
    (record_size pointRatio : nat) : nat * list byte :=
  let L := String.length inbytes in
  let A := length outbytes in
  let record_size := if record_size =? 0 then A else record_size in
  let pointRatio := if pointRatio =? 0 then 1 else pointRatio in
  let bitskip := (pointRatio - 1) * record_size * 8 in
  let '(j, outbytes) :=
    decode64_loop L inbytes L A record_size bitskip 0 (Some 0%Z) 0 0 outbytes in
  (j / record_size, outbytes).

End Encoding.

(** ** sensors/Points.js *)

Record PointField := mkPointField {
  pf_name : string;
  pf_offset : nat;
  pf_datatype : nat;
  pf_count : nat
}.

Record BufferAttribute := mkBufferAttribute {
  array : list float;
  count : JS.Count;
  needsUpdate : bool
}.

(** The [THREE.Points] object wrapped by the scene node; its geometry is
    held by the [Points] helper below. *)
Inductive PointsObject : Type := ThePointsObject.

Module Points.

(** The closure stored in [getColor]: the field's byte offset and the
    accessor picked by [colorFunctions[datatype - 1]]. *)
Record ColorReader := mkColorReader { cr_offset : nat; cr_datatype : nat }.

(** [this.fields], an object created by [{}]: its own properties, which
    are fields of a message under their names, and its prototype, which
    is [Object.prototype] ([None]) until a field object takes its place. *)
Record FieldTable := mkFieldTable {
  own : gmap string PointField;
  proto : option PointField
}.

(** [{}] *)
Definition emptyTable : FieldTable := mkFieldTable ∅ None.

(** [table[field.name] = field]: the assignment creates or replaces an
    own property, except under the name ["__proto__"], which
    [Object.prototype] answers with a setter that makes the assigned
    object the prototype of the table. *)
Definition assignField (table : FieldTable) (field : PointField) : FieldTable :=
  if String.eqb (pf_name field) "__proto__"
  then mkFieldTable (own table) (Some field)
  else mkFieldTable (<[ pf_name field := field ]> (own table)) (proto table).

(** What a property read on the table can give. *)
Inductive Property : Type :=
| FieldObject (f : PointField)   (* a field object of a message *)
| Text (s : string)              (* the [name] of a field object *)
| Number (n : nat)               (* its [offset], [datatype] or [count] *)
| Builtin                        (* a function or object of the language *)
| Undefined.

(** The properties every object inherits from [Object.prototype], apart
    from the accessor [__proto__]. *)
Definition objectPrototypeKeys : list string :=
  ["constructor"; "hasOwnProperty"; "isPrototypeOf"; "propertyIsEnumerable";
   "toLocaleString"; "toString"; "valueOf"; "__defineGetter__";
   "__defineSetter__"; "__lookupGetter__"; "__lookupSetter__"].

(** [Object.prototype[key]] for a key other than ["__proto__"]. *)
Definition objectPrototype (key : string) : Property :=
  if bool_decide (key ∈ objectPrototypeKeys) then Builtin else Undefined.

(** [f[key]] on a field object [f] of a message, for a key other than
    ["__proto__"]: its four own properties, then those it inherits. *)
Definition fieldProperty (f : PointField) (key : string) : Property :=
  if String.eqb key "name" then Text (pf_name f)
  else if String.eqb key "offset" then Number (pf_offset f)
  else if String.eqb key "datatype" then Number (pf_datatype f)
  else if String.eqb key "count" then Number (pf_count f)
  else objectPrototype key.

(** [table[key]]: an own property, or else what the prototype chain
    gives; ["__proto__"] reads the prototype itself. *)
Definition get (table : FieldTable) (key : string) : Property :=
  match own table !! key with
  | Some f => FieldObject f
  | None =>
      if String.eqb key "__proto__" then
        match proto table with
        | Some f => FieldObject f
        | None => Builtin
        end
      else
        match proto table with
        | Some f => fieldProperty f key
        | None => objectPrototype key
        end
  end.

(** Truthiness of a property value. *)
Definition truthy (v : Property) : bool :=
  match v with
  | FieldObject _ => true
  | Text s => negb (String.eqb s "")
  | Number n => negb (n =? 0)
  | Builtin => true
  | Undefined => false
  end.

(** The helper's state: configuration, message counter, scene node,
    field table, the two buffer attributes with the colour accessor, and
    the count of the geometry's draw range.  Material and root object
    only matter for rendering and are left out. *)
Record t := mk {
  tfClient : option SceneNode.TFClient;
  max_pts : nat;
  pointRatio : nat;
  messageRatio : nat;
  messageCount : nat;
  colorsrc : option string;
  colormap : option (float -> Color);
  colorMin : float;
  colorMax : float;
  sn : option (SceneNode.t PointsObject);
  fields : FieldTable;
  positions : option BufferAttribute;
  colors : option BufferAttribute;
  getColor : option ColorReader;
  drawRange : JS.Count
}.

(** [new Points({tfClient, max_pts, pointRatio, messageRatio, colorsrc,
    colormap, colorMin, colorMax})] with every option given.  There is
    no geometry yet; the draw range is the one its geometry will start
    with. *)
Definition new (tfClient : option SceneNode.TFClient)
    (max_pts pointRatio messageRatio : nat) (colorsrc : option string)
    (colormap : option (float -> Color)) (colorMin colorMax : float) : t :=
  mk tfClient max_pts pointRatio messageRatio 0 colorsrc colormap colorMin colorMax
     None emptyTable None None None JS.Infinity.

(** [a % b === 0] on counters; [a % 0] is NaN. *)
Definition mod_is_zero (a b : nat) : bool :=
  if b =? 0 then false else a mod b =? 0.

(** [colorFunctions[datatype - 1]] *)
Definition colorFunction (offset datatype : nat) : option ColorReader :=
  if (1 <=? datatype) && (datatype <=? 8)
  then Some (mkColorReader offset datatype) else None.

(** [const { offset, datatype } = field; colorFunctions[datatype - 1]]:
    a value that is no field object has neither property, and
    [colorFunctions[NaN]] is [undefined]. *)
Definition colorFunctionOf (field : Property) : option ColorReader :=
  match field with
  | FieldObject f => colorFunction (pf_offset f) (pf_datatype f)
  | _ => None
  end.

(** A call of the stored [getColor] closure. *)
Definition callReader (rd : ColorReader) (dv : list byte) (base : nat) (le : bool)
    : Result float :=
  let o := base + cr_offset rd in
  match cr_datatype rd with
  | 1 => DataView.getInt8 dv o le
  | 2 => DataView.getUint8 dv o le
  | 3 => DataView.getInt16 dv o le
  | 4 => DataView.getUint16 dv o le
  | 5 => DataView.getInt32 dv o le
  | 6 => DataView.getUint32 dv o le
  | 7 => DataView.getFloat32 dv o le
  | _ => DataView.getFloat64 dv o le
  end.

Definition commonColorFields : list string := ["rgb"; "rgb_float"; "rgba"].

Section WithHost.
Context `{Host}.

(** [this.fields = {}] and [this.fields[field.name] = field] for each
    field of the message. *)
Definition indexFields (fields' : list PointField) : FieldTable :=
  foldl assignField emptyTable fields'.

(** The colour source after the automatic detection: the configured
    one, or else the first of the common colour fields for which
    [this.fields[fieldName]] is truthy. *)
Definition detectColorsrc (colorsrc : option string) (table : FieldTable)
    : option string :=
  if JS.truthy_string colorsrc then colorsrc
  else
    match filter (fun n => truthy (get table n) = true) commonColorFields with
    | n :: _ => Some n
    | [] => colorsrc
    end.

(** [this.fields[this.colorsrc]] under [if (this.colorsrc)]. *)
Definition colorField (colorsrc : option string) (table : FieldTable) : Property :=
  if JS.truthy_string colorsrc then get table (default "" colorsrc) else Undefined.

(** The body of [if (this.sn === null) {...}] in [setup]. *)
Definition build (this : t) (frame : string) (fields' : list PointField) : t :=
  let table := indexFields fields' in
  let positions' :=
    mkBufferAttribute (TypedArray.Float32Array (max_pts this * 3))
                      (max_pts this) false in
  let colorsrc' := detectColorsrc (colorsrc this) table in
  let field := colorField colorsrc' table in
  let colors' :=
    if truthy field
    then Some (mkBufferAttribute (TypedArray.Float32Array (max_pts this * 3))
                                 (max_pts this) false)
    else colors this in
  let getColor' := if truthy field then colorFunctionOf field else getColor this in
  let colormap' :=
    if truthy field then Some (default Color_ofNumber (colormap this))
    else colormap this in
  let sn' :=
    SceneNode.new
      (SceneNode.mkOptions (tfClient this) (Some frame)
                           (Some ThePointsObject) None) in
  (* [new THREE.BufferGeometry()] draws everything until told otherwise *)
  mk (tfClient this) (max_pts this) (pointRatio this) (messageRatio this)
     (messageCount this) colorsrc' colormap' (colorMin this) (colorMax this)
     (Some sn') table (Some positions') colors' getColor' JS.Infinity.

(** [setup(frame, point_step, fields)]: builds geometry and scene node
    on the first call, then answers whether this message is to be
    processed. *)
Definition setup (this : t) (frame : string) (point_step : nat)
    (fields' : list PointField) : bool * t :=
  let this :=
    match sn this with
    | None => build this frame fields'
    | Some _ => this
    end in
  let shouldProcess := mod_is_zero (messageCount this) (messageRatio this) in
  (shouldProcess,
   mk (tfClient this) (max_pts this) (pointRatio this) (messageRatio this)
      (S (messageCount this)) (colorsrc this) (colormap this) (colorMin this)
      (colorMax this) (sn this) (fields this) (positions this) (colors this)
      (getColor this) (drawRange this)).

End WithHost.

Definition with_buffers (this : t) (positions' colors' : option BufferAttribute)
    (drawRange' : JS.Count) : t :=
  mk (tfClient this) (max_pts this) (pointRatio this) (messageRatio this)
     (messageCount this) (colorsrc this) (colormap this) (colorMin this)
     (colorMax this) (sn this) (fields this) positions' colors' (getColor this)
     drawRange'.

(** [update(n)]: draw range and attribute counts become [n]. *)
Definition update (this : t) (n : JS.Count) : Result t :=
  match positions this with
  | None => Throw TypeError
  | Some p =>
      let p' := mkBufferAttribute (array p) n true in
      let c' :=
        match colors this with
        | Some c => Some (mkBufferAttribute (array c) n true)
        | None => None
        end in
      Ok (with_buffers this (Some p') c' n)
  end.

End Points.

(** ** sensors/LaserScan.js *)

Module LaserScan.

(** A [sensor_msgs/LaserScan] message, the fields the handler reads. *)
Record Message := mkMessage {
  frame_id : string;
  angle_min : float;
  angle_increment : float;
  range_min : float;
  range_max : float;
  ranges : list float
}.

Record t := mk {
  messageRatio : nat;
  messageCounter : nat;
  points : Points.t
}.

(** [new LaserScan({tfClient, messageRatio, max_pts, pointRatio})]: the
    [messageRatio] option stays with the client, the rest goes to
    [Points], whose own [messageRatio] keeps its default 1. *)
Definition new (tfClient : option SceneNode.TFClient)
    (messageRatio max_pts pointRatio : nat) : t :=
  mk messageRatio 0 (Points.new tfClient max_pts pointRatio 1 None None 0 1).

(** An array index as a number. *)
Definition number_of_nat (i : nat) : float := DataView.number_of_Z (Z.of_nat i).

(** [ranges[i]]; past the end the read is [undefined], which compares as NaN. *)
Definition rangeAt (message : Message) (i : nat) : float :=
  default nan (ranges message !! i).

(** [range >= message.range_min && range <= message.range_max] *)
Definition accepted (message : Message) (range : float) : bool :=
  JS.ge range (range_min message) && JS.le range (range_max message).

Section WithHost.
Context `{Host}.

(** The three values an accepted sample assigns. *)
Definition sampleX (message : Message) (i : nat) : float :=
  let angle := (angle_min message + number_of_nat i * angle_increment message)%float in
  (rangeAt message i * Math_cos angle)%float.

Definition sampleY (message : Message) (i : nat) : float :=
  let angle := (angle_min message + number_of_nat i * angle_increment message)%float in
  (rangeAt message i * Math_sin angle)%float.

(** [for (let i = 0; i < n; i += pointRatio) {...}] from the state
    [(i, j, array)]; [None] when the fuel runs out before the guard fails. *)
Fixpoint scanLoop (fuel : nat) (message : Message) (pointRatio : nat)
    (i j : nat) (arr : list float) : option (nat * list float) :=
  if length (ranges message) <=? i then Some (j, arr)
  else
    match fuel with
    | 0 => None
    | S fuel' =>
        let range := rangeAt message i in
        if accepted message range then
          let arr := TypedArray.store arr j (sampleX message i) in
          let arr := TypedArray.store arr (j + 1) (sampleY message i) in
          let arr := TypedArray.store arr (j + 2) 0%float in
          scanLoop fuel' message pointRatio (i + pointRatio) (j + 3) arr
        else
          scanLoop fuel' message pointRatio (i + pointRatio) j arr
    end.

(** [processMessage(message)]: [None] when the handler does not return,
    otherwise the state it leaves. *)
Definition processMessage (this : t) (message : Message) : option (Result t) :=
  let this := mk (messageRatio this) (S (messageCounter this)) (points this) in
  if negb (Points.mod_is_zero (messageCounter this) (messageRatio this))
  then Some (Ok this)
  else
    let '(ready, pts) := Points.setup (points this) (frame_id message) 0 [] in
    let this := mk (messageRatio this) (messageCounter this) pts in
    if negb ready then Some (Ok this)
    else
      match Points.positions pts with
      | None => Some (Throw TypeError)
      | Some p =>
          let n := length (ranges message) in
          match scanLoop n message (Points.pointRatio pts) 0 0 (array p) with
          | None => None
          | Some (j, arr) =>
              let pts :=
                Points.with_buffers pts
                  (Some (mkBufferAttribute arr (count p) (needsUpdate p)))
                  (Points.colors pts) (Points.drawRange pts) in
              Some (pts' ← Points.update pts (JS.Finite (j / 3));
                    Ok (mk (messageRatio this) (messageCounter this) pts'))
          end
      end.

(** The handler on the messages of the topic, one after the other,
    as long as it returns normally. *)
Definition processAll (this : t) (messages : list Message) : option (Result t) :=
  foldl (fun outcome message =>
           match outcome with
           | Some (Ok this) => processMessage this message
           | _ => outcome
           end)
        (Some (Ok this)) messages.

End WithHost.

End LaserScan.

(** ** sensors/PointCloud2.js *)

Module PointCloud2.

(** [msg.data]: base64 text or a byte array. *)
Inductive Data : Type :=
| Text (s : string)
| Binary (bytes : list byte).

(** A [sensor_msgs/PointCloud2] message, the fields the handler reads. *)
Record Message := mkMessage {
  frame_id : string;
  height : nat;
  width : nat;
  point_step : nat;
  is_bigendian : bool;
  fields : list PointField;
  data : Data
}.

Record t := mk {
  points : Points.t;
  buffer : option (list byte)
}.

(** [new PointCloud2({tfClient, max_pts, pointRatio, messageRatio,
    colorsrc, colormap, colorMin, colorMax})]: every option but the
    client's own goes to [Points]. *)
Definition new (tfClient : option SceneNode.TFClient)
    (max_pts pointRatio messageRatio : nat)
    (colorsrc : option string) (colormap : option (float -> Color))
    (colorMin colorMax : float) : t :=
  mk (Points.new tfClient max_pts pointRatio messageRatio colorsrc colormap
                 colorMin colorMax) None.

(** [Math.floor(Math.min((height * width) / pointRatio, length / 3))]
    on integer-valued operands.  A zero ratio makes the quotient
    infinite, and the minimum is then [length / 3]; for an empty cloud
    it makes the quotient, the minimum and the floor NaN, for which
    [None] stands. *)
Definition pointCount (height width pointRatio arrayLength : nat) : option nat :=
  if pointRatio =? 0 then
    if height * width =? 0 then None else Some (arrayLength / 3)
  else Some (Nat.min (height * width / pointRatio) (arrayLength / 3)).

(** The rounds of [for (let i = 0; i < n; i++)]: [i < NaN] is false. *)
Definition rounds (n : option nat) : nat := default 0 n.

(** The packed-RGB branch: the number is stored in a one-element
    [Float32Array] and read back through a byte view of the same buffer. *)
Definition packedColor (colorVal : float) : Color :=
  let bits := TypedArray.bits_of_float32 colorVal in
  let byteView (k : Z) : float :=
    DataView.number_of_Z (Z.land (Z.shiftr bits (8 * k)) 255) in
  mkColor (byteView 2%Z / 255)%float (byteView 1%Z / 255)%float
          (byteView 0%Z / 255)%float.

(** The colour of one point. *)
Definition pointColor (pts : Points.t) (dv : list byte) (base : nat)
    (littleEndian : bool) : Result Color :=
  match Points.getColor pts with
  | None => Throw TypeError
  | Some rd =>
      colorVal ← Points.callReader rd dv base littleEndian;
      (* [this.points.fields[this.points.colorsrc]]; a missing colour
         source reads the key "undefined" *)
      let colorField :=
        Points.get (Points.fields pts) (default "undefined" (Points.colorsrc pts)) in
      let isRgbFloat :=
        match Points.colorsrc pts with
        | Some src => String.eqb src "rgb" || String.eqb src "rgb_float"
        | None => false
        end in
      (* [colorField && colorField.datatype === 7 && isRgbFloat]: only a
         field object has a [datatype] *)
      let isPacked :=
        match colorField with
        | Points.FieldObject f => (pf_datatype f =? 7) && isRgbFloat
        | _ => false
        end in
      if isPacked then Ok (packedColor colorVal)
      else
        let normalizedVal :=
          ((colorVal - Points.colorMin pts)
           / (Points.colorMax pts - Points.colorMin pts))%float in
        match Points.colormap pts with
        | Some colormap => Ok (colormap normalizedVal)
        | None => Throw TypeError
        end
  end.

(** One round of [for (let i = 0; i < n; i++) {...}] on the position and
    colour arrays. *)
Definition decodePoint (pts : Points.t) (dv : list byte) (pointRatio point_step : nat)
    (littleEndian : bool) (x y z : PointField)
    (st : list float * option (list float)) (i : nat)
    : Result (list float * option (list float)) :=
  let '(pos, col) := st in
  let base := i * pointRatio * point_step in
  vx ← DataView.getFloat32 dv (base + pf_offset x) littleEndian;
  let pos := TypedArray.store pos (3 * i) vx in
  vy ← DataView.getFloat32 dv (base + pf_offset y) littleEndian;
  let pos := TypedArray.store pos (3 * i + 1) vy in
  vz ← DataView.getFloat32 dv (base + pf_offset z) littleEndian;
  let pos := TypedArray.store pos (3 * i + 2) vz in
  match col with
  | None => Ok (pos, None)
  | Some c =>
      color ← pointColor pts dv base littleEndian;
      let c := TypedArray.store c (3 * i) (r color) in
      let c := TypedArray.store c (3 * i + 1) (g color) in
      let c := TypedArray.store c (3 * i + 2) (b color) in
      Ok (pos, Some c)
  end.

(** The rounds [i = from, ..., from + rounds - 1], stopping at the first throw. *)
Fixpoint decodeLoop (rounds : nat) (pts : Points.t) (dv : list byte)
    (pointRatio point_step : nat) (littleEndian : bool) (x y z : PointField)
    (st : list float * option (list float)) (from : nat)
    : Result (list float * option (list float)) :=
  match rounds with
  | 0 => Ok st
  | S rounds' =>
      st' ← decodePoint pts dv pointRatio point_step littleEndian x y z st from;
      decodeLoop rounds' pts dv pointRatio point_step littleEndian x y z st' (S from)
  end.

Section WithHost.
Context `{Host}.

(** [processMessage(msg)] *)
Definition processMessage (this : t) (msg : Message) : Result t :=
  let '(ready, pts) :=
    Points.setup (points this) (frame_id msg) (point_step msg) (fields msg) in
  let this := mk pts (buffer this) in
  if negb ready then Ok this
  else
    match Points.positions pts with
    | None => Throw TypeError
    | Some p =>
        let pointRatio := Points.pointRatio pts in
        let bufSz := Points.max_pts pts * point_step msg in
        let '(n, dv, pointRatio, this) :=
          match data msg with
          | Text s =>
              let buf :=
                match buffer this with
                | Some buf => if length buf <? bufSz
                              then TypedArray.Uint8Array bufSz else buf
                | None => TypedArray.Uint8Array bufSz
                end in
              let '(n, buf) := Encoding.decode64 s buf (point_step msg) pointRatio in
              (Some n, buf, 1, mk pts (Some buf))
          | Binary sourceData =>
              let slicedData := take (Nat.min (length sourceData) bufSz) sourceData in
              (pointCount (height msg) (width msg) pointRatio (length (array p)),
               slicedData, pointRatio, this)
          end in
        let littleEndian := negb (is_bigendian msg) in
        (* [const { x, y, z } = this.points.fields]: none of the three
           names is a property of [Object.prototype] or of a field
           object, so each read finds an own property or nothing *)
        let table := Points.own (Points.fields pts) in
        match table !! "x", table !! "y", table !! "z" with
        | Some x, Some y, Some z =>
            let col := array <$> Points.colors pts in
            st ← decodeLoop (rounds n) pts dv pointRatio (point_step msg)
                            littleEndian x y z (array p, col) 0;
            let p' := mkBufferAttribute (fst st) (count p) (needsUpdate p) in
            let c' :=
              match Points.colors pts, snd st with
              | Some c, Some a => Some (mkBufferAttribute a (count c) (needsUpdate c))
              | c, _ => c
              end in
            pts' ← Points.update
                     (Points.with_buffers pts (Some p') c' (Points.drawRange pts))
                     (JS.count_of n);
            Ok (mk pts' (buffer this))
        | _, _, _ => Ok this
        end
    end.

(** The handler on the messages of the topic, one after the other,
    up to the first throw. *)
Definition processAll (this : t) (messages : list Message) : Result t :=
  foldl (fun outcome msg =>
           match outcome with
           | Ok this => processMessage this msg
           | Throw e => Throw e
           end)
        (Ok this) messages.

End WithHost.

(** The part of [processMessage] that follows the choice of the point
    count [n], the view [dv] and the ratio: the field check, the loop
    and the update. *)
Definition decodeInto (pts : Points.t) (p : BufferAttribute) (msg : Message)
    (n : option nat) (dv : list byte) (pointRatio : nat) (this : t) : Result t :=
  let littleEndian := negb (is_bigendian msg) in
  let table := Points.own (Points.fields pts) in
  match table !! "x", table !! "y", table !! "z" with
  | Some x, Some y, Some z =>
      let col := array <$> Points.colors pts in
      st ← decodeLoop (rounds n) pts dv pointRatio (point_step msg) littleEndian
                      x y z (array p, col) 0;
      let p' := mkBufferAttribute (fst st) (count p) (needsUpdate p) in
      let c' :=
        match Points.colors pts, snd st with
        | Some c, Some a => Some (mkBufferAttribute a (count c) (needsUpdate c))
        | c, _ => c
        end in
      pts' ← Points.update
               (Points.with_buffers pts (Some p') c' (Points.drawRange pts))
               (JS.count_of n);
      Ok (mk pts' (buffer this))
  | _, _, _ => Ok this
  end.

(** The array [decode64] is handed: the buffer of the client, replaced
    by a fresh one when it is missing or too small. *)
Definition textBuffer (this : t) (bufSz : nat) : list byte :=
  match buffer this with
  | Some buf => if length buf <? bufSz then TypedArray.Uint8Array bufSz else buf
  | None => TypedArray.Uint8Array bufSz
  end.

(** A message with other data. *)
Definition withData (msg : Message) (data' : Data) : Message :=
  mkMessage (frame_id msg) (height msg) (width msg) (point_step msg)
            (is_bigendian msg) (fields msg) data'.

End PointCloud2.

(** ** constants/marker.constants.js *)

Definition MARKER_ARROW : Z := 0.
Definition MARKER_CUBE : Z := 1.
Definition MARKER_SPHERE : Z := 2.
Definition MARKER_CYLINDER : Z := 3.
Definition MARKER_LINE_STRIP : Z := 4.
Definition MARKER_LINE_LIST : Z := 5.
Definition MARKER_CUBE_LIST : Z := 6.
Definition MARKER_SPHERE_LIST : Z := 7.
Definition MARKER_POINTS : Z := 8.
Definition MARKER_TEXT_VIEW_FACING : Z := 9.
Definition MARKER_MESH_RESOURCE : Z := 10.
Definition MARKER_TRIANGLE_LIST : Z := 11.

(** ** markers/marker.creators.js and markers/Marker.js *)

Record RGBA := mkRGBA { cr : float; cg : float; cb : float; ca : float }.

(** A [visualization_msgs/Marker] message. *)
Record MarkerMessage := mkMarkerMessage {
  mm_frame_id : string;
  mm_ns : string;
  mm_id : Z;
  mm_type : Z;
  mm_action : Z;
  mm_pose : Msg.Pose;
  mm_scale : Msg.Point;
  mm_color : RGBA;
  mm_points : list Msg.Point;
  mm_colors : list RGBA;
  mm_text : string;
  mm_mesh_resource : string
}.

Inductive MaterialKind : Type :=
| MeshBasicMaterial | MeshPhongMaterial | LineBasicMaterial
| PointsMaterial | SpriteMaterial.

(** A material: the constructor, the colour and opacity it was given, and
    the two properties [Marker.update] assigns. *)
Record Material := mkMaterial {
  mat_kind : MaterialKind;
  mat_rgb : float * float * float;
  mat_opacity : float;
  mat_transparent : bool;
  mat_linewidth : option float;
  mat_size : option float
}.

Inductive ObjectKind : Type :=
| KArrow | KMesh | KLine | KLineSegments | KPoints | KInstancedMesh
| KTriangleList | KMeshResource | KSprite | KObject3D.

(** The object a creator returns, as the properties [Marker.update] reads
    and assigns: the object's own [material] property (a triangle list and
    a mesh resource keep their material on an inner mesh and have none),
    its [scale], the array of the position attribute (item size 3) of a
    line or point geometry, the instance [count] of an instanced mesh, and
    the translation of each instance matrix. *)
Record MarkerObject := mkMarkerObject {
  mo_kind : ObjectKind;
  mo_material : option Material;
  mo_scale : Vector3.t;
  mo_geometry : option (list float);
  mo_count : option nat;
  mo_instances : list Vector3.t
}.

Module Creators.

(** [makeColorMaterial(r, g, b, a)] *)
Definition makeColorMaterial (r g b a : float) : Material :=
  if JS.le a 0.99%float
  then mkMaterial MeshBasicMaterial (r, g, b) (a + 0.1)%float true None None
  else mkMaterial MeshPhongMaterial (r, g, b) a false None None.

Definition unitScale : Vector3.t := Vector3.mk 1 1 1.

Definition scaleOf (message : MarkerMessage) : Vector3.t :=
  Vector3.mk (Msg.x (mm_scale message)) (Msg.y (mm_scale message))
             (Msg.z (mm_scale message)).

(** The [Float32Array] of [points.length * 3] coordinates filled by
    [createLineMarker] and [createPointsMarker]. *)
Definition positionsOf (points : list Msg.Point) : list float :=
  flat_map (fun pt => [TypedArray.Math_fround (Msg.x pt);
                       TypedArray.Math_fround (Msg.y pt);
                       TypedArray.Math_fround (Msg.z pt)]) points.

Definition instancesOf (points : list Msg.Point) : list Vector3.t :=
  map (fun pt => Vector3.mk (Msg.x pt) (Msg.y pt) (Msg.z pt)) points.

Definition createLineMarker (message : MarkerMessage) (baseMaterial : Material)
    (isStrip : bool) : MarkerObject :=
  let material :=
    mkMaterial LineBasicMaterial (mat_rgb baseMaterial) 1 false
               (Some (Msg.x (mm_scale message))) None in
  mkMarkerObject (if isStrip then KLine else KLineSegments) (Some material)
                 unitScale (Some (positionsOf (mm_points message))) None [].

Definition createPointsMarker (message : MarkerMessage) (baseMaterial : Material)
    : MarkerObject :=
  let material :=
    mkMaterial PointsMaterial (mat_rgb baseMaterial) 1 false None
               (Some (Msg.x (mm_scale message))) in
  mkMarkerObject KPoints (Some material) unitScale
                 (Some (positionsOf (mm_points message))) None [].

Definition createInstancedMeshMarker (message : MarkerMessage) (material : Material)
    : MarkerObject :=
  let numPoints := length (mm_points message) in
  mkMarkerObject KInstancedMesh (Some material) unitScale None (Some numPoints)
                 (instancesOf (mm_points message)).

(** [createMarkerObject(message, path, colorMaterial)]: every branch
    returns an object. *)
Definition createMarkerObject (message : MarkerMessage) (colorMaterial : Material)
    : MarkerObject :=
  let type := mm_type message in
  if (type =? MARKER_ARROW)%Z then
    mkMarkerObject KArrow (Some colorMaterial) unitScale None None []
  else if (type =? MARKER_CUBE)%Z then
    mkMarkerObject KMesh (Some colorMaterial) unitScale None None []
  else if (type =? MARKER_SPHERE)%Z then
    mkMarkerObject KMesh (Some colorMaterial) (scaleOf message) None None []
  else if (type =? MARKER_CYLINDER)%Z then
    mkMarkerObject KMesh (Some colorMaterial)
      (Vector3.mk (Msg.x (mm_scale message)) (Msg.z (mm_scale message))
                  (Msg.y (mm_scale message))) None None []
  else if (type =? MARKER_LINE_STRIP)%Z then createLineMarker message colorMaterial true
  else if (type =? MARKER_LINE_LIST)%Z then createLineMarker message colorMaterial false
  else if (type =? MARKER_CUBE_LIST)%Z then createInstancedMeshMarker message colorMaterial
  else if (type =? MARKER_SPHERE_LIST)%Z then createInstancedMeshMarker message colorMaterial
  else if (type =? MARKER_POINTS)%Z then createPointsMarker message colorMaterial
  else if (type =? MARKER_TRIANGLE_LIST)%Z then
    mkMarkerObject KTriangleList None (scaleOf message) None None []
  else if (type =? MARKER_MESH_RESOURCE)%Z then
    if String.eqb (mm_mesh_resource message) ""
    then mkMarkerObject KObject3D None unitScale None None []
    else mkMarkerObject KMeshResource None unitScale None None []
  else if (type =? MARKER_TEXT_VIEW_FACING)%Z then
    if String.eqb (mm_text message) ""
    then mkMarkerObject KObject3D None unitScale None None []
    else
      mkMarkerObject KSprite
        (Some (mkMaterial SpriteMaterial (1, 1, 1)%float 1 false None None))
        unitScale None None []
  else mkMarkerObject KObject3D None unitScale None None [].

End Creators.

Module Marker.

Record t := mk {
  message : MarkerMessage;
  msgScale : float * float * float;
  msgColor : RGBA;
  position : Vector3.t;
  quaternion : Quaternion.t;
  children : list MarkerObject
}.

(** [setPose(pose)] *)
Definition setPose (this : t) (pose : Msg.Pose) : t :=
  let position' :=
    Vector3.set (position this) (Msg.x (Msg.position pose))
                (Msg.y (Msg.position pose)) (Msg.z (Msg.position pose)) in
  let quaternion' :=
    Quaternion.set (quaternion this) (Msg.qx (Msg.orientation pose))
                   (Msg.qy (Msg.orientation pose)) (Msg.qz (Msg.orientation pose))
                   (Msg.qw (Msg.orientation pose)) in
  let quaternion' := Quaternion.normalize quaternion' in
  mk (message this) (msgScale this) (msgColor this) position' quaternion'
     (children this).

(** [init(message)] *)
Definition init (this : t) (message' : MarkerMessage) : t :=
  let this := setPose this (mm_pose message') in
  let c := msgColor this in
  let colorMaterial := Creators.makeColorMaterial (cr c) (cg c) (cb c) (ca c) in
  let markerObject := Creators.createMarkerObject message' colorMaterial in
  mk (message this) (msgScale this) (msgColor this) (position this)
     (quaternion this) (children this ++ [markerObject]).

(** [new Marker({message, path})] *)
Definition new (message' : MarkerMessage) : t :=
  let s := mm_scale message' in
  init (mk message' (Msg.x s, Msg.y s, Msg.z s) (mm_color message')
           Vector3.zero Quaternion.identity [])
       message'.

Definition with_child (this : t) (child : MarkerObject) : t :=
  mk (message this) (msgScale this) (msgColor this) (position this)
     (quaternion this) (child :: tail (children this)).

Definition set_material (child : MarkerObject) (m : option Material) : MarkerObject :=
  mkMarkerObject (mo_kind child) m (mo_scale child) (mo_geometry child)
                 (mo_count child) (mo_instances child).

(** The test guarding the colour update. *)
Definition colorChanged (this : t) (message' : MarkerMessage) : bool :=
  let c := mm_color message' in
  JS.strict_ne (cr c) (cr (msgColor this)) || JS.strict_ne (cg c) (cg (msgColor this))
  || JS.strict_ne (cb c) (cb (msgColor this)) || JS.strict_ne (ca c) (ca (msgColor this)).

(** The [scaleChanged] constant of [update]. *)
Definition scaleChanged (this : t) (message' : MarkerMessage) : bool :=
  let '(s0, s1, s2) := msgScale this in
  let s := mm_scale message' in
  JS.gt (JS.Math_abs (s0 - Msg.x s)) 1e-6%float
  || JS.gt (JS.Math_abs (s1 - Msg.y s)) 1e-6%float
  || JS.gt (JS.Math_abs (s2 - Msg.z s)) 1e-6%float.

(** Types whose scale change makes [update] give up. *)
Definition rebuildOnScale (type : Z) : bool :=
  (type =? MARKER_ARROW)%Z || (type =? MARKER_TEXT_VIEW_FACING)%Z
  || (type =? MARKER_MESH_RESOURCE)%Z || (type =? MARKER_TRIANGLE_LIST)%Z.

Definition isInstancedList (type : Z) : bool :=
  (type =? MARKER_CUBE_LIST)%Z || (type =? MARKER_SPHERE_LIST)%Z.

Definition isLineOrPoints (type : Z) : bool :=
  (type =? MARKER_LINE_STRIP)%Z || (type =? MARKER_LINE_LIST)%Z
  || (type =? MARKER_POINTS)%Z.

(** The colour step of [update]. *)
Definition updateColor (this : t) (message' : MarkerMessage) (child : MarkerObject)
    : t * MarkerObject :=
  if colorChanged this message' then
    let c := mm_color message' in
    let this :=
      mk (message this) (msgScale this) c (position this) (quaternion this)
         (children this) in
    let newMaterial := Creators.makeColorMaterial (cr c) (cg c) (cb c) (ca c) in
    if (mm_type message' =? MARKER_MESH_RESOURCE)%Z then
      if JS.strict_eq (ca c) 0
      then (this, set_material child
                    (Some (mkMaterial MeshBasicMaterial (0, 0, 0)%float 0 true None None)))
      else (this, set_material child (Some newMaterial))
    else
      match mo_material child with
      | Some _ => (this, set_material child (Some newMaterial))
      | None => (this, child)
      end
  else (this, child).

(** The scale step of [update] for the types that keep the object. *)
Definition applyScale (message' : MarkerMessage) (child : MarkerObject)
    : Result MarkerObject :=
  let type := mm_type message' in
  let s := mm_scale message' in
  if (type =? MARKER_CUBE)%Z || (type =? MARKER_SPHERE)%Z || (type =? MARKER_CYLINDER)%Z
  then
    Ok (mkMarkerObject (mo_kind child) (mo_material child)
          (Vector3.set (mo_scale child) (Msg.x s) (Msg.y s) (Msg.z s))
          (mo_geometry child) (mo_count child) (mo_instances child))
  else if (type =? MARKER_LINE_STRIP)%Z || (type =? MARKER_LINE_LIST)%Z then
    match mo_material child with
    | Some m =>
        Ok (set_material child
              (Some (mkMaterial (mat_kind m) (mat_rgb m) (mat_opacity m)
                       (mat_transparent m) (Some (Msg.x s)) (mat_size m))))
    | None => Throw TypeError
    end
  else if (type =? MARKER_POINTS)%Z then
    match mo_material child with
    | Some m =>
        Ok (set_material child
              (Some (mkMaterial (mat_kind m) (mat_rgb m) (mat_opacity m)
                       (mat_transparent m) (mat_linewidth m) (Some (Msg.x s)))))
    | None => Throw TypeError
    end
  else Ok child.

(** [positions.setXYZ(i, x, y, z)] for every point of the message. *)
Definition writePoints (arr : list float) (points : list Msg.Point) : list float :=
  fst (foldl (fun '(a, i) pt =>
                (TypedArray.store
                   (TypedArray.store (TypedArray.store a (3 * i) (Msg.x pt))
                                     (3 * i + 1) (Msg.y pt))
                   (3 * i + 2) (Msg.z pt), S i))
             (arr, 0) points).

(** The points step of [update]: [Ok None] stands for [return false]. *)
Definition updatePoints (message' : MarkerMessage) (child : MarkerObject)
    : Result (option MarkerObject) :=
  let type := mm_type message' in
  if isInstancedList type then
    if bool_decide (Some (length (mm_points message')) = mo_count child) then
      Ok (Some (mkMarkerObject (mo_kind child) (mo_material child) (mo_scale child)
                  (mo_geometry child) (mo_count child)
                  (Creators.instancesOf (mm_points message'))))
    else Ok None
  else if isLineOrPoints type then
    match mo_geometry child with
    | None => Throw TypeError
    | Some arr =>
        (* positions.count * positions.itemSize, count = array.length / 3 *)
        if length (mm_points message') * 3 =? (length arr / 3) * 3 then
          Ok (Some (mkMarkerObject (mo_kind child) (mo_material child) (mo_scale child)
                      (Some (writePoints arr (mm_points message')))
                      (mo_count child) (mo_instances child)))
        else Ok None
    end
  else Ok (Some child).

(** [update(message)]: the returned boolean and the marker as the call
    leaves it. *)
Definition update (this : t) (message' : MarkerMessage) : Result (bool * t) :=
  if negb (mm_type message' =? mm_type (message this))%Z then Ok (false, this)
  else
    let this :=
      mk message' (msgScale this) (msgColor this) (position this)
         (quaternion this) (children this) in
    let this := setPose this (mm_pose message') in
    match children this with
    | [] => Ok (false, this)
    | child :: _ =>
        let '(this, child) := updateColor this message' child in
        let this := with_child this child in
        if scaleChanged this message' then
          let s := mm_scale message' in
          let this :=
            mk (message this) (Msg.x s, Msg.y s, Msg.z s) (msgColor this)
               (position this) (quaternion this) (children this) in
          if rebuildOnScale (mm_type message') then Ok (false, this)
          else
            child ← applyScale message' child;
            let this := with_child this child in
            r ← updatePoints message' child;
            match r with
            | Some child => Ok (true, with_child this child)
            | None => Ok (false, this)
            end
        else
          r ← updatePoints message' child;
          match r with
          | Some child => Ok (true, with_child this child)
          | None => Ok (false, this)
          end
    end.

End Marker.

(** ** markers/MarkerClient.js *)

Module MarkerClient.

(** A scene node held in [this.markers]: the node, the identity of the
    object (two nodes are the same object exactly when their identities
    agree), and the [updatedTime] property the client adds to it. *)
Record Entry := mkEntry {
  id : nat;
  node : SceneNode.t Marker.t;
  updatedTime : nat
}.

(** The client together with the objects it shares with its surroundings:
    the children of [rootObject], the callbacks registered with the
    transform store, the supply of fresh object identities, and the record
    of [dispose()] calls and of emitted "change" events. *)
Record t := mk {
  tfClient : option SceneNode.TFClient;
  markers : gmap string Entry;
  rootObject : list nat;
  subscriptions : list (string * nat);
  nextId : nat;
  disposed : list nat;
  changes : nat
}.

Definition new (tfClient : option SceneNode.TFClient) : t :=
  mk tfClient ∅ [] [] 0 [] 0.

(** [`${message.ns}/${message.id}`] *)
Definition keyOf (message : MarkerMessage) : string :=
  mm_ns message +:+ "/" +:+ pretty (mm_id message).

(** [removeMarker(key)]: dispose the node (which unsubscribes it from the
    store), take it out of [rootObject] and delete the key. *)
Definition removeMarker (this : t) (key : string) : t :=
  match markers this !! key with
  | Some markerNode =>
      let subscriptions' :=
        if SceneNode.subscribed (node markerNode)
        then filter (fun s => s.2 ≠ id markerNode) (subscriptions this)
        else subscriptions this in
      mk (tfClient this) (delete key (markers this))
         (filter (fun i => i ≠ id markerNode) (rootObject this))
         subscriptions' (nextId this) (disposed this ++ [id markerNode])
         (changes this)
  | None => this
  end.

(** [removeAllMarkers()] *)
Definition removeAllMarkers (this : t) : t :=
  let this := foldl removeMarker this (map fst (map_to_list (markers this))) in
  mk (tfClient this) ∅ (rootObject this) (subscriptions this) (nextId this)
     (disposed this) (changes this).

(** The options the client passes to [new SceneNode]. *)
Definition nodeOptions (this : t) (message : MarkerMessage)
    : SceneNode.Options Marker.t :=
  SceneNode.mkOptions (tfClient this) (Some (mm_frame_id message))
                      (Some (Marker.new message)) (Some (mm_pose message)).

(** The [if (!updated)] block: a new marker in a new scene node, stored
    under the key and added to [rootObject]. *)
Definition createMarker (this : t) (key : string) (message : MarkerMessage) (now : nat)
    : t :=
  let options := nodeOptions this message in
  let fresh := nextId this in
  let subscriptions' :=
    if SceneNode.subscribes options
    then subscriptions this ++ [(mm_frame_id message, fresh)]
    else subscriptions this in
  mk (tfClient this)
     (<[ key := mkEntry fresh (SceneNode.new options) now ]> (markers this))
     (rootObject this ++ [fresh]) subscriptions' (S fresh) (disposed this)
     (changes this).

Definition emitChange (this : t) : t :=
  mk (tfClient this) (markers this) (rootObject this) (subscriptions this)
     (nextId this) (disposed this) (S (changes this)).

(** [processMessage(message)], [now] being the clock reading. *)
Definition processMessage (this : t) (message : MarkerMessage) (now : nat) : Result t :=
  let key := keyOf message in
  if (mm_action message =? 0)%Z then
    match markers this !! key with
    | Some entry =>
        match
          match SceneNode.children (node entry) with
          | marker :: _ => Marker.update marker message
          | [] => Ok (false, Marker.new message)
          end
        with
        | Throw e => Throw e
        | Ok (true, marker') =>
            let n := node entry in
            let n' :=
              SceneNode.mk (SceneNode.tfClient n) (SceneNode.frameID n)
                (SceneNode.initialPose n) (SceneNode.position n)
                (SceneNode.quaternion n) (SceneNode.visible n)
                (marker' :: tail (SceneNode.children n)) in
            Ok (emitChange
                  (mk (tfClient this)
                      (<[ key := mkEntry (id entry) n' now ]> (markers this))
                      (rootObject this) (subscriptions this) (nextId this)
                      (disposed this) (changes this)))
        | Ok (false, _) =>
            Ok (emitChange (createMarker (removeMarker this key) key message now))
        end
    | None => Ok (emitChange (createMarker this key message now))
    end
  else if (mm_action message =? 2)%Z then Ok (emitChange (removeMarker this key))
  else if (mm_action message =? 3)%Z then Ok (emitChange (removeAllMarkers this))
  else Ok (emitChange this).

(** The test of [checkExpiredMarkers] on one node:
    [now - markerNode.updatedTime > this.lifetime]. *)
Definition expired (lifetime now : nat) (markerNode : Entry) : bool :=
  lifetime <? now - updatedTime markerNode.

(** [checkExpiredMarkers()], [lifetime] being [this.lifetime] in whole
    milliseconds and [now] the clock reading.  The keys are visited in
    the order [map_to_list] lists them; the order only shows in the
    order of the dispose log. *)
Definition checkExpiredMarkers (this : t) (lifetime now : nat) : t :=
  emitChange
    (foldl (fun this key =>
              match markers this !! key with
              | Some markerNode =>
                  if expired lifetime now markerNode then removeMarker this key
                  else this
              | None => this
              end)
           this (map fst (map_to_list (markers this)))).

End MarkerClient.

(** ** interactivemarkers/InteractiveMarker.js *)

Module InteractiveMarker.

(** The argument of [onServerSetPose]. *)
Record PoseEvent := mkPoseEvent { pose : Msg.Pose }.

(** An event handed to [dispatchEvent] by [feedbackEvent]. *)
Record Feedback := mkFeedback {
  fb_type : string;
  fb_position : Vector3.t;
  fb_orientation : Quaternion.t;
  fb_controlName : string
}.

(** The marker: the inherited [position] and [quaternion], the drag
    fields, the events dispatched so far, and the poses for which
    [onServerSetPose] reached [updateMatrixWorld(true)], oldest first. *)
Record t := mk {
  dragging : bool;
  position : Vector3.t;
  quaternion : Quaternion.t;
  bufferedPoseEvent : option PoseEvent;
  dragStartPosition : Vector3.t;
  dragStartOrientation : Quaternion.t;
  dispatched : list Feedback;
  applied : list Msg.Pose
}.

(** [position.copy(p)] and [quaternion.copy(q)] from plain objects. *)
Definition copyPoint (p : Msg.Point) : Vector3.t :=
  Vector3.mk (Msg.x p) (Msg.y p) (Msg.z p).
Definition copyQuat (q : Msg.Quat) : Quaternion.t :=
  Quaternion.mk (Msg.qx q) (Msg.qy q) (Msg.qz q) (Msg.qw q).

(** [onServerSetPose(event)] *)
Definition onServerSetPose (this : t) (event : option PoseEvent) : t :=
  match event with
  | Some e =>
      if dragging this then
        mk (dragging this) (position this) (quaternion this) (Some e)
           (dragStartPosition this) (dragStartOrientation this)
           (dispatched this) (applied this)
      else
        mk (dragging this) (copyPoint (Msg.position (pose e)))
           (copyQuat (Msg.orientation (pose e))) (bufferedPoseEvent this)
           (dragStartPosition this) (dragStartOrientation this)
           (dispatched this) (applied this ++ [pose e])
  | None => this
  end.

(** The constructor: not dragging, nothing buffered, pose taken from the
    handle through [onServerSetPose]. *)
Definition new (handlePose : Msg.Pose) : t :=
  let this :=
    onServerSetPose
      (mk false Vector3.zero Quaternion.identity None Vector3.zero
          Quaternion.identity [] [])
      (Some (mkPoseEvent handlePose)) in
  mk (dragging this) (position this) (quaternion this) (bufferedPoseEvent this)
     Vector3.zero Quaternion.identity (dispatched this) (applied this).

(** [feedbackEvent(type, control)] *)
Definition feedbackEvent (this : t) (type controlName : string) : t :=
  mk (dragging this) (position this) (quaternion this) (bufferedPoseEvent this)
     (dragStartPosition this) (dragStartOrientation this)
     (dispatched this ++ [mkFeedback type (position this) (quaternion this) controlName])
     (applied this).

(** [startDrag(control, event3d)], [button] being [event3d.domEvent.button]. *)
Definition startDrag (this : t) (controlName : string) (button : Z) : t :=
  if (button =? 0)%Z then
    let this :=
      mk true (position this) (quaternion this) (bufferedPoseEvent this)
         (position this) (quaternion this) (dispatched this) (applied this) in
    feedbackEvent this "user-mousedown" controlName
  else this.

(** [stopDrag(control, event3d)] *)
Definition stopDrag (this : t) (controlName : string) (button : Z) : t :=
  if (button =? 0)%Z then
    let this :=
      mk false (position this) (quaternion this) (bufferedPoseEvent this)
         (dragStartPosition this) (dragStartOrientation this)
         (dispatched this) (applied this) in
    let this := onServerSetPose this (bufferedPoseEvent this) in
    let this :=
      mk (dragging this) (position this) (quaternion this) None
         (dragStartPosition this) (dragStartOrientation this)
         (dispatched this) (applied this) in
    feedbackEvent this "user-mouseup" controlName
  else this.

(** [setPosition(control, position)] *)
Definition setPosition (this : t) (controlName : string) (p : Vector3.t) : t :=
  feedbackEvent
    (mk (dragging this) p (quaternion this) (bufferedPoseEvent this)
        (dragStartPosition this) (dragStartOrientation this)
        (dispatched this) (applied this))
    "user-pose-change" controlName.

(** [setOrientation(control, orientation)] *)
Definition setOrientation (this : t) (controlName : string) (q : Quaternion.t) : t :=
  feedbackEvent
    (mk (dragging this) (position this) (Quaternion.normalize q)
        (bufferedPoseEvent this) (dragStartPosition this)
        (dragStartOrientation this) (dispatched this) (applied this))
    "user-pose-change" controlName.

(** What can reach the marker between the press and the release. *)
Inductive DragStep : Type :=
| ServerPose (e : PoseEvent)
| UserPosition (controlName : string) (p : Vector3.t)
| UserOrientation (controlName : string) (q : Quaternion.t).

Definition step (this : t) (s : DragStep) : t :=
  match s with
  | ServerPose e => onServerSetPose this (Some e)
  | UserPosition c p => setPosition this c p
  | UserOrientation c q => setOrientation this c q
  end.

Definition run (this : t) (steps : list DragStep) : t := foldl step this steps.

(** The server poses among the steps, in order of arrival. *)
Definition serverPoses (steps : list DragStep) : list PoseEvent :=
  omap (fun s => match s with ServerPose e => Some e | _ => None end) steps.

End InteractiveMarker.

(** ** utils/geometry.utils.js *)

Module Geometry.

(** A ray as the helpers read it: [origin], [direction], and the
    [precision] property, which a [THREE.Ray] does not carry. *)
Record Ray := mkRay {
  origin : Vector3.t;
  direction : Vector3.t;
  precision : option float
}.

(** [new THREE.Ray(origin, direction)] *)
Definition newRay (origin direction : Vector3.t) : Ray :=
  mkRay origin direction None.

(** The denominator of [findClosestPoint]. *)
Definition denom (targetRay mouseRay : Ray) : float :=
  let v43 := direction mouseRay in
  let v21 := direction targetRay in
  let d4321 := Vector3.dot v43 v21 in
  let d4343 := Vector3.dot v43 v43 in
  let d2121 := Vector3.dot v21 v21 in
  (d2121 * d4343 - d4321 * d4321)%float.

(** [findClosestPoint(targetRay, mouseRay)]; [None] is [undefined]. *)
Definition findClosestPoint (targetRay mouseRay : Ray) : option float :=
  let v13 := Vector3.subVectors (origin targetRay) (origin mouseRay) in
  let v43 := direction mouseRay in
  let v21 := direction targetRay in
  let d1343 := Vector3.dot v13 v43 in
  let d4321 := Vector3.dot v43 v21 in
  let d1321 := Vector3.dot v13 v21 in
  let d4343 := Vector3.dot v43 v43 in
  let d2121 := Vector3.dot v21 v21 in
  let denom := (d2121 * d4343 - d4321 * d4321)%float in
  if JS.le (JS.Math_abs denom) 0.0001%float then None
  else
    let numer := (d1343 * d4321 - d1321 * d4343)%float in
    Some (numer / denom)%float.

(** [intersectPlane(mouseRay, planeOrigin, planeNormal)] *)
Definition intersectPlane (mouseRay : Ray) (planeOrigin planeNormal : Vector3.t)
    : option Vector3.t :=
  let vector := Vector3.subVectors planeOrigin (origin mouseRay) in
  let dot := Vector3.dot (direction mouseRay) planeNormal in
  if JS.lt_maybe (JS.Math_abs dot) (precision mouseRay) then None
  else
    let scalar := (Vector3.dot planeNormal vector / dot)%float in
    Some (Vector3.addVectors (origin mouseRay)
            (Vector3.multiplyScalar (direction mouseRay) scalar)).

End Geometry.

(** ** Vocabulary of the specification *)

Module Spec.

(** Plain objects and engine values with the same fields. *)
Definition vec (p : Msg.Point) : Vector3.t := Vector3.mk (Msg.x p) (Msg.y p) (Msg.z p).
Definition quat (q : Msg.Quat) : Quaternion.t :=
  Quaternion.mk (Msg.qx q) (Msg.qy q) (Msg.qz q) (Msg.qw q).
Definition point (v : Vector3.t) : Msg.Point :=
  Msg.mkPoint (Vector3.x v) (Vector3.y v) (Vector3.z v).
Definition quatMsg (q : Quaternion.t) : Msg.Quat :=
  Msg.mkQuat (Quaternion.x q) (Quaternion.y q) (Quaternion.z q) (Quaternion.w q).

(** The composition of the specification, in its four steps: rotate the
    local position by the transform's rotation, add the translation,
    multiply the local orientation on the left by the rotation,
    normalize the product. *)
Definition compose (localPose : Msg.Pose) (transform : Msg.Transform) : Msg.Pose :=
  let rotated :=
    Vector3.applyQuaternion (vec (Msg.position localPose))
                            (quat (Msg.rotation transform)) in
  let moved := Vector3.add rotated (vec (Msg.translation transform)) in
  let product :=
    Quaternion.multiplyQuaternions (quat (Msg.rotation transform))
                                   (quat (Msg.orientation localPose)) in
  Msg.mkPose (point moved) (quatMsg (Quaternion.normalize product)).

End Spec.

(** ** Concrete inputs used in examples *)

Module Sample.

(** A node bound to ["laser_frame"] with the given local pose. *)
Definition laserOptions (p : option Msg.Pose) : SceneNode.Options unit :=
  SceneNode.mkOptions (Some SceneNode.tfClientHandle) (Some "laser_frame") None p.

Definition translate (x : float) : Msg.Transform :=
  Msg.mkTransform (Msg.mkPoint x 0 0) (Msg.mkQuat 0 0 0 1).

(** A rotation by 60 degrees about the z axis, as a unit quaternion
    rounded to binary64. *)
Definition turn60 : Msg.Transform :=
  Msg.mkTransform (Msg.mkPoint 0 0 0) (Msg.mkQuat 0 0 0.5 0.8660254037844386).

(** A store holding the pose one metre along x at address 2 and the
    rotation by 60 degrees at address 5. *)
Definition store : Store.t :=
  Store.mk (<[ 0 := Store.Plain3 1 0 0 ]>
            (<[ 1 := Store.Plain4 0 0 0 1 ]>
             (<[ 2 := Store.PoseObject 0 1 ]>
              (<[ 3 := Store.Plain3 0 0 0 ]>
               (<[ 4 := Store.Plain4 0 0 0.5 0.8660254037844386 ]>
                (<[ 5 := Store.TransformObject 3 4 ]> ∅))))))
           6.

End Sample.

Module SampleRays.

(** A ray along x from the origin, as [new THREE.Ray] builds it, and the
    plane z = 1, which the ray never meets. *)
Definition alongX : Geometry.Ray :=
  Geometry.newRay (Vector3.mk 0 0 0) (Vector3.mk 1 0 0).
Definition planeOrigin : Vector3.t := Vector3.mk 0 0 1.
Definition planeNormal : Vector3.t := Vector3.mk 0 0 1.

End SampleRays.

Module SampleDrag.

Definition poseAt (x : float) : Msg.Pose :=
  Msg.mkPose (Msg.mkPoint x 0 0) (Msg.mkQuat 0 0 0 1).

(** Three server poses arriving during a drag, with a pointer move in
    between. *)
Definition steps : list InteractiveMarker.DragStep :=
  [InteractiveMarker.ServerPose (InteractiveMarker.mkPoseEvent (poseAt 1));
   InteractiveMarker.UserPosition "move_x" (Vector3.mk 7 0 0);
   InteractiveMarker.ServerPose (InteractiveMarker.mkPoseEvent (poseAt 2));
   InteractiveMarker.ServerPose (InteractiveMarker.mkPoseEvent (poseAt 3))].

End SampleDrag.

(** ** Vocabulary for the point-stream decoders *)

Module Stream.

(** A [Points] helper is either not set up yet and without a colour
    array, as the constructor leaves it, or its position array (and
    colour array, which then comes with a colormap) has three slots per
    point of capacity. *)
Definition inv (pts : Points.t) : Prop :=
  match Points.sn pts with
  | None => Points.colors pts = None
  | Some _ =>
      (∃ p, Points.positions pts = Some p
            ∧ length (array p) = Points.max_pts pts * 3)
      ∧ (∀ c, Points.colors pts = Some c →
              length (array c) = Points.max_pts pts * 3
              ∧ is_Some (Points.colormap pts))
  end.

(** The sample indices a scan of [n] ranges visits with ratio [ratio]:
    [0, ratio, 2 * ratio, ...] below [n]. *)
Definition sampledIndices (n ratio : nat) : list nat :=
  map (fun k => k * ratio) (seq 0 ((n + ratio - 1) / ratio)).

Section WithHost.
Context `{Host}.

(** The visited indices whose range lies within the bounds. *)
Definition acceptedIndices (message : LaserScan.Message) (ratio : nat) : list nat :=
  filter (fun i => LaserScan.accepted message (LaserScan.rangeAt message i) = true)
         (sampledIndices (length (LaserScan.ranges message)) ratio).

(** The three values assigned for the sample at index [i]. *)
Definition triple (message : LaserScan.Message) (i : nat) : list float :=
  [LaserScan.sampleX message i; LaserScan.sampleY message i; 0%float].

End WithHost.

(** Consecutive stores of [vals] from index [j] on. *)
Fixpoint storeAll (arr : list float) (j : nat) (vals : list float) : list float :=
  match vals with
  | [] => arr
  | v :: vals' => storeAll (TypedArray.store arr j v) (S j) vals'
  end.

(** The indices the scan loop visits from [i] on, with the fuel it is given. *)
Fixpoint walk (n ratio fuel i : nat) : list nat :=
  if n <=? i then []
  else
    match fuel with
    | 0 => []
    | S fuel' => i :: walk n ratio fuel' (i + ratio)
    end.

Section Emit.
Context `{Host}.

(** One round of the scan loop on the write index and the array. *)
Definition emit (message : LaserScan.Message) (st : nat * list float) (i : nat)
    : nat * list float :=
  if LaserScan.accepted message (LaserScan.rangeAt message i)
  then (st.1 + 3, storeAll st.2 st.1 (triple message i))
  else st.

End Emit.

Section Calls.
Context `{Host}.

(** Successive calls [setup(frame, point_step, fields)] on one helper:
    the answers, oldest first, and the helper as the last call leaves
    it. *)
Definition setupAll (pts : Points.t)
    (calls : list (string * nat * list PointField)) : list bool * Points.t :=
  foldl (fun st call =>
           let r := Points.setup st.2 call.1.1 call.1.2 call.2 in
           (st.1 ++ [r.1], r.2))
        ([], pts) calls.

End Calls.

(** Both message gates of the scan handler let the next message through. *)
Definition scanProcessed (this : LaserScan.t) : bool :=
  Points.mod_is_zero (S (LaserScan.messageCounter this)) (LaserScan.messageRatio this)
  && Points.mod_is_zero (Points.messageCount (LaserScan.points this))
                        (Points.messageRatio (LaserScan.points this)).

(** The gate of the cloud handler lets the next message through. *)
Definition cloudProcessed (this : PointCloud2.t) : bool :=
  Points.mod_is_zero (Points.messageCount (PointCloud2.points this))
                     (Points.messageRatio (PointCloud2.points this)).

(** The number of points the cloud handler decodes from binary data
    whenever its count is a number: the capacity [max_pts] for a zero
    ratio, the smaller of [height * width / pointRatio] (rounded down)
    and the capacity otherwise. *)
Definition cloudPoints (height width pointRatio max_pts : nat) : nat :=
  if pointRatio =? 0 then max_pts
  else Nat.min (height * width / pointRatio) max_pts.

(** Bytes read by the accessor of a field datatype. *)
Definition datatypeWidth (datatype : nat) : nat :=
  match datatype with
  | 1 | 2 => 1
  | 3 | 4 => 2
  | 5 | 6 | 7 => 4
  | _ => 8
  end.

(** The fields a stream reads lie within a record of [point_step]
    bytes: the [x], [y] and [z] fields registered at set-up (four bytes
    each) and, when a colour array exists, the field behind [getColor]. *)
Definition fieldsFit (pts : Points.t) (point_step : nat) : Prop :=
  (∀ name, name ∈ ["x"; "y"; "z"] →
     ∃ f, Points.own (Points.fields pts) !! name = Some f
          ∧ pf_offset f + 4 ≤ point_step)
  ∧ (is_Some (Points.colors pts) →
       ∃ rd, Points.getColor pts = Some rd
             ∧ Points.cr_offset rd + datatypeWidth (Points.cr_datatype rd)
               ≤ point_step).

End Stream.

(** A host for running the decoders on concrete messages: cosine and sine
    by their Taylor polynomials of degree 8 and 9, grey levels as colours. *)
Definition sampleHost : Host :=
  {| Math_cos := fun a =>
       (1 - a * a / 2 + a * a * a * a / 24 - a * a * a * a * a * a / 720
        + a * a * a * a * a * a * a * a / 40320)%float;
     Math_sin := fun a =>
       (a - a * a * a / 6 + a * a * a * a * a / 120
        - a * a * a * a * a * a * a / 5040
        + a * a * a * a * a * a * a * a * a / 362880)%float;
     Color_ofNumber := fun v => mkColor v v v |}.

Module SampleScan.

(** Three in-range samples for a client with room for two points. *)
Definition threeValid : LaserScan.Message :=
  LaserScan.mkMessage "laser_frame" 0 0.5 0.5 10 [1; 2; 3]%float.

Definition smallClient : LaserScan.t :=
  LaserScan.new (Some SceneNode.tfClientHandle) 1 2 1.

(** One sample below the minimum, one within bounds, one above the maximum. *)
Definition oneValid : LaserScan.Message :=
  LaserScan.mkMessage "laser_frame" 0 0.5 0.5 10
                      [0.5 - 0.01; 5; 10 + 0.01]%float.

Definition defaultClient : LaserScan.t :=
  LaserScan.new (Some SceneNode.tfClientHandle) 1 100 1.

(** The same three samples for an upper bound of 2^53, where adding
    0.01 changes nothing. *)
Definition hugeBound : LaserScan.Message :=
  LaserScan.mkMessage "laser_frame" 0 0.5 0.5 9007199254740992
                      [0.5 - 0.01; 5; 9007199254740992 + 0.01]%float.

End SampleScan.

Module SampleCloud.

Definition xyz : list PointField :=
  [mkPointField "x" 0 7 1; mkPointField "y" 4 7 1; mkPointField "z" 8 7 1].

(** The little-endian bytes of the binary32 values 1, 2 and 3. *)
Definition one : list byte := [x00; x00; x80; x3f].
Definition two : list byte := [x00; x00; x00; x40].
Definition three : list byte := [x00; x00; x40; x40].

(** Three records of twelve bytes: the points (1,1,1), (2,2,2), (3,3,3). *)
Definition threePoints : PointCloud2.Message :=
  PointCloud2.mkMessage "camera_frame" 1 3 12 false xyz
    (PointCloud2.Binary (one ++ one ++ one ++ two ++ two ++ two
                         ++ three ++ three ++ three)).

(** A client with room for two points. *)
Definition smallClient : PointCloud2.t :=
  PointCloud2.new (Some SceneNode.tfClientHandle) 2 1 1 None None 0 1.

(** The fields of a coloured cloud: the coordinates, an intensity and a
    packed colour. *)
Definition xyzrgb : list PointField :=
  xyz ++ [mkPointField "intensity" 12 7 1; mkPointField "rgb" 16 7 1].

(** The same three points as base64 text. *)
Definition threePointsText : PointCloud2.Message :=
  PointCloud2.mkMessage "camera_frame" 1 3 12 false xyz
    (PointCloud2.Text "AACAPwAAgD8AAIA/AAAAQAAAAEAAAABAAABAQAAAQEAAAEBA").

(** A helper with room for two points and no colour source configured. *)
Definition freshPoints : Points.t :=
  Points.new (Some SceneNode.tfClientHandle) 2 1 1 None None 0 1.

(** A client with room for two points that reads every second point. *)
Definition sparseClient : PointCloud2.t :=
  PointCloud2.new (Some SceneNode.tfClientHandle) 2 2 1 None None 0 1.

(** Four records of twelve bytes. *)
Definition fourPoints : PointCloud2.Message :=
  PointCloud2.mkMessage "camera_frame" 1 4 12 false xyz
    (PointCloud2.Binary (one ++ one ++ one ++ two ++ two ++ two
                         ++ three ++ three ++ three ++ one ++ two ++ three)).

(** A client whose colour source names a property every object
    inherits. *)
Definition inheritedClient : PointCloud2.t :=
  PointCloud2.new (Some SceneNode.tfClientHandle) 2 1 1 (Some "constructor")
                  None 0 1.

(** A client that is told to keep every zeroth point. *)
Definition zeroRatioClient : PointCloud2.t :=
  PointCloud2.new (Some SceneNode.tfClientHandle) 2 0 1 None None 0 1.

(** A message without points. *)
Definition noPoints : PointCloud2.Message :=
  PointCloud2.mkMessage "camera_frame" 1 0 12 false xyz (PointCloud2.Binary []).

(** A message that declares three records and brings one. *)
Definition cutShort : PointCloud2.Message :=
  PointCloud2.mkMessage "camera_frame" 1 3 12 false xyz
    (PointCloud2.Binary (one ++ one ++ one)).

(** A message without a [z] field. *)
Definition flat : PointCloud2.Message :=
  PointCloud2.mkMessage "camera_frame" 1 3 12 false
    [mkPointField "x" 0 7 1; mkPointField "y" 4 7 1]
    (PointCloud2.Binary (one ++ one ++ one ++ two ++ two ++ two
                         ++ three ++ three ++ three)).

End SampleCloud.

(** ** Vocabulary for the marker lifecycle *)

Module Lifecycle.

(** A marker as the constructor and every successful update leave it: it
    has a child, and for a line or point type the child has the
    position array and the material that [update] reaches for. *)
Definition markerReady (m : Marker.t) : Prop :=
  match Marker.children m with
  | child :: _ =>
      Marker.isLineOrPoints (mm_type (Marker.message m)) = true →
      is_Some (mo_geometry child) ∧ is_Some (mo_material child)
  | [] => False
  end.

(** The point count of the live marker's geometry, for the types that
    have one: the instance count of an instanced list, the number of
    points of a line or point geometry. *)
Definition pointCount (m : Marker.t) : option nat :=
  match Marker.children m with
  | child :: _ =>
      if Marker.isInstancedList (mm_type (Marker.message m)) then mo_count child
      else if Marker.isLineOrPoints (mm_type (Marker.message m))
      then (fun arr => length arr / 3) <$> mo_geometry child
      else None
  | [] => None
  end.

(** The message brings as many points as the live geometry holds (or the
    type has no point-count-sensitive geometry). *)
Definition samePointCount (m : Marker.t) (message : MarkerMessage) : bool :=
  if Marker.isInstancedList (mm_type message)
     || Marker.isLineOrPoints (mm_type message)
  then bool_decide (pointCount m = Some (length (mm_points message)))
  else true.

(** The three conditions of an update in place: same primitive type,
    same point count, and no scale change on a type that must be rebuilt. *)
Definition updatable (m : Marker.t) (message : MarkerMessage) : bool :=
  (mm_type message =? mm_type (Marker.message m))%Z
  && samePointCount m message
  && negb (Marker.scaleChanged m message && Marker.rebuildOnScale (mm_type message)).

(** Every live entry has an identity already handed out and holds a
    ready marker as its first child. *)
Definition clientInv (this : MarkerClient.t) : Prop :=
  ∀ key entry, MarkerClient.markers this !! key = Some entry →
    MarkerClient.id entry < MarkerClient.nextId this
    ∧ ∃ m rest, SceneNode.children (MarkerClient.node entry) = m :: rest
                ∧ markerReady m.

(** The world pose of a child under a parent at the given pose, both
    with unit scale, as the engine composes local matrices: the child's
    position rotated by the parent's orientation and moved by the
    parent's position, and the product of the orientations. *)
Definition localToWorld (parentPosition : Vector3.t) (parentQuaternion : Quaternion.t)
    (position : Vector3.t) (quaternion : Quaternion.t) : Vector3.t * Quaternion.t :=
  (Vector3.add (Vector3.applyQuaternion position parentQuaternion) parentPosition,
   Quaternion.multiplyQuaternions parentQuaternion quaternion).

(** The world pose of a marker inside its scene node, the node sitting
    under a root at the identity. *)
Definition markerWorld (n : SceneNode.t Marker.t) (m : Marker.t)
    : Vector3.t * Quaternion.t :=
  localToWorld (SceneNode.position n) (SceneNode.quaternion n)
               (Marker.position m) (Marker.quaternion m).

(** The object with identity [i] is the scene node of a live marker. *)
Definition live (this : MarkerClient.t) (i : nat) : Prop :=
  ∃ key entry,
    MarkerClient.markers this !! key = Some entry ∧ MarkerClient.id entry = i.

(** The live node [i] registered its callback for [frame] with the
    transform store. *)
Definition listens (this : MarkerClient.t) (frame : string) (i : nat) : Prop :=
  ∃ key entry,
    MarkerClient.markers this !! key = Some entry ∧ MarkerClient.id entry = i
    ∧ SceneNode.subscribed (MarkerClient.node entry) = true
    ∧ SceneNode.frameID (MarkerClient.node entry) = Some frame.

(** The client and the scene agree: the children of the root are the
    nodes of the live markers, each once and no two keys sharing a node;
    every node ever created is a child of the root or has been disposed
    (once), never both; and the callbacks registered with the transform
    store are those of the live nodes that subscribed. *)
Definition sceneInv (this : MarkerClient.t) : Prop :=
  NoDup (MarkerClient.rootObject this)
  ∧ (∀ i, i ∈ MarkerClient.rootObject this ↔ live this i)
  ∧ (∀ k1 k2 e1 e2,
       MarkerClient.markers this !! k1 = Some e1 →
       MarkerClient.markers this !! k2 = Some e2 →
       MarkerClient.id e1 = MarkerClient.id e2 → k1 = k2)
  ∧ NoDup (MarkerClient.disposed this)
  ∧ (∀ i, i < MarkerClient.nextId this
          ↔ i ∈ MarkerClient.rootObject this ∨ i ∈ MarkerClient.disposed this)
  ∧ (∀ i, i ∈ MarkerClient.rootObject this → i ∉ MarkerClient.disposed this)
  ∧ NoDup (MarkerClient.subscriptions this)
  ∧ (∀ frame i, (frame, i) ∈ MarkerClient.subscriptions this ↔ listens this frame i).

(** What reaches a marker client: a message from the topic, or a tick
    of the expiry timer. *)
Inductive Event : Type :=
| Received (message : MarkerMessage) (now : nat)
| ExpiryCheck (lifetime now : nat).

Definition handle (this : MarkerClient.t) (ev : Event) : Result MarkerClient.t :=
  match ev with
  | Received message now => MarkerClient.processMessage this message now
  | ExpiryCheck lifetime now =>
      Ok (MarkerClient.checkExpiredMarkers this lifetime now)
  end.

(** The events in order, stopping at the first throw. *)
Fixpoint run (this : MarkerClient.t) (evs : list Event) : Result MarkerClient.t :=
  match evs with
  | [] => Ok this
  | ev :: evs' => this' ← handle this ev; run this' evs'
  end.

(** What the expiry check leaves of a table entry. *)
Definition kept (lifetime now : nat) (e : option MarkerClient.Entry)
    : option MarkerClient.Entry :=
  match e with
  | Some markerNode =>
      if MarkerClient.expired lifetime now markerNode then None else Some markerNode
  | None => None
  end.

(** A colour none of whose components is NaN: each is [===] to itself. *)
Definition numericColor (c : RGBA) : bool :=
  JS.strict_eq (cr c) (cr c) && JS.strict_eq (cg c) (cg c)
  && JS.strict_eq (cb c) (cb c) && JS.strict_eq (ca c) (ca c).

(** Two objects with the same kind, geometry, instance count and
    instance positions. *)
Definition sameShape (child child' : MarkerObject) : Prop :=
  mo_kind child' = mo_kind child
  ∧ mo_geometry child' = mo_geometry child
  ∧ mo_count child' = mo_count child
  ∧ mo_instances child' = mo_instances child.

End Lifecycle.

Module SampleMarkers.

Definition red : RGBA := mkRGBA 1 0 0 1.

(** A line strip under the key ["path/7"] with the given points. *)
Definition strip (points : list Msg.Point) : MarkerMessage :=
  mkMarkerMessage "map" "path" 7 MARKER_LINE_STRIP 0 Msg.identityPose
                  (Msg.mkPoint 0.1 0 0) red points [] "" "".

Definition twoPoints : list Msg.Point := [Msg.mkPoint 0 0 0; Msg.mkPoint 1 0 0].
Definition threePoints : list Msg.Point :=
  [Msg.mkPoint 0 0 0; Msg.mkPoint 1 0 0; Msg.mkPoint 1 1 0].

(** A unit cube posed one metre along x, two along y, three along z. *)
Definition cube : MarkerMessage :=
  mkMarkerMessage "map" "box" 1 MARKER_CUBE 0
                  (Msg.mkPose (Msg.mkPoint 1 2 3) (Msg.mkQuat 0 0 0 1))
                  (Msg.mkPoint 1 1 1) red [] [] "" "".

Definition client : MarkerClient.t := MarkerClient.new (Some SceneNode.tfClientHandle).

(** The client after the strip of two points has been added. *)
Definition withStrip : MarkerClient.t :=
  match MarkerClient.processMessage client (strip twoPoints) 0 with
  | Ok this => this
  | Throw _ => client
  end.

(** The same strip announced in another frame. *)
Definition stripInOdom (points : list Msg.Point) : MarkerMessage :=
  mkMarkerMessage "odom" "path" 7 MARKER_LINE_STRIP 0 Msg.identityPose
                  (Msg.mkPoint 0.1 0 0) red points [] "" "".

(** The messages deleting the strip, and every marker. *)
Definition deleteStrip : MarkerMessage :=
  mkMarkerMessage "map" "path" 7 MARKER_LINE_STRIP 2 Msg.identityPose
                  (Msg.mkPoint 0.1 0 0) red [] [] "" "".
Definition deleteAll : MarkerMessage :=
  mkMarkerMessage "map" "" 0 MARKER_CUBE 3 Msg.identityPose
                  (Msg.mkPoint 1 1 1) red [] [] "" "".

(** The client after the strip (at time 0) and the cube (at time 500). *)
Definition withStripAndCube : MarkerClient.t :=
  match MarkerClient.processMessage withStrip cube 500 with
  | Ok this => this
  | Throw _ => withStrip
  end.

End SampleMarkers.

(** ** Base64, the encoding [decode64] reads

    The standard encoding (RFC 4648): the bits of the bytes, most
    significant first, are cut into groups of six, the last group filled
    up with zeros, and each group is written as its character of the
    alphabet.  [encode] leaves out the trailing padding characters,
    [encodePadded] appends them. *)

Module Base64.

Definition alphabet : string :=
  "ABCDEFGHIJKLMNOPQRSTUVWXYZabcdefghijklmnopqrstuvwxyz0123456789+/".

(** The character of a six-bit value. *)
Definition char (v : Z) : ascii :=
  default "A"%char (String.get (Z.to_nat v) alphabet).

(** The six-bit groups of a byte sequence. *)
Fixpoint sextets (bytes : list byte) : list Z :=
  match bytes with
  | [] => []
  | [a] =>
      let a := TypedArray.Z_of_byte a in
      [a / 4; a mod 4 * 16]
  | [a; b] =>
      let a := TypedArray.Z_of_byte a in
      let b := TypedArray.Z_of_byte b in
      [a / 4; a mod 4 * 16 + b / 16; b mod 16 * 4]
  | a :: b :: c :: rest =>
      let a := TypedArray.Z_of_byte a in
      let b := TypedArray.Z_of_byte b in
      let c := TypedArray.Z_of_byte c in
      [a / 4; a mod 4 * 16 + b / 16; b mod 16 * 4 + c / 64; c mod 64]
        ++ sextets rest
  end%Z.

Definition encode (bytes : list byte) : string :=
  String.string_of_list_ascii (map char (sextets bytes)).

(** Consecutive stores of [bytes] into a byte array from index [j] on. *)
Fixpoint writeBytes (out : list byte) (j : nat) (bytes : list byte) : list byte :=
  match bytes with
  | [] => out
  | c :: bytes' => writeBytes (<[ j := c ]> out) (S j) bytes'
  end.

(** The number of padding characters of the padded encoding: two after
    a last group of one byte, one after a last group of two. *)
Fixpoint padLength (bytes : list byte) : nat :=
  match bytes with
  | [] => 0
  | [_] => 2
  | [_; _] => 1
  | _ :: _ :: _ :: rest => padLength rest
  end.

(** The encoding with its padding, a multiple of four characters. *)
Definition encodePadded (bytes : list byte) : string :=
  encode bytes
  +:+ String.string_of_list_ascii (replicate (padLength bytes) "="%char).

(** The value of byte [k], zero past the end. *)
Definition byteAt (bytes : list byte) (k : nat) : Z :=
  match bytes !! k with
  | Some c => TypedArray.Z_of_byte c
  | None => 0%Z
  end.

(** The six-bit group number [i], by the bytes it is cut from. *)
Definition sextetAt (bytes : list byte) (i : nat) : Z :=
  let k := 3 * Nat.div i 4 in
  match Nat.modulo i 4 with
  | 0 => (byteAt bytes k / 4)%Z
  | 1 => (byteAt bytes k mod 4 * 16 + byteAt bytes (k + 1) / 16)%Z
  | 2 => (byteAt bytes (k + 1) mod 16 * 4 + byteAt bytes (k + 2) / 64)%Z
  | _ => (byteAt bytes (k + 2) mod 64)%Z
  end.

(** Where output byte [j] of a subsampled decoding comes from: byte
    [j mod size] of record [(j / size) * ratio] of the data. *)
Definition sampledIndex (size ratio j : nat) : nat :=
  Nat.div j size * ratio * size + Nat.modulo j size.

(** The accumulator [b] of [decode64] holds, in its low [l] bits, the
    leading [l] bits of byte [pos] of the data. *)
Definition pending (bytes : list byte) (b : option Z) (l pos : nat) : Prop :=
  match l with
  | 6 => (Encoding.toUint32 b mod 64 = byteAt bytes pos / 4)%Z
  | 4 => (Encoding.toUint32 b mod 16 = byteAt bytes pos / 16)%Z
  | 2 => (Encoding.toUint32 b mod 4 = byteAt bytes pos / 64)%Z
  | _ => True
  end.

(** Sixteen bytes, 1 to 16. *)
Definition sixteen : list byte :=
  [x01; x02; x03; x04; x05; x06; x07; x08; x09; x0a; x0b; x0c; x0d; x0e; x0f; x10].

End Base64.

(** ** Vocabulary for the feedback of a drag *)

Module Drag.

Import InteractiveMarker.

(** The pose a user step leaves: [setPosition] replaces the position,
    [setOrientation] the orientation, by the normalized argument. *)
Definition userPose (pq : Vector3.t * Quaternion.t) (s : DragStep)
    : Vector3.t * Quaternion.t :=
  match s with
  | ServerPose _ => pq
  | UserPosition _ p => (p, pq.2)
  | UserOrientation _ q => (pq.1, Quaternion.normalize q)
  end.

(** One ["user-pose-change"] event per user step, carrying the pose
    that step leaves and the name of its control. *)
Fixpoint feedbackOf (pq : Vector3.t * Quaternion.t) (steps : list DragStep)
    : list Feedback :=
  match steps with
  | [] => []
  | s :: rest =>
      let pq' := userPose pq s in
      match s with
      | ServerPose _ => feedbackOf pq' rest
      | UserPosition c _ | UserOrientation c _ =>
          mkFeedback "user-pose-change" pq'.1 pq'.2 c :: feedbackOf pq' rest
      end
  end.

(** The controls of the user steps among the steps, in order. *)
Definition userControls (steps : list DragStep) : list string :=
  omap (fun s => match s with
                 | ServerPose _ => None
                 | UserPosition c _ | UserOrientation c _ => Some c
                 end) steps.

End Drag.

(** * Properties *)

(** ** Pose composition and scene nodes *)

Section SceneNodeFacts.
Context {O : Type}.
Implicit Types (n : SceneNode.t O) (options : SceneNode.Options O).

Lemma updatePose_fields n P :
  SceneNode.tfClient (SceneNode.updatePose n P) = SceneNode.tfClient n
  ∧ SceneNode.frameID (SceneNode.updatePose n P) = SceneNode.frameID n
  ∧ SceneNode.initialPose (SceneNode.updatePose n P) = SceneNode.initialPose n
  ∧ SceneNode.children (SceneNode.updatePose n P) = SceneNode.children n
  ∧ SceneNode.visible (SceneNode.updatePose n P) = true
  ∧ SceneNode.position (SceneNode.updatePose n P) = Spec.vec (Msg.position P)
  ∧ SceneNode.quaternion (SceneNode.updatePose n P)
    = Quaternion.normalize (Spec.quat (Msg.orientation P)).
Proof. by destruct n. Qed.

(** Setting a pose overwrites whatever pose was set before. *)
Lemma updatePose_updatePose n P Q :
  SceneNode.updatePose (SceneNode.updatePose n P) Q = SceneNode.updatePose n Q.
Proof. by destruct n. Qed.

Lemma tfUpdateBound_absorbs n a b :
  SceneNode.tfUpdateBound (SceneNode.tfUpdateBound n a) b = SceneNode.tfUpdateBound n b.
Proof.
  unfold SceneNode.tfUpdateBound.
  rewrite updatePose_updatePose.
  by destruct (updatePose_fields n (applyTransform (SceneNode.initialPose n) a))
    as (_ & _ & -> & _).
Qed.

Lemma subscribed_updatePose n P :
  SceneNode.subscribed (SceneNode.updatePose n P) = SceneNode.subscribed n.
Proof. by destruct n. Qed.

Lemma new_fields options :
  SceneNode.tfClient (SceneNode.new options) = SceneNode.opt_tfClient options
  ∧ SceneNode.frameID (SceneNode.new options) = SceneNode.opt_frameID options
  ∧ SceneNode.initialPose (SceneNode.new options)
    = default Msg.identityPose (SceneNode.opt_pose options)
  ∧ SceneNode.children (SceneNode.new options)
    = option_list (SceneNode.opt_object options).
Proof. destruct options as [tf fr [o|] po]; by repeat split. Qed.

Lemma subscribed_new options :
  SceneNode.subscribed (SceneNode.new options) = SceneNode.subscribes options.
Proof. by destruct options as [[] fr [o|] po]. Qed.

(** A subscribed node after at least one delivery is the node after the
    last delivery alone. *)
Lemma subscribed_tfUpdateBound n a :
  SceneNode.subscribed (SceneNode.tfUpdateBound n a) = SceneNode.subscribed n.
Proof. apply subscribed_updatePose. Qed.

Lemma deliverAll_last n ts t :
  SceneNode.subscribed n = true →
  SceneNode.deliverAll n (ts ++ [t]) = SceneNode.tfUpdateBound n t.
Proof.
  intros Hsub. unfold SceneNode.deliverAll.
  revert t. induction ts as [|a ts IH] using rev_ind; intros t.
  - simpl. unfold SceneNode.deliver. by rewrite Hsub.
  - rewrite foldl_snoc, IH. unfold SceneNode.deliver.
    rewrite subscribed_tfUpdateBound, Hsub. apply tfUpdateBound_absorbs.
Qed.

End SceneNodeFacts.

Section StoreFacts.
Implicit Types (s : Store.t).

Lemma poseAt_Some s l P :
  Store.poseAt s l = Some P →
  ∃ position orientation,
    Store.cells s !! l = Some (Store.PoseObject position orientation)
    ∧ Store.cells s !! position
      = Some (Store.Plain3 (Msg.x (Msg.position P)) (Msg.y (Msg.position P))
                           (Msg.z (Msg.position P)))
    ∧ Store.cells s !! orientation
      = Some (Store.Plain4 (Msg.qx (Msg.orientation P)) (Msg.qy (Msg.orientation P))
                           (Msg.qz (Msg.orientation P)) (Msg.qw (Msg.orientation P))).
Proof.
  unfold Store.poseAt. intros H.
  destruct (Store.cells s !! l) as [[| |position orientation| | |]|]; try done.
  destruct (Store.cells s !! position) as [[x y z| | | | |]|] eqn:E1; try done.
  destruct (Store.cells s !! orientation) as [[|x' y' z' w'| | | |]|] eqn:E2;
    try done.
  injection H as <-. exists position, orientation. by rewrite E1, E2.
Qed.

Lemma transformAt_Some s l T :
  Store.transformAt s l = Some T →
  ∃ translation rotation,
    Store.cells s !! l = Some (Store.TransformObject translation rotation)
    ∧ Store.cells s !! translation
      = Some (Store.Plain3 (Msg.x (Msg.translation T)) (Msg.y (Msg.translation T))
                           (Msg.z (Msg.translation T)))
    ∧ Store.cells s !! rotation
      = Some (Store.Plain4 (Msg.qx (Msg.rotation T)) (Msg.qy (Msg.rotation T))
                           (Msg.qz (Msg.rotation T)) (Msg.qw (Msg.rotation T))).
Proof.
  unfold Store.transformAt. intros H.
  destruct (Store.cells s !! l) as [[| | |translation rotation| |]|]; try done.
  destruct (Store.cells s !! translation) as [[x y z| | | | |]|] eqn:E1; try done.
  destruct (Store.cells s !! rotation) as [[|x' y' z' w'| | | |]|] eqn:E2;
    try done.
  injection H as <-. exists translation, rotation. by rewrite E1, E2.
Qed.

(** On the store, [applyTransform] returns a new object holding the
    composed pose and leaves every object that existed before the call
    as it was. *)
Lemma store_applyTransform_spec s pose transform P T :
  Store.wf s →
  Store.poseAt s pose = Some P →
  Store.transformAt s transform = Some T →
  ∃ r s',
    Store.applyTransform pose transform s = Ok (r, s')
    ∧ Store.poseAt s' r = Some (applyTransform P T)
    ∧ (∀ l, l < Store.next s → Store.cells s' !! l = Store.cells s !! l)
    ∧ Store.next s ≤ r.
Proof.
  intros Hwf HP HT.
  destruct (poseAt_Some s pose P HP) as (pp & po & Hpose & Hpp & Hpo).
  destruct (transformAt_Some s transform T HT) as (tt & tr & Htrans & Htt & Htr).
  pose proof (Hwf _ _ Hpose). pose proof (Hwf _ _ Hpp). pose proof (Hwf _ _ Hpo).
  pose proof (Hwf _ _ Htrans). pose proof (Hwf _ _ Htt). pose proof (Hwf _ _ Htr).
  destruct s as [cells next]. cbn [Store.cells Store.next] in *.
  unfold Store.applyTransform, Store.readPose, Store.readPlain3, Store.readPlain4,
    Store.readTransform, Store.applyQuaternion, Store.add, Store.premultiply,
    Store.normalize, Store.readVector3, Store.readQuaternion, Store.alloc,
    Store.write.
  cbn [Store.cells Store.next fst snd mbind Result_bind bindR].
  repeat (first [ rewrite lookup_insert_eq
                | rewrite lookup_insert_ne by lia
                | rewrite Hpose | rewrite Hpp | rewrite Hpo
                | rewrite Htrans | rewrite Htt | rewrite Htr ];
          cbn [Store.cells Store.next fst snd mbind Result_bind bindR]).
  eexists _, _. split; [reflexivity|]. split; [|split].
  - unfold Store.poseAt. cbn [Store.cells].
    repeat (first [ rewrite lookup_insert_eq | rewrite lookup_insert_ne by lia ]).
    by destruct P as [[] []], T as [[] []].
  - intros l Hl. cbn [Store.cells].
    repeat (rewrite lookup_insert_ne by lia). done.
  - lia.
Qed.

End StoreFacts.

(** C2: [applyTransform(pose, transform)] is a pure function of its two
    arguments and computes exactly the composition of the specification:
    the position is [pose.position] rotated by [transform.rotation] plus
    [transform.translation], the orientation is the normalization of
    [transform.rotation * pose.orientation].  On the object store, with
    the arguments passed by reference, the call returns a newly allocated
    object holding that pose, whatever else the store contains, and every
    object that existed before the call, the two arguments included, is
    left as it was. *)
Theorem C2_applyTransform_is_compose (pose : Msg.Pose) (transform : Msg.Transform)
    (s : Store.t) (poseRef transformRef : nat) :
  Store.wf s →
  Store.poseAt s poseRef = Some pose →
  Store.transformAt s transformRef = Some transform →
  applyTransform pose transform = Spec.compose pose transform
  ∧ Msg.position (applyTransform pose transform)
    = Spec.point
        (Vector3.add
           (Vector3.applyQuaternion (Spec.vec (Msg.position pose))
                                    (Spec.quat (Msg.rotation transform)))
           (Spec.vec (Msg.translation transform)))
  ∧ Msg.orientation (applyTransform pose transform)
    = Spec.quatMsg
        (Quaternion.normalize
           (Quaternion.multiplyQuaternions (Spec.quat (Msg.rotation transform))
                                           (Spec.quat (Msg.orientation pose))))
  ∧ ∃ r s',
      Store.applyTransform poseRef transformRef s = Ok (r, s')
      ∧ Store.poseAt s' r = Some (Spec.compose pose transform)
      ∧ Store.next s ≤ r
      ∧ (∀ l, l < Store.next s → Store.cells s' !! l = Store.cells s !! l)
      ∧ Store.poseAt s' poseRef = Some pose
      ∧ Store.transformAt s' transformRef = Some transform.
Proof.
  intros Hwf HP HT. do 3 (split; [reflexivity|]).
  destruct (store_applyTransform_spec s poseRef transformRef pose transform Hwf HP HT)
    as (r & s' & Hrun & Hres & Hframe & Hfresh).
  exists r, s'. do 4 (split; [done|]).
  destruct (poseAt_Some s poseRef pose HP) as (pp & po & Hpose & Hpp & Hpo).
  destruct (transformAt_Some s transformRef transform HT)
    as (tt & tr & Htrans & Htt & Htr).
  split.
  - unfold Store.poseAt.
    rewrite (Hframe _ (Hwf _ _ Hpose)), Hpose, (Hframe _ (Hwf _ _ Hpp)), Hpp,
      (Hframe _ (Hwf _ _ Hpo)), Hpo.
    by destruct pose as [[] []].
  - unfold Store.transformAt.
    rewrite (Hframe _ (Hwf _ _ Htrans)), Htrans, (Hframe _ (Hwf _ _ Htt)), Htt,
      (Hframe _ (Hwf _ _ Htr)), Htr.
    by destruct transform as [[] []].
Qed.

(** C2 on the sample store: the call allocates from address 6 on and the
    pose at address 2 is still the one passed in. *)
Lemma C2_witness :
  ∃ r s',
    Store.applyTransform 2 5 Sample.store = Ok (r, s')
    ∧ 6 ≤ r
    ∧ Store.poseAt s' 2 = Some (Msg.mkPose (Msg.mkPoint 1 0 0) (Msg.mkQuat 0 0 0 1)).
Proof.
  destruct (C2_applyTransform_is_compose
              (Msg.mkPose (Msg.mkPoint 1 0 0) (Msg.mkQuat 0 0 0 1)) Sample.turn60
              Sample.store 2 5)
    as (_ & _ & _ & r & s' & Hrun & _ & Hfresh & _ & Hpose & _).
  - intros l o Hl. unfold Sample.store in *. cbn [Store.cells Store.next] in *.
    repeat (apply lookup_insert_Some in Hl as [[<- _]|[_ Hl]]; [lia|]).
    by rewrite lookup_empty in Hl.
  - reflexivity.
  - reflexivity.
  - exists r, s'. split; [exact Hrun|]. split; [exact Hfresh|exact Hpose].
Defined.

(** C1 (as amended): for every initial pose [p] and every sequence of
    transforms [t1..tn] delivered to a scene node subscribed with that
    pose, the node's position is the position of [compose(p, tn)] and its
    orientation is the orientation of [compose(p, tn)] normalized once
    more by the pose setter; the node is a function of [p] and the last
    transform only.  Delivering one transform [N >= 1] times leaves the
    node as one delivery does, and with the identity pose the translations
    (1,0,0) then (2,0,0) leave the node at (2,0,0). *)
Theorem C1_node_pose_from_last_transform {O : Type}
    (options : SceneNode.Options O) (p : Msg.Pose)
    (ts : list Msg.Transform) (t : Msg.Transform) :
  SceneNode.subscribes options = true →
  SceneNode.opt_pose options = Some p →
  SceneNode.position (SceneNode.deliverAll (SceneNode.new options) (ts ++ [t]))
    = Spec.vec (Msg.position (applyTransform p t))
  ∧ SceneNode.quaternion (SceneNode.deliverAll (SceneNode.new options) (ts ++ [t]))
    = Quaternion.normalize (Spec.quat (Msg.orientation (applyTransform p t)))
  ∧ SceneNode.deliverAll (SceneNode.new options) (ts ++ [t])
    = SceneNode.updatePose (SceneNode.new options) (applyTransform p t)
  ∧ SceneNode.deliverAll (SceneNode.new options) (ts ++ [t])
    = SceneNode.deliverAll (SceneNode.new options) [t]
  ∧ (∀ N, 1 ≤ N →
       SceneNode.deliverAll (SceneNode.new options) (replicate N t)
       = SceneNode.deliverAll (SceneNode.new options) [t])
  ∧ (p = Msg.identityPose →
       SceneNode.position
         (SceneNode.deliverAll (SceneNode.new options)
            [Sample.translate 1; Sample.translate 2])
       = Vector3.mk 2 0 0).
Proof.
  intros Hsub Hpose.
  assert (Hs : SceneNode.subscribed (SceneNode.new options) = true)
    by (by rewrite subscribed_new).
  assert (Hlast : ∀ us u,
             SceneNode.deliverAll (SceneNode.new options) (us ++ [u])
             = SceneNode.updatePose (SceneNode.new options) (applyTransform p u)).
  { intros us u. rewrite (deliverAll_last _ _ _ Hs). unfold SceneNode.tfUpdateBound.
    destruct (new_fields options) as (_ & _ & -> & _). by rewrite Hpose. }
  assert (Hone : ∀ u,
             SceneNode.deliverAll (SceneNode.new options) [u]
             = SceneNode.updatePose (SceneNode.new options) (applyTransform p u))
    by (intros u; apply (Hlast [] u)).
  rewrite Hlast.
  destruct (updatePose_fields (SceneNode.new options) (applyTransform p t))
    as (_ & _ & _ & _ & _ & Hp & Hq).
  split; [exact Hp|]. split; [exact Hq|]. split; [done|].
  split; [by rewrite Hone|]. split.
  - intros N HN. destruct N as [|N]; [lia|].
    by rewrite replicate_S_end, Hlast, Hone.
  - intros ->.
    change [Sample.translate 1; Sample.translate 2]
      with ([Sample.translate 1] ++ [Sample.translate 2]).
    rewrite Hlast.
    destruct (updatePose_fields (SceneNode.new options)
                (applyTransform Msg.identityPose (Sample.translate 2)))
      as (_ & _ & _ & _ & _ & -> & _).
    by vm_compute.
Qed.

(** The amended C1 at a concrete node: local pose one metre along x, three
    deliveries ending with a translation by two metres. *)
Lemma C1_witness :
  SceneNode.position
    (SceneNode.deliverAll
       (SceneNode.new (Sample.laserOptions (Some (Msg.mkPose (Msg.mkPoint 1 0 0)
                                                             (Msg.mkQuat 0 0 0 1)))))
       ([Sample.translate 5; Sample.turn60] ++ [Sample.translate 2]))
  = Vector3.mk 3 0 0.
Proof.
  pose proof (C1_node_pose_from_last_transform
                (Sample.laserOptions (Some (Msg.mkPose (Msg.mkPoint 1 0 0)
                                                       (Msg.mkQuat 0 0 0 1))))
                (Msg.mkPose (Msg.mkPoint 1 0 0) (Msg.mkQuat 0 0 0 1))
                [Sample.translate 5; Sample.turn60] (Sample.translate 2)
                eq_refl eq_refl) as (H & _).
  rewrite H. vm_compute. reflexivity.
Defined.

(** C1 as stated fails: after one delivery of a rotation by 60 degrees
    about z to a node with the identity pose, the node's orientation is
    (0, 0, 0.5, 0.8660254037844386) while [compose] returns
    (0, 0, 0.50000000000000011, 0.86602540378443882): the pose setter
    normalizes the already normalized quaternion a second time. *)
Lemma C1_counterexample :
  SceneNode.pose
    (SceneNode.deliverAll (SceneNode.new (Sample.laserOptions (Some Msg.identityPose)))
                          [Sample.turn60])
  ≠ applyTransform Msg.identityPose Sample.turn60.
Proof.
  intros H.
  apply (f_equal (fun P => PrimFloat.eqb (Msg.qz (Msg.orientation P)) 0.5)) in H.
  vm_compute in H. discriminate H.
Qed.

(** C8 (what the code does): a scene node is visible as soon as it is
    constructed, whether or not a transform store and a frame are given:
    [#setup] sets [visible = false] and then calls [updatePose], which
    sets [visible = true].  In particular a node constructed with both a
    store and a frame is visible before any transform is delivered. *)
Theorem C8_visible_from_construction {O : Type} (options : SceneNode.Options O) :
  SceneNode.visible (SceneNode.new options) = true
  ∧ SceneNode.visible (SceneNode.deliverAll (SceneNode.new options) []) = true
  ∧ SceneNode.visible (SceneNode.new (Sample.laserOptions None)) = true
  ∧ SceneNode.subscribes (Sample.laserOptions None) = true.
Proof. destruct options as [tf fr [o|] po]; by repeat split. Qed.

(** ** Interactive marker: buffering of server poses during a drag *)

Section DragFacts.
Import InteractiveMarker.
Implicit Types (m : InteractiveMarker.t) (e : PoseEvent) (steps : list DragStep).

(** While dragging, a server pose only replaces the buffer. *)
Lemma onServerSetPose_dragging m e :
  dragging m = true →
  onServerSetPose m (Some e)
  = mk true (position m) (quaternion m) (Some e) (dragStartPosition m)
       (dragStartOrientation m) (dispatched m) (applied m).
Proof. intros H. unfold onServerSetPose. by rewrite H. Qed.

Lemma step_dragging m s :
  dragging m = true →
  dragging (step m s) = true
  ∧ applied (step m s) = applied m
  ∧ bufferedPoseEvent (step m s)
    = match s with ServerPose e => Some e | _ => bufferedPoseEvent m end
  ∧ (∀ e, s = ServerPose e →
       position (step m s) = position m ∧ quaternion (step m s) = quaternion m).
Proof.
  intros H. destruct s as [e|c p|c q]; unfold step.
  - rewrite (onServerSetPose_dragging _ _ H). by repeat split.
  - simpl. by repeat split.
  - simpl. by repeat split.
Qed.

Lemma run_dragging steps : ∀ m,
  dragging m = true →
  dragging (run m steps) = true
  ∧ applied (run m steps) = applied m
  ∧ bufferedPoseEvent (run m steps)
    = from_option Some (bufferedPoseEvent m) (last (serverPoses steps)).
Proof.
  induction steps as [|s steps IH]; intros m H; [done|].
  destruct (step_dragging m s H) as (Hd & Ha & Hb & _).
  destruct (IH (step m s) Hd) as (Hd' & Ha' & Hb').
  unfold run in *. simpl. rewrite Hd', Ha', Ha, Hb', Hb.
  repeat split. destruct s as [e|c p|c q]; try done.
  change (serverPoses (ServerPose e :: steps)) with (e :: serverPoses steps).
  generalize (serverPoses steps). intros [|x l]; [done|].
  change (last (e :: x :: l)) with (last (x :: l)).
  destruct (last (x :: l)) eqn:E; [done|]. by apply last_None in E.
Qed.

(** Releasing the primary button applies the buffered event, if any,
    once, and empties the buffer. *)
Lemma stopDrag_applies_buffer m c :
  applied (stopDrag m c 0) = applied m ++ option_list (pose <$> bufferedPoseEvent m)
  ∧ bufferedPoseEvent (stopDrag m c 0) = None
  ∧ dragging (stopDrag m c 0) = false
  ∧ position (stopDrag m c 0)
    = from_option (fun e => copyPoint (Msg.position (pose e))) (position m)
                  (bufferedPoseEvent m)
  ∧ quaternion (stopDrag m c 0)
    = from_option (fun e => copyQuat (Msg.orientation (pose e))) (quaternion m)
                  (bufferedPoseEvent m).
Proof.
  unfold stopDrag. simpl. destruct (bufferedPoseEvent m) as [e|]; simpl.
  - by repeat split.
  - repeat split. by rewrite app_nil_r.
Qed.

End DragFacts.

(** C5: while an interactive marker is dragging, a server pose event never
    reaches the marker's position or orientation; it replaces a one-slot
    buffer, the last one winning.  Releasing the primary button applies
    the buffered event once and clears the buffer: a press, then steps
    among which [k >= 1] server poses arrive, then a release, apply exactly
    one pose, the k-th, and none during the drag. *)
Theorem C5_drag_buffers_server_poses
    (m : InteractiveMarker.t) (c c' : string)
    (steps : list InteractiveMarker.DragStep)
    (es : list InteractiveMarker.PoseEvent) (e : InteractiveMarker.PoseEvent) :
  InteractiveMarker.serverPoses steps = es ++ [e] →
  (∀ pre suf, steps = pre ++ suf →
     InteractiveMarker.applied
       (InteractiveMarker.run (InteractiveMarker.startDrag m c 0) pre)
     = InteractiveMarker.applied m)
  ∧ (∀ pre e' suf, steps = pre ++ InteractiveMarker.ServerPose e' :: suf →
       let before := InteractiveMarker.run (InteractiveMarker.startDrag m c 0) pre in
       let after := InteractiveMarker.step before (InteractiveMarker.ServerPose e') in
       InteractiveMarker.position after = InteractiveMarker.position before
       ∧ InteractiveMarker.quaternion after = InteractiveMarker.quaternion before
       ∧ InteractiveMarker.bufferedPoseEvent after = Some e')
  ∧ InteractiveMarker.bufferedPoseEvent
      (InteractiveMarker.run (InteractiveMarker.startDrag m c 0) steps) = Some e
  ∧ (let released :=
       InteractiveMarker.stopDrag
         (InteractiveMarker.run (InteractiveMarker.startDrag m c 0) steps) c' 0 in
     InteractiveMarker.applied released
       = InteractiveMarker.applied m ++ [InteractiveMarker.pose e]
     ∧ InteractiveMarker.position released
       = InteractiveMarker.copyPoint (Msg.position (InteractiveMarker.pose e))
     ∧ InteractiveMarker.quaternion released
       = InteractiveMarker.copyQuat (Msg.orientation (InteractiveMarker.pose e))
     ∧ InteractiveMarker.bufferedPoseEvent released = None
     ∧ InteractiveMarker.dragging released = false).
Proof.
  intros Hposes.
  set (m1 := InteractiveMarker.startDrag m c 0).
  assert (Hd1 : InteractiveMarker.dragging m1 = true) by done.
  assert (Ha1 : InteractiveMarker.applied m1 = InteractiveMarker.applied m) by done.
  split; [|split; [|split]].
  - intros pre suf _. destruct (run_dragging pre m1 Hd1) as (_ & -> & _). done.
  - intros pre e' suf _. simpl.
    destruct (run_dragging pre m1 Hd1) as (Hd & _ & _).
    destruct (step_dragging _ (InteractiveMarker.ServerPose e') Hd)
      as (_ & _ & Hb & Hpq).
    destruct (Hpq e' eq_refl) as (Hp & Hq). by repeat split.
  - destruct (run_dragging steps m1 Hd1) as (_ & _ & ->).
    by rewrite Hposes, last_snoc.
  - destruct (run_dragging steps m1 Hd1) as (Hd & Ha & Hb).
    rewrite Hposes, last_snoc in Hb. simpl in Hb.
    destruct (stopDrag_applies_buffer
                (InteractiveMarker.run m1 steps) c') as (Hs & Hn & Hf & Hp & Hq).
    cbv zeta. rewrite Hs, Hn, Hf, Hp, Hq, Hb, Ha, Ha1. by repeat split.
Qed.

(** C5 on a marker created at the origin: three server poses during the
    drag, the third one applied at the release. *)
Lemma C5_witness :
  InteractiveMarker.applied
    (InteractiveMarker.stopDrag
       (InteractiveMarker.run
          (InteractiveMarker.startDrag (InteractiveMarker.new (SampleDrag.poseAt 0))
                                       "move_x" 0)
          SampleDrag.steps)
       "move_x" 0)
  = [SampleDrag.poseAt 0; SampleDrag.poseAt 3].
Proof.
  pose proof (C5_drag_buffers_server_poses
                (InteractiveMarker.new (SampleDrag.poseAt 0)) "move_x" "move_x"
                SampleDrag.steps
                [InteractiveMarker.mkPoseEvent (SampleDrag.poseAt 1);
                 InteractiveMarker.mkPoseEvent (SampleDrag.poseAt 2)]
                (InteractiveMarker.mkPoseEvent (SampleDrag.poseAt 3))
                eq_refl) as (_ & _ & _ & H & _).
  exact H.
Defined.

(** ** Geometric intersection helpers *)

(** [findClosestPoint] answers [undefined] exactly when the absolute value
    of its denominator is at most 0.0001. *)
Lemma findClosestPoint_undefined_iff (targetRay mouseRay : Geometry.Ray) :
  Geometry.findClosestPoint targetRay mouseRay = None
  ↔ JS.le (JS.Math_abs (Geometry.denom targetRay mouseRay)) 0.0001 = true.
Proof.
  unfold Geometry.findClosestPoint, Geometry.denom.
  destruct (JS.le _ _); split; intros; done.
Qed.

(** [intersectPlane] answers [undefined] exactly when the ray carries a
    [precision] and the absolute dot product is below it. *)
Lemma intersectPlane_undefined_iff (mouseRay : Geometry.Ray)
    (planeOrigin planeNormal : Vector3.t) :
  Geometry.intersectPlane mouseRay planeOrigin planeNormal = None
  ↔ ∃ eps, Geometry.precision mouseRay = Some eps
           ∧ JS.lt (JS.Math_abs (Vector3.dot (Geometry.direction mouseRay) planeNormal))
                   eps = true.
Proof.
  unfold Geometry.intersectPlane, JS.lt_maybe.
  destruct (Geometry.precision mouseRay) as [eps|].
  - destruct (JS.lt _ eps) eqn:E; split.
    + intros _. by exists eps.
    + done.
    + done.
    + intros (eps' & [= <-] & H). congruence.
  - split; [done|]. by intros (eps & ? & _).
Qed.

(** C9 (what the code does): for a ray built by [new THREE.Ray(origin,
    direction)], which has no [precision] property, [intersectPlane] never
    answers [undefined]; for the ray along x and the plane z = 1, parallel
    to it, the dot product is 0, the division by it is carried out, and
    the answer is the point (Infinity, NaN, NaN).  [findClosestPoint] on
    two copies of that ray, which are parallel, does answer [undefined]. *)
Theorem C9_intersectPlane_divides_by_zero :
  (∀ origin direction planeOrigin planeNormal,
     Geometry.intersectPlane (Geometry.newRay origin direction) planeOrigin planeNormal
     ≠ None)
  ∧ Vector3.dot (Geometry.direction SampleRays.alongX) SampleRays.planeNormal = 0%float
  ∧ Geometry.intersectPlane SampleRays.alongX SampleRays.planeOrigin
                            SampleRays.planeNormal
    = Some (Vector3.mk infinity nan nan)
  ∧ Geometry.findClosestPoint SampleRays.alongX SampleRays.alongX = None.
Proof.
  split; [|by vm_compute].
  intros origin direction planeOrigin planeNormal H.
  apply intersectPlane_undefined_iff in H. by destruct H as (eps & ? & _).
Qed.

(** ** Point-stream decoders *)

Section TypedArrayFacts.

Lemma store_length (a : list float) i v : length (TypedArray.store a i v) = length a.
Proof. apply length_insert. Qed.

Lemma storeAll_length vals : ∀ arr j, length (Stream.storeAll arr j vals) = length arr.
Proof.
  induction vals as [|v vals IH]; intros arr j; simpl; [done|].
  by rewrite IH, store_length.
Qed.

Lemma storeAll_below vals : ∀ arr j i,
  i < j → Stream.storeAll arr j vals !! i = arr !! i.
Proof.
  induction vals as [|v vals IH]; intros arr j i Hi; simpl; [done|].
  rewrite IH by lia. unfold TypedArray.store. apply list_lookup_insert_ne. lia.
Qed.

(** Inside the array, the [k]-th stored value is found, rounded to
    binary32, at offset [k] from the start index. *)
Lemma storeAll_lookup vals : ∀ arr j k v,
  vals !! k = Some v → j + k < length arr →
  Stream.storeAll arr j vals !! (j + k) = Some (TypedArray.Math_fround v).
Proof.
  induction vals as [|w vals IH]; intros arr j k v Hk Hlen; [done|].
  destruct k as [|k]; simpl in *.
  - injection Hk as ->. rewrite storeAll_below by lia.
    replace (j + 0) with j in * by lia.
    unfold TypedArray.store. by rewrite list_lookup_insert_eq.
  - replace (j + S k) with (S j + k) by lia.
    apply IH; [done|]. rewrite store_length. lia.
Qed.

Lemma storeAll_above vals : ∀ arr j i,
  j + length vals ≤ i → Stream.storeAll arr j vals !! i = arr !! i.
Proof.
  induction vals as [|v vals IH]; intros arr j i Hi; simpl in *; [done|].
  rewrite IH by lia. unfold TypedArray.store. apply list_lookup_insert_ne. lia.
Qed.

Lemma storeAll_app vals1 vals2 arr j :
  Stream.storeAll arr j (vals1 ++ vals2)
  = Stream.storeAll (Stream.storeAll arr j vals1) (j + length vals1) vals2.
Proof.
  revert arr j. induction vals1 as [|v vals1 IH]; intros arr j; simpl.
  - by replace (j + 0) with j by lia.
  - rewrite IH. by replace (S j + length vals1) with (j + S (length vals1)) by lia.
Qed.

End TypedArrayFacts.

Section ScanFacts.
Context `{Host}.
Implicit Types (message : LaserScan.Message).

Lemma scanLoop_walk message ratio : ∀ fuel i j arr,
  1 ≤ ratio → length (LaserScan.ranges message) - i ≤ fuel →
  LaserScan.scanLoop fuel message ratio i j arr
  = Some (foldl (Stream.emit message) (j, arr)
                (Stream.walk (length (LaserScan.ranges message)) ratio fuel i)).
Proof.
  intros fuel. induction fuel as [|fuel IH]; intros i j arr Hr Hfuel; simpl.
  - destruct (Nat.leb_spec (length (LaserScan.ranges message)) i); [done|lia].
  - destruct (Nat.leb_spec (length (LaserScan.ranges message)) i); [done|].
    simpl. unfold Stream.emit at 2. simpl.
    destruct (LaserScan.accepted message (LaserScan.rangeAt message i)).
    + rewrite IH by lia. do 3 f_equal.
      by replace (j + 1) with (S j) by lia; replace (j + 2) with (S (S j)) by lia.
    + by rewrite IH by lia.
Qed.

Lemma walk_sampled n ratio : ∀ fuel k,
  1 ≤ ratio → n - k * ratio ≤ fuel →
  Stream.walk n ratio fuel (k * ratio)
  = map (fun k' => k' * ratio) (seq k ((n + ratio - 1) / ratio - k)).
Proof.
  intros fuel. induction fuel as [|fuel IH]; intros k Hr Hfuel; simpl.
  - destruct (Nat.leb_spec n (k * ratio)); [|lia].
    assert ((n + ratio - 1) / ratio ≤ k).
    { apply Nat.lt_succ_r, Nat.Div0.div_lt_upper_bound; nia. }
    by replace ((n + ratio - 1) / ratio - k) with 0 by lia.
  - destruct (Nat.leb_spec n (k * ratio)).
    + assert ((n + ratio - 1) / ratio ≤ k).
      { apply Nat.lt_succ_r, Nat.Div0.div_lt_upper_bound; nia. }
      by replace ((n + ratio - 1) / ratio - k) with 0 by lia.
    + assert (S k ≤ (n + ratio - 1) / ratio).
      { apply Nat.div_le_lower_bound; nia. }
      replace ((n + ratio - 1) / ratio - k)
        with (S ((n + ratio - 1) / ratio - S k)) by lia.
      simpl. f_equal.
      replace (k * ratio + ratio) with (S k * ratio) by lia.
      apply IH; [done|]. nia.
Qed.

Lemma foldl_emit message idxs : ∀ j arr,
  foldl (Stream.emit message) (j, arr) idxs
  = (j + 3 * length (filter (fun i => LaserScan.accepted message
                                        (LaserScan.rangeAt message i) = true) idxs),
     Stream.storeAll arr j
       (flat_map (Stream.triple message)
          (filter (fun i => LaserScan.accepted message
                              (LaserScan.rangeAt message i) = true) idxs))).
Proof.
  induction idxs as [|i idxs IH]; intros j arr.
  - rewrite filter_nil. simpl. f_equal. lia.
  - rewrite filter_cons. cbn [foldl]. unfold Stream.emit at 2. cbn [fst snd].
    destruct (LaserScan.accepted message (LaserScan.rangeAt message i)) eqn:E.
    + rewrite IH. rewrite decide_True by done. cbn [length flat_map].
      rewrite storeAll_app. f_equal; first [lia | reflexivity].
    + rewrite IH. rewrite decide_False by congruence. reflexivity.
Qed.

(** With a ratio of at least one the scan loop returns, having counted
    and written the accepted samples in order. *)
Lemma scanLoop_spec message ratio arr :
  1 ≤ ratio →
  LaserScan.scanLoop (length (LaserScan.ranges message)) message ratio 0 0 arr
  = Some (3 * length (Stream.acceptedIndices message ratio),
          Stream.storeAll arr 0
            (flat_map (Stream.triple message) (Stream.acceptedIndices message ratio))).
Proof.
  intros Hr. rewrite scanLoop_walk by lia.
  pose proof (walk_sampled (length (LaserScan.ranges message)) ratio
                (length (LaserScan.ranges message)) 0 Hr) as Hw.
  simpl in Hw. rewrite Hw by lia. rewrite foldl_emit.
  unfold Stream.acceptedIndices, Stream.sampledIndices.
  by rewrite Nat.sub_0_r.
Qed.

(** The visited indices are the multiples of the ratio below the length. *)
Lemma sampledIndices_spec n ratio i :
  1 ≤ ratio →
  i ∈ Stream.sampledIndices n ratio ↔ i < n ∧ (ratio | i).
Proof.
  intros Hr. unfold Stream.sampledIndices. rewrite list_elem_of_fmap. split.
  - intros (k & -> & Hk). apply elem_of_seq in Hk. split.
    + destruct (Nat.lt_ge_cases (k * ratio) n) as [|Hge]; [done|].
      assert ((n + ratio - 1) / ratio ≤ k); [|lia].
      apply Nat.lt_succ_r, Nat.Div0.div_lt_upper_bound; nia.
    + by exists k.
  - intros (Hi & k & ->). exists k. split; [done|]. apply elem_of_seq.
    split; [lia|]. simpl.
    apply Nat.lt_le_trans with (S k); [lia|].
    apply Nat.div_le_lower_bound; nia.
Qed.

End ScanFacts.

Section SetupFacts.
Context `{Host}.

Lemma Float32Array_length n : length (TypedArray.Float32Array n) = n.
Proof. apply length_replicate. Qed.

(** What [setup] leaves behind: the helper is set up, its capacity and
    ratios are unchanged, and its position array has three slots per
    point of capacity. *)
Lemma setup_spec (pts : Points.t) frame point_step fields' :
  Stream.inv pts →
  ∃ pts' p,
    Points.setup pts frame point_step fields'
    = (Points.mod_is_zero (Points.messageCount pts) (Points.messageRatio pts), pts')
    ∧ Points.positions pts' = Some p
    ∧ length (array p) = Points.max_pts pts * 3
    ∧ Points.max_pts pts' = Points.max_pts pts
    ∧ Points.pointRatio pts' = Points.pointRatio pts
    ∧ Points.messageRatio pts' = Points.messageRatio pts
    ∧ Points.messageCount pts' = S (Points.messageCount pts)
    ∧ Stream.inv pts'.
Proof.
  intros Hinv. unfold Points.setup, Stream.inv in *.
  destruct (Points.sn pts) as [node|] eqn:Hsn.
  - destruct Hinv as ((p & Hp & Hlen) & Hc).
    eexists _, p. split; [reflexivity|]. simpl. rewrite Hsn.
    repeat split; try done; try (by exists p); by destruct (Hc _ H0).
  - eexists _, _. split; [reflexivity|].
    unfold Points.build. cbn [Points.positions Points.max_pts Points.pointRatio
      Points.messageRatio Points.messageCount Points.sn Points.colors
      Points.colormap array].
    rewrite Hinv.
    split; [reflexivity|]. cbn [array]. rewrite Float32Array_length.
    do 5 (split; [reflexivity|]). split.
    + eexists. split; [reflexivity|]. simpl. by rewrite Float32Array_length.
    + intros c. destruct (Points.truthy (Points.colorField _ _)); [|done].
      intros [= <-]. cbn [array]. rewrite Float32Array_length. split; [done|].
      eexists. reflexivity.
Qed.

End SetupFacts.

Section ScanHandler.
Context `{Host}.

(** The scan handler on a message that passes both gates: it returns,
    the draw count is the number of accepted samples, and the position
    array is the one after set-up with the accepted triples stored from
    index 0 on. *)
Lemma scan_processMessage_spec (this : LaserScan.t) (message : LaserScan.Message) :
  Stream.inv (LaserScan.points this) →
  1 ≤ Points.pointRatio (LaserScan.points this) →
  Stream.scanProcessed this = true →
  ∃ this' p p',
    LaserScan.processMessage this message = Some (Ok this')
    ∧ length (array p) = Points.max_pts (LaserScan.points this) * 3
    ∧ Points.positions (LaserScan.points this') = Some p'
    ∧ array p'
      = Stream.storeAll (array p) 0
          (flat_map (Stream.triple message)
             (Stream.acceptedIndices message
                (Points.pointRatio (LaserScan.points this))))
    ∧ count p'
      = length (Stream.acceptedIndices message
                  (Points.pointRatio (LaserScan.points this)))
    ∧ Points.drawRange (LaserScan.points this')
      = length (Stream.acceptedIndices message
                  (Points.pointRatio (LaserScan.points this)))
    ∧ Points.max_pts (LaserScan.points this')
      = Points.max_pts (LaserScan.points this).
Proof.
  intros Hinv Hr Hgate. unfold Stream.scanProcessed in Hgate.
  apply andb_prop in Hgate as [Hg1 Hg2].
  destruct (setup_spec (LaserScan.points this) (LaserScan.frame_id message) 0 []
              Hinv) as (pts' & p & Hsetup & Hp & Hlen & Hmax & Hratio & _).
  unfold LaserScan.processMessage.
  cbn [LaserScan.messageRatio LaserScan.messageCounter LaserScan.points].
  rewrite Hg1, Hsetup, Hg2. cbn [negb LaserScan.points].
  rewrite Hp, Hratio, (scanLoop_spec message _ (array p) Hr).
  unfold Points.update, Points.with_buffers. cbn [Points.positions Points.colors].
  rewrite Nat.mul_comm, Nat.div_mul by done.
  destruct (Points.colors pts') as [c|];
    (eexists _, p, _; split; [reflexivity|]; by repeat split).
Qed.

(** The same, naming the array the loop starts from: the one [setup]
    leaves. *)
Lemma scan_processMessage_array (this : LaserScan.t) (message : LaserScan.Message) :
  Stream.inv (LaserScan.points this) →
  1 ≤ Points.pointRatio (LaserScan.points this) →
  Stream.scanProcessed this = true →
  ∃ this' p p',
    LaserScan.processMessage this message = Some (Ok this')
    ∧ Points.positions
        (Points.setup (LaserScan.points this) (LaserScan.frame_id message) 0 []).2
      = Some p
    ∧ Points.positions (LaserScan.points this') = Some p'
    ∧ array p'
      = Stream.storeAll (array p) 0
          (flat_map (Stream.triple message)
             (Stream.acceptedIndices message
                (Points.pointRatio (LaserScan.points this)))).
Proof.
  intros Hinv Hr Hgate. unfold Stream.scanProcessed in Hgate.
  apply andb_prop in Hgate as [Hg1 Hg2].
  destruct (setup_spec (LaserScan.points this) (LaserScan.frame_id message) 0 []
              Hinv) as (pts' & p & Hsetup & Hp & Hlen & Hmax & Hratio & _).
  unfold LaserScan.processMessage.
  cbn [LaserScan.messageRatio LaserScan.messageCounter LaserScan.points].
  rewrite Hg1, Hsetup, Hg2. cbn [negb LaserScan.points snd].
  rewrite Hp, Hratio, (scanLoop_spec message _ (array p) Hr).
  unfold Points.update, Points.with_buffers. cbn [Points.positions Points.colors].
  destruct (Points.colors pts') as [c|];
    (eexists _, p, _; split; [reflexivity|]; by repeat split).
Qed.

(** Nothing bounds the draw count of the scan handler: it is the number
    of accepted samples, whatever the capacity. *)
Lemma scan_draw_count_unbounded (this : LaserScan.t) (message : LaserScan.Message) :
  Stream.inv (LaserScan.points this) →
  1 ≤ Points.pointRatio (LaserScan.points this) →
  Stream.scanProcessed this = true →
  Points.max_pts (LaserScan.points this)
    < length (Stream.acceptedIndices message
                (Points.pointRatio (LaserScan.points this))) →
  ∃ this' (n : nat),
    LaserScan.processMessage this message = Some (Ok this')
    ∧ Points.drawRange (LaserScan.points this') = n
    ∧ Points.max_pts (LaserScan.points this') < n.
Proof.
  intros Hinv Hr Hgate Hmany.
  destruct (scan_processMessage_spec this message Hinv Hr Hgate)
    as (this' & p & p' & Hrun & _ & _ & _ & _ & Hdraw & Hmax).
  eexists this', _. split; [done|]. split; [exact Hdraw|]. by rewrite Hmax.
Qed.

End ScanHandler.

Section FloatOrder.
Import SpecFloat.

Lemma SFcompare_antisym f1 f2 :
  SFcompare f2 f1 = CompOpp <$> SFcompare f1 f2.
Proof.
  destruct f1 as [s1|s1| |s1 m1 e1], f2 as [s2|s2| |s2 m2 e2]; cbn;
    try reflexivity; try (by destruct s1, s2); try (by destruct s1);
    try (by destruct s2).
  pose proof (Pos.compare_cont_antisym m1 m2 Eq) as Hm. cbn in Hm.
  destruct s1, s2; cbn; try reflexivity.
  - rewrite (Z.compare_antisym e1 e2).
    destruct (e1 ?= e2)%Z; cbn; try reflexivity.
    by rewrite <- Hm.
  - rewrite (Z.compare_antisym e1 e2).
    destruct (e1 ?= e2)%Z; cbn; try reflexivity.
    by rewrite <- Hm.
Qed.

(** [a < b] excludes [a >= b]. *)
Lemma lt_not_ge (a b : float) : JS.lt a b = true → JS.ge a b = false.
Proof.
  unfold JS.lt, JS.ge. rewrite FloatAxioms.ltb_spec, FloatAxioms.leb_spec.
  unfold SFltb, SFleb. rewrite (SFcompare_antisym (Prim2SF a) (Prim2SF b)).
  by destruct (SFcompare (Prim2SF a) (Prim2SF b)) as [[| |]|].
Qed.

(** [a < b] excludes [b <= a]. *)
Lemma lt_not_le (a b : float) : JS.lt a b = true → JS.le b a = false.
Proof. apply lt_not_ge. Qed.

End FloatOrder.

Section ScanOrder.
Context `{Host}.

Lemma seq_increasing start len : StronglySorted lt (seq start len).
Proof.
  revert start. induction len as [|len IH]; intros start; cbn; constructor.
  - apply IH.
  - apply Forall_forall. intros k Hk. apply elem_of_seq in Hk. lia.
Qed.

Lemma filter_increasing (P : nat → Prop) `{∀ i, Decision (P i)} (l : list nat) :
  StronglySorted lt l → StronglySorted lt (filter P l).
Proof.
  induction 1 as [|i l Hl IH Hall]; [constructor|].
  rewrite filter_cons. destruct (decide (P i)); [|done].
  constructor; [done|]. apply Forall_forall. intros k Hk.
  apply list_elem_of_filter in Hk as [_ Hk].
  by apply (proj1 (Forall_forall _ _) Hall).
Qed.

(** The accepted indices come in increasing order. *)
Lemma acceptedIndices_increasing (message : LaserScan.Message) ratio :
  1 ≤ ratio → StronglySorted lt (Stream.acceptedIndices message ratio).
Proof.
  intros Hr. unfold Stream.acceptedIndices, Stream.sampledIndices.
  apply filter_increasing.
  apply (StronglySorted_fmap (λ k, k * ratio) lt lt); [|apply seq_increasing].
  intros a b Hab. nia.
Qed.

(** The values an accepted sample assigns, written out. *)
Lemma triple_spec (message : LaserScan.Message) i r :
  LaserScan.ranges message !! i = Some r →
  Stream.triple message i
  = [(r * Math_cos (LaserScan.angle_min message
                    + of_uint63 (Uint63.of_Z (Z.of_nat i))
                      * LaserScan.angle_increment message))%float;
     (r * Math_sin (LaserScan.angle_min message
                    + of_uint63 (Uint63.of_Z (Z.of_nat i))
                      * LaserScan.angle_increment message))%float;
     0%float].
Proof.
  intros Hr. unfold Stream.triple, LaserScan.sampleX, LaserScan.sampleY,
    LaserScan.rangeAt, LaserScan.number_of_nat, DataView.number_of_Z.
  rewrite Hr. cbn [default from_option id].
  by rewrite (proj2 (Z.ltb_ge (Z.of_nat i) 0)) by lia.
Qed.

(** Where the values of the [k]-th accepted sample sit among all the
    values stored. *)
Lemma flat_triples_length (message : LaserScan.Message) (l : list nat) :
  length (flat_map (Stream.triple message) l) = 3 * length l.
Proof. induction l as [|a l IH]; cbn in *; lia. Qed.

Lemma flat_triples_lookup (message : LaserScan.Message) (l : list nat) :
  ∀ k i d v,
    l !! k = Some i → Stream.triple message i !! d = Some v →
    flat_map (Stream.triple message) l !! (3 * k + d) = Some v.
Proof.
  induction l as [|a l IH]; intros k i d v Hk Hd; [done|].
  apply (lookup_lt_Some (Stream.triple message i)) in Hd as Hdlt.
  cbn in Hdlt. destruct k as [|k]; cbn in Hk.
  - injection Hk as ->. cbn [flat_map]. replace (3 * 0 + d) with d by lia.
    by rewrite lookup_app_l by (cbn; lia).
  - cbn [flat_map]. rewrite lookup_app_r by (cbn; lia).
    replace (3 * S k + d - length (Stream.triple message a))
      with (3 * k + d) by (cbn; lia).
    by apply (IH k i).
Qed.

End ScanOrder.

(** C6 (amended): for every scan message that passes the message gates,
    with a subsampling ratio of at least one, the samples that yield a
    point are those at the visited indices [i] (the multiples of the
    ratio below the number of ranges) with
    [range_min <= ranges[i] <= range_max], taken in increasing order; draw
    range and attribute count are their number; the [k]-th of them, while
    [k < max_pts], is stored at positions [3k], [3k+1], [3k+2] as
    [ranges[i] * cos(angle)], [ranges[i] * sin(angle)] and [0] with
    [angle = angle_min + i * angle_increment], each rounded to binary32 by
    the array, which keeps its [3 * max_pts] slots (an accepted sample
    beyond the capacity is counted and not stored), and the slots after
    those of the accepted samples hold what they held before (zeros in a
    fresh array): a rejected sample leaves no trace.  The scan
    [range_min - 0.01, 5, range_max + 0.01] with 5 within the bounds
    yields exactly one point, the middle sample, provided the two outer
    ranges really lie outside the bounds, that is unless the bound is so
    large that subtracting or adding 0.01 is lost to rounding. *)
Theorem C6_scan_keeps_samples_within_bounds `{Host}
    (this : LaserScan.t) (message : LaserScan.Message) :
  let ratio := Points.pointRatio (LaserScan.points this) in
  let max_pts := Points.max_pts (LaserScan.points this) in
  let lo := LaserScan.range_min message in
  let hi := LaserScan.range_max message in
  Stream.inv (LaserScan.points this) →
  1 ≤ ratio →
  Stream.scanProcessed this = true →
  ∃ this' p' (accepted : list nat),
    LaserScan.processMessage this message = Some (Ok this')
    ∧ Points.positions (LaserScan.points this') = Some p'
    ∧ (∀ i, i ∈ accepted
          ↔ ∃ r, LaserScan.ranges message !! i = Some r
                 ∧ (ratio | i)
                 ∧ JS.ge r lo = true ∧ JS.le r hi = true)
    ∧ StronglySorted lt accepted
    ∧ Points.drawRange (LaserScan.points this') = length accepted
    ∧ count p' = length accepted
    ∧ length (array p') = max_pts * 3
    ∧ (∀ k i r,
         accepted !! k = Some i →
         LaserScan.ranges message !! i = Some r →
         k < max_pts →
         let angle :=
           (LaserScan.angle_min message
            + of_uint63 (Uint63.of_Z (Z.of_nat i))
              * LaserScan.angle_increment message)%float in
         array p' !! (3 * k) = Some (TypedArray.Math_fround (r * Math_cos angle))
         ∧ array p' !! (3 * k + 1) = Some (TypedArray.Math_fround (r * Math_sin angle))
         ∧ array p' !! (3 * k + 2) = Some 0%float)
    ∧ (∀ p0 j, is_Some (Points.sn (LaserScan.points this)) →
               Points.positions (LaserScan.points this) = Some p0 →
               3 * length accepted ≤ j → array p' !! j = array p0 !! j)
    ∧ (∀ j, Points.sn (LaserScan.points this) = None →
            3 * length accepted ≤ j → j < max_pts * 3 →
            array p' !! j = Some 0%float)
    ∧ (ratio = 1 →
       LaserScan.ranges message = [(lo - 0.01)%float; 5%float; (hi + 0.01)%float] →
       JS.le lo 5 = true → JS.le 5 hi = true →
       JS.lt (lo - 0.01) lo = true → JS.lt hi (hi + 0.01) = true →
       accepted = [1]
       ∧ Points.drawRange (LaserScan.points this') = 1).
Proof.
  intros ratio max_pts lo hi Hinv Hr Hgate.
  destruct (scan_processMessage_spec this message Hinv Hr Hgate)
    as (this' & p & p' & Hrun & Hlen & Hp' & Harr & Hcount & Hdraw & Hmax).
  fold ratio in Harr, Hcount, Hdraw. fold max_pts in Hlen.
  exists this', p', (Stream.acceptedIndices message ratio).
  split; [done|]. split; [done|]. split.
  { intros i. unfold Stream.acceptedIndices. rewrite list_elem_of_filter.
    rewrite (sampledIndices_spec _ _ _ Hr). unfold LaserScan.accepted, LaserScan.rangeAt.
    rewrite andb_true_iff. split.
    - intros (Hacc & Hi & Hdiv).
      destruct (lookup_lt_is_Some_2 (LaserScan.ranges message) i Hi) as [r Hri].
      rewrite Hri in Hacc. exists r. tauto.
    - intros (r & Hri & Hdiv & Hge & Hle). rewrite Hri.
      apply lookup_lt_Some in Hri as Hi. tauto. }
  split; [by apply acceptedIndices_increasing|].
  split; [done|]. split; [done|].
  split; [by rewrite Harr, storeAll_length|].
  destruct (scan_processMessage_array this message Hinv Hr Hgate)
    as (this2 & q & q' & Hrun2 & Hq & Hq' & Harr2).
  rewrite Hrun in Hrun2. injection Hrun2 as <-.
  rewrite Hp' in Hq'. injection Hq' as <-. fold ratio in Harr2.
  assert (Hrest : ∀ j, 3 * length (Stream.acceptedIndices message ratio) ≤ j →
                       array p' !! j = array q !! j).
  { intros j Hj. rewrite Harr2. apply storeAll_above.
    rewrite flat_triples_length. lia. }
  split; [|split; [|split]].
  - intros k i r Hk Hri Hcap angle. rewrite Harr.
    pose proof (triple_spec message i r Hri) as Htriple. fold angle in Htriple.
    assert (Hflat : ∀ d v, Stream.triple message i !! d = Some v →
              Stream.storeAll (array p) 0
                (flat_map (Stream.triple message)
                          (Stream.acceptedIndices message ratio)) !! (3 * k + d)
              = Some (TypedArray.Math_fround v)).
    { intros d v Hd.
      apply (lookup_lt_Some (Stream.triple message i)) in Hd as Hdlt.
      cbn in Hdlt.
      replace (3 * k + d) with (0 + (3 * k + d)) by lia.
      apply storeAll_lookup; [by apply (flat_triples_lookup message _ k i)|lia]. }
    split; [|split].
    + replace (3 * k) with (3 * k + 0) by lia. apply Hflat. by rewrite Htriple.
    + apply Hflat. by rewrite Htriple.
    + rewrite (Hflat 2 0%float) by (by rewrite Htriple). reflexivity.
  - intros p0 j [node Hsn] Hp0 Hj. rewrite (Hrest j Hj).
    unfold Points.setup in Hq. rewrite Hsn in Hq. cbn in Hq. congruence.
  - intros j Hsn Hj Hcap. rewrite (Hrest j Hj).
    unfold Points.setup in Hq. rewrite Hsn in Hq. cbn in Hq.
    injection Hq as <-. cbn [array]. unfold TypedArray.Float32Array.
    by apply lookup_replicate_2.
  - intros Hone Hranges Hmid1 Hmid2 Hlow Hhigh.
    assert (Hacc : Stream.acceptedIndices message ratio = [1]).
    { rewrite Hone. unfold Stream.acceptedIndices, Stream.sampledIndices.
      rewrite Hranges. cbn [length].
      change (map _ (seq 0 _)) with [0; 1; 2].
      unfold LaserScan.accepted, LaserScan.rangeAt. rewrite Hranges.
      rewrite !filter_cons, filter_nil.
      cbn [lookup list_lookup default from_option id].
      fold lo hi.
      rewrite (lt_not_ge _ _ Hlow), (lt_not_le _ _ Hhigh), andb_false_r.
      change (JS.ge 5 lo) with (JS.le lo 5). rewrite Hmid1, Hmid2. cbn.
      repeat case_decide; done. }
    split; [done|]. by rewrite Hdraw, Hacc.
Qed.

(** C6 on a client with default ratios and the scan
    [range_min - 0.01, 5, range_max + 0.01] with bounds 0.5 and 10: one
    point is drawn. *)
Lemma C6_witness :
  ∃ this',
    LaserScan.processMessage (H := sampleHost) SampleScan.defaultClient
                             SampleScan.oneValid = Some (Ok this')
    ∧ Points.drawRange (LaserScan.points this') = 1.
Proof.
  destruct (C6_scan_keeps_samples_within_bounds (H := sampleHost)
              SampleScan.defaultClient SampleScan.oneValid)
    as (this' & p' & accepted & Hrun & _ & _ & _ & _ & _ & _ & _ & _ & _ & Hex).
  - reflexivity.
  - simpl. lia.
  - reflexivity.
  - exists this'. split; [exact Hrun|].
    apply Hex; vm_compute; reflexivity.
Defined.

(** C6 as stated fails: with the upper bound 2^53 the range
    [range_max + 0.01] is [range_max] itself, so the scan
    [range_min - 0.01, 5, range_max + 0.01], in which 5 lies within the
    bounds, yields two points and not one. *)
Lemma C6_counterexample :
  LaserScan.ranges SampleScan.hugeBound
  = [(LaserScan.range_min SampleScan.hugeBound - 0.01)%float; 5%float;
     (LaserScan.range_max SampleScan.hugeBound + 0.01)%float]
  ∧ JS.le (LaserScan.range_min SampleScan.hugeBound) 5 = true
  ∧ JS.le 5 (LaserScan.range_max SampleScan.hugeBound) = true
  ∧ ∃ this',
      LaserScan.processMessage (H := sampleHost) SampleScan.defaultClient
                               SampleScan.hugeBound = Some (Ok this')
      ∧ Points.drawRange (LaserScan.points this') = 2.
Proof.
  split; [reflexivity|]. split; [reflexivity|]. split; [reflexivity|].
  destruct (scan_processMessage_spec (H := sampleHost) SampleScan.defaultClient
              SampleScan.hugeBound)
    as (this' & p & p' & Hrun & _ & _ & _ & _ & Hdraw & _).
  - reflexivity.
  - simpl. lia.
  - reflexivity.
  - exists this'. split; [exact Hrun|]. rewrite Hdraw.
    by vm_compute.
Qed.

(** C3 (what the code does): the scan handler never compares its write
    index with the capacity.  A client with room for two points that
    receives a scan of three in-range samples passes 3 to [update]: draw
    range and attribute count are 3 although [max_pts] is 2 and the
    position array keeps its 6 slots (the stores at indices 6, 7 and 8
    are dropped by the typed array). *)
Theorem C3_scan_draw_count_exceeds_capacity `{Host} :
  ∃ this' p',
    LaserScan.processMessage SampleScan.smallClient SampleScan.threeValid
    = Some (Ok this')
    ∧ Points.max_pts (LaserScan.points this') = 2
    ∧ Points.drawRange (LaserScan.points this') = 3
    ∧ Points.positions (LaserScan.points this') = Some p'
    ∧ count p' = 3
    ∧ length (array p') = 6.
Proof.
  destruct (scan_processMessage_spec SampleScan.smallClient SampleScan.threeValid)
    as (this' & p & p' & Hrun & Hlen & Hp' & Harr & Hcount & Hdraw & Hmax).
  - reflexivity.
  - simpl. lia.
  - reflexivity.
  - assert (Hacc : Stream.acceptedIndices SampleScan.threeValid
                     (Points.pointRatio (LaserScan.points SampleScan.smallClient))
                   = [0; 1; 2]) by (by vm_compute).
    rewrite Hacc in *. exists this', p'.
    split; [done|]. split; [by rewrite Hmax|]. split; [done|]. split; [done|].
    split; [done|]. by rewrite Harr, storeAll_length, Hlen.
Qed.

Section CloudFacts.
Context `{Host}.

Lemma getUint_ok dv o w le :
  o + w ≤ length dv → ∃ v, DataView.getUint dv o w le = Ok v.
Proof.
  intros Hfit. unfold DataView.getUint, DataView.bytesAt.
  rewrite decide_True by done. eexists. reflexivity.
Qed.

Lemma getFloat32_ok dv o le :
  o + 4 ≤ length dv → ∃ v, DataView.getFloat32 dv o le = Ok v.
Proof.
  intros Hfit. unfold DataView.getFloat32.
  destruct (getUint_ok dv o 4 le Hfit) as (v & ->). eexists. reflexivity.
Qed.

(** A read past the end of the view throws. *)
Lemma getFloat32_out_of_range dv o le :
  length dv < o + 4 → DataView.getFloat32 dv o le = Throw RangeError.
Proof.
  intros Hout. unfold DataView.getFloat32, DataView.getUint, DataView.bytesAt.
  rewrite decide_False by lia. reflexivity.
Qed.

Lemma callReader_ok rd dv base le :
  base + Points.cr_offset rd + Stream.datatypeWidth (Points.cr_datatype rd)
    ≤ length dv →
  ∃ v, Points.callReader rd dv base le = Ok v.
Proof.
  intros Hfit. unfold Points.callReader.
  unfold DataView.getInt8, DataView.getUint8, DataView.getInt16, DataView.getUint16,
    DataView.getInt32, DataView.getUint32, DataView.getFloat32, DataView.getFloat64,
    DataView.getInt.
  destruct (Points.cr_datatype rd) as [|[|[|[|[|[|[|[|d]]]]]]]]; simpl in Hfit;
    match goal with
    | |- context [DataView.getUint ?dv ?o ?w ?le] =>
        destruct (getUint_ok dv o w le ltac:(lia)) as (v & ->)
    end; eexists; reflexivity.
Qed.

Lemma pointColor_ok pts dv base le :
  (∀ c, Points.colors pts = Some c → is_Some (Points.colormap pts)) →
  is_Some (Points.colors pts) →
  (∃ rd, Points.getColor pts = Some rd
         ∧ base + Points.cr_offset rd + Stream.datatypeWidth (Points.cr_datatype rd)
           ≤ length dv) →
  ∃ color, PointCloud2.pointColor pts dv base le = Ok color.
Proof.
  intros Hmap [c Hc] (rd & Hrd & Hfit). unfold PointCloud2.pointColor.
  rewrite Hrd. destruct (callReader_ok rd dv base le Hfit) as (v & ->).
  cbn [mbind Result_bind bindR].
  match goal with |- context [if ?packed then _ else _] => destruct packed end.
  - eexists. reflexivity.
  - destruct (Hmap c Hc) as [cm ->]. eexists. reflexivity.
Qed.

(** One round of the cloud loop on a record that lies within the view:
    no throw, and both arrays keep their length. *)
Lemma decodePoint_ok pts dv ratio point_step le x y z pos col i :
  (∀ c, Points.colors pts = Some c → is_Some (Points.colormap pts)) →
  (is_Some col → is_Some (Points.colors pts)) →
  pf_offset x + 4 ≤ point_step → pf_offset y + 4 ≤ point_step →
  pf_offset z + 4 ≤ point_step →
  (is_Some (Points.colors pts) →
     ∃ rd, Points.getColor pts = Some rd
           ∧ Points.cr_offset rd + Stream.datatypeWidth (Points.cr_datatype rd)
             ≤ point_step) →
  i * ratio * point_step + point_step ≤ length dv →
  ∃ pos' col',
    PointCloud2.decodePoint pts dv ratio point_step le x y z (pos, col) i
    = Ok (pos', col')
    ∧ length pos' = length pos
    ∧ (length <$> col') = (length <$> col).
Proof.
  intros Hmap Hcol Hx Hy Hz Hrd Hrec. unfold PointCloud2.decodePoint.
  destruct (getFloat32_ok dv (i * ratio * point_step + pf_offset x) le ltac:(lia))
    as (vx & ->).
  destruct (getFloat32_ok dv (i * ratio * point_step + pf_offset y) le ltac:(lia))
    as (vy & ->).
  destruct (getFloat32_ok dv (i * ratio * point_step + pf_offset z) le ltac:(lia))
    as (vz & ->).
  cbn [mbind Result_bind bindR].
  destruct col as [c|].
  - destruct (pointColor_ok pts dv (i * ratio * point_step) le Hmap)
      as (color & ->).
    + by apply Hcol.
    + destruct (Hrd (Hcol ltac:(done))) as (rd & Hget & Hfit).
      exists rd. split; [done|lia].
    + cbn [mbind Result_bind bindR]. eexists _, _. split; [reflexivity|].
      split; [by rewrite !store_length|]. simpl. by rewrite !store_length.
  - eexists _, _. split; [reflexivity|]. split; [by rewrite !store_length|done].
Qed.

(** The cloud loop over records that all lie within the view. *)
Lemma decodeLoop_ok pts dv ratio point_step le x y z rounds : ∀ pos col from,
  (∀ c, Points.colors pts = Some c → is_Some (Points.colormap pts)) →
  (is_Some col → is_Some (Points.colors pts)) →
  pf_offset x + 4 ≤ point_step → pf_offset y + 4 ≤ point_step →
  pf_offset z + 4 ≤ point_step →
  (is_Some (Points.colors pts) →
     ∃ rd, Points.getColor pts = Some rd
           ∧ Points.cr_offset rd + Stream.datatypeWidth (Points.cr_datatype rd)
             ≤ point_step) →
  (∀ i, from ≤ i < from + rounds → i * ratio * point_step + point_step ≤ length dv) →
  ∃ pos' col',
    PointCloud2.decodeLoop rounds pts dv ratio point_step le x y z (pos, col) from
    = Ok (pos', col')
    ∧ length pos' = length pos
    ∧ (length <$> col') = (length <$> col).
Proof.
  induction rounds as [|rounds IH]; intros pos col from Hmap Hcol Hx Hy Hz Hrd Hrec.
  - eexists _, _. by split.
  - cbn [PointCloud2.decodeLoop].
    destruct (decodePoint_ok pts dv ratio point_step le x y z pos col from
                Hmap Hcol Hx Hy Hz Hrd ltac:(apply Hrec; lia))
      as (pos1 & col1 & -> & Hl1 & Hc1).
    cbn [mbind Result_bind bindR].
    destruct (IH pos1 col1 (S from) Hmap) as (pos' & col' & -> & Hl & Hc);
      try done.
    + intros Hs. apply Hcol.
      destruct col1, col; simpl in *; try done; try (by destruct Hs).
    + intros i Hi. apply Hrec. lia.
    + eexists _, _. split; [reflexivity|]. split; congruence.
Qed.

End CloudFacts.

(** ** Marker lifecycle *)

Section MarkerFacts.
Implicit Types (m : Marker.t) (message : MarkerMessage) (child : MarkerObject).

Lemma setPose_fields m P :
  Marker.message (Marker.setPose m P) = Marker.message m
  ∧ Marker.msgScale (Marker.setPose m P) = Marker.msgScale m
  ∧ Marker.msgColor (Marker.setPose m P) = Marker.msgColor m
  ∧ Marker.children (Marker.setPose m P) = Marker.children m
  ∧ Marker.position (Marker.setPose m P) = Spec.vec (Msg.position P)
  ∧ Marker.quaternion (Marker.setPose m P)
    = Quaternion.normalize (Spec.quat (Msg.orientation P)).
Proof. by destruct m. Qed.

(** The marker the constructor builds: posed by the message, with the
    created object as only child. *)
Lemma marker_new_fields message :
  Marker.message (Marker.new message) = message
  ∧ Marker.children (Marker.new message)
    = [Creators.createMarkerObject message
         (Creators.makeColorMaterial (cr (mm_color message)) (cg (mm_color message))
                                     (cb (mm_color message)) (ca (mm_color message)))]
  ∧ Marker.position (Marker.new message) = Spec.vec (Msg.position (mm_pose message))
  ∧ Marker.quaternion (Marker.new message)
    = Quaternion.normalize (Spec.quat (Msg.orientation (mm_pose message))).
Proof. done. Qed.

Lemma positionsOf_length points :
  length (Creators.positionsOf points) = length points * 3.
Proof.
  unfold Creators.positionsOf. induction points as [|pt points IH]; simpl; [done|].
  by rewrite IH.
Qed.

Ltac type_cases message :=
  unfold Marker.isLineOrPoints, Marker.isInstancedList, Marker.rebuildOnScale,
    Creators.createMarkerObject, MARKER_ARROW, MARKER_CUBE, MARKER_SPHERE,
    MARKER_CYLINDER, MARKER_LINE_STRIP, MARKER_LINE_LIST, MARKER_CUBE_LIST,
    MARKER_SPHERE_LIST, MARKER_POINTS, MARKER_TEXT_VIEW_FACING,
    MARKER_MESH_RESOURCE, MARKER_TRIANGLE_LIST in *;
  repeat match goal with
    | |- context [(mm_type message =? ?c)%Z] =>
        destruct (Z.eqb_spec (mm_type message) c)
    | H : context [(mm_type message =? ?c)%Z] |- _ =>
        destruct (Z.eqb_spec (mm_type message) c)
    end.

(** A freshly constructed marker is ready, and its point count is the
    number of points of its message. *)
Lemma marker_new_ready message : Lifecycle.markerReady (Marker.new message).
Proof.
  unfold Lifecycle.markerReady.
  destruct (marker_new_fields message) as (-> & -> & _).
  type_cases message; simpl; intros; try done; try lia;
    unfold Creators.createLineMarker, Creators.createPointsMarker; simpl;
    by split.
Qed.

Lemma marker_new_pointCount message :
  Marker.isInstancedList (mm_type message) || Marker.isLineOrPoints (mm_type message)
    = true →
  Lifecycle.pointCount (Marker.new message) = Some (length (mm_points message)).
Proof.
  unfold Lifecycle.pointCount.
  destruct (marker_new_fields message) as (-> & -> & _).
  type_cases message; cbn -[Nat.div]; intros; try done; try lia;
    by rewrite positionsOf_length, Nat.div_mul.
Qed.

(** The colour step touches neither the stored scale nor the geometry
    nor the instance count, and never takes a material away. *)
Lemma updateColor_spec m message child :
  Marker.msgScale (Marker.updateColor m message child).1 = Marker.msgScale m
  ∧ Marker.message (Marker.updateColor m message child).1 = Marker.message m
  ∧ Marker.children (Marker.updateColor m message child).1 = Marker.children m
  ∧ Marker.position (Marker.updateColor m message child).1 = Marker.position m
  ∧ Marker.quaternion (Marker.updateColor m message child).1 = Marker.quaternion m
  ∧ mo_geometry (Marker.updateColor m message child).2 = mo_geometry child
  ∧ mo_count (Marker.updateColor m message child).2 = mo_count child
  ∧ (is_Some (mo_material child) →
     is_Some (mo_material (Marker.updateColor m message child).2)).
Proof.
  unfold Marker.updateColor.
  destruct (Marker.colorChanged m message); [|done].
  destruct (mm_type message =? MARKER_MESH_RESOURCE)%Z.
  - destruct (JS.strict_eq _ _); simpl; repeat split; try done;
      intros _; by eexists.
  - destruct (mo_material child); simpl; repeat split; try done;
      intros _; by eexists.
Qed.

(** The scale step for the types that keep the object. *)
Lemma applyScale_spec message child :
  (Marker.isLineOrPoints (mm_type message) = true → is_Some (mo_material child)) →
  ∃ child', Marker.applyScale message child = Ok child'
            ∧ mo_geometry child' = mo_geometry child
            ∧ mo_count child' = mo_count child
            ∧ (is_Some (mo_material child) → is_Some (mo_material child')).
Proof.
  intros Hmat. unfold Marker.applyScale.
  destruct ((mm_type message =? MARKER_CUBE)%Z || _ || _).
  { eexists. split; [reflexivity|]. by repeat split. }
  destruct ((mm_type message =? MARKER_LINE_STRIP)%Z || _) eqn:Eline.
  { destruct Hmat as [mat Hm].
    - unfold Marker.isLineOrPoints. by rewrite Eline.
    - rewrite Hm. eexists. split; [reflexivity|]. simpl.
      repeat split; try done; intros _; by eexists. }
  destruct (mm_type message =? MARKER_POINTS)%Z eqn:Epts.
  { destruct Hmat as [mat Hm].
    - unfold Marker.isLineOrPoints. by rewrite Epts, orb_true_r.
    - rewrite Hm. eexists. split; [reflexivity|]. simpl.
      repeat split; try done; intros _; by eexists. }
  eexists. split; [reflexivity|]. by repeat split.
Qed.

Lemma writePoints_length points : ∀ arr,
  length (Marker.writePoints arr points) = length arr.
Proof.
  unfold Marker.writePoints. intros arr.
  enough (∀ i, length (foldl (fun '(a, i) pt =>
              (TypedArray.store
                 (TypedArray.store (TypedArray.store a (3 * i) (Msg.x pt))
                                   (3 * i + 1) (Msg.y pt))
                 (3 * i + 2) (Msg.z pt), S i)) (arr, i) points).1 = length arr)
    by done.
  revert arr. induction points as [|pt points IH]; intros arr i; [done|].
  cbn [foldl]. rewrite IH. by rewrite !store_length.
Qed.

(** The points step: it gives up exactly when the message's point count
    differs from the live one, and otherwise keeps count, geometry size
    and material. *)
Lemma updatePoints_spec message child :
  (Marker.isLineOrPoints (mm_type message) = true → is_Some (mo_geometry child)) →
  ∃ r, Marker.updatePoints message child = Ok r
       ∧ (is_Some r ↔
          if Marker.isInstancedList (mm_type message)
          then mo_count child = Some (length (mm_points message))
          else if Marker.isLineOrPoints (mm_type message)
          then (fun arr => length arr / 3) <$> mo_geometry child
               = Some (length (mm_points message))
          else True)
       ∧ (∀ child', r = Some child' →
            mo_count child' = mo_count child
            ∧ (length <$> mo_geometry child') = (length <$> mo_geometry child)
            ∧ mo_material child' = mo_material child).
Proof.
  intros Hgeo. unfold Marker.updatePoints.
  destruct (Marker.isInstancedList (mm_type message)).
  { case_bool_decide as Hc.
    - eexists. split; [reflexivity|]. split; [split; [done|by eexists]|].
      by intros child' [= <-].
    - eexists. split; [reflexivity|]. split; [|done].
      split; [by intros [? ?]|]. intros Hc'. by rewrite Hc' in Hc. }
  destruct (Marker.isLineOrPoints (mm_type message)).
  { destruct (Hgeo eq_refl) as [arr Harr]. rewrite Harr. cbn [fmap option_fmap option_map].
    destruct (Nat.eqb_spec (length (mm_points message) * 3) (length arr / 3 * 3))
      as [Heq|Hne].
    - eexists. split; [reflexivity|]. split.
      + split; [intros _; f_equal; apply (Nat.mul_cancel_r _ _ 3); done|by eexists].
      + intros child' [= <-]. cbn. by rewrite writePoints_length.
    - eexists. split; [reflexivity|]. split; [|done].
      split; [by intros [? ?]|]. intros Hlen. exfalso. apply Hne. congruence. }
  eexists. split; [reflexivity|]. split; [split; [done|by eexists]|].
  by intros child' [= <-].
Qed.

Lemma with_child_fields m child :
  Marker.message (Marker.with_child m child) = Marker.message m
  ∧ Marker.msgScale (Marker.with_child m child) = Marker.msgScale m
  ∧ Marker.children (Marker.with_child m child) = child :: tail (Marker.children m)
  ∧ Marker.position (Marker.with_child m child) = Marker.position m
  ∧ Marker.quaternion (Marker.with_child m child) = Marker.quaternion m.
Proof. done. Qed.

(** [update] answers [true] exactly under the three conditions, and then
    leaves a ready marker with the new message, the pose of the message
    and the point count it had. *)
Lemma update_spec m message :
  Lifecycle.markerReady m →
  ∃ m', Marker.update m message = Ok (Lifecycle.updatable m message, m')
        ∧ (Lifecycle.updatable m message = true →
             Lifecycle.markerReady m'
             ∧ Marker.message m' = message
             ∧ Lifecycle.pointCount m' = Lifecycle.pointCount m
             ∧ Marker.position m' = Spec.vec (Msg.position (mm_pose message))
             ∧ Marker.quaternion m'
               = Quaternion.normalize (Spec.quat (Msg.orientation (mm_pose message)))).
Proof.
  intros Hready. unfold Marker.update, Lifecycle.updatable.
  destruct (Z.eqb_spec (mm_type message) (mm_type (Marker.message m))) as [Etype|Etype];
    [|by eexists].
  cbn [negb andb].
  unfold Lifecycle.markerReady in Hready.
  destruct (Marker.children m) as [|child rest] eqn:Hch; [done|].
  rewrite <- Etype in Hready.
  set (m1 := Marker.setPose _ _).
  assert (Hm1 : Marker.children m1 = child :: rest
                ∧ Marker.msgScale m1 = Marker.msgScale m
                ∧ Marker.message m1 = message
                ∧ Marker.position m1 = Spec.vec (Msg.position (mm_pose message))
                ∧ Marker.quaternion m1
                  = Quaternion.normalize (Spec.quat (Msg.orientation (mm_pose message)))).
  { subst m1. by destruct m. }
  destruct Hm1 as (Hch1 & Hsc1 & Hmsg1 & Hpos1 & Hq1). rewrite Hch1.
  destruct (updateColor_spec m1 message child)
    as (Hsc2 & Hmsg2 & Hch2 & Hpos2 & Hq2 & Hgeo2 & Hcnt2 & Hmat2).
  destruct (Marker.updateColor m1 message child) as [m2 child2]. cbn [fst snd] in *.
  assert (Hsc : Marker.scaleChanged (Marker.with_child m2 child2) message
                = Marker.scaleChanged m message).
  { unfold Marker.scaleChanged. cbn [Marker.with_child Marker.msgScale].
    by rewrite Hsc2, Hsc1. }
  rewrite Hsc. clear Hsc.
  assert (Hcond : ∀ c, mo_geometry c = mo_geometry child →
            mo_count c = mo_count child →
            (Lifecycle.samePointCount m message = true
             ↔ if Marker.isInstancedList (mm_type message)
               then mo_count c = Some (length (mm_points message))
               else if Marker.isLineOrPoints (mm_type message)
               then (fun arr => length arr / 3) <$> mo_geometry c
                    = Some (length (mm_points message))
               else True)).
  { intros c Hg Hc. unfold Lifecycle.samePointCount, Lifecycle.pointCount.
    rewrite Hch, <- Etype, Hg, Hc.
    destruct (Marker.isInstancedList (mm_type message));
      destruct (Marker.isLineOrPoints (mm_type message));
      cbn [orb]; rewrite ?bool_decide_eq_true; done. }
  assert (Hfinish : ∀ base c r,
            Marker.message base = message →
            Marker.position base = Spec.vec (Msg.position (mm_pose message)) →
            Marker.quaternion base
              = Quaternion.normalize (Spec.quat (Msg.orientation (mm_pose message))) →
            mo_geometry c = mo_geometry child → mo_count c = mo_count child →
            (is_Some (mo_material child) → is_Some (mo_material c)) →
            Marker.updatePoints message c = Ok r →
            ∃ m',
              match r with
              | Some c' => Ok (true, Marker.with_child base c')
              | None => Ok (false, base)
              end = Ok (Lifecycle.samePointCount m message, m')
              ∧ (Lifecycle.samePointCount m message = true →
                 Lifecycle.markerReady m'
                 ∧ Marker.message m' = message
                 ∧ Lifecycle.pointCount m' = Lifecycle.pointCount m
                 ∧ Marker.position m' = Spec.vec (Msg.position (mm_pose message))
                 ∧ Marker.quaternion m'
                   = Quaternion.normalize
                       (Spec.quat (Msg.orientation (mm_pose message))))).
  { intros base c r Hbm Hbp Hbq Hg Hc Hm Hr.
    destruct (updatePoints_spec message c) as (r' & Hr' & Hiff & Hkeep).
    { intros Hline. rewrite Hg. by apply Hready. }
    rewrite Hr in Hr'. injection Hr' as <-.
    rewrite <- (Hcond c Hg Hc) in Hiff.
    destruct r as [c'|].
    - rewrite (proj1 Hiff) by (by eexists).
      eexists. split; [reflexivity|]. intros _.
      destruct (Hkeep c' eq_refl) as (Hc' & Hg' & Hm').
      destruct (with_child_fields base c') as (Hwm & _ & Hchild & Hwp & Hwq).
      unfold Lifecycle.markerReady, Lifecycle.pointCount.
      rewrite Hchild, Hwm, Hwp, Hwq, Hch, Hbm, <- Etype, Hc', Hc, Hm'.
      rewrite Hg in Hg'.
      split; [|split; [done|split; [|done]]].
      + intros Hline. destruct (Hready Hline) as ([arr Harr] & Hmat).
        rewrite Harr in Hg'. destruct (mo_geometry c'); [|done].
        split; [by eexists|by apply Hm].
      + destruct (Marker.isInstancedList (mm_type message)); [done|].
        destruct (Marker.isLineOrPoints (mm_type message)); [|done].
        destruct (mo_geometry c'), (mo_geometry child); simpl in *; congruence.
    - destruct (Lifecycle.samePointCount m message) eqn:Esame.
      + destruct (proj2 Hiff eq_refl) as [? ?]. done.
      + eexists. split; [reflexivity|done]. }
  destruct (Marker.scaleChanged m message) eqn:Echanged.
  - destruct (Marker.rebuildOnScale (mm_type message)) eqn:Erebuild.
    + eexists. split; [by rewrite andb_false_r|]. by rewrite andb_false_r.
    + cbn [andb negb]. rewrite andb_true_r.
      destruct (applyScale_spec message child2) as (child3 & -> & Hg3 & Hc3 & Hm3).
      { intros Hline. apply Hmat2. by apply Hready. }
      cbn [mbind Result_bind bindR].
      destruct (updatePoints_spec message child3) as (r & Hr & _).
      { intros Hline. rewrite Hg3, Hgeo2. by apply Hready. }
      rewrite Hr. cbn [mbind Result_bind bindR].
      set (base := Marker.with_child _ child3).
      destruct (Hfinish base child3 r) as (m' & Hres & Hprops); try done;
        try congruence.
      { intros Hs. by apply Hm3, Hmat2. }
      exists m'. split; [|done]. by destruct r.
  - cbn [andb negb]. rewrite andb_true_r.
    destruct (updatePoints_spec message child2) as (r & Hr & _).
    { intros Hline. rewrite Hgeo2. by apply Hready. }
    rewrite Hr. cbn [mbind Result_bind bindR].
    destruct (Hfinish (Marker.with_child m2 child2) child2 r) as (m' & Hres & Hprops);
      try done; try congruence.
    exists m'. split; [|done]. by destruct r.
Qed.

End MarkerFacts.

Section ClientFacts.
Implicit Types (this : MarkerClient.t) (message : MarkerMessage).

Lemma removeMarker_fields this key entry :
  MarkerClient.markers this !! key = Some entry →
  MarkerClient.markers (MarkerClient.removeMarker this key)
    = delete key (MarkerClient.markers this)
  ∧ MarkerClient.rootObject (MarkerClient.removeMarker this key)
    = filter (fun i => i ≠ MarkerClient.id entry) (MarkerClient.rootObject this)
  ∧ MarkerClient.disposed (MarkerClient.removeMarker this key)
    = MarkerClient.disposed this ++ [MarkerClient.id entry]
  ∧ MarkerClient.nextId (MarkerClient.removeMarker this key) = MarkerClient.nextId this
  ∧ MarkerClient.tfClient (MarkerClient.removeMarker this key)
    = MarkerClient.tfClient this.
Proof. intros Hl. unfold MarkerClient.removeMarker. by rewrite Hl. Qed.

Lemma removeMarker_inv this key :
  Lifecycle.clientInv this → Lifecycle.clientInv (MarkerClient.removeMarker this key).
Proof.
  intros Hinv. unfold MarkerClient.removeMarker.
  destruct (MarkerClient.markers this !! key) as [entry|] eqn:Hl; [|done].
  intros k e. cbn. intros He. apply lookup_delete_Some in He as [_ He].
  by apply (Hinv k e).
Qed.

Lemma createMarker_inv this key message now :
  Lifecycle.clientInv this →
  Lifecycle.clientInv (MarkerClient.createMarker this key message now).
Proof.
  intros Hinv k e. unfold MarkerClient.createMarker. cbn.
  intros He. apply lookup_insert_Some in He as [[_ <-]|[_ He]].
  - cbn. split; [lia|]. exists (Marker.new message), [].
    split; [done|apply marker_new_ready].
  - destruct (Hinv k e He) as (Hid & Hm). split; [lia|done].
Qed.

Lemma emitChange_inv this :
  Lifecycle.clientInv this → Lifecycle.clientInv (MarkerClient.emitChange this).
Proof. done. Qed.

(** The invariant of the client holds initially and after every message
    the handler returns from. *)
Lemma new_inv tfClient : Lifecycle.clientInv (MarkerClient.new tfClient).
Proof. intros k e He. cbn in He. by rewrite lookup_empty in He. Qed.

Lemma processMessage_inv this message now this' :
  Lifecycle.clientInv this →
  MarkerClient.processMessage this message now = Ok this' →
  Lifecycle.clientInv this'.
Proof.
  intros Hinv. unfold MarkerClient.processMessage.
  destruct (mm_action message =? 0)%Z.
  - destruct (MarkerClient.markers this !! MarkerClient.keyOf message)
      as [entry|] eqn:Hl.
    + destruct (Hinv _ _ Hl) as (Hid & m & rest & Hch & Hready).
      rewrite Hch. destruct (update_spec m message Hready) as (m' & -> & Hprops).
      destruct (Lifecycle.updatable m message).
      * intros [= <-]. apply emitChange_inv. intros k e. cbn.
        intros He. apply lookup_insert_Some in He as [[_ <-]|[_ He]].
        -- cbn. split; [done|]. exists m', rest. split; [done|].
           by apply Hprops.
        -- by apply (Hinv k e).
      * intros [= <-]. by apply emitChange_inv, createMarker_inv, removeMarker_inv.
    + intros [= <-]. by apply emitChange_inv, createMarker_inv.
  - destruct (mm_action message =? 2)%Z.
    + intros [= <-]. by apply emitChange_inv, removeMarker_inv.
    + destruct (mm_action message =? 3)%Z.
      * intros [= <-]. apply emitChange_inv. intros k e He.
        unfold MarkerClient.removeAllMarkers in He. cbn in He.
        by rewrite lookup_empty in He.
      * intros [= <-]. by apply emitChange_inv.
Qed.

End ClientFacts.


(** C10: when the client creates a marker for an absent key, the pose of
    the message is applied twice: it becomes the initial pose of the new
    scene node, whose position and normalized orientation are set from it,
    and it is set, in the same way, on the marker inside the node.  The
    marker's world pose is therefore the node-level pose composed with the
    same pose again, and a delivered transform only re-bases the node
    level: after the identity transform, the node shows
    [applyTransform(pose, identity)] and the marker still carries the pose
    below it. *)
Theorem C10_pose_applied_at_both_levels
    (this : MarkerClient.t) (message : MarkerMessage) (now : nat) :
  mm_action message = 0%Z →
  MarkerClient.markers this !! MarkerClient.keyOf message = None →
  ∃ this' entry marker,
    MarkerClient.processMessage this message now = Ok this'
    ∧ MarkerClient.markers this' !! MarkerClient.keyOf message = Some entry
    ∧ SceneNode.children (MarkerClient.node entry) = [marker]
    ∧ SceneNode.initialPose (MarkerClient.node entry) = mm_pose message
    ∧ SceneNode.position (MarkerClient.node entry)
      = Spec.vec (Msg.position (mm_pose message))
    ∧ SceneNode.quaternion (MarkerClient.node entry)
      = Quaternion.normalize (Spec.quat (Msg.orientation (mm_pose message)))
    ∧ Marker.position marker = Spec.vec (Msg.position (mm_pose message))
    ∧ Marker.quaternion marker
      = Quaternion.normalize (Spec.quat (Msg.orientation (mm_pose message)))
    ∧ Lifecycle.markerWorld (MarkerClient.node entry) marker
      = Lifecycle.localToWorld
          (Spec.vec (Msg.position (mm_pose message)))
          (Quaternion.normalize (Spec.quat (Msg.orientation (mm_pose message))))
          (Spec.vec (Msg.position (mm_pose message)))
          (Quaternion.normalize (Spec.quat (Msg.orientation (mm_pose message))))
    ∧ Lifecycle.markerWorld
        (SceneNode.tfUpdateBound (MarkerClient.node entry) Msg.identityTransform)
        marker
      = Lifecycle.localToWorld
          (Spec.vec (Msg.position
                       (applyTransform (mm_pose message) Msg.identityTransform)))
          (Quaternion.normalize
             (Spec.quat (Msg.orientation
                           (applyTransform (mm_pose message) Msg.identityTransform))))
          (Spec.vec (Msg.position (mm_pose message)))
          (Quaternion.normalize (Spec.quat (Msg.orientation (mm_pose message)))).
Proof.
  intros Haction Hl. unfold MarkerClient.processMessage.
  rewrite Haction, Hl. cbn [Z.eqb].
  eexists _, _, (Marker.new message). split; [reflexivity|].
  unfold MarkerClient.createMarker, MarkerClient.emitChange. cbn.
  rewrite lookup_insert_eq. split; [reflexivity|]. cbn.
  by repeat split.
Qed.

(** C10 on a cube posed at (1,2,3), unrotated, under the identity frame
    transform: the marker's world position is (2,4,6). *)
Lemma C10_witness :
  ∃ this' entry marker,
    MarkerClient.processMessage SampleMarkers.client SampleMarkers.cube 0 = Ok this'
    ∧ MarkerClient.markers this' !! MarkerClient.keyOf SampleMarkers.cube = Some entry
    ∧ SceneNode.children (MarkerClient.node entry) = [marker]
    ∧ (Lifecycle.markerWorld
         (SceneNode.tfUpdateBound (MarkerClient.node entry) Msg.identityTransform)
         marker).1
      = Vector3.mk 2 4 6.
Proof.
  destruct (C10_pose_applied_at_both_levels SampleMarkers.client SampleMarkers.cube 0)
    as (this' & entry & marker & Hrun & Hl & Hch & _ & _ & _ & _ & _ & _ & Hworld).
  - reflexivity.
  - reflexivity.
  - exists this', entry, marker. do 3 (split; [assumption|]).
    rewrite Hworld. vm_compute. reflexivity.
Defined.


(** * Further properties of the code *)

(** ** The marker client and the scene it feeds *)

Section SceneSync.
Import Lifecycle.
Implicit Types (this : MarkerClient.t) (message : MarkerMessage).

Lemma removeMarker_markers this key :
  MarkerClient.markers (MarkerClient.removeMarker this key)
  = delete key (MarkerClient.markers this).
Proof.
  unfold MarkerClient.removeMarker.
  destruct (MarkerClient.markers this !! key) eqn:Hl; [done|].
  by rewrite delete_id.
Qed.

Lemma removeMarker_absent this key :
  MarkerClient.markers this !! key = None → MarkerClient.removeMarker this key = this.
Proof. intros Hl. unfold MarkerClient.removeMarker. by rewrite Hl. Qed.

Lemma removeMarker_changes this key :
  MarkerClient.changes (MarkerClient.removeMarker this key) = MarkerClient.changes this.
Proof.
  unfold MarkerClient.removeMarker. by destruct (MarkerClient.markers this !! key).
Qed.

Lemma removeMarker_sceneInv this key :
  sceneInv this → sceneInv (MarkerClient.removeMarker this key).
Proof.
  intros (Hnd & Hroot & Hinj & Hndd & Hnext & Hdisj & Hnds & Hsubs).
  unfold MarkerClient.removeMarker.
  destruct (MarkerClient.markers this !! key) as [e|] eqn:Hl; [|done].
  assert (Hin : MarkerClient.id e ∈ MarkerClient.rootObject this).
  { apply Hroot. by exists key, e. }
  assert (Hout : MarkerClient.id e ∉ MarkerClient.disposed this) by by apply Hdisj.
  set (this' := MarkerClient.mk _ _ _ _ _ _ _).
  assert (Hlive : ∀ i, live this' i ↔ live this i ∧ i ≠ MarkerClient.id e).
  { intros i. split.
    - intros (k & x & Hk & Hi). cbn in Hk.
      apply lookup_delete_Some in Hk as [Hne Hk]. split; [by exists k, x|].
      intros Heq. apply Hne. apply (Hinj key k e x Hl Hk). congruence.
    - intros [(k & x & Hk & Hi) Hne]. exists k, x. split; [|done]. cbn.
      apply lookup_delete_Some. split; [|done]. intros <-.
      apply Hne. congruence. }
  assert (Hlistens : ∀ frame i,
            listens this' frame i ↔ listens this frame i ∧ i ≠ MarkerClient.id e).
  { intros frame i. split.
    - intros (k & x & Hk & Hi & Hs & Hf). cbn in Hk.
      apply lookup_delete_Some in Hk as [Hne Hk]. split; [by exists k, x|].
      intros Heq. apply Hne. apply (Hinj key k e x Hl Hk). congruence.
    - intros [(k & x & Hk & Hi & Hs & Hf) Hne]. exists k, x. split; [|done]. cbn.
      apply lookup_delete_Some. split; [|done]. intros <-.
      apply Hne. congruence. }
  split; [by apply NoDup_filter|].
  split.
  { intros i. rewrite Hlive. cbn. rewrite list_elem_of_filter, Hroot. tauto. }
  split.
  { intros k1 k2 e1 e2 H1 H2. cbn in H1, H2.
    apply lookup_delete_Some in H1 as [_ H1].
    apply lookup_delete_Some in H2 as [_ H2]. by apply Hinj. }
  split.
  { cbn. apply NoDup_app. split; [done|]. split; [|apply NoDup_singleton].
    intros x Hx. rewrite list_elem_of_singleton. by intros ->. }
  split.
  { intros i. cbn. rewrite Hnext, list_elem_of_filter, elem_of_app,
      list_elem_of_singleton.
    destruct (decide (i = MarkerClient.id e)) as [->|Hne]; tauto. }
  split.
  { intros i. cbn. rewrite list_elem_of_filter, elem_of_app, list_elem_of_singleton.
    intros [Hne Hi] [Hd|Heq]; [by apply (Hdisj i)|done]. }
  split.
  { cbn. destruct (SceneNode.subscribed (MarkerClient.node e));
      [by apply NoDup_filter|done]. }
  intros frame i. rewrite Hlistens. cbn.
  destruct (SceneNode.subscribed (MarkerClient.node e)) eqn:Hsub.
  - rewrite list_elem_of_filter, Hsubs. cbn. tauto.
  - rewrite Hsubs. split; [|tauto]. intros Hlis. split; [done|].
    destruct Hlis as (k & x & Hk & Hi & Hs & Hf). intros Heq.
    assert (k = key) as -> by (apply (Hinj k key x e Hk Hl); congruence).
    congruence.
Qed.

Lemma createMarker_sceneInv this key message now :
  sceneInv this →
  MarkerClient.markers this !! key = None →
  sceneInv (MarkerClient.createMarker this key message now).
Proof.
  intros (Hnd & Hroot & Hinj & Hndd & Hnext & Hdisj & Hnds & Hsubs) Hl.
  assert (Hfresh : (MarkerClient.nextId this ∉ MarkerClient.rootObject this)
                   ∧ (MarkerClient.nextId this ∉ MarkerClient.disposed this)).
  { split; intros Hin;
      assert (MarkerClient.nextId this < MarkerClient.nextId this)
        by (apply Hnext; tauto); lia. }
  destruct Hfresh as [Hfr Hfd].
  assert (Hold : ∀ k x, MarkerClient.markers this !! k = Some x →
                        MarkerClient.id x ≠ MarkerClient.nextId this).
  { intros k x Hk Heq. apply Hfr. apply Hroot. exists k, x. by split. }
  unfold MarkerClient.createMarker.
  set (options := MarkerClient.nodeOptions this message).
  set (this' := MarkerClient.mk _ _ _ _ _ _ _).
  assert (Hlive : ∀ i, live this' i ↔ live this i ∨ i = MarkerClient.nextId this).
  { intros i. split.
    - intros (k & x & Hk & Hi). cbn in Hk.
      apply lookup_insert_Some in Hk as [[_ <-]|[_ Hk]]; [by right|].
      left. by exists k, x.
    - intros [(k & x & Hk & Hi)| ->].
      + exists k, x. split; [|done]. cbn. rewrite lookup_insert_ne; [done|].
        intros <-. congruence.
      + eexists key, _. cbn. rewrite lookup_insert_eq. by split. }
  assert (Hlistens : ∀ frame i,
            listens this' frame i
            ↔ listens this frame i
              ∨ (i = MarkerClient.nextId this ∧ SceneNode.subscribes options = true
                 ∧ frame = mm_frame_id message)).
  { intros frame i. split.
    - intros (k & x & Hk & Hi & Hs & Hf). cbn in Hk.
      apply lookup_insert_Some in Hk as [[_ <-]|[_ Hk]].
      + right. cbn [MarkerClient.id MarkerClient.node] in Hi, Hs, Hf.
        rewrite subscribed_new in Hs.
        destruct (new_fields options) as (_ & Hfr' & _). rewrite Hfr' in Hf.
        cbn in Hf. split; [done|]. split; [done|]. congruence.
      + left. by exists k, x.
    - intros [(k & x & Hk & Hi & Hs & Hf)|(-> & Hs & ->)].
      + exists k, x. split; [|done]. cbn. rewrite lookup_insert_ne; [done|].
        intros <-. congruence.
      + eexists key, _. cbn [MarkerClient.markers this'].
        rewrite lookup_insert_eq. split; [done|].
        cbn [MarkerClient.id MarkerClient.node].
        split; [done|]. rewrite subscribed_new. split; [done|].
        by destruct (new_fields options) as (_ & -> & _). }
  split.
  { cbn. apply NoDup_app. split; [done|]. split; [|apply NoDup_singleton].
    intros x Hx. rewrite list_elem_of_singleton. by intros ->. }
  split.
  { intros i. rewrite Hlive. cbn. rewrite elem_of_app, list_elem_of_singleton, Hroot.
    tauto. }
  split.
  { intros k1 k2 e1 e2 H1 H2 Heq. cbn in H1, H2.
    apply lookup_insert_Some in H1 as [[<- <-]|[Hn1 H1]];
      apply lookup_insert_Some in H2 as [[<- <-]|[Hn2 H2]].
    - done.
    - cbn in Heq. by destruct (Hold _ _ H2).
    - cbn in Heq. by destruct (Hold _ _ H1).
    - by apply (Hinj k1 k2 e1 e2). }
  split; [done|].
  split.
  { intros i. cbn. rewrite elem_of_app, list_elem_of_singleton. split.
    - intros Hlt. destruct (decide (i = MarkerClient.nextId this)) as [->|Hne];
        [tauto|].
      assert (Hlt' : i < MarkerClient.nextId this) by lia.
      apply Hnext in Hlt'. tauto.
    - intros [[Hi| ->]|Hi]; [|lia|];
        (assert (i < MarkerClient.nextId this) by (apply Hnext; tauto); lia). }
  split.
  { intros i. cbn. rewrite elem_of_app, list_elem_of_singleton.
    intros [Hi| ->]; [by apply Hdisj|done]. }
  split.
  { cbn. destruct (SceneNode.subscribes options); [|done].
    apply NoDup_app. split; [done|]. split; [|apply NoDup_singleton].
    intros [f i] Hx. rewrite list_elem_of_singleton. intros [= -> ->].
    apply Hsubs in Hx as (k & x & Hk & Hi & _). by destruct (Hold _ _ Hk). }
  intros frame i. rewrite Hlistens. cbn.
  destruct (SceneNode.subscribes options) eqn:Hsub.
  - rewrite elem_of_app, list_elem_of_singleton, Hsubs.
    split; [intros [?|[= -> ->]]; [by left|by right]|].
    intros [?|(-> & _ & ->)]; [by left|by right].
  - rewrite Hsubs. split; [by left|]. by intros [?|(_ & ? & _)].
Qed.

(** Replacing the marker inside a live node, and its time stamp, leaves
    the scene as it is. *)
Lemma refresh_sceneInv this key entry n' now :
  sceneInv this →
  MarkerClient.markers this !! key = Some entry →
  SceneNode.tfClient n' = SceneNode.tfClient (MarkerClient.node entry) →
  SceneNode.frameID n' = SceneNode.frameID (MarkerClient.node entry) →
  sceneInv
    (MarkerClient.mk (MarkerClient.tfClient this)
       (<[ key := MarkerClient.mkEntry (MarkerClient.id entry) n' now ]>
          (MarkerClient.markers this))
       (MarkerClient.rootObject this) (MarkerClient.subscriptions this)
       (MarkerClient.nextId this) (MarkerClient.disposed this)
       (MarkerClient.changes this)).
Proof.
  intros (Hnd & Hroot & Hinj & Hndd & Hnext & Hdisj & Hnds & Hsubs) Hl Htf Hfr.
  set (this' := MarkerClient.mk _ _ _ _ _ _ _).
  assert (Hsame : SceneNode.subscribed n'
                  = SceneNode.subscribed (MarkerClient.node entry)).
  { unfold SceneNode.subscribed. by rewrite Htf, Hfr. }
  assert (Hlive : ∀ i, live this' i ↔ live this i).
  { intros i. split.
    - intros (k & x & Hk & Hi). cbn in Hk.
      apply lookup_insert_Some in Hk as [[<- <-]|[_ Hk]];
        [by exists key, entry|by exists k, x].
    - intros (k & x & Hk & Hi). destruct (decide (key = k)) as [<-|Hne].
      + eexists key, _. cbn. rewrite lookup_insert_eq. split; [done|]. cbn.
        congruence.
      + exists k, x. cbn. by rewrite lookup_insert_ne. }
  assert (Hlistens : ∀ frame i, listens this' frame i ↔ listens this frame i).
  { intros frame i. split.
    - intros (k & x & Hk & Hi & Hs & Hf). cbn in Hk.
      apply lookup_insert_Some in Hk as [[<- <-]|[_ Hk]].
      + exists key, entry. cbn in Hi, Hs, Hf. do 2 (split; [done|]).
        split; congruence.
      + by exists k, x.
    - intros (k & x & Hk & Hi & Hs & Hf). destruct (decide (key = k)) as [<-|Hne].
      + eexists key, _. cbn. rewrite lookup_insert_eq. split; [done|]. cbn.
        assert (x = entry) as -> by congruence. split; [done|]. split; congruence.
      + exists k, x. cbn. by rewrite lookup_insert_ne. }
  split; [done|]. split; [intros i; by rewrite Hlive|]. split.
  { intros k1 k2 e1 e2 H1 H2 Heq. cbn in H1, H2.
    apply lookup_insert_Some in H1 as [[<- <-]|[Hn1 H1]];
      apply lookup_insert_Some in H2 as [[<- <-]|[Hn2 H2]].
    - done.
    - cbn in Heq. by apply (Hinj key k2 entry e2).
    - cbn in Heq. by apply (Hinj k1 key e1 entry).
    - by apply (Hinj k1 k2 e1 e2). }
  do 4 (split; [done|]). intros frame i. by rewrite Hlistens.
Qed.

Lemma emitChange_sceneInv this :
  sceneInv this → sceneInv (MarkerClient.emitChange this).
Proof. done. Qed.

Lemma new_sceneInv tfClient : sceneInv (MarkerClient.new tfClient).
Proof.
  split; [apply NoDup_nil_2|]. split.
  { intros i. split; [by intros ?%elem_of_nil|].
    intros (k & x & Hk & _). cbn in Hk. by rewrite lookup_empty in Hk. }
  split.
  { intros k1 k2 e1 e2 H1. cbn in H1. by rewrite lookup_empty in H1. }
  split; [apply NoDup_nil_2|]. split.
  { intros i. cbn. rewrite !elem_of_nil. lia. }
  split; [by intros i ?%elem_of_nil|]. split; [apply NoDup_nil_2|].
  intros frame i. split; [by intros ?%elem_of_nil|].
  intros (k & x & Hk & _). cbn in Hk. by rewrite lookup_empty in Hk.
Qed.

(** Removing a list of keys one after the other. *)
Lemma removeAll_sceneInv keys : ∀ this,
  sceneInv this → sceneInv (foldl MarkerClient.removeMarker this keys).
Proof.
  induction keys as [|k keys IH]; intros this Hinv; [done|].
  cbn. by apply IH, removeMarker_sceneInv.
Qed.

Lemma removeAll_lookup keys : ∀ this k,
  MarkerClient.markers (foldl MarkerClient.removeMarker this keys) !! k
  = if decide (k ∈ keys) then None else MarkerClient.markers this !! k.
Proof.
  induction keys as [|k' keys IH]; intros this k.
  - cbn. by rewrite decide_False by apply not_elem_of_nil.
  - cbn [foldl]. rewrite IH, removeMarker_markers.
    destruct (decide (k ∈ keys)) as [Hin|Hnin].
    + by rewrite decide_True by by right.
    + destruct (decide (k = k')) as [->|Hne].
      * rewrite decide_True by by left. apply lookup_delete_eq.
      * rewrite decide_False by (rewrite elem_of_cons; tauto).
        by apply lookup_delete_ne.
Qed.

Lemma removeAll_nextId keys : ∀ this,
  MarkerClient.nextId (foldl MarkerClient.removeMarker this keys)
  = MarkerClient.nextId this
  ∧ MarkerClient.changes (foldl MarkerClient.removeMarker this keys)
    = MarkerClient.changes this.
Proof.
  induction keys as [|k keys IH]; intros this; [done|].
  cbn [foldl]. destruct (IH (MarkerClient.removeMarker this k)) as [-> ->].
  rewrite removeMarker_changes. split; [|done].
  unfold MarkerClient.removeMarker. by destruct (MarkerClient.markers this !! k).
Qed.

(** [removeAllMarkers] has emptied the table before it assigns the
    empty object. *)
Lemma removeAllMarkers_fold this :
  MarkerClient.removeAllMarkers this
  = foldl MarkerClient.removeMarker this
          (map fst (map_to_list (MarkerClient.markers this))).
Proof.
  unfold MarkerClient.removeAllMarkers.
  set (r := foldl _ _ _).
  assert (Hempty : MarkerClient.markers r = ∅).
  { apply map_empty. intros k. unfold r. rewrite removeAll_lookup.
    destruct (decide _) as [|Hnin]; [done|].
    apply eq_None_not_Some. intros [e He]. apply Hnin.
    apply (list_elem_of_fmap_2 fst _ (k, e)). by apply elem_of_map_to_list. }
  destruct r. cbn in *. by subst.
Qed.

Lemma removeAllMarkers_sceneInv this :
  sceneInv this → sceneInv (MarkerClient.removeAllMarkers this).
Proof. rewrite removeAllMarkers_fold. apply removeAll_sceneInv. Qed.

Lemma processMessage_returns this message now :
  clientInv this → ∃ this', MarkerClient.processMessage this message now = Ok this'.
Proof.
  intros Hc. unfold MarkerClient.processMessage.
  destruct (mm_action message =? 0)%Z.
  - destruct (MarkerClient.markers this !! MarkerClient.keyOf message)
      as [entry|] eqn:Hl; [|by eexists].
    destruct (Hc _ _ Hl) as (Hid & m & rest & Hch & Hready).
    rewrite Hch. destruct (update_spec m message Hready) as (m' & -> & _).
    destruct (Lifecycle.updatable m message); by eexists.
  - destruct (mm_action message =? 2)%Z; [by eexists|].
    destruct (mm_action message =? 3)%Z; by eexists.
Qed.

Lemma processMessage_sceneInv this message now this' :
  clientInv this → sceneInv this →
  MarkerClient.processMessage this message now = Ok this' → sceneInv this'.
Proof.
  intros Hc Hs. unfold MarkerClient.processMessage.
  destruct (mm_action message =? 0)%Z.
  - destruct (MarkerClient.markers this !! MarkerClient.keyOf message)
      as [entry|] eqn:Hl.
    + destruct (Hc _ _ Hl) as (Hid & m & rest & Hch & Hready).
      rewrite Hch. destruct (update_spec m message Hready) as (m' & -> & _).
      destruct (Lifecycle.updatable m message).
      * intros [= <-]. apply emitChange_sceneInv. by apply refresh_sceneInv.
      * intros [= <-]. apply emitChange_sceneInv, createMarker_sceneInv;
          [by apply removeMarker_sceneInv|].
        rewrite removeMarker_markers. apply lookup_delete_eq.
    + intros [= <-]. by apply emitChange_sceneInv, createMarker_sceneInv.
  - destruct (mm_action message =? 2)%Z.
    + intros [= <-]. by apply emitChange_sceneInv, removeMarker_sceneInv.
    + destruct (mm_action message =? 3)%Z.
      * intros [= <-]. by apply emitChange_sceneInv, removeAllMarkers_sceneInv.
      * intros [= <-]. by apply emitChange_sceneInv.
Qed.

(** One round of the loop of [checkExpiredMarkers]. *)
Let expiryStep (lifetime now : nat) (this : MarkerClient.t) (key : string)
    : MarkerClient.t :=
  match MarkerClient.markers this !! key with
  | Some markerNode =>
      if MarkerClient.expired lifetime now markerNode
      then MarkerClient.removeMarker this key else this
  | None => this
  end.

Lemma expiryStep_lookup lifetime now this key k :
  MarkerClient.markers (expiryStep lifetime now this key) !! k
  = if decide (k = key) then kept lifetime now (MarkerClient.markers this !! k)
    else MarkerClient.markers this !! k.
Proof.
  unfold expiryStep, kept. destruct (decide (k = key)) as [->|Hne].
  - destruct (MarkerClient.markers this !! key) as [e|] eqn:Hl; [|done].
    destruct (MarkerClient.expired lifetime now e); [|done].
    rewrite removeMarker_markers. apply lookup_delete_eq.
  - destruct (MarkerClient.markers this !! key) as [e|] eqn:Hl; [|done].
    destruct (MarkerClient.expired lifetime now e); [|done].
    rewrite removeMarker_markers. by apply lookup_delete_ne.
Qed.

Lemma expiry_lookup lifetime now keys : ∀ this k,
  NoDup keys →
  MarkerClient.markers (foldl (expiryStep lifetime now) this keys) !! k
  = if decide (k ∈ keys) then kept lifetime now (MarkerClient.markers this !! k)
    else MarkerClient.markers this !! k.
Proof.
  induction keys as [|k' keys IH]; intros this k Hnd.
  - cbn. by rewrite decide_False by apply not_elem_of_nil.
  - apply NoDup_cons in Hnd as [Hnin Hnd]. cbn [foldl].
    rewrite IH by done. rewrite expiryStep_lookup.
    destruct (decide (k = k')) as [->|Hne], (decide (_ ∈ keys)) as [Hin|Hni],
      (decide (_ ∈ _ :: _)) as [Hc|Hc]; try done; exfalso;
      rewrite elem_of_cons in Hc; tauto.
Qed.

Lemma expiry_invariants lifetime now keys : ∀ this,
  clientInv this → sceneInv this →
  clientInv (foldl (expiryStep lifetime now) this keys)
  ∧ sceneInv (foldl (expiryStep lifetime now) this keys)
  ∧ MarkerClient.nextId (foldl (expiryStep lifetime now) this keys)
    = MarkerClient.nextId this
  ∧ MarkerClient.changes (foldl (expiryStep lifetime now) this keys)
    = MarkerClient.changes this.
Proof.
  induction keys as [|k keys IH]; intros this Hc Hs; [done|].
  cbn [foldl].
  assert (Hstep : clientInv (expiryStep lifetime now this k)
                  ∧ sceneInv (expiryStep lifetime now this k)
                  ∧ MarkerClient.nextId (expiryStep lifetime now this k)
                    = MarkerClient.nextId this
                  ∧ MarkerClient.changes (expiryStep lifetime now this k)
                    = MarkerClient.changes this).
  { unfold expiryStep.
    destruct (MarkerClient.markers this !! k) as [e|] eqn:Hl; [|done].
    destruct (MarkerClient.expired lifetime now e); [|done].
    split; [by apply removeMarker_inv|]. split; [by apply removeMarker_sceneInv|].
    split; [|apply removeMarker_changes].
    by destruct (removeMarker_fields this k e Hl) as (_ & _ & _ & -> & _). }
  destruct Hstep as (Hc' & Hs' & Hn' & Hch').
  destruct (IH _ Hc' Hs') as (? & ? & -> & ->). by rewrite Hn', Hch'.
Qed.

Lemma checkExpiredMarkers_spec this lifetime now :
  clientInv this → sceneInv this →
  clientInv (MarkerClient.checkExpiredMarkers this lifetime now)
  ∧ sceneInv (MarkerClient.checkExpiredMarkers this lifetime now)
  ∧ MarkerClient.nextId (MarkerClient.checkExpiredMarkers this lifetime now)
    = MarkerClient.nextId this
  ∧ MarkerClient.changes (MarkerClient.checkExpiredMarkers this lifetime now)
    = S (MarkerClient.changes this)
  ∧ ∀ k, MarkerClient.markers (MarkerClient.checkExpiredMarkers this lifetime now) !! k
         = kept lifetime now (MarkerClient.markers this !! k).
Proof.
  intros Hc Hs. unfold MarkerClient.checkExpiredMarkers.
  change (foldl _ this ?keys) with (foldl (expiryStep lifetime now) this keys).
  destruct (expiry_invariants lifetime now
              (map fst (map_to_list (MarkerClient.markers this))) this Hc Hs)
    as (Hc' & Hs' & Hn' & Hch').
  split; [done|]. split; [done|]. split; [done|].
  split; [cbn; by rewrite Hch'|].
  intros k. cbn [MarkerClient.emitChange MarkerClient.markers].
  rewrite expiry_lookup by apply NoDup_fst_map_to_list.
  destruct (decide _) as [|Hnin]; [done|].
  destruct (MarkerClient.markers this !! k) as [e|] eqn:He; [|done].
  destruct Hnin. apply (list_elem_of_fmap_2 fst _ (k, e)).
  by apply elem_of_map_to_list.
Qed.

Lemma run_invariants evs : ∀ this,
  clientInv this → sceneInv this →
  ∃ this', run this evs = Ok this' ∧ clientInv this' ∧ sceneInv this'.
Proof.
  induction evs as [|ev evs IH]; intros this Hc Hs; [by exists this|].
  cbn [run]. destruct ev as [message now|lifetime now]; cbn [handle].
  - destruct (processMessage_returns this message now Hc) as [this1 Hrun].
    rewrite Hrun. apply IH.
    + by apply (processMessage_inv this message now).
    + by apply (processMessage_sceneInv this message now).
  - destruct (checkExpiredMarkers_spec this lifetime now Hc Hs) as (? & ? & _).
    by apply IH.
Qed.

(** The nodes in the dispose log are the nodes handed out that are no
    longer live. *)
Lemma disposed_iff this i :
  sceneInv this →
  i ∈ MarkerClient.disposed this ↔ i < MarkerClient.nextId this ∧ ¬ live this i.
Proof.
  intros (Hnd & Hroot & Hinj & Hndd & Hnext & Hdisj & Hnds & Hsubs).
  rewrite <- Hroot. split.
  - intros Hd. split; [apply Hnext; tauto|]. intros Hr. by apply (Hdisj i).
  - intros [Hlt Hnr]. apply Hnext in Hlt. tauto.
Qed.

Lemma withStrip_invariants :
  clientInv SampleMarkers.withStrip ∧ sceneInv SampleMarkers.withStrip.
Proof.
  split.
  - apply (processMessage_inv SampleMarkers.client
             (SampleMarkers.strip SampleMarkers.twoPoints) 0);
      [apply new_inv|reflexivity].
  - apply (processMessage_sceneInv SampleMarkers.client
             (SampleMarkers.strip SampleMarkers.twoPoints) 0);
      [apply new_inv|apply new_sceneInv|reflexivity].
Qed.

Lemma withStripAndCube_invariants :
  clientInv SampleMarkers.withStripAndCube ∧ sceneInv SampleMarkers.withStripAndCube.
Proof.
  destruct withStrip_invariants as [Hc Hs]. split.
  - by apply (processMessage_inv SampleMarkers.withStrip SampleMarkers.cube 500).
  - by apply (processMessage_sceneInv SampleMarkers.withStrip SampleMarkers.cube 500).
Qed.

End SceneSync.

(** X1: whatever messages and expiry checks reach a marker client, in any
    order, its handlers return normally and afterwards the client and the
    scene agree: the children of the root object are exactly the scene
    nodes of the live markers, each once; every scene node the client ever
    created is either such a child or has been disposed exactly once,
    never both; and the callbacks registered with the transform store are
    exactly those of the live nodes that subscribed.  In particular a live
    marker's node is in the scene and was not disposed, and a disposed
    node is neither in the scene nor still registered for transforms. *)
Theorem marker_client_scene_agrees
    (tfClient : option SceneNode.TFClient) (evs : list Lifecycle.Event) :
  ∃ this',
    Lifecycle.run (MarkerClient.new tfClient) evs = Ok this'
    ∧ Lifecycle.sceneInv this'
    ∧ (∀ key entry, MarkerClient.markers this' !! key = Some entry →
         MarkerClient.id entry ∈ MarkerClient.rootObject this'
         ∧ (MarkerClient.id entry ∉ MarkerClient.disposed this'))
    ∧ (∀ i, i ∈ MarkerClient.disposed this' →
         (i ∉ MarkerClient.rootObject this')
         ∧ ∀ frame, (frame, i) ∉ MarkerClient.subscriptions this').
Proof.
  destruct (run_invariants evs (MarkerClient.new tfClient)
              (new_inv tfClient) (new_sceneInv tfClient)) as (this' & Hrun & Hc & Hs).
  exists this'. split; [done|]. split; [done|].
  pose proof Hs as (Hnd & Hroot & Hinj & Hndd & Hnext & Hdisj & Hnds & Hsubs).
  split.
  - intros key entry Hl.
    assert (Hin : MarkerClient.id entry ∈ MarkerClient.rootObject this').
    { apply Hroot. by exists key, entry. }
    split; [done|]. by apply Hdisj.
  - intros i Hd. split.
    + intros Hr. by apply (Hdisj i).
    + intros frame Hsub. apply Hsubs in Hsub as (k & x & Hk & Hi & _).
      apply (Hdisj i); [|done]. apply Hroot. by exists k, x.
Qed.

(** X2: a DELETE message (action 2) for a live key disposes the marker's
    scene node, takes it out of the root object, cancels its transform
    subscription and deletes the key, leaving every other marker and
    every other child of the root as it was; for a key that is not live
    it changes nothing.  Either way one "change" event is emitted. *)
Theorem delete_removes_one_marker
    (this : MarkerClient.t) (message : MarkerMessage) (now : nat) :
  Lifecycle.sceneInv this →
  mm_action message = 2%Z →
  ∃ this',
    MarkerClient.processMessage this message now = Ok this'
    ∧ MarkerClient.changes this' = S (MarkerClient.changes this)
    ∧ MarkerClient.markers this'
      = delete (MarkerClient.keyOf message) (MarkerClient.markers this)
    ∧ (MarkerClient.markers this !! MarkerClient.keyOf message = None →
         this' = MarkerClient.emitChange this)
    ∧ (∀ entry,
         MarkerClient.markers this !! MarkerClient.keyOf message = Some entry →
         MarkerClient.disposed this'
         = MarkerClient.disposed this ++ [MarkerClient.id entry]
         ∧ (MarkerClient.id entry ∉ MarkerClient.rootObject this')
         ∧ (∀ i, i ≠ MarkerClient.id entry →
              i ∈ MarkerClient.rootObject this' ↔ i ∈ MarkerClient.rootObject this)
         ∧ (∀ frame, (frame, MarkerClient.id entry) ∉ MarkerClient.subscriptions this')
         ∧ (∀ frame i, i ≠ MarkerClient.id entry →
              (frame, i) ∈ MarkerClient.subscriptions this'
              ↔ (frame, i) ∈ MarkerClient.subscriptions this)).
Proof.
  intros Hs Haction. unfold MarkerClient.processMessage.
  rewrite Haction. cbn [Z.eqb]. eexists. split; [reflexivity|].
  split; [cbn; by rewrite removeMarker_changes|].
  split; [apply removeMarker_markers|]. split.
  { intros Hl. by rewrite removeMarker_absent. }
  intros entry Hl.
  pose proof (removeMarker_sceneInv this (MarkerClient.keyOf message) Hs)
    as (_ & Hroot' & _ & _ & _ & Hdisj' & _ & Hsubs').
  destruct (removeMarker_fields this _ entry Hl) as (Hm & Hr & Hd & _).
  cbn [MarkerClient.emitChange MarkerClient.disposed MarkerClient.rootObject
       MarkerClient.subscriptions].
  split; [done|]. split.
  { rewrite Hr, list_elem_of_filter. tauto. }
  split.
  { intros i Hne. rewrite Hr, list_elem_of_filter. tauto. }
  split.
  { intros frame Hsub. apply Hsubs' in Hsub as (k & x & Hk & Hi & _).
    assert (Hin : MarkerClient.id entry
                  ∈ MarkerClient.rootObject
                      (MarkerClient.removeMarker this (MarkerClient.keyOf message))).
    { apply Hroot'. by exists k, x. }
    rewrite Hr, list_elem_of_filter in Hin. tauto. }
  intros frame i Hne. unfold MarkerClient.removeMarker. rewrite Hl.
  cbn [MarkerClient.subscriptions].
  destruct (SceneNode.subscribed (MarkerClient.node entry)); [|done].
  rewrite list_elem_of_filter. cbn. tauto.
Qed.

(** X2 on the client holding the strip ["path/7"]: after the DELETE the
    key is gone and the node, object 0, is disposed and out of the scene. *)
Lemma delete_removes_one_marker_witness :
  ∃ this',
    MarkerClient.processMessage SampleMarkers.withStrip SampleMarkers.deleteStrip 1
    = Ok this'
    ∧ MarkerClient.markers this' !! "path/7" = None
    ∧ MarkerClient.disposed this' = [0]
    ∧ MarkerClient.rootObject this' = [].
Proof.
  destruct (delete_removes_one_marker SampleMarkers.withStrip
              SampleMarkers.deleteStrip 1) as (this' & Hrun & _ & Hm & _ & _).
  - apply withStrip_invariants.
  - reflexivity.
  - exists this'. split; [exact Hrun|]. split.
    + rewrite Hm. apply lookup_delete_eq.
    + vm_compute in Hrun. injection Hrun as <-. split; reflexivity.
Defined.

(** X3: a DELETEALL message (action 3) leaves no marker: the table is
    empty, the root object has no child left, no transform subscription
    remains, and the dispose log holds, besides what it held, exactly the
    nodes that were live, each once. *)
Theorem delete_all_empties_the_scene
    (this : MarkerClient.t) (message : MarkerMessage) (now : nat) :
  Lifecycle.sceneInv this →
  mm_action message = 3%Z →
  ∃ this',
    MarkerClient.processMessage this message now = Ok this'
    ∧ MarkerClient.markers this' = ∅
    ∧ MarkerClient.rootObject this' = []
    ∧ MarkerClient.subscriptions this' = []
    ∧ MarkerClient.nextId this' = MarkerClient.nextId this
    ∧ NoDup (MarkerClient.disposed this')
    ∧ (∀ i, i ∈ MarkerClient.disposed this'
            ↔ i ∈ MarkerClient.disposed this ∨ Lifecycle.live this i)
    ∧ MarkerClient.changes this' = S (MarkerClient.changes this).
Proof.
  intros Hs Haction. unfold MarkerClient.processMessage.
  rewrite Haction. cbn [Z.eqb]. eexists. split; [reflexivity|].
  pose proof (removeAllMarkers_sceneInv this Hs) as Hs'.
  assert (Hnext : MarkerClient.nextId (MarkerClient.removeAllMarkers this)
                  = MarkerClient.nextId this
                  ∧ MarkerClient.changes (MarkerClient.removeAllMarkers this)
                    = MarkerClient.changes this).
  { rewrite removeAllMarkers_fold. apply removeAll_nextId. }
  destruct Hnext as [Hnext Hchanges].
  assert (Hdead : ∀ i, ¬ Lifecycle.live (MarkerClient.removeAllMarkers this) i).
  { intros i (k & x & Hk & _). cbn in Hk. by rewrite lookup_empty in Hk. }
  pose proof Hs' as (_ & Hroot' & _ & Hndd' & _ & _ & _ & Hsubs').
  cbn [MarkerClient.emitChange MarkerClient.markers MarkerClient.rootObject
       MarkerClient.subscriptions MarkerClient.nextId MarkerClient.disposed
       MarkerClient.changes].
  split; [done|]. split.
  { apply elem_of_nil_inv. intros i Hi. by apply (Hdead i), Hroot'. }
  split.
  { apply elem_of_nil_inv. intros [frame i] Hi.
    apply Hsubs' in Hi as (k & x & Hk & Hi & _). apply (Hdead i). by exists k, x. }
  split; [done|]. split; [done|]. split; [|by rewrite Hchanges].
  intros i. rewrite (disposed_iff _ i Hs'), Hnext.
  pose proof Hs as (_ & Hroot & _ & _ & Hnx & Hdisj & _).
  rewrite Hnx, <- Hroot. split.
  - intros [[?|?] _]; tauto.
  - intros [?|?]; (split; [tauto|apply Hdead]).
Qed.

(** X3 on the client holding the strip and the cube: both nodes, objects
    0 and 1, end up disposed. *)
Lemma delete_all_empties_the_scene_witness :
  ∃ this',
    MarkerClient.processMessage SampleMarkers.withStripAndCube
                                SampleMarkers.deleteAll 600 = Ok this'
    ∧ MarkerClient.markers this' = ∅
    ∧ MarkerClient.rootObject this' = []
    ∧ 0 ∈ MarkerClient.disposed this' ∧ 1 ∈ MarkerClient.disposed this'.
Proof.
  destruct (delete_all_empties_the_scene SampleMarkers.withStripAndCube
              SampleMarkers.deleteAll 600)
    as (this' & Hrun & Hm & Hr & _ & _ & _ & Hd & _).
  - apply withStripAndCube_invariants.
  - reflexivity.
  - exists this'. do 3 (split; [assumption|]).
    split; apply Hd; right.
    + eexists "path/7", _. split; [vm_compute; reflexivity|reflexivity].
    + eexists "box/1", _. split; [vm_compute; reflexivity|reflexivity].
Defined.

(** X4: the expiry check removes exactly the markers whose last update is
    more than [lifetime] milliseconds old: such a marker's key is deleted
    and its node is disposed, out of the root object and without transform
    subscription; every other marker stays as it is, its node still in
    the scene; and client and scene agree afterwards. *)
Theorem expiry_check_removes_stale_markers
    (this : MarkerClient.t) (lifetime now : nat) :
  Lifecycle.clientInv this →
  Lifecycle.sceneInv this →
  let this' := MarkerClient.checkExpiredMarkers this lifetime now in
  (∀ key entry,
     MarkerClient.markers this !! key = Some entry →
     now - MarkerClient.updatedTime entry ≤ lifetime →
     MarkerClient.markers this' !! key = Some entry
     ∧ MarkerClient.id entry ∈ MarkerClient.rootObject this'
     ∧ (MarkerClient.id entry ∉ MarkerClient.disposed this'))
  ∧ (∀ key entry,
       MarkerClient.markers this !! key = Some entry →
       lifetime < now - MarkerClient.updatedTime entry →
       MarkerClient.markers this' !! key = None
       ∧ MarkerClient.id entry ∈ MarkerClient.disposed this'
       ∧ (MarkerClient.id entry ∉ MarkerClient.rootObject this')
       ∧ ∀ frame, (frame, MarkerClient.id entry) ∉ MarkerClient.subscriptions this')
  ∧ (∀ key, MarkerClient.markers this !! key = None →
            MarkerClient.markers this' !! key = None)
  ∧ MarkerClient.changes this' = S (MarkerClient.changes this)
  ∧ Lifecycle.sceneInv this'.
Proof.
  intros Hc Hs this'.
  destruct (checkExpiredMarkers_spec this lifetime now Hc Hs)
    as (Hc' & Hs' & Hnext & Hchanges & Hlook).
  fold this' in Hc', Hs', Hnext, Hchanges, Hlook.
  pose proof Hs as (_ & Hroot & Hinj & _ & Hnx & Hdisj & _).
  pose proof Hs' as (_ & Hroot' & _ & _ & Hnx' & Hdisj' & _ & Hsubs').
  split.
  { intros key entry Hl Hage.
    assert (Hk : MarkerClient.markers this' !! key = Some entry).
    { rewrite Hlook, Hl. unfold Lifecycle.kept, MarkerClient.expired.
      destruct (Nat.ltb_spec lifetime (now - MarkerClient.updatedTime entry));
        [lia|done]. }
    assert (Hin : MarkerClient.id entry ∈ MarkerClient.rootObject this').
    { apply Hroot'. by exists key, entry. }
    split; [done|]. split; [done|]. by apply Hdisj'. }
  split.
  { intros key entry Hl Hage.
    assert (Hk : MarkerClient.markers this' !! key = None).
    { rewrite Hlook, Hl. unfold Lifecycle.kept, MarkerClient.expired.
      destruct (Nat.ltb_spec lifetime (now - MarkerClient.updatedTime entry));
        [done|lia]. }
    assert (Hdead : ¬ Lifecycle.live this' (MarkerClient.id entry)).
    { intros (k & x & Hkx & Hi). pose proof Hkx as Hkx'.
      rewrite Hlook in Hkx'. unfold Lifecycle.kept in Hkx'.
      destruct (MarkerClient.markers this !! k) as [y|] eqn:Hy; [|done].
      destruct (MarkerClient.expired lifetime now y); [done|].
      injection Hkx' as ->.
      assert (k = key) as -> by by apply (Hinj k key x entry).
      congruence. }
    split; [done|]. split.
    { apply (disposed_iff _ _ Hs'). split; [|done]. rewrite Hnext.
      apply Hnx. left. apply Hroot. by exists key, entry. }
    split; [by rewrite Hroot'|].
    intros frame Hsub. apply Hsubs' in Hsub as (k & x & Hkx & Hi & _).
    apply Hdead. by exists k, x. }
  split.
  { intros key Hl. by rewrite Hlook, Hl. }
  split; [done|done].
Qed.

(** X4 on the client holding the strip, updated at time 0, and the cube,
    updated at time 500, checked at time 1200 with a lifetime of one
    second: the strip goes, the cube stays. *)
Lemma expiry_check_removes_stale_markers_witness :
  MarkerClient.markers (MarkerClient.checkExpiredMarkers
                          SampleMarkers.withStripAndCube 1000 1200) !! "path/7" = None
  ∧ is_Some (MarkerClient.markers (MarkerClient.checkExpiredMarkers
                                     SampleMarkers.withStripAndCube 1000 1200)
               !! "box/1").
Proof.
  destruct withStripAndCube_invariants as [Hc Hs].
  destruct (expiry_check_removes_stale_markers SampleMarkers.withStripAndCube
              1000 1200 Hc Hs) as (Hkeep & Hdrop & _).
  destruct (MarkerClient.markers SampleMarkers.withStripAndCube !! "path/7")
    as [strip|] eqn:Hstrip; [|by vm_compute in Hstrip].
  destruct (MarkerClient.markers SampleMarkers.withStripAndCube !! "box/1")
    as [cube|] eqn:Hcube; [|by vm_compute in Hcube].
  split.
  - apply (Hdrop "path/7" strip Hstrip).
    pose proof Hstrip as H. vm_compute in H. injection H as <-. cbn. lia.
  - exists cube. apply (Hkeep "box/1" cube Hcube).
    pose proof Hcube as H. vm_compute in H. injection H as <-. cbn. lia.
Defined.

(** X5: an ADD/MODIFY that updates a live marker in place leaves its scene
    node anchored where it was: the node keeps its frame and its transform
    subscription, whatever frame the message names, and only the marker
    inside and the node's time stamp change.  A message naming another
    frame therefore does not move the marker to that frame. *)
Theorem update_in_place_keeps_frame
    (this : MarkerClient.t) (message : MarkerMessage) (now : nat)
    (entry : MarkerClient.Entry) (marker : Marker.t) (rest : list Marker.t) :
  Lifecycle.clientInv this →
  mm_action message = 0%Z →
  MarkerClient.markers this !! MarkerClient.keyOf message = Some entry →
  SceneNode.children (MarkerClient.node entry) = marker :: rest →
  Lifecycle.updatable marker message = true →
  ∃ this' entry',
    MarkerClient.processMessage this message now = Ok this'
    ∧ MarkerClient.markers this' !! MarkerClient.keyOf message = Some entry'
    ∧ SceneNode.frameID (MarkerClient.node entry')
      = SceneNode.frameID (MarkerClient.node entry)
    ∧ SceneNode.tfClient (MarkerClient.node entry')
      = SceneNode.tfClient (MarkerClient.node entry)
    ∧ MarkerClient.subscriptions this' = MarkerClient.subscriptions this
    ∧ MarkerClient.updatedTime entry' = now
    ∧ (SceneNode.frameID (MarkerClient.node entry) ≠ Some (mm_frame_id message) →
       SceneNode.frameID (MarkerClient.node entry') ≠ Some (mm_frame_id message)).
Proof.
  intros Hc Haction Hl Hch Hupd.
  destruct (Hc _ _ Hl) as (Hid & m & rest' & Hch' & Hready).
  assert (m = marker) as -> by congruence.
  destruct (update_spec marker message Hready) as (marker' & Hrun & _).
  unfold MarkerClient.processMessage.
  rewrite Haction, Hl, Hch, Hrun, Hupd. cbn [Z.eqb].
  eexists _, _. split; [reflexivity|]. cbn. rewrite lookup_insert_eq.
  split; [reflexivity|]. cbn. by repeat split.
Qed.

(** X5 on the strip created in frame ["map"] and announced again, with
    the same two points, in frame ["odom"]: the node stays in ["map"]. *)
Lemma update_in_place_keeps_frame_witness :
  ∃ this' entry',
    MarkerClient.processMessage SampleMarkers.withStrip
      (SampleMarkers.stripInOdom SampleMarkers.twoPoints) 1 = Ok this'
    ∧ MarkerClient.markers this' !! "path/7" = Some entry'
    ∧ SceneNode.frameID (MarkerClient.node entry') = Some "map".
Proof.
  destruct (MarkerClient.markers SampleMarkers.withStrip !! "path/7")
    as [entry|] eqn:Hl; [|by vm_compute in Hl].
  assert (Hentry : MarkerClient.node entry
                   = SceneNode.new (MarkerClient.nodeOptions SampleMarkers.client
                                      (SampleMarkers.strip SampleMarkers.twoPoints))).
  { pose proof Hl as H. vm_compute in H. injection H as <-. vm_compute. reflexivity. }
  destruct (update_in_place_keeps_frame SampleMarkers.withStrip
              (SampleMarkers.stripInOdom SampleMarkers.twoPoints) 1 entry
              (Marker.new (SampleMarkers.strip SampleMarkers.twoPoints)) [])
    as (this' & entry' & Hrun & Hl' & Hframe & _).
  - apply withStrip_invariants.
  - reflexivity.
  - exact Hl.
  - rewrite Hentry. reflexivity.
  - vm_compute. reflexivity.
  - exists this', entry'. split; [exact Hrun|]. split; [exact Hl'|].
    rewrite Hframe, Hentry. reflexivity.
Defined.

(** ** The point buffers and the message gates of the sensor clients *)

Section PointsFacts.
Context `{Host}.

(** [a % b === 0] on counters. *)
Lemma mod_is_zero_spec a b :
  Points.mod_is_zero a b = true ↔ b ≠ 0 ∧ a mod b = 0.
Proof.
  unfold Points.mod_is_zero. destruct (Nat.eqb_spec b 0) as [->|Hb].
  - split; [done|]. by intros [? _].
  - rewrite Nat.eqb_eq. tauto.
Qed.

(** A helper that has its scene node only counts the call. *)
Lemma setup_again (pts : Points.t) frame point_step fields' :
  is_Some (Points.sn pts) →
  Points.setup pts frame point_step fields'
  = (Points.mod_is_zero (Points.messageCount pts) (Points.messageRatio pts),
     Points.mk (Points.tfClient pts) (Points.max_pts pts) (Points.pointRatio pts)
       (Points.messageRatio pts) (S (Points.messageCount pts)) (Points.colorsrc pts)
       (Points.colormap pts) (Points.colorMin pts) (Points.colorMax pts)
       (Points.sn pts) (Points.fields pts) (Points.positions pts)
       (Points.colors pts) (Points.getColor pts) (Points.drawRange pts)).
Proof. intros [n Hn]. destruct pts. cbn in Hn. subst. reflexivity. Qed.

Lemma setup_first_sn (pts : Points.t) frame point_step fields' :
  is_Some (Points.sn (Points.setup pts frame point_step fields').2).
Proof.
  unfold Points.setup. destruct (Points.sn pts) as [n|] eqn:Hn; cbn.
  - rewrite Hn. by eexists.
  - by eexists.
Qed.

Lemma setupAll_snoc pts calls call :
  Stream.setupAll pts (calls ++ [call])
  = ((Stream.setupAll pts calls).1
       ++ [(Points.setup (Stream.setupAll pts calls).2 call.1.1 call.1.2 call.2).1],
     (Points.setup (Stream.setupAll pts calls).2 call.1.1 call.1.2 call.2).2).
Proof. unfold Stream.setupAll. by rewrite foldl_snoc. Qed.

(** The field table: the fields of the message by name, a later field
    replacing an earlier one of the same name; a field named
    ["__proto__"] becomes the prototype and no own property. *)
Lemma indexFields_own fields' n :
  n ≠ "__proto__" →
  Points.own (Points.indexFields fields') !! n
  = last (filter (fun f => pf_name f = n) fields').
Proof.
  intros Hn. unfold Points.indexFields.
  induction fields' as [|f fields' IH] using rev_ind; [done|].
  rewrite foldl_snoc, filter_app. unfold Points.assignField at 1.
  destruct (String.eqb_spec (pf_name f) "__proto__") as [Hp|Hp]; cbn [Points.own].
  - rewrite filter_cons_False by congruence.
    by rewrite filter_nil, app_nil_r.
  - destruct (decide (pf_name f = n)) as [Hf|Hf].
    + rewrite Hf, lookup_insert_eq, filter_cons_True by done.
      by rewrite filter_nil, last_snoc.
    + rewrite lookup_insert_ne, filter_cons_False by done.
      by rewrite filter_nil, app_nil_r.
Qed.

Lemma indexFields_own_proto fields' :
  Points.own (Points.indexFields fields') !! "__proto__" = None.
Proof.
  unfold Points.indexFields.
  induction fields' as [|f fields' IH] using rev_ind; [done|].
  rewrite foldl_snoc. unfold Points.assignField at 1.
  destruct (String.eqb_spec (pf_name f) "__proto__") as [Hp|Hp]; cbn [Points.own].
  - done.
  - by rewrite lookup_insert_ne.
Qed.

Lemma indexFields_proto fields' :
  Points.proto (Points.indexFields fields')
  = last (filter (fun f => pf_name f = "__proto__") fields').
Proof.
  unfold Points.indexFields.
  induction fields' as [|f fields' IH] using rev_ind; [done|].
  rewrite foldl_snoc, filter_app. unfold Points.assignField at 1.
  destruct (String.eqb_spec (pf_name f) "__proto__") as [Hp|Hp]; cbn [Points.proto].
  - rewrite filter_cons_True by done. by rewrite filter_nil, last_snoc.
  - rewrite filter_cons_False by done. by rewrite filter_nil, app_nil_r.
Qed.

Lemma truthy_string_spec (src : option string) :
  JS.truthy_string src = true ↔ ∃ s, src = Some s ∧ s ≠ "".
Proof.
  destruct src as [s|]; cbn.
  - rewrite negb_true_iff. destruct (String.eqb_spec s "") as [->|Hne].
    + split; [done|]. by intros (? & [= <-] & ?).
    + split; [|done]. intros _. by exists s.
  - split; [done|]. by intros (? & ? & _).
Qed.

(** An own property hides whatever the prototype chain holds. *)
Lemma get_own table key f :
  Points.own table !! key = Some f → Points.get table key = Points.FieldObject f.
Proof. intros Hf. unfold Points.get. by rewrite Hf. Qed.

(** A name that neither [Object.prototype] nor a field object knows is
    found among the own properties or not at all. *)
Lemma get_plain table key :
  key ∉ Points.objectPrototypeKeys → key ≠ "__proto__" →
  key ∉ ["name"; "offset"; "datatype"; "count"] →
  Points.get table key
  = match Points.own table !! key with
    | Some f => Points.FieldObject f
    | None => Points.Undefined
    end.
Proof.
  intros Hobj Hproto Hfield. unfold Points.get.
  destruct (Points.own table !! key) as [f|]; [done|].
  destruct (String.eqb_spec key "__proto__") as [|_]; [done|].
  assert (Hundef : Points.objectPrototype key = Points.Undefined).
  { unfold Points.objectPrototype. by rewrite bool_decide_eq_false_2. }
  destruct (Points.proto table) as [f|]; [|done].
  unfold Points.fieldProperty.
  destruct (String.eqb_spec key "name") as [->|_]; [set_solver|].
  destruct (String.eqb_spec key "offset") as [->|_]; [set_solver|].
  destruct (String.eqb_spec key "datatype") as [->|_]; [set_solver|].
  destruct (String.eqb_spec key "count") as [->|_]; [set_solver|].
  done.
Qed.

(** A name of [Object.prototype] that is no own property reads a
    function of the language, whatever the prototype of the table. *)
Lemma get_inherited table key :
  key ∈ Points.objectPrototypeKeys → Points.own table !! key = None →
  Points.get table key = Points.Builtin.
Proof.
  intros Hobj Hown. unfold Points.get. rewrite Hown.
  assert (Hb : Points.objectPrototype key = Points.Builtin).
  { unfold Points.objectPrototype. by rewrite bool_decide_eq_true_2. }
  unfold Points.objectPrototypeKeys in Hobj.
  repeat (apply elem_of_cons in Hobj as [->|Hobj];
          [by destruct (Points.proto table)|]).
  by apply elem_of_nil in Hobj.
Qed.

(** The common colour fields are plain names. *)
Lemma get_common table key :
  key ∈ Points.commonColorFields →
  Points.truthy (Points.get table key) = true ↔ is_Some (Points.own table !! key).
Proof.
  intros Hkey. rewrite get_plain.
  - destruct (Points.own table !! key); cbn; [by split; [eexists|]|].
    split; [done|]. by intros [? ?].
  - unfold Points.commonColorFields in Hkey. intros Hin.
    repeat (apply elem_of_cons in Hkey as [->|Hkey];
            [by vm_compute in Hin; repeat (apply elem_of_cons in Hin as [Hin|Hin];
                                           [discriminate Hin|]);
                apply elem_of_nil in Hin|]).
    by apply elem_of_nil in Hkey.
  - unfold Points.commonColorFields in Hkey.
    repeat (apply elem_of_cons in Hkey as [->|Hkey]; [done|]).
    by apply elem_of_nil in Hkey.
  - unfold Points.commonColorFields in Hkey. intros Hin.
    repeat (apply elem_of_cons in Hkey as [->|Hkey];
            [by repeat (apply elem_of_cons in Hin as [Hin|Hin];
                        [discriminate Hin|]);
                apply elem_of_nil in Hin|]).
    by apply elem_of_nil in Hkey.
Qed.

Lemma detectColorsrc_auto (src : option string) (table : Points.FieldTable) :
  JS.truthy_string src = false →
  Points.detectColorsrc src table
  = match Points.own table !! "rgb", Points.own table !! "rgb_float",
          Points.own table !! "rgba" with
    | Some _, _, _ => Some "rgb"
    | None, Some _, _ => Some "rgb_float"
    | None, None, Some _ => Some "rgba"
    | None, None, None => src
    end.
Proof.
  intros Hsrc. unfold Points.detectColorsrc. rewrite Hsrc.
  assert (H1 := get_common table "rgb" ltac:(repeat constructor)).
  assert (H2 := get_common table "rgb_float" ltac:(repeat constructor)).
  assert (H3 := get_common table "rgba" ltac:(repeat constructor)).
  unfold Points.commonColorFields.
  destruct (Points.own table !! "rgb") as [f1|].
  { rewrite filter_cons_True; [done|]. apply H1. by eexists. }
  rewrite filter_cons_False by (rewrite H1; by intros [? ?]).
  destruct (Points.own table !! "rgb_float") as [f2|].
  { rewrite filter_cons_True; [done|]. apply H2. by eexists. }
  rewrite filter_cons_False by (rewrite H2; by intros [? ?]).
  destruct (Points.own table !! "rgba") as [f3|].
  { rewrite filter_cons_True; [done|]. apply H3. by eexists. }
  by rewrite filter_cons_False by (rewrite H3; by intros [? ?]).
Qed.

Lemma colorField_spec (src : option string) (table : Points.FieldTable) :
  Points.colorField src table
  = match src with
    | Some s => if decide (s = "") then Points.Undefined else Points.get table s
    | None => Points.Undefined
    end.
Proof.
  unfold Points.colorField. destruct src as [s|]; [|done]. cbn.
  destruct (String.eqb_spec s "") as [->|Hne]; cbn.
  - by rewrite decide_True.
  - by rewrite decide_False.
Qed.

(** What the first call of [setup] leaves, in terms of the table and
    the colour source it detects. *)
Lemma setup_first (pts : Points.t) frame point_step fields' :
  Points.sn pts = None →
  let table := Points.indexFields fields' in
  let src' := Points.detectColorsrc (Points.colorsrc pts) table in
  let field := Points.colorField src' table in
  let pts' := (Points.setup pts frame point_step fields').2 in
  Points.fields pts' = table
  ∧ Points.colorsrc pts' = src'
  ∧ Points.colors pts'
    = (if Points.truthy field
       then Some (mkBufferAttribute (TypedArray.Float32Array (Points.max_pts pts * 3))
                                    (Points.max_pts pts) false)
       else Points.colors pts)
  ∧ Points.getColor pts'
    = (if Points.truthy field then Points.colorFunctionOf field
       else Points.getColor pts)
  ∧ Points.drawRange pts' = JS.Infinity
  ∧ Points.positions pts'
    = Some (mkBufferAttribute (TypedArray.Float32Array (Points.max_pts pts * 3))
                              (Points.max_pts pts) false).
Proof.
  intros Hsn table src' field pts'. unfold pts', Points.setup. rewrite Hsn.
  cbn. by repeat split.
Qed.

End PointsFacts.

(** X6: the geometry of a [Points] helper is built by the first call of
    [setup] and never again: after any number of further calls, whatever
    frame, point step and fields they pass, scene node, field table,
    colour source and both buffers are those the first call left, the
    position array having three slots per point of capacity.  The calls
    are answered by the message counter alone: call number [k], counted
    from zero, is answered [true] exactly when [k % messageRatio === 0],
    that is when the ratio is not zero and divides [k]. *)
Theorem setup_builds_once_and_gates `{Host}
    (tfClient : option SceneNode.TFClient) (max_pts pointRatio messageRatio : nat)
    (colorsrc : option string) (colormap : option (float -> Color))
    (colorMin colorMax : float)
    (first : string * nat * list PointField)
    (rest : list (string * nat * list PointField)) :
  let pts0 :=
    Points.new tfClient max_pts pointRatio messageRatio colorsrc colormap
               colorMin colorMax in
  let once := (Points.setup pts0 first.1.1 first.1.2 first.2).2 in
  let all := Stream.setupAll pts0 (first :: rest) in
  all.1 = map (fun k => Points.mod_is_zero k messageRatio) (seq 0 (S (length rest)))
  ∧ (∀ k, Points.mod_is_zero k messageRatio = true
          ↔ messageRatio ≠ 0 ∧ k mod messageRatio = 0)
  ∧ Points.messageCount all.2 = S (length rest)
  ∧ Points.sn all.2 = Points.sn once
  ∧ Points.fields all.2 = Points.fields once
  ∧ Points.colorsrc all.2 = Points.colorsrc once
  ∧ Points.positions all.2 = Points.positions once
  ∧ Points.colors all.2 = Points.colors once
  ∧ Points.getColor all.2 = Points.getColor once
  ∧ Points.max_pts all.2 = max_pts
  ∧ is_Some (Points.sn all.2)
  ∧ ∃ p, Points.positions all.2 = Some p
         ∧ array p = TypedArray.Float32Array (max_pts * 3).
Proof.
  intros pts0 once all. split; [|split; [intros k; apply mod_is_zero_spec|]].
  - unfold all. clear once all.
    induction rest as [|call rest IH] using rev_ind; [done|].
    rewrite app_comm_cons, setupAll_snoc. cbn [fst].
    rewrite IH. clear IH.
    assert (Hstate : is_Some (Points.sn (Stream.setupAll pts0 (first :: rest)).2)
                     ∧ Points.messageCount (Stream.setupAll pts0 (first :: rest)).2
                       = S (length rest)
                     ∧ Points.messageRatio (Stream.setupAll pts0 (first :: rest)).2
                       = messageRatio).
    { clear call. induction rest as [|call rest IH] using rev_ind.
      - split; [apply setup_first_sn|]. done.
      - destruct IH as (Hsn & Hcount & Hratio).
        rewrite app_comm_cons, setupAll_snoc. cbn [snd].
        rewrite setup_again by done.
        cbn [snd Points.sn Points.messageCount Points.messageRatio].
        rewrite length_app. cbn [length].
        split; [done|]. split; [lia|done]. }
    destruct Hstate as (Hsn & Hcount & Hratio).
    rewrite setup_again by done. cbn [fst]. rewrite Hcount, Hratio.
    rewrite length_app. cbn [length]. rewrite Nat.add_1_r.
    by rewrite (seq_S (S (length rest))), map_app.
  - unfold all. clear all.
    induction rest as [|call rest IH] using rev_ind.
    + change (Stream.setupAll pts0 [first]).2 with once.
      do 8 (split; [reflexivity|]). split; [apply setup_first_sn|].
      eexists. split; reflexivity.
    + destruct IH as (Hcount & Hsn & Hf & Hsrc & Hp & Hc & Hg & Hmax & Hsome & Hpos).
      rewrite app_comm_cons, setupAll_snoc. cbn [snd].
      rewrite setup_again by done.
      cbn [snd Points.sn Points.messageCount Points.fields Points.colorsrc
           Points.positions Points.colors Points.getColor Points.max_pts].
      rewrite length_app. cbn [length].
      split; [lia|]. by do 8 (split; [done|]).
Qed.

(** X7: what the first call of [setup] makes of the fields of the message
    on a helper as the constructor leaves it.  The field table holds each
    field under its name, the last one of a name winning, except that a
    field named ["__proto__"] becomes the prototype of the table.  A
    configured colour source is kept; without one, the first of ["rgb"],
    ["rgb_float"], ["rgba"] that names a field becomes the colour source.
    A colour buffer is allocated exactly when the read of the colour
    source on the table is truthy: when it names a field of the message
    (the accessor then reads that field at its offset with its datatype,
    and is missing for a datatype outside 1..8); when it is ["__proto__"];
    when it is a property every object inherits, such as ["constructor"]
    (then without accessor); and when a field named ["__proto__"] lends
    it a non-zero, non-empty property of its own.  Otherwise there is
    neither buffer nor accessor. *)
Theorem colour_source_is_detected `{Host}
    (pts : Points.t) (frame : string) (point_step : nat) (fields' : list PointField) :
  Points.sn pts = None →
  Points.colors pts = None →
  Points.getColor pts = None →
  let pts' := (Points.setup pts frame point_step fields').2 in
  let named n := last (filter (fun f => pf_name f = n) fields') in
  let fresh :=
    Some (mkBufferAttribute (TypedArray.Float32Array (Points.max_pts pts * 3))
                            (Points.max_pts pts) false) in
  (∀ n, n ≠ "__proto__" → Points.own (Points.fields pts') !! n = named n)
  ∧ Points.own (Points.fields pts') !! "__proto__" = None
  ∧ Points.proto (Points.fields pts') = named "__proto__"
  ∧ (∀ s, Points.colorsrc pts = Some s → s ≠ "" → Points.colorsrc pts' = Some s)
  ∧ (JS.truthy_string (Points.colorsrc pts) = false →
       Points.colorsrc pts'
       = match named "rgb", named "rgb_float", named "rgba" with
         | Some _, _, _ => Some "rgb"
         | None, Some _, _ => Some "rgb_float"
         | None, None, Some _ => Some "rgba"
         | None, None, None => Points.colorsrc pts
         end)
  ∧ (JS.truthy_string (Points.colorsrc pts') = false →
       Points.colors pts' = None ∧ Points.getColor pts' = None)
  ∧ (∀ s f, Points.colorsrc pts' = Some s → s ≠ "" → s ≠ "__proto__" →
       named s = Some f →
       Points.colors pts' = fresh
       ∧ Points.getColor pts'
         = (if (1 <=? pf_datatype f) && (pf_datatype f <=? 8)
            then Some (Points.mkColorReader (pf_offset f) (pf_datatype f))
            else None))
  ∧ (Points.colorsrc pts' = Some "__proto__" →
       Points.colors pts' = fresh
       ∧ Points.getColor pts'
         = match named "__proto__" with
           | Some f =>
               if (1 <=? pf_datatype f) && (pf_datatype f <=? 8)
               then Some (Points.mkColorReader (pf_offset f) (pf_datatype f))
               else None
           | None => None
           end)
  ∧ (∀ s, Points.colorsrc pts' = Some s → named s = None →
       s ∈ ["constructor"; "hasOwnProperty"; "isPrototypeOf"; "propertyIsEnumerable";
            "toLocaleString"; "toString"; "valueOf"; "__defineGetter__";
            "__defineSetter__"; "__lookupGetter__"; "__lookupSetter__"] →
       Points.colors pts' = fresh ∧ Points.getColor pts' = None)
  ∧ (∀ s, Points.colorsrc pts' = Some s → named s = None →
       s ∉ ["constructor"; "hasOwnProperty"; "isPrototypeOf"; "propertyIsEnumerable";
            "toLocaleString"; "toString"; "valueOf"; "__defineGetter__";
            "__defineSetter__"; "__lookupGetter__"; "__lookupSetter__"] →
       s ≠ "__proto__" →
       Points.getColor pts' = None
       ∧ match named "__proto__" with
         | None => Points.colors pts' = None
         | Some f =>
             is_Some (Points.colors pts')
             ↔ (s = "name" ∨ (s = "offset" ∧ pf_offset f ≠ 0)
                ∨ (s = "datatype" ∧ pf_datatype f ≠ 0)
                ∨ (s = "count" ∧ pf_count f ≠ 0))
         end).
Proof.
  intros Hsn Hcol Hget pts' named fresh.
  destruct (setup_first pts frame point_step fields' Hsn)
    as (Hfields & Hsrc & Hcolors & Hreader & _).
  fold pts' in Hfields, Hsrc, Hcolors, Hreader.
  set (table := Points.indexFields fields') in *.
  set (src' := Points.detectColorsrc (Points.colorsrc pts) table) in *.
  rewrite Hcol in Hcolors. rewrite Hget in Hreader.
  rewrite colorField_spec in Hcolors, Hreader.
  assert (Hnamed : ∀ n, n ≠ "__proto__" → Points.own table !! n = named n).
  { intros n Hn. by apply indexFields_own. }
  assert (Hownp : Points.own table !! "__proto__" = None)
    by apply indexFields_own_proto.
  assert (Hproto : Points.proto table = named "__proto__") by apply indexFields_proto.
  rewrite Hfields.
  split; [done|]. split; [done|]. split; [done|]. split.
  { intros s Hs Hne. rewrite Hsrc. unfold src', Points.detectColorsrc.
    rewrite Hs. cbn. by destruct (String.eqb_spec s ""). }
  split.
  { intros Hfalse. rewrite Hsrc. unfold src'.
    rewrite (detectColorsrc_auto _ _ Hfalse).
    by rewrite !Hnamed by done. }
  rewrite Hsrc. clear Hfields Hsrc. clearbody pts' src' table. split.
  { intros Hfalse. destruct src' as [s|]; [|by rewrite Hcolors, Hreader].
    cbn in Hfalse. apply negb_false_iff in Hfalse.
    apply String.eqb_eq in Hfalse as ->.
    rewrite decide_True in Hcolors, Hreader by done. by rewrite Hcolors, Hreader. }
  split.
  { intros s f [= Hs] Hne Hnp Hf. rewrite Hs in Hcolors, Hreader.
    rewrite decide_False in Hcolors, Hreader by done.
    rewrite (get_own table s f) in Hcolors, Hreader by (by rewrite Hnamed).
    by rewrite Hcolors, Hreader. }
  split.
  { intros [= Hs]. rewrite Hs in Hcolors, Hreader.
    rewrite decide_False in Hcolors, Hreader by done.
    unfold Points.get in Hcolors, Hreader.
    rewrite Hownp, Hproto in Hcolors, Hreader. cbn in Hcolors, Hreader.
    rewrite Hcolors, Hreader. by destruct (named "__proto__"). }
  split.
  { intros s [= Hs] Hnone Hin. rewrite Hs in Hcolors, Hreader.
    assert (Hne : s ≠ "").
    { intros ->. repeat (apply elem_of_cons in Hin as [Hin|Hin]; [discriminate Hin|]).
      by apply elem_of_nil in Hin. }
    assert (Hnp : s ≠ "__proto__").
    { intros ->. repeat (apply elem_of_cons in Hin as [Hin|Hin]; [discriminate Hin|]).
      by apply elem_of_nil in Hin. }
    rewrite decide_False in Hcolors, Hreader by done.
    rewrite (get_inherited table s) in Hcolors, Hreader
      by (done || by rewrite Hnamed).
    by rewrite Hcolors, Hreader. }
  intros s [= Hs] Hnone Hnin Hnp. rewrite Hs in Hcolors, Hreader.
  destruct (decide (s = "")) as [->|Hne].
  { rewrite Hcolors, Hreader. split; [done|].
    destruct (named "__proto__") as [f|]; [|done].
    split; [by intros [? ?]|]. intros [Hc|[[Hc _]|[[Hc _]|[Hc _]]]]; discriminate Hc. }
  assert (Hundef : Points.objectPrototype s = Points.Undefined).
  { unfold Points.objectPrototype. by rewrite bool_decide_eq_false_2. }
  unfold Points.get in Hcolors, Hreader.
  rewrite Hnamed, Hnone, Hproto in Hcolors, Hreader by done.
  destruct (String.eqb_spec s "__proto__") as [|_]; [done|].
  destruct (named "__proto__") as [f|] eqn:Hf.
  - assert (Hname : pf_name f = "__proto__").
    { unfold named in Hf. apply last_Some_elem_of in Hf.
      by apply list_elem_of_filter in Hf as [? _]. }
    unfold Points.fieldProperty in Hcolors, Hreader.
    destruct (String.eqb_spec s "name") as [->|N1].
    { cbn in Hcolors, Hreader. rewrite Hname in Hcolors, Hreader.
      cbn in Hcolors, Hreader. rewrite Hcolors, Hreader.
      split; [done|]. split; [by left|by eexists]. }
    destruct (String.eqb_spec s "offset") as [->|N2].
    { cbn in Hcolors, Hreader. rewrite Hcolors.
      destruct (Nat.eqb_spec (pf_offset f) 0) as [H0|H0]; cbn in *;
        (split; [by rewrite Hreader|]).
      - split; [by intros [? ?]|].
        intros [Hc|[[_ ?]|[[Hc _]|[Hc _]]]]; done || discriminate Hc.
      - split; [|by eexists]. intros _. right; left. done. }
    destruct (String.eqb_spec s "datatype") as [->|N3].
    { cbn in Hcolors, Hreader. rewrite Hcolors.
      destruct (Nat.eqb_spec (pf_datatype f) 0) as [H0|H0]; cbn in *;
        (split; [by rewrite Hreader|]).
      - split; [by intros [? ?]|].
        intros [Hc|[[Hc _]|[[_ ?]|[Hc _]]]]; done || discriminate Hc.
      - split; [|by eexists]. intros _. right; right; left. done. }
    destruct (String.eqb_spec s "count") as [->|N4].
    { cbn in Hcolors, Hreader. rewrite Hcolors.
      destruct (Nat.eqb_spec (pf_count f) 0) as [H0|H0]; cbn in *;
        (split; [by rewrite Hreader|]).
      - split; [by intros [? ?]|].
        intros [Hc|[[Hc _]|[[Hc _]|[_ ?]]]]; done || discriminate Hc.
      - split; [|by eexists]. intros _. right; right; right. done. }
    rewrite Hundef in Hcolors, Hreader. cbn in Hcolors, Hreader.
    rewrite Hcolors, Hreader. split; [done|].
    split; [by intros [? ?]|]. intros [?|[[? _]|[[? _]|[? _]]]]; done.
  - rewrite Hundef in Hcolors, Hreader. cbn in Hcolors, Hreader.
    by rewrite Hcolors, Hreader.
Qed.

(** X7 on a fresh helper and the fields x, y, z, intensity, rgb: the
    colour source becomes ["rgb"] and a colour buffer exists, read by the
    accessor of a binary32 field at offset 16. *)
Lemma colour_source_is_detected_witness :
  Points.colorsrc
    (Points.setup (H := sampleHost) SampleCloud.freshPoints "camera_frame" 20
                  SampleCloud.xyzrgb).2 = Some "rgb"
  ∧ Points.getColor
      (Points.setup (H := sampleHost) SampleCloud.freshPoints "camera_frame" 20
                    SampleCloud.xyzrgb).2 = Some (Points.mkColorReader 16 7).
Proof.
  destruct (colour_source_is_detected (H := sampleHost) SampleCloud.freshPoints
              "camera_frame" 20 SampleCloud.xyzrgb)
    as (_ & _ & _ & _ & Hauto & _ & Hfield & _).
  - reflexivity.
  - reflexivity.
  - reflexivity.
  - assert (Hsrc : Points.colorsrc
                     (Points.setup (H := sampleHost) SampleCloud.freshPoints
                        "camera_frame" 20 SampleCloud.xyzrgb).2 = Some "rgb").
    { rewrite Hauto by reflexivity. reflexivity. }
    split; [exact Hsrc|].
    destruct (Hfield "rgb" (mkPointField "rgb" 16 7 1) Hsrc) as [_ Hreader].
    + discriminate.
    + discriminate.
    + reflexivity.
    + exact Hreader.
Defined.

Section ScanTrace.
Context `{Host}.

Lemma scan_skipped (this : LaserScan.t) (message : LaserScan.Message) :
  Points.mod_is_zero (S (LaserScan.messageCounter this)) (LaserScan.messageRatio this)
  = false →
  LaserScan.processMessage this message
  = Some (Ok (LaserScan.mk (LaserScan.messageRatio this)
                (S (LaserScan.messageCounter this)) (LaserScan.points this))).
Proof. intros Hgate. unfold LaserScan.processMessage. cbn. by rewrite Hgate. Qed.

(** The state a processed scan leaves, beyond the buffer contents. *)
Lemma scan_processed_state (this : LaserScan.t) (message : LaserScan.Message) :
  Stream.inv (LaserScan.points this) →
  1 ≤ Points.pointRatio (LaserScan.points this) →
  Stream.scanProcessed this = true →
  ∃ this',
    LaserScan.processMessage this message = Some (Ok this')
    ∧ LaserScan.messageRatio this' = LaserScan.messageRatio this
    ∧ LaserScan.messageCounter this' = S (LaserScan.messageCounter this)
    ∧ Stream.inv (LaserScan.points this')
    ∧ Points.messageRatio (LaserScan.points this')
      = Points.messageRatio (LaserScan.points this)
    ∧ Points.pointRatio (LaserScan.points this')
      = Points.pointRatio (LaserScan.points this)
    ∧ Points.messageCount (LaserScan.points this')
      = S (Points.messageCount (LaserScan.points this))
    ∧ Points.drawRange (LaserScan.points this')
      = length (Stream.acceptedIndices message
                  (Points.pointRatio (LaserScan.points this))).
Proof.
  intros Hinv Hr Hgate. unfold Stream.scanProcessed in Hgate.
  apply andb_prop in Hgate as [Hg1 Hg2].
  destruct (setup_spec (LaserScan.points this) (LaserScan.frame_id message) 0 []
              Hinv) as (pts' & p & Hsetup & Hp & Hlen & Hmax & Hratio & Hmr & Hmc & Hinv').
  unfold LaserScan.processMessage.
  cbn [LaserScan.messageRatio LaserScan.messageCounter LaserScan.points].
  rewrite Hg1, Hsetup, Hg2. cbn [negb LaserScan.points].
  rewrite Hp, Hratio, (scanLoop_spec message _ (array p) Hr).
  unfold Points.update, Points.with_buffers. cbn [Points.positions Points.colors].
  rewrite Nat.mul_comm, Nat.div_mul by done.
  eexists. split; [reflexivity|].
  cbn [LaserScan.messageRatio LaserScan.messageCounter LaserScan.points
       Points.messageRatio Points.pointRatio Points.messageCount Points.drawRange].
  do 2 (split; [done|]). split; [|by repeat split].
  unfold Stream.inv in *. cbn [Points.sn Points.positions Points.colors Points.max_pts
    Points.colormap].
  pose proof (setup_first_sn (LaserScan.points this) (LaserScan.frame_id message)
                0 []) as Hsome.
  rewrite Hsetup in Hsome. cbn [snd] in Hsome.
  destruct (Points.sn pts') as [node|]; [|by destruct Hsome].
  destruct Hinv' as [_ Hc]. split.
  - eexists. split; [reflexivity|]. cbn [array]. by rewrite storeAll_length, Hlen, Hmax.
  - intros c. destruct (Points.colors pts') as [c0|] eqn:Hc0; [|done].
    intros [= <-]. cbn [array]. by apply Hc.
Qed.

Lemma processAll_snoc (this : LaserScan.t) messages message :
  LaserScan.processAll this (messages ++ [message])
  = match LaserScan.processAll this messages with
    | Some (Ok this') => LaserScan.processMessage this' message
    | outcome => outcome
    end.
Proof.
  unfold LaserScan.processAll. rewrite foldl_snoc.
  by destruct (foldl _ _ messages) as [[?|?]|].
Qed.

Lemma div_succ_multiple n r :
  1 ≤ r → S n mod r = 0 → S n / r = S (n / r) ∧ S n / r * r = S n.
Proof.
  intros Hr Hmod. pose proof (Nat.div_mod_eq (S n) r) as Hs.
  pose proof (Nat.div_mod_eq n r) as Hn.
  pose proof (Nat.mod_upper_bound n r ltac:(lia)) as Hlt.
  rewrite Hmod in Hs.
  set (q' := S n / r) in *. set (q := n / r) in *. set (t := n mod r) in *.
  assert (q < q') by nia. assert (q' ≤ S q) by nia. lia.
Qed.

Lemma div_succ_other n r :
  1 ≤ r → S n mod r ≠ 0 → S n / r = n / r.
Proof.
  intros Hr Hmod. pose proof (Nat.div_mod_eq n r) as Hn.
  pose proof (Nat.mod_upper_bound n r ltac:(lia)) as Hlt.
  assert (Hne : n mod r ≠ r - 1).
  { intros Heq. apply Hmod. apply Nat.Div0.mod_divides. exists (S (n / r)). lia. }
  symmetry. apply (Nat.div_unique _ _ _ (S (n mod r))); lia.
Qed.

(** What holds of a scan client after the messages [messages]. *)
Lemma processAll_state tfClient messageRatio max_pts pointRatio messages :
  1 ≤ messageRatio → 1 ≤ pointRatio →
  ∃ this',
    LaserScan.processAll (LaserScan.new tfClient messageRatio max_pts pointRatio)
                         messages = Some (Ok this')
    ∧ LaserScan.messageRatio this' = messageRatio
    ∧ LaserScan.messageCounter this' = length messages
    ∧ Stream.inv (LaserScan.points this')
    ∧ Points.messageRatio (LaserScan.points this') = 1
    ∧ Points.pointRatio (LaserScan.points this') = pointRatio
    ∧ Points.messageCount (LaserScan.points this') = length messages / messageRatio
    ∧ (length messages < messageRatio →
         LaserScan.points this'
         = LaserScan.points (LaserScan.new tfClient messageRatio max_pts pointRatio))
    ∧ (∀ m, messageRatio ≤ length messages →
            messages !! (length messages / messageRatio * messageRatio - 1) = Some m →
            Points.drawRange (LaserScan.points this')
            = length (Stream.acceptedIndices m pointRatio)).
Proof.
  intros Hr Hp. induction messages as [|message messages IH] using rev_ind.
  - eexists. split; [reflexivity|]. cbn. rewrite Nat.Div0.div_0_l.
    do 7 (split; [done|]). intros m. lia.
  - destruct IH as (this & Hrun & Hratio & Hcounter & Hinv & Hmr & Hpr & Hmc
                    & Hfresh & Hdraw).
    rewrite processAll_snoc, Hrun, length_app. cbn [length].
    rewrite Nat.add_1_r.
    destruct (Points.mod_is_zero (S (LaserScan.messageCounter this))
                                 (LaserScan.messageRatio this)) eqn:Hgate.
    + pose proof Hgate as Hmod. apply mod_is_zero_spec in Hmod as [_ Hmod].
      rewrite Hcounter, Hratio in Hmod.
      destruct (div_succ_multiple _ _ Hr Hmod) as [Hdiv Hmul].
      destruct (scan_processed_state this message Hinv) as
        (this' & Hrun' & Hratio' & Hcounter' & Hinv' & Hmr' & Hpr' & Hmc' & Hdraw').
      { lia. }
      { unfold Stream.scanProcessed. rewrite Hgate, Hmr.
        unfold Points.mod_is_zero. cbn [Nat.eqb andb]. by rewrite Nat.mod_1_r. }
      exists this'. split; [done|]. split; [congruence|]. split; [lia|].
      split; [done|]. split; [congruence|]. split; [congruence|].
      split; [lia|]. split.
      * intros Hlt. assert (S (length messages) / messageRatio = 0)
          by (apply Nat.div_small; lia). lia.
      * intros m _. rewrite Hmul. cbn. rewrite Nat.sub_0_r.
        rewrite lookup_app_r by done. rewrite Nat.sub_diag. intros [= <-].
        by rewrite Hdraw', Hpr.
    + rewrite (scan_skipped this message Hgate).
      assert (Hmod : S (length messages) mod messageRatio ≠ 0).
      { intros Hmod. rewrite Hcounter, Hratio in Hgate.
        assert (Points.mod_is_zero (S (length messages)) messageRatio = true)
          by (apply mod_is_zero_spec; split; [lia|done]).
        congruence. }
      rewrite (div_succ_other _ _ Hr Hmod).
      eexists. split; [reflexivity|]. cbn [LaserScan.messageRatio
        LaserScan.messageCounter LaserScan.points].
      split; [done|]. split; [lia|]. do 4 (split; [done|]). split.
      * intros Hlt. apply Hfresh. lia.
      * intros m Hle.
        assert (Hq : 1 ≤ length messages / messageRatio).
        { rewrite <- (div_succ_other _ _ Hr Hmod).
          apply Nat.div_le_lower_bound; lia. }
        pose proof (Nat.Div0.mul_div_le (length messages) messageRatio) as Hb.
        assert (Hlen : messageRatio ≤ length messages) by nia.
        rewrite lookup_app_l by nia. by apply Hdraw.
Qed.

End ScanTrace.

(** X8: a scan client with message ratio [r >= 1] decodes every [r]-th
    message of its topic and drops the others before anything is set up:
    after [n] messages the handler has returned [n] times, the counter is
    [n], the point buffers have been set up and filled [n / r] times, and
    fewer than [r] messages leave the [Points] helper untouched;
    afterwards the draw range is the number of in-range samples of the
    last decoded message, the one numbered [(n / r) * r]. *)
Theorem scan_decodes_every_nth_message `{Host}
    (tfClient : option SceneNode.TFClient) (messageRatio max_pts pointRatio : nat)
    (messages : list LaserScan.Message) :
  1 ≤ messageRatio →
  1 ≤ pointRatio →
  ∃ this',
    LaserScan.processAll (LaserScan.new tfClient messageRatio max_pts pointRatio)
                         messages = Some (Ok this')
    ∧ LaserScan.messageCounter this' = length messages
    ∧ Points.messageCount (LaserScan.points this') = length messages / messageRatio
    ∧ (length messages < messageRatio →
         LaserScan.points this'
         = LaserScan.points (LaserScan.new tfClient messageRatio max_pts pointRatio))
    ∧ (∀ m, messageRatio ≤ length messages →
            messages !! (length messages / messageRatio * messageRatio - 1) = Some m →
            Points.drawRange (LaserScan.points this')
            = length (Stream.acceptedIndices m pointRatio)).
Proof.
  intros Hr Hp.
  destruct (processAll_state tfClient messageRatio max_pts pointRatio messages Hr Hp)
    as (this' & Hrun & _ & Hcounter & _ & _ & _ & Hcount & Hfresh & Hdraw).
  by exists this'.
Qed.

(** X8 on a client with message ratio 2 and three scans, the second with
    one sample in range: one message decoded, one point drawn. *)
Lemma scan_decodes_every_nth_message_witness :
  ∃ this',
    LaserScan.processAll (H := sampleHost)
      (LaserScan.new (Some SceneNode.tfClientHandle) 2 100 1)
      [SampleScan.threeValid; SampleScan.oneValid; SampleScan.threeValid]
    = Some (Ok this')
    ∧ Points.messageCount (LaserScan.points this') = 1
    ∧ Points.drawRange (LaserScan.points this') = 1.
Proof.
  destruct (scan_decodes_every_nth_message (H := sampleHost)
              (Some SceneNode.tfClientHandle) 2 100 1
              [SampleScan.threeValid; SampleScan.oneValid; SampleScan.threeValid])
    as (this' & Hrun & _ & Hcount & _ & Hdraw).
  - lia.
  - lia.
  - exists this'. split; [exact Hrun|]. split; [exact Hcount|].
    rewrite (Hdraw SampleScan.oneValid); [|cbn; lia|reflexivity].
    vm_compute. reflexivity.
Defined.

(** ** Decoding base64 *)

Section Decode64Facts.
Import Encoding.

Lemma Z_of_byte_range (c : byte) : (0 ≤ TypedArray.Z_of_byte c < 256)%Z.
Proof.
  unfold TypedArray.Z_of_byte. pose proof (Byte.to_N_bounded c) as Hb.
  split; [apply N2Z.is_nonneg|]. lia.
Qed.

Lemma byte_of_Z_of_byte (c : byte) : TypedArray.byte_of_Z (TypedArray.Z_of_byte c) = c.
Proof.
  unfold TypedArray.byte_of_Z. rewrite Z.mod_small by apply Z_of_byte_range.
  unfold TypedArray.Z_of_byte. by rewrite N2Z.id, Byte.of_to_N.
Qed.

Lemma extract_spec b l :
  extract b l = ((toUint32 b / 2 ^ Z.of_nat l) mod 256)%Z.
Proof.
  unfold extract. change 255%Z with (Z.ones 8). rewrite Z.land_ones by lia.
  by rewrite Z.shiftr_div_pow2 by lia.
Qed.

(** The three bytes that four six-bit groups complete, whatever the
    accumulator held before. *)
Lemma first_byte v t1 t2 a :
  (0 ≤ a < 256)%Z → (t1 = a / 4)%Z → (0 ≤ t2 < 64)%Z → (t2 / 16 = a mod 4)%Z →
  extract (shift_add (shift_add (Some v) (Some t1)) (Some t2)) 4 = a.
Proof.
  intros Ha -> Ht2 Hlow. rewrite extract_spec. unfold shift_add, toUint32, toInt32.
  rewrite !Z.shiftl_mul_pow2 by lia.
  change (2 ^ Z.of_nat 4)%Z with 16%Z. change (2 ^ 6)%Z with 64%Z.
  Z.div_mod_to_equations. lia.
Qed.

Lemma second_byte v t1 t2 t3 b :
  (0 ≤ b < 256)%Z → (0 ≤ t2 < 64)%Z → (t2 mod 16 = b / 16)%Z →
  (0 ≤ t3 < 64)%Z → (t3 / 4 = b mod 16)%Z →
  extract (shift_add (shift_add (shift_add (Some v) (Some t1)) (Some t2)) (Some t3)) 2
  = b.
Proof.
  intros Hb Ht2 Hhigh Ht3 Hlow. rewrite extract_spec.
  unfold shift_add, toUint32, toInt32.
  rewrite !Z.shiftl_mul_pow2 by lia.
  change (2 ^ Z.of_nat 2)%Z with 4%Z. change (2 ^ 6)%Z with 64%Z.
  Z.div_mod_to_equations. lia.
Qed.

Lemma third_byte v t1 t2 t3 t4 c :
  (0 ≤ c < 256)%Z → (0 ≤ t3 < 64)%Z → (t3 mod 4 = c / 64)%Z → (t4 = c mod 64)%Z →
  extract (shift_add (shift_add (shift_add (shift_add (Some v) (Some t1)) (Some t2))
                        (Some t3)) (Some t4)) 0
  = c.
Proof.
  intros Hc Ht3 Hhigh ->. rewrite extract_spec.
  unfold shift_add, toUint32, toInt32.
  rewrite !Z.shiftl_mul_pow2 by lia.
  change (2 ^ Z.of_nat 0)%Z with 1%Z. change (2 ^ 6)%Z with 64%Z.
  Z.div_mod_to_equations. lia.
Qed.

(** The loop without subsampling, one round at a time. *)
Lemma loop_round fuel inbytes L A record_size x b l j out :
  x < L → j < A →
  decode64_loop (S fuel) inbytes L A record_size 0 x b l j out
  = if 8 <=? l + 6
    then decode64_loop fuel inbytes L A record_size 0 (x + 1)
           (shift_add b (DECODE_64_TABLE inbytes x)) (l + 6 - 8) (j + 1)
           (TypedArray.store8 out j
              (extract (shift_add b (DECODE_64_TABLE inbytes x)) (l + 6 - 8)))
    else decode64_loop fuel inbytes L A record_size 0 (x + 1)
           (shift_add b (DECODE_64_TABLE inbytes x)) (l + 6) j out.
Proof.
  intros Hx Hj. cbn [decode64_loop].
  destruct (Nat.ltb_spec x L); [|lia]. destruct (Nat.ltb_spec j A); [|lia].
  cbn [andb]. destruct (8 <=? l + 6); [|done].
  by rewrite andb_false_r.
Qed.

Lemma loop_done fuel inbytes L A record_size bitskip x b l j out :
  L ≤ x → decode64_loop fuel inbytes L A record_size bitskip x b l j out = (j, out).
Proof.
  intros Hx. destruct fuel; [done|]. cbn [decode64_loop].
  by destruct (Nat.ltb_spec x L); [lia|].
Qed.

Lemma get_string_of_list (l : list ascii) i :
  String.get i (String.string_of_list_ascii l) = l !! i.
Proof.
  revert i. induction l as [|c l IH]; intros [|i]; cbn; by try apply IH.
Qed.

Lemma length_string_of_list (l : list ascii) :
  String.length (String.string_of_list_ascii l) = length l.
Proof. induction l as [|c l IH]; cbn; [done|]. by rewrite IH. Qed.

Lemma index_of_char (t : Z) :
  (0 ≤ t < 64)%Z → index_of (Base64.char t) DECODE_64_CHAR_SET 0 = Some t.
Proof.
  intros Ht.
  assert (Hall : forallb (fun n =>
                    match index_of (Base64.char (Z.of_nat n)) DECODE_64_CHAR_SET 0 with
                    | Some t' => (t' =? Z.of_nat n)%Z
                    | None => false
                    end) (seq 0 64) = true) by (vm_compute; reflexivity).
  rewrite forallb_forall in Hall. specialize (Hall (Z.to_nat t)).
  rewrite Z2Nat.id in Hall by lia.
  destruct (index_of (Base64.char t) DECODE_64_CHAR_SET 0) as [t'|].
  - f_equal. apply Z.eqb_eq. apply Hall. apply in_seq. lia.
  - discriminate Hall. apply in_seq. lia.
Qed.

Lemma sextets_range bytes : Forall (fun t => 0 ≤ t < 64)%Z (Base64.sextets bytes).
Proof.
  assert (Hlen : ∀ n bs, length bs ≤ n →
                         Forall (fun t => 0 ≤ t < 64)%Z (Base64.sextets bs)).
  { induction n as [|n IH]; intros bs Hn.
    - destruct bs; [constructor|cbn in Hn; lia].
    - destruct bs as [|a [|b [|c rest]]].
      + constructor.
      + pose proof (Z_of_byte_range a). cbn [Base64.sextets].
        repeat constructor; Z.div_mod_to_equations; lia.
      + pose proof (Z_of_byte_range a). pose proof (Z_of_byte_range b).
        cbn [Base64.sextets].
        repeat constructor; Z.div_mod_to_equations; lia.
      + pose proof (Z_of_byte_range a). pose proof (Z_of_byte_range b).
        pose proof (Z_of_byte_range c). cbn [Base64.sextets app].
        repeat (apply Forall_cons; split;
                [Z.div_mod_to_equations; lia|]).
        apply IH. cbn in Hn. lia. }
  by apply (Hlen (length bytes)).
Qed.

(** The table entry of each character of an encoding is its six-bit
    group. *)
Lemma table_encode bytes i t :
  Base64.sextets bytes !! i = Some t →
  DECODE_64_TABLE (Base64.encode bytes) i = Some t.
Proof.
  intros Hi. unfold DECODE_64_TABLE, Base64.encode.
  rewrite get_string_of_list, list_lookup_fmap, Hi. cbn.
  apply index_of_char.
  pose proof (sextets_range bytes) as Hall. rewrite Forall_lookup in Hall.
  by apply (Hall i).
Qed.

Lemma store8_byte out j (c : byte) :
  TypedArray.store8 out j (TypedArray.Z_of_byte c) = <[ j := c ]> out.
Proof. unfold TypedArray.store8. by rewrite byte_of_Z_of_byte. Qed.

(** From a byte boundary on, the loop writes the bytes whose encoding
    it finds in the input, and stops at the end of the input. *)
Lemma loop_decodes inbytes L A record_size : ∀ n bytes x v j out fuel,
  length bytes ≤ n →
  (∀ i t, Base64.sextets bytes !! i = Some t →
          DECODE_64_TABLE inbytes (x + i) = Some t) →
  L = x + length (Base64.sextets bytes) →
  j + length bytes ≤ A →
  L - x ≤ fuel →
  decode64_loop fuel inbytes L A record_size 0 x (Some v) 0 j out
  = (j + length bytes, Base64.writeBytes out j bytes).
Proof.
  induction n as [|n IH]; intros bytes x v j out fuel Hn Htab HL HA Hfuel.
  { destruct bytes; [|cbn in Hn; lia]. cbn in HL.
    rewrite loop_done by lia. cbn. by rewrite Nat.add_0_r. }
  destruct bytes as [|a [|b [|c rest]]].
  - cbn in HL. rewrite loop_done by lia. cbn. by rewrite Nat.add_0_r.
  - pose proof (Z_of_byte_range a) as Ha.
    cbn [Base64.sextets length] in *.
    pose proof (Htab 0 _ eq_refl) as H0. pose proof (Htab 1 _ eq_refl) as H1.
    rewrite Nat.add_0_r in H0.
    destruct fuel as [|[|fuel]]; [lia|lia|].
    rewrite loop_round by lia. rewrite H0. cbn [Nat.add Nat.leb].
    rewrite loop_round by lia. rewrite H1. cbn [Nat.add Nat.leb Nat.sub].
    rewrite loop_done by lia.
    rewrite (first_byte _ _ _ (TypedArray.Z_of_byte a))
      by (try done; Z.div_mod_to_equations; lia).
    by rewrite store8_byte.
  - pose proof (Z_of_byte_range a) as Ha. pose proof (Z_of_byte_range b) as Hb.
    cbn [Base64.sextets length] in *.
    pose proof (Htab 0 _ eq_refl) as H0. pose proof (Htab 1 _ eq_refl) as H1.
    pose proof (Htab 2 _ eq_refl) as H2.
    rewrite Nat.add_0_r in H0.
    destruct fuel as [|[|[|fuel]]]; [lia|lia|lia|].
    rewrite loop_round by lia. rewrite H0. cbn [Nat.add Nat.leb].
    rewrite loop_round by lia. rewrite H1. cbn [Nat.add Nat.leb Nat.sub].
    rewrite loop_round by lia.
    replace (x + 1 + 1) with (x + 2) by lia. rewrite H2.
    cbn [Nat.add Nat.leb Nat.sub].
    rewrite loop_done by lia.
    rewrite (first_byte _ _ _ (TypedArray.Z_of_byte a))
      by (try done; Z.div_mod_to_equations; lia).
    rewrite (second_byte _ _ _ _ (TypedArray.Z_of_byte b))
      by (try done; Z.div_mod_to_equations; lia).
    rewrite !store8_byte. cbn [Base64.writeBytes]. f_equal; [lia|].
    by replace (j + 1) with (S j) by lia.
  - pose proof (Z_of_byte_range a) as Ha. pose proof (Z_of_byte_range b) as Hb.
    pose proof (Z_of_byte_range c) as Hc.
    cbn [Base64.sextets length app] in *.
    pose proof (Htab 0 _ eq_refl) as H0. pose proof (Htab 1 _ eq_refl) as H1.
    pose proof (Htab 2 _ eq_refl) as H2. pose proof (Htab 3 _ eq_refl) as H3.
    rewrite Nat.add_0_r in H0.
    destruct fuel as [|[|[|[|fuel]]]]; [lia|lia|lia|lia|].
    rewrite loop_round by lia. rewrite H0. cbn [Nat.add Nat.leb].
    rewrite loop_round by lia. rewrite H1. cbn [Nat.add Nat.leb Nat.sub].
    rewrite loop_round by lia.
    replace (x + 1 + 1) with (x + 2) by lia. rewrite H2.
    cbn [Nat.add Nat.leb Nat.sub].
    rewrite loop_round by lia.
    replace (x + 2 + 1) with (x + 3) by lia. rewrite H3.
    cbn [Nat.add Nat.leb Nat.sub].
    rewrite (first_byte _ _ _ (TypedArray.Z_of_byte a))
      by (try done; Z.div_mod_to_equations; lia).
    rewrite (second_byte _ _ _ _ (TypedArray.Z_of_byte b))
      by (try done; Z.div_mod_to_equations; lia).
    rewrite (third_byte _ _ _ _ _ (TypedArray.Z_of_byte c))
      by (try done; Z.div_mod_to_equations; lia).
    rewrite !store8_byte.
    cbn [shift_add]. rewrite (IH rest (x + 3 + 1)); try lia.
    + cbn [Base64.writeBytes]. f_equal; [lia|].
      by replace (j + 1) with (S j) by lia;
         replace (S j + 1) with (S (S j)) by lia;
         replace (S (S j) + 1) with (S (S (S j))) by lia.
    + intros i t Hi. replace (x + 3 + 1 + i) with (x + (4 + i)) by lia.
      by apply Htab.
Qed.

Lemma writeBytes_spec bytes : ∀ out j,
  j + length bytes ≤ length out →
  Base64.writeBytes out j bytes
  = take j out ++ bytes ++ drop (j + length bytes) out.
Proof.
  induction bytes as [|c bytes IH]; intros out j Hlen.
  - cbn. by rewrite Nat.add_0_r, take_drop.
  - cbn [Base64.writeBytes length] in *. rewrite IH by (rewrite length_insert; lia).
    rewrite (take_S_r _ j c) by (apply list_lookup_insert_eq; lia).
    rewrite take_insert_ge by lia. rewrite drop_insert_lt by lia.
    rewrite <- app_assoc. cbn [app].
    by replace (S j + length bytes) with (j + S (length bytes)) by lia.
Qed.

(** The loop never writes past the buffer, and never more bytes than
    three quarters of the characters it has read. *)
Lemma loop_bounds inbytes L A record_size bitskip : ∀ fuel x b l j out,
  j ≤ A → 8 * j + l ≤ 6 * Nat.min x L →
  ∃ j' out',
    decode64_loop fuel inbytes L A record_size bitskip x b l j out = (j', out')
    ∧ length out' = length out
    ∧ j ≤ j' ≤ A ∧ 8 * j' ≤ 6 * L
    ∧ ∀ i, j' ≤ i → out' !! i = out !! i.
Proof.
  induction fuel as [|fuel IH]; intros x b l j out HA Hbits.
  { exists j, out. cbn. split; [done|]. split; [done|]. split; [lia|].
    split; [lia|done]. }
  cbn [decode64_loop].
  destruct (Nat.ltb_spec x L) as [Hx|Hx]; cbn [andb];
    [|exists j, out; split; [done|]; split; [done|]; split; [lia|];
      split; [lia|done]].
  destruct (Nat.ltb_spec j A) as [Hj|Hj];
    [|exists j, out; split; [done|]; split; [done|]; split; [lia|];
      split; [lia|done]].
  destruct (Nat.leb_spec 8 (l + 6)) as [Hl|Hl].
  - set (out1 := TypedArray.store8 out j _).
    assert (Hout1 : length out1 = length out) by apply length_insert.
    assert (Hkeep : ∀ i, j + 1 ≤ i → out1 !! i = out !! i).
    { intros i Hi. apply list_lookup_insert_ne. lia. }
    pose proof (Nat.Div0.mod_le (l + 6 - 8) 8) as Hmod.
    destruct (negb (record_size =? 0) && ((j + 1) mod record_size =? 0)
              && (0 <? bitskip));
      match goal with
      | |- ∃ _ _, decode64_loop _ _ _ _ _ _ ?x' ?b' ?l' ?j1 ?o = _ ∧ _ =>
          destruct (IH x' b' l' j1 o) as (j' & out' & Hrun & Hlen & Hj' & Hb' & Hk);
            [lia|lia|]
      end;
      (exists j', out'; split; [done|]; split; [congruence|]; split; [lia|];
       split; [done|]; intros i Hi; rewrite Hk by done; apply Hkeep; lia).
  - destruct (IH (x + 1) (shift_add b (DECODE_64_TABLE inbytes x)) (l + 6) j out)
      as (j' & out' & Hrun & Hlen & Hj' & Hb' & Hk); [lia|lia|].
    by exists j', out'.
Qed.

Lemma decode64_bounds
    (inbytes : string) (outbytes : list byte) (record_size pointRatio : nat) :
  let size := if record_size =? 0 then length outbytes else record_size in
  0 < size →
  let r := Encoding.decode64 inbytes outbytes record_size pointRatio in
  length r.2 = length outbytes
  ∧ r.1 * size ≤ length outbytes
  ∧ 4 * (r.1 * size) ≤ 3 * String.length inbytes
  ∧ (∀ i, (r.1 + 1) * size ≤ i ∨ 3 * String.length inbytes ≤ 4 * i →
          r.2 !! i = outbytes !! i).
Proof.
  intros size Hsize r. unfold r, Encoding.decode64. fold size.
  set (bitskip := (_ - 1) * size * 8).
  destruct (loop_bounds inbytes (String.length inbytes) (length outbytes) size bitskip
              (String.length inbytes) 0 (Some 0%Z) 0 0 outbytes)
    as (j & out & -> & Hlen & Hj & Hbits & Hkeep); [lia|lia|].
  cbn [fst snd].
  pose proof (Nat.Div0.mul_div_le j size) as Hlow.
  pose proof (Nat.mul_succ_div_gt j size ltac:(lia)) as Hhigh.
  split; [done|]. split; [lia|]. split; [lia|].
  intros i Hi. apply Hkeep. destruct Hi; lia.
Qed.

Lemma decode64_encode
    (bytes outbytes : list byte) (record_size pointRatio : nat) :
  let size := if record_size =? 0 then length outbytes else record_size in
  length bytes ≤ length outbytes →
  pointRatio ≤ 1 →
  Encoding.decode64 (Base64.encode bytes) outbytes record_size pointRatio
  = (length bytes / size, bytes ++ drop (length bytes) outbytes).
Proof.
  intros size Hfit Hratio. unfold Encoding.decode64. fold size.
  assert (Hskip : ((if pointRatio =? 0 then 1 else pointRatio) - 1) * size * 8 = 0).
  { destruct pointRatio as [|[|?]]; cbn; lia. }
  rewrite Hskip.
  assert (HL : String.length (Base64.encode bytes) = length (Base64.sextets bytes)).
  { unfold Base64.encode. by rewrite length_string_of_list, length_map. }
  rewrite (loop_decodes _ _ _ _ (length bytes) bytes 0 0%Z 0 outbytes); try lia.
  - cbn [Nat.add]. by rewrite writeBytes_spec by done.
  - intros i t. apply table_encode.
Qed.

Lemma loop_full fuel inbytes L A record_size bitskip x b l j out :
  A ≤ j → decode64_loop fuel inbytes L A record_size bitskip x b l j out = (j, out).
Proof.
  intros Hj. destruct fuel; [done|]. cbn [decode64_loop].
  destruct (Nat.ltb_spec j A); [lia|]. by rewrite andb_false_r.
Qed.

(** The same when the output array may be too short: the loop stops
    when the array is full. *)
Lemma loop_decodes_upto inbytes L A record_size : ∀ n bytes x v j out fuel,
  length bytes ≤ n →
  (∀ i t, Base64.sextets bytes !! i = Some t →
          DECODE_64_TABLE inbytes (x + i) = Some t) →
  L = x + length (Base64.sextets bytes) →
  j ≤ A →
  L - x ≤ fuel →
  decode64_loop fuel inbytes L A record_size 0 x (Some v) 0 j out
  = (j + Nat.min (length bytes) (A - j),
     Base64.writeBytes out j (take (A - j) bytes)).
Proof.
  induction n as [|n IH]; intros bytes x v j out fuel Hn Htab HL HA Hfuel.
  { destruct bytes; [|cbn in Hn; lia]. cbn in HL.
    rewrite loop_done by lia. rewrite take_nil. cbn. by rewrite Nat.add_0_r. }
  destruct (decide (j + length bytes ≤ A)) as [Hfit|Hfit].
  { rewrite (loop_decodes _ _ _ _ (length bytes) bytes) by (done || lia).
    rewrite take_ge by lia. f_equal. lia. }
  destruct (decide (A = j)) as [->|Hj].
  { rewrite loop_full by lia. rewrite Nat.sub_diag, take_0. cbn. f_equal. lia. }
  destruct bytes as [|a [|b [|c rest]]].
  - cbn in Hfit. lia.
  - cbn in Hfit. lia.
  - pose proof (Z_of_byte_range a) as Ha. pose proof (Z_of_byte_range b) as Hb.
    cbn [Base64.sextets length] in *.
    pose proof (Htab 0 _ eq_refl) as H0. pose proof (Htab 1 _ eq_refl) as H1.
    rewrite Nat.add_0_r in H0.
    destruct fuel as [|[|[|fuel]]]; [lia|lia|lia|].
    rewrite loop_round by lia. rewrite H0. cbn [Nat.add Nat.leb].
    rewrite loop_round by lia. rewrite H1. cbn [Nat.add Nat.leb Nat.sub].
    rewrite loop_full by lia.
    rewrite (first_byte _ _ _ (TypedArray.Z_of_byte a))
      by (try done; Z.div_mod_to_equations; lia).
    rewrite store8_byte. replace (A - j) with 1 by lia.
    cbn [take Base64.writeBytes]. f_equal; lia.
  - pose proof (Z_of_byte_range a) as Ha. pose proof (Z_of_byte_range b) as Hb.
    pose proof (Z_of_byte_range c) as Hc.
    cbn [Base64.sextets length app] in *.
    pose proof (Htab 0 _ eq_refl) as H0. pose proof (Htab 1 _ eq_refl) as H1.
    pose proof (Htab 2 _ eq_refl) as H2. pose proof (Htab 3 _ eq_refl) as H3.
    rewrite Nat.add_0_r in H0.
    destruct fuel as [|[|[|[|fuel]]]]; [lia|lia|lia|lia|].
    rewrite loop_round by lia. rewrite H0. cbn [Nat.add Nat.leb].
    rewrite loop_round by lia. rewrite H1. cbn [Nat.add Nat.leb Nat.sub].
    destruct (decide (A = j + 1)) as [->|Hj1].
    { rewrite loop_full by lia.
      rewrite (first_byte _ _ _ (TypedArray.Z_of_byte a))
        by (try done; Z.div_mod_to_equations; lia).
      rewrite store8_byte. replace (j + 1 - j) with 1 by lia.
      cbn [take Base64.writeBytes]. f_equal; lia. }
    rewrite loop_round by lia.
    replace (x + 1 + 1) with (x + 2) by lia. rewrite H2.
    cbn [Nat.add Nat.leb Nat.sub].
    destruct (decide (A = j + 1 + 1)) as [->|Hj2].
    { rewrite loop_full by lia.
      rewrite (first_byte _ _ _ (TypedArray.Z_of_byte a))
        by (try done; Z.div_mod_to_equations; lia).
      rewrite (second_byte _ _ _ _ (TypedArray.Z_of_byte b))
        by (try done; Z.div_mod_to_equations; lia).
      rewrite !store8_byte. replace (j + 1 + 1 - j) with 2 by lia.
      cbn [take Base64.writeBytes]. f_equal; [lia|].
      by replace (j + 1) with (S j) by lia. }
    rewrite loop_round by lia.
    replace (x + 2 + 1) with (x + 3) by lia. rewrite H3.
    cbn [Nat.add Nat.leb Nat.sub].
    rewrite (first_byte _ _ _ (TypedArray.Z_of_byte a))
      by (try done; Z.div_mod_to_equations; lia).
    rewrite (second_byte _ _ _ _ (TypedArray.Z_of_byte b))
      by (try done; Z.div_mod_to_equations; lia).
    rewrite (third_byte _ _ _ _ _ (TypedArray.Z_of_byte c))
      by (try done; Z.div_mod_to_equations; lia).
    rewrite !store8_byte.
    cbn [shift_add]. rewrite (IH rest (x + 3 + 1)); try lia.
    + replace (A - j) with (S (S (S (A - (j + 1 + 1 + 1))))) by lia.
      cbn [take Base64.writeBytes]. f_equal; [lia|].
      by replace (j + 1) with (S j) by lia;
         replace (S j + 1) with (S (S j)) by lia;
         replace (S (S j) + 1) with (S (S (S j))) by lia.
    + intros i t Hi. replace (x + 3 + 1 + i) with (x + (4 + i)) by lia.
      by apply Htab.
Qed.

(** [decode64] on an encoding, whatever the size of the output array. *)
Lemma decode64_encode_upto
    (bytes outbytes : list byte) (record_size pointRatio : nat) :
  let size := if record_size =? 0 then length outbytes else record_size in
  pointRatio ≤ 1 →
  Encoding.decode64 (Base64.encode bytes) outbytes record_size pointRatio
  = (Nat.min (length bytes) (length outbytes) / size,
     take (length outbytes) bytes ++ drop (length bytes) outbytes).
Proof.
  intros size Hratio. unfold Encoding.decode64. fold size.
  assert (Hskip : ((if pointRatio =? 0 then 1 else pointRatio) - 1) * size * 8 = 0).
  { destruct pointRatio as [|[|?]]; cbn; lia. }
  rewrite Hskip.
  assert (HL : String.length (Base64.encode bytes) = length (Base64.sextets bytes)).
  { unfold Base64.encode. by rewrite length_string_of_list, length_map. }
  rewrite (loop_decodes_upto _ _ _ _ (length bytes) bytes 0 0%Z 0 outbytes); try lia.
  - cbn [Nat.add]. rewrite Nat.sub_0_r.
    rewrite writeBytes_spec by (rewrite length_take; lia).
    rewrite take_0, length_take. cbn [Nat.add app].
    replace (length outbytes `min` length bytes)
      with (length bytes `min` length outbytes) by lia.
    destruct (decide (length bytes ≤ length outbytes)).
    + by rewrite Nat.min_l.
    + rewrite Nat.min_r by lia. by rewrite !drop_ge by lia.
  - intros i t. apply table_encode.
Qed.

Lemma extract_undefined l : extract None l = 0%Z.
Proof. unfold extract, toUint32. by rewrite Z.shiftr_0_l. Qed.

Lemma store8_zero out j : TypedArray.store8 out j 0 = <[ j := x00 ]> out.
Proof. by rewrite <- (store8_byte out j x00). Qed.

(** The loop on a padded encoding: every padding character that
    completes a byte stores a zero. *)
Lemma loop_decodes_padded inbytes L A record_size : ∀ n bytes x v j out fuel,
  length bytes ≤ n →
  (∀ i t, Base64.sextets bytes !! i = Some t →
          DECODE_64_TABLE inbytes (x + i) = Some t) →
  (∀ i, length (Base64.sextets bytes) ≤ i → DECODE_64_TABLE inbytes (x + i) = None) →
  L = x + length (Base64.sextets bytes) + Base64.padLength bytes →
  j ≤ A →
  L - x ≤ fuel →
  decode64_loop fuel inbytes L A record_size 0 x (Some v) 0 j out
  = (j + Nat.min (length bytes + Base64.padLength bytes) (A - j),
     Base64.writeBytes out j
       (take (A - j) (bytes ++ replicate (Base64.padLength bytes) x00))).
Proof.
  induction n as [|n IH]; intros bytes x v j out fuel Hn Htab Hpad HL HA Hfuel.
  { destruct bytes; [|cbn in Hn; lia]. cbn in HL.
    rewrite loop_done by lia. cbn [Base64.padLength replicate app].
    rewrite take_nil. cbn. by rewrite Nat.add_0_r. }
  destruct (decide (A = j)) as [->|Hj].
  { rewrite loop_full by lia. rewrite Nat.sub_diag, take_0. cbn. f_equal. lia. }
  destruct bytes as [|a [|b [|c rest]]].
  - cbn in HL. rewrite loop_done by lia. cbn [Base64.padLength replicate app].
    rewrite take_nil. cbn. by rewrite Nat.add_0_r.
  - pose proof (Z_of_byte_range a) as Ha.
    cbn [Base64.sextets Base64.padLength length replicate app] in *.
    pose proof (Htab 0 _ eq_refl) as H0. pose proof (Htab 1 _ eq_refl) as H1.
    pose proof (Hpad 2 ltac:(lia)) as H2. pose proof (Hpad 3 ltac:(lia)) as H3.
    rewrite Nat.add_0_r in H0.
    destruct fuel as [|[|[|[|fuel]]]]; [lia|lia|lia|lia|].
    rewrite loop_round by lia. rewrite H0. cbn [Nat.add Nat.leb].
    rewrite loop_round by lia. rewrite H1. cbn [Nat.add Nat.leb Nat.sub].
    rewrite (first_byte _ _ _ (TypedArray.Z_of_byte a))
      by (try done; Z.div_mod_to_equations; lia).
    rewrite store8_byte.
    destruct (decide (A = j + 1)) as [->|Hj1].
    { rewrite loop_full by lia. replace (j + 1 - j) with 1 by lia.
      cbn [take Base64.writeBytes]. f_equal; lia. }
    rewrite loop_round by lia.
    replace (x + 1 + 1) with (x + 2) by lia. rewrite H2.
    cbn [Nat.add Nat.leb Nat.sub shift_add].
    rewrite extract_undefined, store8_zero.
    destruct (decide (A = j + 1 + 1)) as [->|Hj2].
    { rewrite loop_full by lia. replace (j + 1 + 1 - j) with 2 by lia.
      cbn [take Base64.writeBytes]. f_equal; [lia|].
      by replace (j + 1) with (S j) by lia. }
    rewrite loop_round by lia.
    replace (x + 2 + 1) with (x + 3) by lia. rewrite H3.
    cbn [Nat.add Nat.leb Nat.sub shift_add].
    rewrite extract_undefined, store8_zero.
    rewrite loop_done by lia.
    replace (A - j) with (S (S (S (A - (j + 1 + 1 + 1))))) by lia.
    cbn [take Base64.writeBytes]. rewrite take_nil. cbn [Base64.writeBytes].
    f_equal; [lia|].
    by replace (j + 1) with (S j) by lia;
       replace (S j + 1) with (S (S j)) by lia.
  - pose proof (Z_of_byte_range a) as Ha. pose proof (Z_of_byte_range b) as Hb.
    cbn [Base64.sextets Base64.padLength length replicate app] in *.
    pose proof (Htab 0 _ eq_refl) as H0. pose proof (Htab 1 _ eq_refl) as H1.
    pose proof (Htab 2 _ eq_refl) as H2. pose proof (Hpad 3 ltac:(lia)) as H3.
    rewrite Nat.add_0_r in H0.
    destruct fuel as [|[|[|[|fuel]]]]; [lia|lia|lia|lia|].
    rewrite loop_round by lia. rewrite H0. cbn [Nat.add Nat.leb].
    rewrite loop_round by lia. rewrite H1. cbn [Nat.add Nat.leb Nat.sub].
    rewrite (first_byte _ _ _ (TypedArray.Z_of_byte a))
      by (try done; Z.div_mod_to_equations; lia).
    rewrite store8_byte.
    destruct (decide (A = j + 1)) as [->|Hj1].
    { rewrite loop_full by lia. replace (j + 1 - j) with 1 by lia.
      cbn [take Base64.writeBytes]. f_equal; lia. }
    rewrite loop_round by lia.
    replace (x + 1 + 1) with (x + 2) by lia. rewrite H2.
    cbn [Nat.add Nat.leb Nat.sub].
    rewrite (second_byte _ _ _ _ (TypedArray.Z_of_byte b))
      by (try done; Z.div_mod_to_equations; lia).
    rewrite store8_byte.
    destruct (decide (A = j + 1 + 1)) as [->|Hj2].
    { rewrite loop_full by lia. replace (j + 1 + 1 - j) with 2 by lia.
      cbn [take Base64.writeBytes]. f_equal; [lia|].
      by replace (j + 1) with (S j) by lia. }
    rewrite loop_round by lia.
    replace (x + 2 + 1) with (x + 3) by lia. rewrite H3.
    cbn [Nat.add Nat.leb Nat.sub shift_add].
    rewrite extract_undefined, store8_zero.
    rewrite loop_done by lia.
    replace (A - j) with (S (S (S (A - (j + 1 + 1 + 1))))) by lia.
    cbn [take Base64.writeBytes]. rewrite take_nil. cbn [Base64.writeBytes].
    f_equal; [lia|].
    by replace (j + 1) with (S j) by lia;
       replace (S j + 1) with (S (S j)) by lia.
  - pose proof (Z_of_byte_range a) as Ha. pose proof (Z_of_byte_range b) as Hb.
    pose proof (Z_of_byte_range c) as Hc.
    cbn [Base64.sextets Base64.padLength length app] in *.
    pose proof (Htab 0 _ eq_refl) as H0. pose proof (Htab 1 _ eq_refl) as H1.
    pose proof (Htab 2 _ eq_refl) as H2. pose proof (Htab 3 _ eq_refl) as H3.
    rewrite Nat.add_0_r in H0.
    destruct fuel as [|[|[|[|fuel]]]]; [lia|lia|lia|lia|].
    rewrite loop_round by lia. rewrite H0. cbn [Nat.add Nat.leb].
    rewrite loop_round by lia. rewrite H1. cbn [Nat.add Nat.leb Nat.sub].
    destruct (decide (A = j + 1)) as [->|Hj1].
    { rewrite loop_full by lia.
      rewrite (first_byte _ _ _ (TypedArray.Z_of_byte a))
        by (try done; Z.div_mod_to_equations; lia).
      rewrite store8_byte. replace (j + 1 - j) with 1 by lia.
      cbn [take Base64.writeBytes]. f_equal; lia. }
    rewrite loop_round by lia.
    replace (x + 1 + 1) with (x + 2) by lia. rewrite H2.
    cbn [Nat.add Nat.leb Nat.sub].
    destruct (decide (A = j + 1 + 1)) as [->|Hj2].
    { rewrite loop_full by lia.
      rewrite (first_byte _ _ _ (TypedArray.Z_of_byte a))
        by (try done; Z.div_mod_to_equations; lia).
      rewrite (second_byte _ _ _ _ (TypedArray.Z_of_byte b))
        by (try done; Z.div_mod_to_equations; lia).
      rewrite !store8_byte. replace (j + 1 + 1 - j) with 2 by lia.
      cbn [take Base64.writeBytes]. f_equal; [lia|].
      by replace (j + 1) with (S j) by lia. }
    rewrite loop_round by lia.
    replace (x + 2 + 1) with (x + 3) by lia. rewrite H3.
    cbn [Nat.add Nat.leb Nat.sub].
    rewrite (first_byte _ _ _ (TypedArray.Z_of_byte a))
      by (try done; Z.div_mod_to_equations; lia).
    rewrite (second_byte _ _ _ _ (TypedArray.Z_of_byte b))
      by (try done; Z.div_mod_to_equations; lia).
    rewrite (third_byte _ _ _ _ _ (TypedArray.Z_of_byte c))
      by (try done; Z.div_mod_to_equations; lia).
    rewrite !store8_byte.
    cbn [shift_add]. rewrite (IH rest (x + 3 + 1)); try lia.
    + replace (A - j) with (S (S (S (A - (j + 1 + 1 + 1))))) by lia.
      cbn [take Base64.writeBytes]. f_equal; [lia|].
      by replace (j + 1) with (S j) by lia;
         replace (S j + 1) with (S (S j)) by lia;
         replace (S (S j) + 1) with (S (S (S j))) by lia.
    + intros i t Hi. replace (x + 3 + 1 + i) with (x + (4 + i)) by lia.
      by apply Htab.
    + intros i Hi. replace (x + 3 + 1 + i) with (x + (4 + i)) by lia.
      apply Hpad. lia.
Qed.

Lemma get_append_left (s1 s2 : string) i :
  i < String.length s1 → String.get i (s1 +:+ s2) = String.get i s1.
Proof. intros Hi. symmetry. by apply String.append_correct1. Qed.

Lemma get_append_right (s1 s2 : string) i :
  String.get (String.length s1 + i) (s1 +:+ s2) = String.get i s2.
Proof. rewrite Nat.add_comm. symmetry. apply String.append_correct2. Qed.

Lemma length_append (s1 s2 : string) :
  String.length (s1 +:+ s2) = String.length s1 + String.length s2.
Proof.
  induction s1 as [|c s1 IH]; [done|].
  change (String.length (String c s1 +:+ s2)) with (S (String.length (s1 +:+ s2))).
  rewrite IH. reflexivity.
Qed.

Lemma table_padded bytes i :
  (∀ t, Base64.sextets bytes !! i = Some t →
        DECODE_64_TABLE (Base64.encodePadded bytes) i = Some t)
  ∧ (length (Base64.sextets bytes) ≤ i →
     DECODE_64_TABLE (Base64.encodePadded bytes) i = None).
Proof.
  assert (HL : String.length (Base64.encode bytes) = length (Base64.sextets bytes)).
  { unfold Base64.encode. by rewrite length_string_of_list, length_map. }
  split.
  - intros t Hi. pose proof (table_encode bytes i t Hi) as Htab.
    unfold DECODE_64_TABLE, Base64.encodePadded in *.
    rewrite get_append_left; [done|].
    rewrite HL. by apply lookup_lt_Some in Hi.
  - intros Hi. unfold DECODE_64_TABLE, Base64.encodePadded.
    replace i with (String.length (Base64.encode bytes)
                    + (i - length (Base64.sextets bytes))) by lia.
    rewrite get_append_right, get_string_of_list.
    destruct (replicate (Base64.padLength bytes) "="%char
                !! (i - length (Base64.sextets bytes))) as [c|] eqn:Hc; [|done].
    apply lookup_replicate in Hc as [-> _]. reflexivity.
Qed.

(** [decode64] on a padded encoding. *)
Lemma decode64_encodePadded
    (bytes outbytes : list byte) (record_size pointRatio : nat) :
  let size := if record_size =? 0 then length outbytes else record_size in
  let padded := bytes ++ replicate (Base64.padLength bytes) x00 in
  pointRatio ≤ 1 →
  Encoding.decode64 (Base64.encodePadded bytes) outbytes record_size pointRatio
  = (Nat.min (length padded) (length outbytes) / size,
     take (length outbytes) padded ++ drop (length padded) outbytes).
Proof.
  intros size padded Hratio. unfold Encoding.decode64. fold size.
  assert (Hskip : ((if pointRatio =? 0 then 1 else pointRatio) - 1) * size * 8 = 0).
  { destruct pointRatio as [|[|?]]; cbn; lia. }
  rewrite Hskip.
  assert (HL : String.length (Base64.encodePadded bytes)
               = length (Base64.sextets bytes) + Base64.padLength bytes).
  { unfold Base64.encodePadded, Base64.encode.
    by rewrite length_append, !length_string_of_list, length_map, length_replicate. }
  assert (Hlen : length padded = length bytes + Base64.padLength bytes).
  { unfold padded. by rewrite length_app, length_replicate. }
  rewrite (loop_decodes_padded _ _ _ _ (length bytes) bytes 0 0%Z 0 outbytes);
    try lia.
  - cbn [Nat.add]. rewrite Nat.sub_0_r. fold padded.
    rewrite writeBytes_spec by (rewrite length_take; lia).
    rewrite take_0, length_take. cbn [Nat.add app]. rewrite <- Hlen.
    replace (length outbytes `min` length padded)
      with (length padded `min` length outbytes) by lia.
    destruct (decide (length padded ≤ length outbytes)).
    + by rewrite Nat.min_l.
    + rewrite Nat.min_r by lia. by rewrite !drop_ge by lia.
  - intros i t. apply table_padded.
  - intros i. apply table_padded.
Qed.

End Decode64Facts.

(** X9: [decode64] stays within its buffers.  The output array keeps its
    length; the records reported fit into it; they are backed by input,
    four characters for every three bytes; and no byte is touched beyond
    the record following the last one reported, nor beyond three quarters
    of the input length.  (The record size is the given one, or the
    length of the output array when none is given.) *)
Theorem decode64_stays_within_bounds
    (inbytes : string) (outbytes : list byte) (record_size pointRatio : nat) :
  let size := if record_size =? 0 then length outbytes else record_size in
  0 < size →
  let r := Encoding.decode64 inbytes outbytes record_size pointRatio in
  length r.2 = length outbytes
  ∧ r.1 * size ≤ length outbytes
  ∧ 4 * (r.1 * size) ≤ 3 * String.length inbytes
  ∧ (∀ i, (r.1 + 1) * size ≤ i ∨ 3 * String.length inbytes ≤ 4 * i →
          r.2 !! i = outbytes !! i).
Proof. apply decode64_bounds. Qed.

(** X9 on the text of one record of twelve bytes and a buffer of twelve. *)
Lemma decode64_stays_within_bounds_witness :
  length (Encoding.decode64 "AACAPwAAAEAAAEBA" (TypedArray.Uint8Array 12) 12 1).2 = 12
  ∧ (Encoding.decode64 "AACAPwAAAEAAAEBA" (TypedArray.Uint8Array 12) 12 1).1 * 12 ≤ 12.
Proof.
  destruct (decode64_stays_within_bounds "AACAPwAAAEAAAEBA" (TypedArray.Uint8Array 12)
              12 1) as (Hlen & Hfit & _).
  - cbn. lia.
  - split; [exact Hlen|exact Hfit].
Defined.

(** X10: [decode64] inverts base64.  Called without subsampling on the
    unpadded base64 encoding of a byte sequence, it writes these bytes to
    the front of the output array, as many as the array can take, leaves
    the rest of the array as it was, and returns the number of whole
    records among the bytes written. *)
Theorem decode64_inverts_base64
    (bytes outbytes : list byte) (record_size pointRatio : nat) :
  let size := if record_size =? 0 then length outbytes else record_size in
  pointRatio ≤ 1 →
  0 < size →
  Encoding.decode64 (Base64.encode bytes) outbytes record_size pointRatio
  = (Nat.min (length bytes) (length outbytes) / size,
     take (length outbytes) bytes ++ drop (length bytes) outbytes).
Proof. intros size Hratio _. by apply decode64_encode_upto. Qed.

(** X10 on the three bytes of ["Man"], encoded as ["TWFu"], decoded into
    an array of four bytes. *)
Lemma decode64_inverts_base64_witness :
  Base64.encode [x4d; x61; x6e] = "TWFu"
  ∧ Encoding.decode64 "TWFu" (TypedArray.Uint8Array 4) 1 1 = (3, [x4d; x61; x6e; x00]).
Proof.
  split; [reflexivity|].
  change "TWFu" with (Base64.encode [x4d; x61; x6e]).
  rewrite (decode64_inverts_base64 [x4d; x61; x6e] (TypedArray.Uint8Array 4) 1 1);
    [reflexivity|lia|cbn; lia].
Defined.

(** X11: the padding of base64 decodes as zero bytes.  On the padded
    encoding of a byte sequence, [decode64] without subsampling writes
    the bytes and then one zero byte for every padding character, as far
    as the output array has room, and counts these zero bytes in the
    number of records it returns: the decoded length is the length of the
    data rounded up to a multiple of three. *)
Theorem decode64_reads_padding_as_zeros
    (bytes outbytes : list byte) (record_size pointRatio : nat) :
  let size := if record_size =? 0 then length outbytes else record_size in
  let padded := bytes ++ replicate (Base64.padLength bytes) x00 in
  pointRatio ≤ 1 →
  0 < size →
  Encoding.decode64 (Base64.encodePadded bytes) outbytes record_size pointRatio
  = (Nat.min (length padded) (length outbytes) / size,
     take (length outbytes) padded ++ drop (length padded) outbytes).
Proof. intros size padded Hratio _. by apply decode64_encodePadded. Qed.

(** X11 on the two bytes of ["Ma"], encoded as ["TWE="], decoded into an
    array of four bytes: three bytes are reported and the third slot is
    overwritten with zero. *)
Lemma decode64_reads_padding_as_zeros_witness :
  Base64.encodePadded [x4d; x61] = "TWE="
  ∧ Encoding.decode64 "TWE=" [xff; xff; xff; xff] 1 1 = (3, [x4d; x61; x00; xff]).
Proof.
  split; [reflexivity|].
  change "TWE=" with (Base64.encodePadded [x4d; x61]).
  rewrite (decode64_reads_padding_as_zeros [x4d; x61] [xff; xff; xff; xff] 1 1);
    [reflexivity|lia|cbn; lia].
Defined.

(** ** The cloud handler on both kinds of data *)

Section CloudTail.
Context `{Host}.
Import PointCloud2.

Lemma processMessage_skipped (this : t) (msg : Message) pts :
  Points.setup (points this) (frame_id msg) (point_step msg) (fields msg) = (false, pts) →
  processMessage this msg = Ok (mk pts (buffer this)).
Proof. intros Hsetup. unfold processMessage. by rewrite Hsetup. Qed.

Lemma processMessage_binary (this : t) (msg : Message) pts p src :
  Points.setup (points this) (frame_id msg) (point_step msg) (fields msg) = (true, pts) →
  Points.positions pts = Some p →
  data msg = Binary src →
  processMessage this msg
  = decodeInto pts p msg
      (pointCount (height msg) (width msg) (Points.pointRatio pts) (length (array p)))
      (take (Nat.min (length src) (Points.max_pts pts * point_step msg)) src)
      (Points.pointRatio pts) (mk pts (buffer this)).
Proof.
  intros Hsetup Hp Hdata. unfold processMessage, decodeInto.
  by rewrite Hsetup, Hp, Hdata.
Qed.

Lemma processMessage_text (this : t) (msg : Message) pts p s n buf :
  Points.setup (points this) (frame_id msg) (point_step msg) (fields msg) = (true, pts) →
  Points.positions pts = Some p →
  data msg = Text s →
  Encoding.decode64 s (textBuffer this (Points.max_pts pts * point_step msg))
                    (point_step msg) (Points.pointRatio pts) = (n, buf) →
  processMessage this msg = decodeInto pts p msg (Some n) buf 1 (mk pts (Some buf)).
Proof.
  intros Hsetup Hp Hdata Hdec. unfold processMessage, decodeInto.
  rewrite Hsetup, Hp, Hdata. cbn [negb buffer].
  unfold textBuffer in Hdec. by rewrite Hdec.
Qed.

Lemma decodeInto_missing pts p msg n dv ratio (this : t) :
  Points.own (Points.fields pts) !! "x" = None ∨ Points.own (Points.fields pts) !! "y" = None
  ∨ Points.own (Points.fields pts) !! "z" = None →
  decodeInto pts p msg n dv ratio this = Ok this.
Proof.
  intros Hmiss. unfold decodeInto.
  destruct (Points.own (Points.fields pts) !! "x"), (Points.own (Points.fields pts) !! "y"),
    (Points.own (Points.fields pts) !! "z"); try done; by destruct Hmiss as [?|[?|?]].
Qed.

(** The loop and the update on records that lie within the view. *)
Lemma decodeInto_ok pts p msg n dv ratio (this : t) :
  Stream.inv pts →
  Points.positions pts = Some p →
  Stream.fieldsFit pts (point_step msg) →
  (∀ i, i < n → i * ratio * point_step msg + point_step msg ≤ length dv) →
  ∃ x y z pos' col' pts',
    Points.own (Points.fields pts) !! "x" = Some x
    ∧ Points.own (Points.fields pts) !! "y" = Some y
    ∧ Points.own (Points.fields pts) !! "z" = Some z
    ∧ decodeLoop n pts dv ratio (point_step msg) (negb (is_bigendian msg)) x y z
                 (array p, array <$> Points.colors pts) 0 = Ok (pos', col')
    ∧ decodeInto pts p msg (Some n) dv ratio this = Ok (mk pts' (buffer this))
    ∧ Points.positions pts' = Some (mkBufferAttribute pos' n true)
    ∧ Points.drawRange pts' = n
    ∧ length pos' = length (array p)
    ∧ Points.max_pts pts' = Points.max_pts pts
    ∧ Points.sn pts' = Points.sn pts
    ∧ Points.fields pts' = Points.fields pts
    ∧ Points.messageCount pts' = Points.messageCount pts
    ∧ Points.messageRatio pts' = Points.messageRatio pts
    ∧ Points.pointRatio pts' = Points.pointRatio pts
    ∧ Stream.inv pts'.
Proof.
  intros Hinv Hp (Hxyz & Hcolor) Hrec.
  destruct (Hxyz "x" ltac:(repeat constructor)) as (fx & Hfx & Hx).
  destruct (Hxyz "y" ltac:(repeat constructor)) as (fy & Hfy & Hy).
  destruct (Hxyz "z" ltac:(repeat constructor)) as (fz & Hfz & Hz).
  assert (Hmapc : ∀ c, Points.colors pts = Some c → is_Some (Points.colormap pts)).
  { unfold Stream.inv in Hinv. destruct (Points.sn pts).
    - intros c Hc. by destruct (proj2 Hinv c Hc).
    - intros c Hc. congruence. }
  destruct (decodeLoop_ok pts dv ratio (point_step msg) (negb (is_bigendian msg))
              fx fy fz n (array p) (array <$> Points.colors pts) 0 Hmapc)
    as (pos' & col' & Hloop & Hposlen & Hcollen); try done.
  { intros Hs. destruct (Points.colors pts); [by eexists|by destruct Hs]. }
  { intros i Hi. apply Hrec. lia. }
  exists fx, fy, fz, pos', col'. unfold decodeInto.
  change (rounds (Some n)) with n.
  rewrite Hfx, Hfy, Hfz, Hloop. cbn [mbind Result_bind bindR fst snd].
  unfold Points.update, Points.with_buffers. cbn [Points.positions Points.colors].
  eexists. do 4 (split; [done|]). split; [reflexivity|].
  cbn [Points.positions Points.drawRange Points.max_pts Points.sn Points.fields
       Points.messageCount Points.messageRatio Points.pointRatio].
  do 9 (split; [done|]).
  unfold Stream.inv in *.
  cbn [Points.positions Points.colors Points.sn Points.max_pts Points.colormap].
  destruct (Points.sn pts) as [node|].
  - destruct Hinv as ((p0 & Hp0 & Hlen0) & Hc). split.
    + eexists. split; [reflexivity|]. cbn [array].
      assert (p0 = p) as -> by congruence. congruence.
    + intros c'. destruct (Points.colors pts) as [c|] eqn:Hcol.
      * destruct col' as [a|]; [|done]. intros [= <-]. cbn [array].
        destruct (Hc c eq_refl) as [Hl Hm]. split; [|done].
        cbn in Hcollen. congruence.
      * by destruct col'.
  - rewrite Hinv. by destruct col'.
Qed.

Lemma bytesAt_prefix dv extra o w bs :
  DataView.bytesAt dv o w = Ok bs → DataView.bytesAt (dv ++ extra) o w = Ok bs.
Proof.
  unfold DataView.bytesAt. destruct (decide (o + w ≤ length dv)) as [Hfit|]; [|done].
  intros [= <-]. rewrite decide_True by (rewrite length_app; lia).
  f_equal. rewrite drop_app_le by lia. rewrite take_app_le; [done|].
  rewrite length_drop. lia.
Qed.

Lemma getUint_prefix dv extra o w le v :
  DataView.getUint dv o w le = Ok v → DataView.getUint (dv ++ extra) o w le = Ok v.
Proof.
  unfold DataView.getUint. destruct (DataView.bytesAt dv o w) as [bs|e] eqn:Hbs;
    [|done].
  by rewrite (bytesAt_prefix _ extra _ _ _ Hbs).
Qed.

Lemma callReader_prefix rd dv extra base le v :
  Points.callReader rd dv base le = Ok v →
  Points.callReader rd (dv ++ extra) base le = Ok v.
Proof.
  unfold Points.callReader, DataView.getInt8, DataView.getUint8, DataView.getInt16,
    DataView.getUint16, DataView.getInt32, DataView.getUint32, DataView.getFloat32,
    DataView.getFloat64, DataView.getInt.
  destruct (Points.cr_datatype rd) as [|[|[|[|[|[|[|[|d]]]]]]]];
    match goal with
    | |- context [DataView.getUint dv ?o ?w ?le] =>
        destruct (DataView.getUint dv o w le) as [u|e] eqn:Hu; [|done];
        by rewrite (getUint_prefix _ extra _ _ _ _ Hu)
    end.
Qed.

Lemma getFloat32_prefix dv extra o le v :
  DataView.getFloat32 dv o le = Ok v → DataView.getFloat32 (dv ++ extra) o le = Ok v.
Proof.
  unfold DataView.getFloat32.
  destruct (DataView.getUint dv o 4 le) as [u|e] eqn:Hu; [|done].
  by rewrite (getUint_prefix _ extra _ _ _ _ Hu).
Qed.

Lemma pointColor_prefix pts dv extra base le color :
  pointColor pts dv base le = Ok color →
  pointColor pts (dv ++ extra) base le = Ok color.
Proof.
  unfold pointColor. destruct (Points.getColor pts) as [rd|]; [|done].
  destruct (Points.callReader rd dv base le) as [v|e] eqn:Hv; [|done].
  by rewrite (callReader_prefix _ _ extra _ _ _ Hv).
Qed.

Lemma decodePoint_prefix pts dv extra ratio point_step le x y z st i st' :
  decodePoint pts dv ratio point_step le x y z st i = Ok st' →
  decodePoint pts (dv ++ extra) ratio point_step le x y z st i = Ok st'.
Proof.
  unfold decodePoint. destruct st as [pos col].
  destruct (DataView.getFloat32 dv (i * ratio * point_step + pf_offset x) le)
    as [vx|e] eqn:Hvx; [|done].
  rewrite (getFloat32_prefix _ extra _ _ _ Hvx). cbn [mbind Result_bind bindR].
  destruct (DataView.getFloat32 dv (i * ratio * point_step + pf_offset y) le)
    as [vy|e] eqn:Hvy; [|done].
  rewrite (getFloat32_prefix _ extra _ _ _ Hvy). cbn [mbind Result_bind bindR].
  destruct (DataView.getFloat32 dv (i * ratio * point_step + pf_offset z) le)
    as [vz|e] eqn:Hvz; [|done].
  rewrite (getFloat32_prefix _ extra _ _ _ Hvz). cbn [mbind Result_bind bindR].
  destruct col as [c|]; [|done].
  destruct (pointColor pts dv (i * ratio * point_step) le) as [color|e] eqn:Hcolor;
    [|done].
  by rewrite (pointColor_prefix _ _ extra _ _ _ Hcolor).
Qed.

(** The loop reads the same from a longer view. *)
Lemma decodeLoop_prefix pts dv extra ratio point_step le x y z rounds :
  ∀ st from st',
    decodeLoop rounds pts dv ratio point_step le x y z st from = Ok st' →
    decodeLoop rounds pts (dv ++ extra) ratio point_step le x y z st from = Ok st'.
Proof.
  induction rounds as [|rounds IH]; intros st from st'; [done|].
  cbn [decodeLoop].
  destruct (decodePoint pts dv ratio point_step le x y z st from) as [st1|e] eqn:Hst;
    [|done].
  rewrite (decodePoint_prefix _ _ extra _ _ _ _ _ _ _ _ _ Hst).
  cbn [mbind Result_bind bindR]. apply IH.
Qed.

End CloudTail.

Section CloudContent.
Context `{Host}.
Import PointCloud2.

Lemma getFloat32_fits dv o le v :
  DataView.getFloat32 dv o le = Ok v → o + 4 ≤ length dv.
Proof.
  intros Hv. destruct (decide (o + 4 ≤ length dv)) as [|Hout]; [done|].
  rewrite getFloat32_out_of_range in Hv by lia. done.
Qed.

Lemma getUint_outcome dv o w le :
  (∃ v, DataView.getUint dv o w le = Ok v)
  ∨ DataView.getUint dv o w le = Throw RangeError.
Proof.
  unfold DataView.getUint, DataView.bytesAt.
  destruct (decide (o + w ≤ length dv)); [left; eexists|right]; reflexivity.
Qed.

Lemma callReader_outcome rd dv base le :
  (∃ v, Points.callReader rd dv base le = Ok v)
  ∨ Points.callReader rd dv base le = Throw RangeError.
Proof.
  unfold Points.callReader, DataView.getInt8, DataView.getUint8, DataView.getInt16,
    DataView.getUint16, DataView.getInt32, DataView.getUint32, DataView.getFloat32,
    DataView.getFloat64, DataView.getInt.
  destruct (Points.cr_datatype rd) as [|[|[|[|[|[|[|[|d]]]]]]]];
    match goal with
    | |- context [DataView.getUint dv ?o ?w ?le] =>
        destruct (getUint_outcome dv o w le) as [[v ->]| ->]
    end; ((left; eexists; reflexivity) || (right; reflexivity)).
Qed.

Lemma pointColor_outcome pts dv base le :
  is_Some (Points.getColor pts) → is_Some (Points.colormap pts) →
  (∃ color, pointColor pts dv base le = Ok color)
  ∨ pointColor pts dv base le = Throw RangeError.
Proof.
  intros [rd Hrd] [cm Hcm]. unfold pointColor. rewrite Hrd, Hcm.
  destruct (callReader_outcome rd dv base le) as [[v ->]| ->]; [|by right].
  cbn [mbind Result_bind bindR]. left.
  match goal with |- context [if ?packed then _ else _] => destruct packed end;
    eexists; reflexivity.
Qed.

(** One round: what it read and where it stored it. *)
Lemma decodePoint_content pts dv ratio point_step le x y z pos col i pos' col' :
  decodePoint pts dv ratio point_step le x y z (pos, col) i = Ok (pos', col') →
  ∃ vx vy vz,
    DataView.getFloat32 dv (i * ratio * point_step + pf_offset x) le = Ok vx
    ∧ DataView.getFloat32 dv (i * ratio * point_step + pf_offset y) le = Ok vy
    ∧ DataView.getFloat32 dv (i * ratio * point_step + pf_offset z) le = Ok vz
    ∧ pos' = TypedArray.store
               (TypedArray.store (TypedArray.store pos (3 * i) vx) (3 * i + 1) vy)
               (3 * i + 2) vz.
Proof.
  unfold decodePoint.
  destruct (DataView.getFloat32 dv (i * ratio * point_step + pf_offset x) le)
    as [vx|e]; [|done].
  destruct (DataView.getFloat32 dv (i * ratio * point_step + pf_offset y) le)
    as [vy|e]; [|done].
  destruct (DataView.getFloat32 dv (i * ratio * point_step + pf_offset z) le)
    as [vz|e]; [|done].
  cbn [mbind Result_bind bindR]. intros Hst. exists vx, vy, vz.
  do 3 (split; [done|]).
  destruct col as [c|].
  - destruct (pointColor pts dv (i * ratio * point_step) le); [|done].
    cbn [mbind Result_bind bindR] in Hst. congruence.
  - congruence.
Qed.

Lemma decodePoint_outcome pts dv ratio point_step le x y z st i :
  is_Some (Points.getColor pts) ∧ is_Some (Points.colormap pts)
  ∨ st.2 = None →
  (∃ st', decodePoint pts dv ratio point_step le x y z st i = Ok st'
          ∧ (st.2 = None → st'.2 = None))
  ∨ decodePoint pts dv ratio point_step le x y z st i = Throw RangeError.
Proof.
  intros Hcol. unfold decodePoint. destruct st as [pos col].
  unfold DataView.getFloat32.
  destruct (getUint_outcome dv (i * ratio * point_step + pf_offset x) 4 le)
    as [[vx ->]| ->]; [|by right].
  destruct (getUint_outcome dv (i * ratio * point_step + pf_offset y) 4 le)
    as [[vy ->]| ->]; [|by right].
  destruct (getUint_outcome dv (i * ratio * point_step + pf_offset z) 4 le)
    as [[vz ->]| ->]; [|by right].
  cbn [mbind Result_bind bindR].
  destruct col as [c|].
  - destruct Hcol as [[Hget Hmap]|Hnone]; [|done].
    destruct (pointColor_outcome pts dv (i * ratio * point_step) le Hget Hmap)
      as [[color ->]| ->]; [|by right].
    left. eexists. split; [reflexivity|done].
  - left. eexists. split; [reflexivity|done].
Qed.

(** The loop returns, or it throws a [RangeError]. *)
Lemma decodeLoop_outcome pts dv ratio point_step le x y z rounds : ∀ st from,
  is_Some (Points.getColor pts) ∧ is_Some (Points.colormap pts)
  ∨ st.2 = None →
  (∃ st', decodeLoop rounds pts dv ratio point_step le x y z st from = Ok st')
  ∨ decodeLoop rounds pts dv ratio point_step le x y z st from = Throw RangeError.
Proof.
  induction rounds as [|rounds IH]; intros st from Hcol.
  { left. by eexists. }
  cbn [decodeLoop].
  destruct (decodePoint_outcome pts dv ratio point_step le x y z st from Hcol)
    as [(st1 & -> & Hnone)| ->]; [|by right].
  cbn [mbind Result_bind bindR]. apply IH.
  destruct Hcol as [?|?]; [by left|right; by apply Hnone].
Qed.

(** What the loop read and where it stored it: the three floats of
    every record it visited, at the record's slots, and nothing else. *)
Lemma decodeLoop_content pts dv ratio point_step le x y z rounds :
  ∀ pos col from pos' col',
    decodeLoop rounds pts dv ratio point_step le x y z (pos, col) from
    = Ok (pos', col') →
    length pos' = length pos
    ∧ (∀ k, k < 3 * from ∨ 3 * (from + rounds) ≤ k → pos' !! k = pos !! k)
    ∧ (∀ i, from ≤ i < from + rounds →
         ∃ vx vy vz,
           DataView.getFloat32 dv (i * ratio * point_step + pf_offset x) le = Ok vx
           ∧ DataView.getFloat32 dv (i * ratio * point_step + pf_offset y) le = Ok vy
           ∧ DataView.getFloat32 dv (i * ratio * point_step + pf_offset z) le = Ok vz
           ∧ (3 * i + 2 < length pos →
              pos' !! (3 * i) = Some (TypedArray.Math_fround vx)
              ∧ pos' !! (3 * i + 1) = Some (TypedArray.Math_fround vy)
              ∧ pos' !! (3 * i + 2) = Some (TypedArray.Math_fround vz))).
Proof.
  induction rounds as [|rounds IH]; intros pos col from pos' col' Hloop.
  { cbn in Hloop. injection Hloop as <- <-. split; [done|]. split; [done|].
    intros i Hi. lia. }
  cbn [decodeLoop] in Hloop.
  destruct (decodePoint pts dv ratio point_step le x y z (pos, col) from)
    as [[pos1 col1]|e] eqn:Hpoint; [|done].
  cbn [mbind Result_bind bindR] in Hloop.
  destruct (decodePoint_content _ _ _ _ _ _ _ _ _ _ _ _ _ Hpoint)
    as (vx & vy & vz & Hvx & Hvy & Hvz & Hpos1).
  destruct (IH _ _ _ _ _ Hloop) as (Hlen & Hout & Hin).
  assert (Hlen1 : length pos1 = length pos).
  { rewrite Hpos1. unfold TypedArray.store. by rewrite !length_insert. }
  split; [congruence|]. split.
  - intros k Hk. rewrite Hout by lia. rewrite Hpos1. unfold TypedArray.store.
    rewrite !list_lookup_insert_ne by lia. done.
  - intros i Hi. destruct (decide (i = from)) as [->|Hne].
    + exists vx, vy, vz. do 3 (split; [done|]). intros Hfit.
      rewrite !Hout by lia. rewrite Hpos1. unfold TypedArray.store.
      split; [|split].
      * rewrite !list_lookup_insert_ne by lia.
        apply list_lookup_insert_eq. lia.
      * rewrite list_lookup_insert_ne by lia.
        apply list_lookup_insert_eq. rewrite length_insert. lia.
      * apply list_lookup_insert_eq. rewrite !length_insert. lia.
    + destruct (Hin i ltac:(lia)) as (wx & wy & wz & Hwx & Hwy & Hwz & Hslots).
      exists wx, wy, wz. do 3 (split; [done|]). intros Hfit.
      apply Hslots. lia.
Qed.

(** Two runs of the tail whose loops gave the same arrays leave the
    same helper. *)
Lemma decodeInto_same pts p msg msg' n dv dv' ratio (this this' : t) x y z st pts' :
  Points.own (Points.fields pts) !! "x" = Some x →
  Points.own (Points.fields pts) !! "y" = Some y →
  Points.own (Points.fields pts) !! "z" = Some z →
  point_step msg' = point_step msg → is_bigendian msg' = is_bigendian msg →
  decodeLoop n pts dv ratio (point_step msg) (negb (is_bigendian msg)) x y z
             (array p, array <$> Points.colors pts) 0 = Ok st →
  decodeLoop n pts dv' ratio (point_step msg) (negb (is_bigendian msg)) x y z
             (array p, array <$> Points.colors pts) 0 = Ok st →
  decodeInto pts p msg (Some n) dv ratio this = Ok (mk pts' (buffer this)) →
  decodeInto pts p msg' (Some n) dv' ratio this' = Ok (mk pts' (buffer this')).
Proof.
  intros Hx Hy Hz Hstep Hend Hloop Hloop'. unfold decodeInto.
  change (rounds (Some n)) with n.
  rewrite Hx, Hy, Hz, Hstep, Hend, Hloop, Hloop'.
  cbn [mbind Result_bind bindR].
  destruct (Points.update _ _) as [pts1|e]; [|done].
  by intros [= ->].
Qed.

(** The point count of the binary path is a number unless an empty
    cloud meets a zero ratio. *)
Lemma pointCount_Some height width ratio max_pts :
  0 < ratio ∨ 0 < height * width →
  pointCount height width ratio (max_pts * 3)
  = Some (Stream.cloudPoints height width ratio max_pts).
Proof.
  intros Hnum. unfold pointCount, Stream.cloudPoints.
  rewrite Nat.div_mul by done.
  destruct (Nat.eqb_spec ratio 0) as [->|_]; [|done].
  destruct (Nat.eqb_spec (height * width) 0); [lia|done].
Qed.

Lemma pointCount_NaN height width max_pts :
  height * width = 0 → pointCount height width 0 (max_pts * 3) = None.
Proof. intros Hempty. unfold pointCount. by rewrite Hempty. Qed.

Lemma cloudPoints_le height width ratio max_pts :
  Stream.cloudPoints height width ratio max_pts ≤ max_pts.
Proof. unfold Stream.cloudPoints. destruct (ratio =? 0); lia. Qed.

(** The handler on binary data whose visited records lie within the
    sliced view. *)
Lemma processMessage_binary_content (this : t) (msg : Message) (src : list byte) :
  let pts0 := points this in
  let n := Stream.cloudPoints (height msg) (width msg) (Points.pointRatio pts0)
                              (Points.max_pts pts0) in
  Stream.inv pts0 →
  Stream.cloudProcessed this = true →
  data msg = Binary src →
  0 < Points.pointRatio pts0 ∨ 0 < height msg * width msg →
  Stream.fieldsFit
    (Points.setup pts0 (frame_id msg) (point_step msg) (fields msg)).2
    (point_step msg) →
  (∀ i, i < n → i * Points.pointRatio pts0 * point_step msg + point_step msg
                ≤ Nat.min (length src) (Points.max_pts pts0 * point_step msg)) →
  ∃ pts' p' x y z,
    processMessage this msg = Ok (mk pts' (buffer this))
    ∧ Points.positions pts' = Some p'
    ∧ Points.own (Points.fields pts') !! "x" = Some x
    ∧ Points.own (Points.fields pts') !! "y" = Some y
    ∧ Points.own (Points.fields pts') !! "z" = Some z
    ∧ Points.drawRange pts' = n ∧ count p' = n ∧ n ≤ Points.max_pts pts0
    ∧ length (array p') = Points.max_pts pts0 * 3
    ∧ (∀ i, i < n →
         ∃ vx vy vz,
           DataView.getFloat32 src
             (i * Points.pointRatio pts0 * point_step msg + pf_offset x)
             (negb (is_bigendian msg)) = Ok vx
           ∧ DataView.getFloat32 src
               (i * Points.pointRatio pts0 * point_step msg + pf_offset y)
               (negb (is_bigendian msg)) = Ok vy
           ∧ DataView.getFloat32 src
               (i * Points.pointRatio pts0 * point_step msg + pf_offset z)
               (negb (is_bigendian msg)) = Ok vz
           ∧ array p' !! (3 * i) = Some (TypedArray.Math_fround vx)
           ∧ array p' !! (3 * i + 1) = Some (TypedArray.Math_fround vy)
           ∧ array p' !! (3 * i + 2) = Some (TypedArray.Math_fround vz))
    ∧ (∀ p0, is_Some (Points.sn pts0) → Points.positions pts0 = Some p0 →
             ∀ k, 3 * n ≤ k → array p' !! k = array p0 !! k).
Proof.
  intros pts0 n Hinv Hgate Hdata Hnum Hfit Hrec.
  destruct (setup_spec pts0 (frame_id msg) (point_step msg) (fields msg) Hinv)
    as (pts & p & Hsetup & Hp & Hlen & Hmax & Hratio & _ & _ & Hinv').
  unfold Stream.cloudProcessed in Hgate. fold pts0 in Hgate.
  rewrite Hgate in Hsetup. rewrite Hsetup in Hfit. cbn [snd] in Hfit.
  pose proof (processMessage_binary this msg pts p src Hsetup Hp Hdata) as Hrun.
  rewrite Hratio, Hlen, Hmax in Hrun. fold pts0 in Hrun.
  rewrite (pointCount_Some _ _ _ _ Hnum) in Hrun. fold n in Hrun.
  set (dv := take (Nat.min (length src) (Points.max_pts pts0 * point_step msg)) src)
    in *.
  assert (Hdv : length dv = Nat.min (length src) (Points.max_pts pts0 * point_step msg)).
  { unfold dv. rewrite length_take. lia. }
  destruct (decodeInto_ok pts p msg n dv (Points.pointRatio pts0)
              (mk pts (buffer this)) Hinv' Hp Hfit)
    as (x & y & z & pos' & col' & pts' & Hx & Hy & Hz & Hloop & Hinto & Hp'
        & Hdraw & Hlen' & Hmax' & _ & Hfields & _).
  { intros i Hi. rewrite Hdv. by apply Hrec. }
  destruct (decodeLoop_content _ _ _ _ _ _ _ _ _ _ _ _ _ _ Hloop)
    as (_ & Hout & Hin).
  pose proof (cloudPoints_le (height msg) (width msg) (Points.pointRatio pts0)
                (Points.max_pts pts0)) as Hn. fold n in Hn.
  exists pts', (mkBufferAttribute pos' n true), x, y, z.
  rewrite Hrun, Hinto. cbn [buffer count array].
  split; [done|]. split; [done|]. rewrite Hfields.
  do 3 (split; [done|]). do 3 (split; [done|]). split; [congruence|]. split.
  - intros i Hi. destruct (Hin i ltac:(lia)) as (vx & vy & vz & Hvx & Hvy & Hvz & Hs).
    exists vx, vy, vz.
    assert (Hsrc : src = dv ++ drop (Nat.min (length src)
                                       (Points.max_pts pts0 * point_step msg)) src).
    { unfold dv. by rewrite take_drop. }
    rewrite Hsrc.
    rewrite (getFloat32_prefix _ _ _ _ _ Hvx), (getFloat32_prefix _ _ _ _ _ Hvy),
      (getFloat32_prefix _ _ _ _ _ Hvz).
    do 3 (split; [done|]). apply Hs. lia.
  - intros p0 Hsn Hp0 k Hk.
    rewrite Hout by lia.
    pose proof (setup_again pts0 (frame_id msg) (point_step msg) (fields msg) Hsn)
      as Hagain.
    rewrite Hsetup in Hagain. injection Hagain as _ ->.
    cbn [Points.positions] in Hp. congruence.
Qed.

(** The handler on binary data when a record it visits starts less than
    four bytes before the end of the sliced view. *)
Lemma processMessage_binary_short (this : t) (msg : Message) (src : list byte) i :
  let pts0 := points this in
  let n := Stream.cloudPoints (height msg) (width msg) (Points.pointRatio pts0)
                              (Points.max_pts pts0) in
  Stream.inv pts0 →
  Stream.cloudProcessed this = true →
  data msg = Binary src →
  0 < Points.pointRatio pts0 ∨ 0 < height msg * width msg →
  Stream.fieldsFit
    (Points.setup pts0 (frame_id msg) (point_step msg) (fields msg)).2
    (point_step msg) →
  i < n →
  Nat.min (length src) (Points.max_pts pts0 * point_step msg)
    < i * Points.pointRatio pts0 * point_step msg + 4 →
  processMessage this msg = Throw RangeError.
Proof.
  intros pts0 n Hinv Hgate Hdata Hnum Hfit Hi Hshort.
  destruct (setup_spec pts0 (frame_id msg) (point_step msg) (fields msg) Hinv)
    as (pts & p & Hsetup & Hp & Hlen & Hmax & Hratio & _ & _ & Hinv').
  unfold Stream.cloudProcessed in Hgate. fold pts0 in Hgate.
  rewrite Hgate in Hsetup. rewrite Hsetup in Hfit. cbn [snd] in Hfit.
  rewrite (processMessage_binary this msg pts p src Hsetup Hp Hdata).
  rewrite Hratio, Hlen, Hmax. fold pts0.
  rewrite (pointCount_Some _ _ _ _ Hnum). fold n.
  set (dv := take (Nat.min (length src) (Points.max_pts pts0 * point_step msg)) src).
  assert (Hdv : length dv = Nat.min (length src) (Points.max_pts pts0 * point_step msg)).
  { unfold dv. rewrite length_take. lia. }
  destruct Hfit as (Hxyz & Hcolor).
  destruct (Hxyz "x" ltac:(repeat constructor)) as (fx & Hfx & Hx).
  destruct (Hxyz "y" ltac:(repeat constructor)) as (fy & Hfy & Hy).
  destruct (Hxyz "z" ltac:(repeat constructor)) as (fz & Hfz & Hz).
  unfold decodeInto. change (rounds (Some n)) with n. rewrite Hfx, Hfy, Hfz.
  destruct (decodeLoop_outcome pts dv (Points.pointRatio pts0) (point_step msg)
              (negb (is_bigendian msg)) fx fy fz n
              (array p, array <$> Points.colors pts) 0) as [[[pos' col'] Hloop]| ->];
    [| |done].
  - destruct (Points.colors pts) as [c|] eqn:Hc; [left|by right].
    destruct (Hcolor ltac:(done)) as (rd & Hrd & _). split; [by eexists|].
    unfold Stream.inv in Hinv'. destruct (Points.sn pts).
    + by destruct (proj2 Hinv' c Hc).
    + congruence.
  - exfalso.
    destruct (decodeLoop_content _ _ _ _ _ _ _ _ _ _ _ _ _ _ Hloop) as (_ & _ & Hin).
    destruct (Hin i ltac:(lia)) as (vx & _ & _ & Hvx & _).
    apply getFloat32_fits in Hvx. lia.
Qed.

(** The handler on a helper that lacks one of the coordinate fields. *)
Lemma processMessage_missing (this : t) (msg : Message) name p :
  name ∈ ["x"; "y"; "z"] →
  is_Some (Points.sn (points this)) →
  Points.positions (points this) = Some p →
  Points.own (Points.fields (points this)) !! name = None →
  ∃ this',
    processMessage this msg = Ok this'
    ∧ Points.sn (points this') = Points.sn (points this)
    ∧ Points.positions (points this') = Some p
    ∧ Points.fields (points this') = Points.fields (points this)
    ∧ Points.drawRange (points this') = Points.drawRange (points this).
Proof.
  intros Hname Hsn Hp Hnone.
  pose proof (setup_again (points this) (frame_id msg) (point_step msg) (fields msg)
                Hsn) as Hsetup.
  set (pts := Points.mk _ _ _ _ _ _ _ _ _ _ _ _ _ _ _) in Hsetup.
  assert (Hmiss : Points.own (Points.fields pts) !! "x" = None
                  ∨ Points.own (Points.fields pts) !! "y" = None
                  ∨ Points.own (Points.fields pts) !! "z" = None).
  { cbn [pts Points.fields].
    apply elem_of_cons in Hname as [->|Hname]; [by left|].
    apply elem_of_cons in Hname as [->|Hname]; [by right; left|].
    apply elem_of_cons in Hname as [->|Hname]; [by right; right|].
    by apply elem_of_nil in Hname. }
  destruct (Points.mod_is_zero (Points.messageCount (points this))
              (Points.messageRatio (points this))) eqn:Hgate.
  - destruct (data msg) as [s|src] eqn:Hdata.
    + destruct (Encoding.decode64 s
                  (textBuffer this (Points.max_pts pts * point_step msg))
                  (point_step msg) (Points.pointRatio pts)) as [n buf] eqn:Hdec.
      rewrite (processMessage_text this msg pts p s n buf Hsetup Hp Hdata Hdec).
      rewrite decodeInto_missing by done. eexists. split; [reflexivity|].
      by cbn [points pts Points.sn Points.positions Points.fields Points.drawRange].
    + rewrite (processMessage_binary this msg pts p src Hsetup Hp Hdata).
      rewrite decodeInto_missing by done. eexists. split; [reflexivity|].
      by cbn [points pts Points.sn Points.positions Points.fields Points.drawRange].
  - rewrite (processMessage_skipped this msg pts Hsetup).
    eexists. split; [reflexivity|].
    by cbn [points pts Points.sn Points.positions Points.fields Points.drawRange].
Qed.

Lemma processAll_cons (this this1 : t) msg rest :
  processMessage this msg = Ok this1 →
  processAll this (msg :: rest) = processAll this1 rest.
Proof. intros Hrun. unfold processAll. cbn [foldl]. by rewrite Hrun. Qed.

Lemma processAll_missing name p rest : ∀ this : t,
  name ∈ ["x"; "y"; "z"] →
  is_Some (Points.sn (points this)) →
  Points.positions (points this) = Some p →
  Points.own (Points.fields (points this)) !! name = None →
  ∃ this',
    processAll this rest = Ok this'
    ∧ Points.sn (points this') = Points.sn (points this)
    ∧ Points.positions (points this') = Some p
    ∧ Points.drawRange (points this') = Points.drawRange (points this).
Proof.
  induction rest as [|msg rest IH]; intros this Hname Hsn Hp Hnone.
  { exists this. by split. }
  destruct (processMessage_missing this msg name p Hname Hsn Hp Hnone)
    as (this1 & Hrun & Hsn1 & Hp1 & Hfields1 & Hdraw1).
  rewrite (processAll_cons _ _ _ _ Hrun).
  destruct (IH this1 Hname ltac:(by rewrite Hsn1) Hp1)
    as (this' & Hall & Hsn' & Hp' & Hdraw'); [by rewrite Hfields1|].
  exists this'. split; [done|]. split; [congruence|]. split; [done|]. congruence.
Qed.

End CloudContent.

Section CloudText.
Context `{Host}.
Import PointCloud2.

Lemma textBuffer_length (this : t) bufSz :
  (∀ buf, buffer this = Some buf → length buf ≤ bufSz) →
  length (textBuffer this bufSz) = bufSz.
Proof.
  intros Hbuf. unfold textBuffer, TypedArray.Uint8Array.
  destruct (buffer this) as [buf|]; [|by rewrite length_replicate].
  pose proof (Hbuf buf eq_refl).
  destruct (Nat.ltb_spec (length buf) bufSz); [by rewrite length_replicate|lia].
Qed.

Lemma fieldsFit_step pts point_step : Stream.fieldsFit pts point_step → 4 ≤ point_step.
Proof.
  intros (Hxyz & _). destruct (Hxyz "x" ltac:(repeat constructor)) as (fx & _ & Hx). lia.
Qed.

(** The handler on base64 text. *)
Lemma processMessage_text_bounds (this : t) (msg : Message) (s : string) :
  let pts0 := points this in
  let bufSz := Points.max_pts pts0 * point_step msg in
  let n := (Encoding.decode64 s (textBuffer this bufSz) (point_step msg)
                              (Points.pointRatio pts0)).1 in
  Stream.inv pts0 →
  Stream.cloudProcessed this = true →
  data msg = Text s →
  Stream.fieldsFit
    (Points.setup pts0 (frame_id msg) (point_step msg) (fields msg)).2
    (point_step msg) →
  (∀ buf, buffer this = Some buf → length buf ≤ bufSz) →
  ∃ this' p' buf',
    processMessage this msg = Ok this'
    ∧ buffer this' = Some buf' ∧ length buf' = bufSz
    ∧ Points.positions (points this') = Some p'
    ∧ Points.drawRange (points this') = n ∧ count p' = n
    ∧ n ≤ Points.max_pts pts0
    ∧ 4 * (n * point_step msg) ≤ 3 * String.length s
    ∧ length (array p') = Points.max_pts pts0 * 3
    ∧ Points.max_pts (points this') = Points.max_pts pts0
    ∧ Stream.inv (points this').
Proof.
  intros pts0 bufSz n Hinv Hgate Hdata Hfit Hbuf.
  destruct (setup_spec pts0 (frame_id msg) (point_step msg) (fields msg) Hinv)
    as (pts & p & Hsetup & Hp & Hlen & Hmax & Hratio & _ & _ & Hinv').
  unfold Stream.cloudProcessed in Hgate. fold pts0 in Hgate.
  rewrite Hgate in Hsetup. rewrite Hsetup in Hfit. cbn [snd] in Hfit.
  pose proof (fieldsFit_step _ _ Hfit) as Hstep.
  pose proof (decode64_bounds s (textBuffer this bufSz) (point_step msg)
                (Points.pointRatio pts0)) as Hdec.
  cbv zeta in Hdec. destruct (Nat.eqb_spec (point_step msg) 0) as [|_]; [lia|].
  destruct (Hdec ltac:(lia)) as (Hlenb & Hrec & Hbits & _). clear Hdec.
  fold n in Hrec, Hbits.
  rewrite (textBuffer_length this bufSz Hbuf) in Hlenb, Hrec.
  destruct (Encoding.decode64 s (textBuffer this bufSz) (point_step msg)
              (Points.pointRatio pts0)) as [n' buf] eqn:Hd.
  subst n. cbn [fst snd] in *. rename n' into n.
  rewrite (processMessage_text this msg pts p s n buf Hsetup Hp Hdata)
    by (rewrite Hmax, Hratio; exact Hd).
  destruct (decodeInto_ok pts p msg n buf 1 (mk pts (Some buf)) Hinv' Hp Hfit)
    as (x & y & z & pos' & col' & pts' & _ & _ & _ & _ & Hinto & Hp'
        & Hdraw & Hlen' & Hmax' & _ & _ & _ & _ & _ & Hinv'').
  { intros i Hi. rewrite Hlenb. nia. }
  rewrite Hinto. cbn [buffer].
  exists (mk pts' (Some buf)), (mkBufferAttribute pos' n true), buf.
  cbn [buffer points count array].
  do 6 (split; [done|]). split; [unfold bufSz in Hrec; nia|].
  split; [done|]. split; [congruence|]. split; [congruence|done].
Qed.

Lemma padLength_le bytes : Base64.padLength bytes ≤ 2.
Proof.
  assert (Hn : ∀ n bs, length bs ≤ n → Base64.padLength bs ≤ 2).
  { induction n as [|n IH]; intros bs Hlen.
    - destruct bs; [cbn; lia|cbn in Hlen; lia].
    - destruct bs as [|a [|b [|c rest]]]; cbn; try lia.
      apply IH. cbn in Hlen. lia. }
  by apply (Hn (length bytes)).
Qed.

(** The same cloud as bytes and as text, for a text that [decode64]
    turns into the bytes, possibly followed by others. *)
Lemma processMessage_transports (this : t) (msg : Message) (src : list byte)
    (text : string) (extra : list byte) :
  let pts0 := points this in
  let bufSz := Points.max_pts pts0 * point_step msg in
  let n := Nat.min (height msg * width msg) (Points.max_pts pts0) in
  Stream.inv pts0 →
  Stream.cloudProcessed this = true →
  Points.pointRatio pts0 = 1 →
  data msg = Binary src →
  length src = height msg * width msg * point_step msg →
  Stream.fieldsFit
    (Points.setup pts0 (frame_id msg) (point_step msg) (fields msg)).2
    (point_step msg) →
  Encoding.decode64 text (textBuffer this bufSz) (point_step msg) 1
  = (n, take (Nat.min (length src) bufSz) src ++ extra) →
  ∃ pts' buf',
    processMessage this msg = Ok (mk pts' (buffer this))
    ∧ processMessage this (withData msg (Text text)) = Ok (mk pts' (Some buf'))
    ∧ Points.drawRange pts' = n.
Proof.
  intros pts0 bufSz n Hinv Hgate Hone Hdata Hsrc Hfit Hdec.
  destruct (setup_spec pts0 (frame_id msg) (point_step msg) (fields msg) Hinv)
    as (pts & p & Hsetup & Hp & Hlen & Hmax & Hratio & _ & _ & Hinv').
  unfold Stream.cloudProcessed in Hgate. fold pts0 in Hgate.
  rewrite Hgate in Hsetup. rewrite Hsetup in Hfit. cbn [snd] in Hfit.
  pose proof (fieldsFit_step _ _ Hfit) as Hstep.
  assert (Hn : pointCount (height msg) (width msg) 1 (Points.max_pts pts0 * 3)
               = Some n).
  { unfold pointCount. change (1 =? 0) with false. cbv iota.
    by rewrite Nat.div_1_r, Nat.div_mul. }
  assert (Hmin : Nat.min (length src) bufSz = n * point_step msg).
  { unfold bufSz, n. rewrite Hsrc. by rewrite Nat.mul_min_distr_r. }
  pose proof (processMessage_binary this msg pts p src Hsetup Hp Hdata) as Hbin.
  rewrite Hratio, Hone, Hlen, Hmax, Hn in Hbin. fold pts0 bufSz in Hbin.
  set (dv := take (Nat.min (length src) bufSz) src) in *.
  assert (Hdv : length dv = n * point_step msg).
  { unfold dv. rewrite length_take. lia. }
  destruct (decodeInto_ok pts p msg n dv 1 (mk pts (buffer this)) Hinv' Hp Hfit)
    as (x & y & z & pos' & col' & pts' & Hx & Hy & Hz & Hloop & Hinto & _
        & Hdraw & _).
  { intros i Hi. rewrite Hdv. nia. }
  pose proof (processMessage_text this (withData msg (Text text))
                pts p text n (dv ++ extra)) as Htext.
  cbn [withData frame_id point_step fields data] in Htext.
  rewrite Hmax, Hratio, Hone in Htext. fold pts0 bufSz in Htext.
  specialize (Htext Hsetup Hp eq_refl Hdec).
  exists pts', (dv ++ extra). rewrite Hbin, Htext. split; [done|]. split; [|done].
  change (Some (dv ++ extra)) with (buffer (mk pts (Some (dv ++ extra)))).
  apply (decodeInto_same pts p msg _ n dv (dv ++ extra) 1 (mk pts (buffer this))
           (mk pts (Some (dv ++ extra))) x y z (pos', col') pts'); try done.
  by apply decodeLoop_prefix.
Qed.

(** What [decode64] makes of the two encodings of the data of a cloud. *)
Lemma decode64_cloud (this : t) (src : list byte) (height width step max_pts : nat)
    (text : string) :
  let bufSz := max_pts * step in
  4 ≤ step →
  length src = height * width * step →
  (∀ buf, buffer this = Some buf → length buf ≤ bufSz) →
  text = Base64.encode src ∨ text = Base64.encodePadded src →
  ∃ extra,
    Encoding.decode64 text (textBuffer this bufSz) step 1
    = (Nat.min (height * width) max_pts,
       take (Nat.min (length src) bufSz) src ++ extra).
Proof.
  intros bufSz Hstep Hsrc Hbuf Htext.
  pose proof (textBuffer_length this bufSz Hbuf) as HB.
  assert (Hmin : Nat.min (length src) bufSz
                 = Nat.min (height * width) max_pts * step).
  { unfold bufSz. rewrite Hsrc. by rewrite Nat.mul_min_distr_r. }
  destruct Htext as [-> | ->].
  - pose proof (decode64_encode_upto src (textBuffer this bufSz) step 1) as Hdec.
    cbv zeta in Hdec. destruct (Nat.eqb_spec step 0) as [|_]; [lia|].
    rewrite (Hdec ltac:(lia)), HB, Hmin, Nat.div_mul by lia.
    exists (drop (length src) (textBuffer this bufSz)). f_equal. f_equal.
    rewrite <- Hmin. destruct (decide (length src ≤ bufSz)).
    + rewrite Nat.min_l by done. by rewrite !take_ge by lia.
    + by rewrite Nat.min_r by lia.
  - pose proof (decode64_encodePadded src (textBuffer this bufSz) step 1) as Hdec.
    cbv zeta in Hdec. destruct (Nat.eqb_spec step 0) as [|_]; [lia|].
    rewrite (Hdec ltac:(lia)), HB. clear Hdec.
    pose proof (padLength_le src) as Hpad.
    rewrite length_app, length_replicate.
    destruct (decide (bufSz ≤ length src)) as [Hfull|Hroom].
    + exists (drop (length src + Base64.padLength src) (textBuffer this bufSz)).
      rewrite (Nat.min_r (length src + _)) by lia.
      rewrite Nat.min_r in Hmin by lia. rewrite Hmin, Nat.div_mul by lia.
      rewrite <- Hmin. rewrite (Nat.min_r (length src)) by lia.
      by rewrite take_app_le by lia.
    + assert (Hlt : height * width < max_pts) by (unfold bufSz in Hroom; nia).
      assert (Hfits : length src + Base64.padLength src ≤ bufSz)
        by (unfold bufSz; nia).
      exists (replicate (Base64.padLength src) x00
              ++ drop (length src + Base64.padLength src) (textBuffer this bufSz)).
      rewrite (Nat.min_l (length src + _)) by lia.
      rewrite (Nat.min_l (length src)) by lia.
      rewrite (Nat.min_l (height * width)) by lia.
      rewrite take_ge by (rewrite length_app, length_replicate; lia).
      rewrite take_ge by lia. rewrite <- app_assoc. f_equal.
      rewrite Hsrc. symmetry. apply (Nat.div_unique _ _ _ (Base64.padLength src)); lia.
Qed.

(** A client under construction receives its first message. *)
Lemma processMessage_first_missing tfClient max_pts pointRatio messageRatio
    colorsrc colormap colorMin colorMax (msg : Message) name :
  name ∈ ["x"; "y"; "z"] →
  name ∉ pf_name <$> fields msg →
  ∃ this',
    processMessage
      (new tfClient max_pts pointRatio messageRatio colorsrc colormap
           colorMin colorMax) msg
    = Ok this'
    ∧ (∃ node, Points.sn (points this') = Some node
               ∧ SceneNode.visible node = true)
    ∧ Points.positions (points this')
      = Some (mkBufferAttribute (TypedArray.Float32Array (max_pts * 3)) max_pts false)
    ∧ Points.own (Points.fields (points this')) !! name = None
    ∧ Points.drawRange (points this') = JS.Infinity.
Proof.
  intros Hname Hnone.
  set (this := new tfClient max_pts pointRatio messageRatio colorsrc colormap
                   colorMin colorMax).
  destruct (Points.setup (points this) (frame_id msg) (point_step msg) (fields msg))
    as [ready pts] eqn:Hsetup.
  assert (Hsn : ∃ node, Points.sn pts = Some node ∧ SceneNode.visible node = true).
  { unfold Points.setup in Hsetup. cbn in Hsetup. injection Hsetup as _ <-.
    eexists. split; [reflexivity|]. by destruct tfClient. }
  assert (Hp : Points.positions pts
               = Some (mkBufferAttribute (TypedArray.Float32Array (max_pts * 3))
                         max_pts false)).
  { unfold Points.setup in Hsetup. cbn in Hsetup. by injection Hsetup as _ <-. }
  assert (Hfields : Points.own (Points.fields pts) !! name = None).
  { unfold Points.setup in Hsetup. cbn in Hsetup. injection Hsetup as _ <-.
    cbn [Points.fields]. rewrite indexFields_own.
    2:{ intros ->. repeat (apply elem_of_cons in Hname as [Hname|Hname];
                           [discriminate Hname|]).
        by apply elem_of_nil in Hname. }
    assert (Hnil : ∀ fs : list PointField,
                     name ∉ pf_name <$> fs →
                     filter (λ f, pf_name f = name) fs = []).
    { induction fs as [|f fs IHfs]; [done|]. intros Hnot.
      rewrite fmap_cons, not_elem_of_cons in Hnot. destruct Hnot as [Hf Hfs].
      rewrite filter_cons_False by done. by apply IHfs. }
    by rewrite Hnil. }
  assert (Hdraw : Points.drawRange pts = JS.Infinity).
  { unfold Points.setup in Hsetup. cbn in Hsetup. by injection Hsetup as _ <-. }
  assert (Hmiss : Points.own (Points.fields pts) !! "x" = None
                  ∨ Points.own (Points.fields pts) !! "y" = None
                  ∨ Points.own (Points.fields pts) !! "z" = None).
  { apply elem_of_cons in Hname as [->|Hname]; [by left|].
    apply elem_of_cons in Hname as [->|Hname]; [by right; left|].
    apply elem_of_cons in Hname as [->|Hname]; [by right; right|].
    by apply elem_of_nil in Hname. }
  destruct ready.
  - destruct (data msg) as [s|src] eqn:Hdata.
    + destruct (Encoding.decode64 s
                  (textBuffer this (Points.max_pts pts * point_step msg))
                  (point_step msg) (Points.pointRatio pts)) as [n buf] eqn:Hdec.
      rewrite (processMessage_text this msg pts _ s n buf Hsetup Hp Hdata Hdec).
      rewrite decodeInto_missing by done. eexists. split; [reflexivity|]. by cbn.
    + rewrite (processMessage_binary this msg pts _ src Hsetup Hp Hdata).
      rewrite decodeInto_missing by done. eexists. split; [reflexivity|]. by cbn.
  - rewrite (processMessage_skipped this msg pts Hsetup).
    eexists. split; [reflexivity|]. by cbn.
Qed.

End CloudText.

Section CloudSamples.

Lemma smallClient_fieldsFit tfClient max_pts pointRatio messageRatio frame :
  Stream.fieldsFit
    (Points.setup (H := sampleHost)
       (PointCloud2.points
          (PointCloud2.new tfClient max_pts pointRatio messageRatio None None 0 1))
       frame 12 SampleCloud.xyz).2 12.
Proof.
  split.
  - intros name Hname.
    apply elem_of_cons in Hname as [->|Hname];
      [|apply elem_of_cons in Hname as [->|Hname];
        [|apply elem_of_cons in Hname as [->|Hname]; [|by apply elem_of_nil in Hname]]];
      eexists; (split; [vm_compute; reflexivity|simpl; lia]).
  - intros [c Hc]. vm_compute in Hc. discriminate Hc.
Qed.

End CloudSamples.

(** C7 (amended): a binary cloud message that passes the message gate,
    with more points than the capacity ([width * height > max_pts]),
    decoded with ratio 1 on a client whose coordinate fields lie within a
    record and whose colour array, if there is one, has an accessor
    reading within a record, and whose data holds at least [max_pts]
    records: the handler does not throw and decodes exactly [max_pts]
    points.  Draw range and counts are [max_pts]; for every [i < max_pts]
    the three reads of record [i] succeed on the data cut to
    [max_pts * point_step] bytes, each ending within that cut, and their
    values, rounded to binary32, sit in slots [3i], [3i+1], [3i+2] of the
    position array; the arrays keep their [3 * max_pts] slots. *)
Theorem C7_cloud_truncates_at_capacity `{Host}
    (this : PointCloud2.t) (msg : PointCloud2.Message) (src : list byte) :
  let pts0 := PointCloud2.points this in
  let max_pts := Points.max_pts pts0 in
  let step := PointCloud2.point_step msg in
  let le := negb (PointCloud2.is_bigendian msg) in
  let view := take (Nat.min (length src) (max_pts * step)) src in
  Stream.inv pts0 →
  Stream.cloudProcessed this = true →
  Points.pointRatio pts0 = 1 →
  PointCloud2.data msg = PointCloud2.Binary src →
  max_pts < PointCloud2.width msg * PointCloud2.height msg →
  max_pts * step ≤ length src →
  Stream.fieldsFit
    (Points.setup pts0 (PointCloud2.frame_id msg) step (PointCloud2.fields msg)).2 step →
  ∃ pts' p' x y z,
    PointCloud2.processMessage this msg
    = Ok (PointCloud2.mk pts' (PointCloud2.buffer this))
    ∧ Points.positions pts' = Some p'
    ∧ Points.drawRange pts' = max_pts
    ∧ count p' = max_pts
    ∧ length (array p') = max_pts * 3
    ∧ length view = max_pts * step
    ∧ Points.own (Points.fields pts') !! "x" = Some x
    ∧ Points.own (Points.fields pts') !! "y" = Some y
    ∧ Points.own (Points.fields pts') !! "z" = Some z
    ∧ (∀ i, i < max_pts →
         ∃ vx vy vz,
           DataView.getFloat32 view (i * step + pf_offset x) le = Ok vx
           ∧ DataView.getFloat32 view (i * step + pf_offset y) le = Ok vy
           ∧ DataView.getFloat32 view (i * step + pf_offset z) le = Ok vz
           ∧ i * step + pf_offset x + 4 ≤ length view
           ∧ i * step + pf_offset y + 4 ≤ length view
           ∧ i * step + pf_offset z + 4 ≤ length view
           ∧ array p' !! (3 * i) = Some (TypedArray.Math_fround vx)
           ∧ array p' !! (3 * i + 1) = Some (TypedArray.Math_fround vy)
           ∧ array p' !! (3 * i + 2) = Some (TypedArray.Math_fround vz))
    ∧ (∀ c', Points.colors pts' = Some c' →
             count c' = max_pts ∧ length (array c') = max_pts * 3).
Proof.
  intros pts0 max_pts step le view Hinv Hgate Hone Hdata Hbig Hsrc Hfit.
  destruct (setup_spec pts0 (PointCloud2.frame_id msg) step (PointCloud2.fields msg) Hinv)
    as (pts & p & Hsetup & Hp & Hlen & Hmax & Hratio & _ & _ & Hinv').
  unfold Stream.cloudProcessed in Hgate. fold pts0 in Hgate.
  rewrite Hgate in Hsetup. rewrite Hsetup in Hfit. cbn [snd] in Hfit.
  pose proof (processMessage_binary this msg pts p src Hsetup Hp Hdata) as Hrun.
  rewrite Hratio, Hlen, Hmax in Hrun. fold pts0 in Hrun. rewrite Hone in Hrun.
  rewrite (pointCount_Some _ _ 1 _ ltac:(left; lia)) in Hrun.
  assert (Hn : Stream.cloudPoints (PointCloud2.height msg) (PointCloud2.width msg) 1
                 (Points.max_pts pts0) = max_pts).
  { unfold Stream.cloudPoints. change (1 =? 0) with false. cbv iota.
    rewrite Nat.div_1_r. fold max_pts. lia. }
  rewrite Hn in Hrun. fold max_pts step view in Hrun.
  assert (Hview : length view = max_pts * step).
  { unfold view. rewrite length_take. lia. }
  destruct (decodeInto_ok pts p msg max_pts view 1
              (PointCloud2.mk pts (PointCloud2.buffer this)) Hinv' Hp Hfit)
    as (x & y & z & pos' & col' & pts' & Hx & Hy & Hz & Hloop & Hinto & Hp'
        & Hdraw & Hlen' & Hmax' & _ & Hfields & _ & _ & _ & Hinv'').
  { intros i Hi. rewrite Hview. fold step. nia. }
  destruct (decodeLoop_content _ _ _ _ _ _ _ _ _ _ _ _ _ _ Hloop) as (_ & _ & Hin).
  exists pts', (mkBufferAttribute pos' max_pts true), x, y, z.
  rewrite Hrun, Hinto. cbn [PointCloud2.buffer count array]. rewrite Hfields.
  split; [done|]. split; [done|]. split; [done|]. split; [done|].
  split; [by rewrite Hlen', Hlen|]. split; [done|]. do 3 (split; [done|]). split.
  - intros i Hi.
    destruct (Hin i ltac:(lia)) as (vx & vy & vz & Hvx & Hvy & Hvz & Hslots).
    replace (i * 1 * PointCloud2.point_step msg) with (i * step) in Hvx, Hvy, Hvz
      by (unfold step; lia).
    exists vx, vy, vz. do 3 (split; [done|]).
    split; [by apply getFloat32_fits in Hvx|].
    split; [by apply getFloat32_fits in Hvy|].
    split; [by apply getFloat32_fits in Hvz|].
    apply Hslots. rewrite Hlen. fold max_pts. lia.
  - intros c' Hc'. unfold Stream.inv in Hinv''.
    destruct (Points.sn pts') as [node|]; [|congruence].
    destruct Hinv'' as (_ & Hcol). destruct (Hcol c' Hc') as [Hcl _].
    split; [|by rewrite Hcl, Hmax', Hmax].
    revert Hinto Hc'. unfold PointCloud2.decodeInto.
    change (PointCloud2.rounds (Some max_pts)) with max_pts.
    rewrite Hx, Hy, Hz, Hloop. cbn [mbind Result_bind bindR fst snd].
    unfold Points.update, Points.with_buffers. cbn [Points.positions Points.colors].
    intros [= <-]. cbn [Points.colors].
    destruct (Points.colors pts) as [c|]; [|done].
    by destruct col' as [a|]; intros [= <-].
Qed.

(** C7 on a client with room for two points and a message of three
    twelve-byte records: two points are drawn. *)
Lemma C7_witness :
  ∃ pts',
    PointCloud2.processMessage (H := sampleHost) SampleCloud.smallClient
                               SampleCloud.threePoints
    = Ok (PointCloud2.mk pts' None)
    ∧ Points.drawRange pts' = 2.
Proof.
  destruct (C7_cloud_truncates_at_capacity (H := sampleHost)
              SampleCloud.smallClient SampleCloud.threePoints
              (SampleCloud.one ++ SampleCloud.one ++ SampleCloud.one
               ++ SampleCloud.two ++ SampleCloud.two ++ SampleCloud.two
               ++ SampleCloud.three ++ SampleCloud.three ++ SampleCloud.three))
    as (pts' & p' & x & y & z & Hrun & _ & Hdraw & _).
  - reflexivity.
  - reflexivity.
  - reflexivity.
  - reflexivity.
  - simpl. lia.
  - simpl. lia.
  - apply smallClient_fieldsFit.
  - exists pts'. split; [exact Hrun|exact Hdraw].
Defined.

(** C7 as stated fails: a binary message that declares three points of
    twelve bytes and brings the bytes of one, received with ratio 1 by a
    client with room for two points ([width * height = 3 > 2]), makes the
    handler throw a [RangeError] when it reads the second record. *)
Lemma C7_counterexample :
  Points.max_pts (PointCloud2.points SampleCloud.smallClient)
    < PointCloud2.width SampleCloud.cutShort * PointCloud2.height SampleCloud.cutShort
  ∧ Points.pointRatio (PointCloud2.points SampleCloud.smallClient) = 1
  ∧ PointCloud2.data SampleCloud.cutShort
    = PointCloud2.Binary (SampleCloud.one ++ SampleCloud.one ++ SampleCloud.one)
  ∧ PointCloud2.processMessage (H := sampleHost) SampleCloud.smallClient
                               SampleCloud.cutShort = Throw RangeError.
Proof.
  split; [cbn; lia|]. split; [reflexivity|]. split; [reflexivity|].
  by vm_compute.
Qed.

(** X12: a cloud sent as base64 text.  On a client whose retained byte
    buffer (if any) is not longer than [max_pts * point_step], whose
    coordinate fields lie within a record and whose colour array, if
    there is one, has an accessor that reads within a record (which a
    colour source naming no field of the message, such as
    ["constructor"], does not give), the handler does not throw; it keeps
    a buffer of exactly [max_pts * point_step] bytes, draws as many
    points as [decode64] reported, which is at most [max_pts] and at most
    what three quarters of the text can hold, and the position array
    keeps its length. *)
Theorem text_cloud_is_bounded `{Host}
    (this : PointCloud2.t) (msg : PointCloud2.Message) (s : string) :
  let pts0 := PointCloud2.points this in
  let bufSz := Points.max_pts pts0 * PointCloud2.point_step msg in
  let n := (Encoding.decode64 s (PointCloud2.textBuffer this bufSz)
              (PointCloud2.point_step msg) (Points.pointRatio pts0)).1 in
  Stream.inv pts0 →
  Stream.cloudProcessed this = true →
  PointCloud2.data msg = PointCloud2.Text s →
  Stream.fieldsFit
    (Points.setup pts0 (PointCloud2.frame_id msg) (PointCloud2.point_step msg)
                  (PointCloud2.fields msg)).2
    (PointCloud2.point_step msg) →
  (∀ buf, PointCloud2.buffer this = Some buf → length buf ≤ bufSz) →
  ∃ this' p' buf',
    PointCloud2.processMessage this msg = Ok this'
    ∧ PointCloud2.buffer this' = Some buf' ∧ length buf' = bufSz
    ∧ Points.positions (PointCloud2.points this') = Some p'
    ∧ Points.drawRange (PointCloud2.points this') = n ∧ count p' = n
    ∧ n ≤ Points.max_pts pts0
    ∧ 4 * (n * PointCloud2.point_step msg) ≤ 3 * String.length s
    ∧ length (array p') = Points.max_pts pts0 * 3.
Proof.
  intros pts0 bufSz n Hinv Hgate Hdata Hfit Hbuf.
  destruct (processMessage_text_bounds this msg s Hinv Hgate Hdata Hfit Hbuf)
    as (this' & p' & buf' & Hrun & Hb & Hlen & Hp & Hdraw & Hcount & Hn & Hbits
        & Harr & _).
  by exists this', p', buf'.
Qed.

(** X12 on a client with room for two points and the text of three
    records: two points are drawn. *)
Lemma text_cloud_is_bounded_witness :
  ∃ this',
    PointCloud2.processMessage (H := sampleHost) SampleCloud.smallClient
                               SampleCloud.threePointsText = Ok this'
    ∧ Points.drawRange (PointCloud2.points this') = 2.
Proof.
  destruct (text_cloud_is_bounded (H := sampleHost) SampleCloud.smallClient
              SampleCloud.threePointsText
              "AACAPwAAgD8AAIA/AAAAQAAAAEAAAABAAABAQAAAQEAAAEBA")
    as (this' & p' & buf' & Hrun & _ & _ & _ & Hdraw & _).
  - reflexivity.
  - reflexivity.
  - reflexivity.
  - apply smallClient_fieldsFit.
  - intros buf Hbuf. discriminate Hbuf.
  - exists this'. split; [exact Hrun|exact Hdraw].
Defined.

(** X13: the transport does not matter.  A cloud whose data holds exactly
    [height * width] records, decoded with ratio 1 on a client whose
    coordinate fields lie within a record and whose colour array, if
    there is one, has an accessor that reads within a record, leaves the
    point helper in the same state whether its data arrives as a byte
    array or as the base64 text of the same bytes, with or without the
    padding characters: the same positions, colours and draw count
    [min (height * width) max_pts].  Only the byte buffer the client
    retains differs. *)
Theorem text_and_binary_clouds_agree `{Host}
    (this : PointCloud2.t) (msg : PointCloud2.Message) (src : list byte)
    (text : string) :
  let pts0 := PointCloud2.points this in
  Stream.inv pts0 →
  Stream.cloudProcessed this = true →
  Points.pointRatio pts0 = 1 →
  PointCloud2.data msg = PointCloud2.Binary src →
  length src = PointCloud2.height msg * PointCloud2.width msg * PointCloud2.point_step msg →
  Stream.fieldsFit
    (Points.setup pts0 (PointCloud2.frame_id msg) (PointCloud2.point_step msg)
                  (PointCloud2.fields msg)).2
    (PointCloud2.point_step msg) →
  (∀ buf, PointCloud2.buffer this = Some buf →
          length buf ≤ Points.max_pts pts0 * PointCloud2.point_step msg) →
  text = Base64.encode src ∨ text = Base64.encodePadded src →
  ∃ pts' buf',
    PointCloud2.processMessage this msg = Ok (PointCloud2.mk pts' (PointCloud2.buffer this))
    ∧ PointCloud2.processMessage this (PointCloud2.withData msg (PointCloud2.Text text))
      = Ok (PointCloud2.mk pts' (Some buf'))
    ∧ Points.drawRange pts'
      = Nat.min (PointCloud2.height msg * PointCloud2.width msg) (Points.max_pts pts0).
Proof.
  intros pts0 Hinv Hgate Hone Hdata Hsrc Hfit Hbuf Htext.
  assert (Hstep : 4 ≤ PointCloud2.point_step msg).
  { destruct (setup_spec pts0 (PointCloud2.frame_id msg) (PointCloud2.point_step msg)
                (PointCloud2.fields msg) Hinv) as (pts & p & Hsetup & _).
    rewrite Hsetup in Hfit. by apply fieldsFit_step in Hfit. }
  destruct (decode64_cloud this src (PointCloud2.height msg) (PointCloud2.width msg)
              (PointCloud2.point_step msg) (Points.max_pts pts0) text
              Hstep Hsrc Hbuf Htext) as (extra & Hdec).
  by apply (processMessage_transports this msg src text extra).
Qed.

(** X13 on the three sample points, as bytes and as text. *)
Lemma text_and_binary_clouds_agree_witness :
  ∃ pts' buf',
    PointCloud2.processMessage (H := sampleHost) SampleCloud.smallClient
                               SampleCloud.threePoints
    = Ok (PointCloud2.mk pts' None)
    ∧ PointCloud2.processMessage (H := sampleHost) SampleCloud.smallClient
                                 SampleCloud.threePointsText
      = Ok (PointCloud2.mk pts' (Some buf'))
    ∧ Points.drawRange pts' = 2.
Proof.
  destruct (text_and_binary_clouds_agree (H := sampleHost) SampleCloud.smallClient
              SampleCloud.threePoints
              (SampleCloud.one ++ SampleCloud.one ++ SampleCloud.one
               ++ SampleCloud.two ++ SampleCloud.two ++ SampleCloud.two
               ++ SampleCloud.three ++ SampleCloud.three ++ SampleCloud.three)
              "AACAPwAAgD8AAIA/AAAAQAAAAEAAAABAAABAQAAAQEAAAEBA")
    as (pts' & buf' & Hbin & Htext & Hdraw).
  - reflexivity.
  - reflexivity.
  - reflexivity.
  - reflexivity.
  - reflexivity.
  - apply smallClient_fieldsFit.
  - intros buf Hbuf. discriminate Hbuf.
  - left. reflexivity.
  - exists pts', buf'. split; [exact Hbin|]. split; [exact Htext|exact Hdraw].
Defined.

(** X14: what a binary cloud leaves in the position array.  The handler
    decodes [n] points, [n] being [max_pts] for a zero ratio and the
    smaller of [floor (height * width / pointRatio)] and [max_pts]
    otherwise (an empty cloud with a zero ratio, whose count is NaN, is
    left aside).  When every record the loop visits lies within the data
    (and within the first [max_pts * point_step] bytes of it, to which the
    handler cuts the data), and a colour array, if there is one, has an
    accessor whose field lies within a record, the handler returns
    normally; draw range and count are [n]; slots [3i], [3i+1], [3i+2] of
    the position array hold the binary32 values read at the [x], [y] and
    [z] offsets of record [i * pointRatio] of the message data; and the
    slots from [3n] on keep what earlier messages left there. *)
Theorem binary_cloud_positions `{Host}
    (this : PointCloud2.t) (msg : PointCloud2.Message) (src : list byte) :
  let pts0 := PointCloud2.points this in
  let ratio := Points.pointRatio pts0 in
  let cloud := PointCloud2.height msg * PointCloud2.width msg in
  let n := if ratio =? 0 then Points.max_pts pts0
           else Nat.min (cloud / ratio) (Points.max_pts pts0) in
  let step := PointCloud2.point_step msg in
  let le := negb (PointCloud2.is_bigendian msg) in
  Stream.inv pts0 →
  Stream.cloudProcessed this = true →
  PointCloud2.data msg = PointCloud2.Binary src →
  0 < ratio ∨ 0 < cloud →
  Stream.fieldsFit
    (Points.setup pts0 (PointCloud2.frame_id msg) step (PointCloud2.fields msg)).2 step →
  (∀ i, i < n → i * ratio * step + step
                ≤ Nat.min (length src) (Points.max_pts pts0 * step)) →
  ∃ pts' p' x y z,
    PointCloud2.processMessage this msg = Ok (PointCloud2.mk pts' (PointCloud2.buffer this))
    ∧ Points.positions pts' = Some p'
    ∧ Points.own (Points.fields pts') !! "x" = Some x
    ∧ Points.own (Points.fields pts') !! "y" = Some y
    ∧ Points.own (Points.fields pts') !! "z" = Some z
    ∧ Points.drawRange pts' = n ∧ count p' = n ∧ n ≤ Points.max_pts pts0
    ∧ length (array p') = Points.max_pts pts0 * 3
    ∧ (∀ i, i < n →
         ∃ vx vy vz,
           DataView.getFloat32 src (i * ratio * step + pf_offset x) le = Ok vx
           ∧ DataView.getFloat32 src (i * ratio * step + pf_offset y) le = Ok vy
           ∧ DataView.getFloat32 src (i * ratio * step + pf_offset z) le = Ok vz
           ∧ array p' !! (3 * i) = Some (TypedArray.Math_fround vx)
           ∧ array p' !! (3 * i + 1) = Some (TypedArray.Math_fround vy)
           ∧ array p' !! (3 * i + 2) = Some (TypedArray.Math_fround vz))
    ∧ (∀ p0, is_Some (Points.sn pts0) → Points.positions pts0 = Some p0 →
             ∀ k, 3 * n ≤ k → array p' !! k = array p0 !! k).
Proof.
  intros pts0 ratio cloud n step le Hinv Hgate Hdata Hnum Hfit Hrec.
  by apply processMessage_binary_content.
Qed.

(** X14 on the three sample points and a client with room for two. *)
Lemma binary_cloud_positions_witness :
  ∃ pts' p',
    PointCloud2.processMessage (H := sampleHost) SampleCloud.smallClient
                               SampleCloud.threePoints
    = Ok (PointCloud2.mk pts' None)
    ∧ Points.positions pts' = Some p'
    ∧ count p' = 2.
Proof.
  destruct (binary_cloud_positions (H := sampleHost) SampleCloud.smallClient
              SampleCloud.threePoints
              (SampleCloud.one ++ SampleCloud.one ++ SampleCloud.one
               ++ SampleCloud.two ++ SampleCloud.two ++ SampleCloud.two
               ++ SampleCloud.three ++ SampleCloud.three ++ SampleCloud.three))
    as (pts' & p' & x & y & z & Hrun & Hp & _ & _ & _ & _ & Hcount & _).
  - reflexivity.
  - reflexivity.
  - reflexivity.
  - left. cbn. lia.
  - apply smallClient_fieldsFit.
  - intros i Hi. vm_compute in Hi. cbn. lia.
  - exists pts', p'. split; [exact Hrun|]. split; [exact Hp|exact Hcount].
Defined.

(** X15: binary data that is too short.  If a record the loop visits
    starts less than four bytes before the end of the data (as cut to
    [max_pts * point_step] bytes), the handler throws a [RangeError]: it
    does not draw the records that were there.  (The coordinate fields
    lie within a record; a colour array, if there is one, has its
    accessor.) *)
Theorem short_binary_cloud_throws `{Host}
    (this : PointCloud2.t) (msg : PointCloud2.Message) (src : list byte) (i : nat) :
  let pts0 := PointCloud2.points this in
  let ratio := Points.pointRatio pts0 in
  let cloud := PointCloud2.height msg * PointCloud2.width msg in
  let n := if ratio =? 0 then Points.max_pts pts0
           else Nat.min (cloud / ratio) (Points.max_pts pts0) in
  let step := PointCloud2.point_step msg in
  Stream.inv pts0 →
  Stream.cloudProcessed this = true →
  PointCloud2.data msg = PointCloud2.Binary src →
  0 < ratio ∨ 0 < cloud →
  Stream.fieldsFit
    (Points.setup pts0 (PointCloud2.frame_id msg) step (PointCloud2.fields msg)).2 step →
  i < n →
  Nat.min (length src) (Points.max_pts pts0 * step) < i * ratio * step + 4 →
  PointCloud2.processMessage this msg = Throw RangeError.
Proof.
  intros pts0 ratio cloud n step Hinv Hgate Hdata Hnum Hfit Hi Hshort.
  by apply (processMessage_binary_short this msg src i).
Qed.

(** X15 on a message that declares three records and brings one. *)
Lemma short_binary_cloud_throws_witness :
  PointCloud2.processMessage (H := sampleHost) SampleCloud.smallClient
                             SampleCloud.cutShort = Throw RangeError.
Proof.
  apply (short_binary_cloud_throws (H := sampleHost) SampleCloud.smallClient
           SampleCloud.cutShort
           (SampleCloud.one ++ SampleCloud.one ++ SampleCloud.one) 1).
  - reflexivity.
  - reflexivity.
  - reflexivity.
  - left. cbn. lia.
  - apply smallClient_fieldsFit.
  - vm_compute. lia.
  - vm_compute. lia.
Defined.

(** X16: subsampling a binary cloud that fills the capacity.  With a
    point ratio of two or more, room for two or more points and a cloud
    of at least [pointRatio * max_pts] points, the handler cuts the data
    to [max_pts] records and then reads record [(max_pts - 1) *
    pointRatio], which lies beyond the cut: it throws a [RangeError]
    whatever the data holds.  (The coordinate fields lie within a
    record; a colour array, if there is one, has its accessor.) *)
Theorem subsampled_binary_cloud_throws `{Host}
    (this : PointCloud2.t) (msg : PointCloud2.Message) (src : list byte) :
  let pts0 := PointCloud2.points this in
  let step := PointCloud2.point_step msg in
  Stream.inv pts0 →
  Stream.cloudProcessed this = true →
  PointCloud2.data msg = PointCloud2.Binary src →
  Stream.fieldsFit
    (Points.setup pts0 (PointCloud2.frame_id msg) step (PointCloud2.fields msg)).2 step →
  2 ≤ Points.pointRatio pts0 →
  2 ≤ Points.max_pts pts0 →
  Points.pointRatio pts0 * Points.max_pts pts0
    ≤ PointCloud2.height msg * PointCloud2.width msg →
  PointCloud2.processMessage this msg = Throw RangeError.
Proof.
  intros pts0 step Hinv Hgate Hdata Hfit Hratio Hmax Hbig.
  apply (processMessage_binary_short this msg src (Points.max_pts pts0 - 1));
    try done; fold pts0 step.
  - left. lia.
  - unfold Stream.cloudPoints.
    destruct (Nat.eqb_spec (Points.pointRatio pts0) 0) as [|_]; [lia|].
    assert (Points.max_pts pts0
            ≤ PointCloud2.height msg * PointCloud2.width msg / Points.pointRatio pts0).
    { apply Nat.div_le_lower_bound; lia. }
    lia.
  - assert (Hcap : Points.max_pts pts0
                   ≤ (Points.max_pts pts0 - 1) * Points.pointRatio pts0) by nia.
    apply (Nat.mul_le_mono_r _ _ step) in Hcap. lia.
Qed.

(** X16 on a client with room for two points that reads every second
    point, and a cloud of four. *)
Lemma subsampled_binary_cloud_throws_witness :
  PointCloud2.processMessage (H := sampleHost) SampleCloud.sparseClient
                             SampleCloud.fourPoints = Throw RangeError.
Proof.
  apply (subsampled_binary_cloud_throws (H := sampleHost) SampleCloud.sparseClient
           SampleCloud.fourPoints
           (SampleCloud.one ++ SampleCloud.one ++ SampleCloud.one
            ++ SampleCloud.two ++ SampleCloud.two ++ SampleCloud.two
            ++ SampleCloud.three ++ SampleCloud.three ++ SampleCloud.three
            ++ SampleCloud.one ++ SampleCloud.two ++ SampleCloud.three)).
  - reflexivity.
  - reflexivity.
  - reflexivity.
  - apply smallClient_fieldsFit.
  - vm_compute. lia.
  - vm_compute. lia.
  - vm_compute. lia.
Defined.

(** X17: the field table is fixed by the first message.  If the first
    message a client receives lacks one of the fields [x], [y], [z], the
    client never decodes a point and never throws, whatever the later
    messages bring: the position array stays as allocated (zeros, with
    count [max_pts]), and [update] is never called, so the draw range of
    the geometry stays the unbounded one it was created with, on a scene
    node that is visible. *)
Theorem cloud_without_xyz_never_draws `{Host}
    (tfClient : option SceneNode.TFClient) (max_pts pointRatio messageRatio : nat)
    (colorsrc : option string) (colormap : option (float → Color))
    (colorMin colorMax : float)
    (first : PointCloud2.Message) (rest : list PointCloud2.Message) (name : string) :
  name ∈ ["x"; "y"; "z"] →
  name ∉ pf_name <$> PointCloud2.fields first →
  ∃ this' node,
    PointCloud2.processAll
      (PointCloud2.new tfClient max_pts pointRatio messageRatio colorsrc colormap
                       colorMin colorMax)
      (first :: rest) = Ok this'
    ∧ Points.drawRange (PointCloud2.points this') = JS.Infinity
    ∧ Points.positions (PointCloud2.points this')
      = Some (mkBufferAttribute (TypedArray.Float32Array (max_pts * 3)) max_pts false)
    ∧ Points.sn (PointCloud2.points this') = Some node
    ∧ SceneNode.visible node = true.
Proof.
  intros Hname Hnone.
  destruct (processMessage_first_missing tfClient max_pts pointRatio messageRatio
              colorsrc colormap colorMin colorMax first name Hname Hnone)
    as (this1 & Hrun & (node & Hsn & Hvisible) & Hp & Hfields & Hdraw).
  rewrite (processAll_cons _ _ _ _ Hrun).
  destruct (processAll_missing name _ rest this1 Hname ltac:(by rewrite Hsn) Hp Hfields)
    as (this' & Hall & Hsn' & Hp' & Hdraw').
  exists this', node. split; [done|]. split; [congruence|]. split; [done|].
  split; [congruence|done].
Qed.

(** X17 on a first message without [z], followed by a complete one. *)
Lemma cloud_without_xyz_never_draws_witness :
  ∃ this',
    PointCloud2.processAll (H := sampleHost) SampleCloud.smallClient
                           [SampleCloud.flat; SampleCloud.threePoints] = Ok this'
    ∧ Points.drawRange (PointCloud2.points this') = JS.Infinity.
Proof.
  destruct (cloud_without_xyz_never_draws (H := sampleHost)
              (Some SceneNode.tfClientHandle) 2 1 1 None None 0 1
              SampleCloud.flat [SampleCloud.threePoints] "z")
    as (this' & node & Hrun & Hdraw & _).
  - repeat constructor.
  - vm_compute. intros Hin.
    apply elem_of_cons in Hin as [Hin|Hin]; [discriminate Hin|].
    apply elem_of_cons in Hin as [Hin|Hin]; [discriminate Hin|].
    by apply elem_of_nil in Hin.
  - exists this'. split; [exact Hrun|exact Hdraw].
Defined.

(** ** The feedback of an interactive marker *)

Section DragTrace.
Import InteractiveMarker.
Implicit Types (m : InteractiveMarker.t) (steps : list DragStep).

Lemma step_feedback_dragging m s :
  dragging m = true →
  dragging (step m s) = true
  ∧ (position (step m s), quaternion (step m s))
    = Drag.userPose (position m, quaternion m) s
  ∧ dispatched (step m s)
    = dispatched m ++ Drag.feedbackOf (position m, quaternion m) [s].
Proof.
  intros Hd. destruct s as [e|c p|c q]; unfold step.
  - rewrite (onServerSetPose_dragging _ _ Hd). cbn. by rewrite app_nil_r.
  - by cbn.
  - by cbn.
Qed.

Lemma feedbackOf_cons pq s steps :
  Drag.feedbackOf pq (s :: steps)
  = Drag.feedbackOf pq [s] ++ Drag.feedbackOf (Drag.userPose pq s) steps.
Proof. by destruct s. Qed.

(** The events of the steps of a drag. *)
Lemma run_feedback_dragging steps : ∀ m,
  dragging m = true →
  dragging (run m steps) = true
  ∧ (position (run m steps), quaternion (run m steps))
    = foldl Drag.userPose (position m, quaternion m) steps
  ∧ dispatched (run m steps)
    = dispatched m ++ Drag.feedbackOf (position m, quaternion m) steps.
Proof.
  induction steps as [|s steps IH]; intros m Hd.
  { cbn. by rewrite app_nil_r. }
  destruct (step_feedback_dragging m s Hd) as (Hd1 & Hpose1 & Hfb1).
  destruct (IH (step m s) Hd1) as (Hd' & Hpose' & Hfb').
  unfold run in *. cbn [foldl]. rewrite Hpose', Hfb', Hfb1, Hpose1.
  split; [done|]. split; [done|].
  by rewrite (feedbackOf_cons _ s steps), app_assoc.
Qed.

Lemma feedbackOf_types pq steps :
  Forall (fun f => fb_type f = "user-pose-change") (Drag.feedbackOf pq steps)
  ∧ fb_controlName <$> Drag.feedbackOf pq steps = Drag.userControls steps.
Proof.
  unfold Drag.userControls.
  revert pq. induction steps as [|s steps IH]; intros pq; [by split|].
  destruct (IH (Drag.userPose pq s)) as (Htypes & Hnames).
  destruct s as [e|c p|c q]; cbn [Drag.feedbackOf].
  - by split.
  - split; [by constructor|]. by rewrite fmap_cons, Hnames.
  - split; [by constructor|]. by rewrite fmap_cons, Hnames.
Qed.

(** Without a drag every step takes effect at once. *)
Lemma step_idle m s :
  dragging m = false →
  dragging (step m s) = false
  ∧ bufferedPoseEvent (step m s) = bufferedPoseEvent m
  ∧ applied (step m s)
    = applied m ++ (pose <$> serverPoses [s])
  ∧ dispatched (step m s)
    = dispatched m
      ++ match s with
         | ServerPose _ => []
         | UserPosition c _ | UserOrientation c _ =>
             [mkFeedback "user-pose-change" (position (step m s))
                         (quaternion (step m s)) c]
         end
  ∧ (∀ e, s = ServerPose e →
       position (step m s) = copyPoint (Msg.position (pose e))
       ∧ quaternion (step m s) = copyQuat (Msg.orientation (pose e))).
Proof.
  intros Hd. destruct m as [d p0 q0 b sp so fb ap]. cbn in Hd. subst d.
  destruct s as [e|c p|c q]; cbn; rewrite ?app_nil_r.
  - do 4 (split; [done|]). by intros e' [= <-].
  - by repeat split.
  - by repeat split.
Qed.

Lemma run_idle steps : ∀ m,
  dragging m = false →
  dragging (run m steps) = false
  ∧ bufferedPoseEvent (run m steps) = bufferedPoseEvent m
  ∧ applied (run m steps) = applied m ++ (pose <$> serverPoses steps)
  ∧ ∃ changes,
      dispatched (run m steps) = dispatched m ++ changes
      ∧ Forall (fun f => fb_type f = "user-pose-change") changes
      ∧ fb_controlName <$> changes = Drag.userControls steps.
Proof.
  induction steps as [|s steps IH]; intros m Hd.
  { cbn. rewrite app_nil_r. do 3 (split; [done|]). exists [].
    by rewrite app_nil_r. }
  destruct (step_idle m s Hd) as (Hd1 & Hb1 & Ha1 & Hfb1 & _).
  destruct (IH (step m s) Hd1)
    as (Hd' & Hb' & Ha' & changes & Hfb' & Htypes & Hnames).
  unfold run in *. cbn [foldl]. rewrite Hb', Ha', Hfb', Hb1, Ha1, Hfb1.
  split; [done|]. split; [done|]. split.
  - rewrite <- app_assoc. f_equal. by destruct s.
  - eexists. rewrite <- app_assoc. split; [reflexivity|].
    unfold Drag.userControls in *.
    destruct s as [e|c p|c q]; cbn [app].
    + by split.
    + split; [by constructor|]. by rewrite fmap_cons, Hnames.
    + split; [by constructor|]. by rewrite fmap_cons, Hnames.
Qed.

Lemma stopDrag_dispatched m c :
  dispatched (stopDrag m c 0)
  = dispatched m
    ++ [mkFeedback "user-mouseup" (position (stopDrag m c 0))
                   (quaternion (stopDrag m c 0)) c].
Proof.
  destruct m as [d p0 q0 b sp so fb ap]. unfold stopDrag.
  by destruct b as [e|].
Qed.

Lemma startDrag_fields m c :
  dragging (startDrag m c 0) = true
  ∧ position (startDrag m c 0) = position m
  ∧ quaternion (startDrag m c 0) = quaternion m
  ∧ dispatched (startDrag m c 0)
    = dispatched m ++ [mkFeedback "user-mousedown" (position m) (quaternion m) c].
Proof. done. Qed.

Lemma startDrag_buffer m c :
  bufferedPoseEvent (startDrag m c 0) = bufferedPoseEvent m.
Proof. done. Qed.

End DragTrace.

(** X18: the feedback of a drag.  From the press of the primary button to
    its release the marker dispatches, in this order: one
    ["user-mousedown"] event with the pose of the marker at the press;
    one ["user-pose-change"] event for every position or orientation the
    user sets, carrying the pose that step leaves (the new position with
    the orientation as it was, or the normalized new orientation with the
    position as it was) and the name of its control; and one
    ["user-mouseup"] event.  Server poses arriving in between dispatch
    nothing and do not show in the poses reported during the drag; the
    pose reported at the release is that of the last server pose that
    arrived during the drag, if any, and otherwise the pose the user left.
    (The marker has no server pose buffered at the press.) *)
Theorem drag_feedback_in_order
    (m : InteractiveMarker.t) (c c' : string) (steps : list InteractiveMarker.DragStep) :
  InteractiveMarker.bufferedPoseEvent m = None →
  let start := (InteractiveMarker.position m, InteractiveMarker.quaternion m) in
  let released :=
    InteractiveMarker.stopDrag
      (InteractiveMarker.run (InteractiveMarker.startDrag m c 0) steps) c' 0 in
  let final := (InteractiveMarker.position released, InteractiveMarker.quaternion released) in
  InteractiveMarker.dispatched released
  = InteractiveMarker.dispatched m
    ++ InteractiveMarker.mkFeedback "user-mousedown" start.1 start.2 c
       :: Drag.feedbackOf start steps
    ++ [InteractiveMarker.mkFeedback "user-mouseup" final.1 final.2 c']
  ∧ final
    = match last (InteractiveMarker.serverPoses steps) with
      | Some e =>
          (InteractiveMarker.copyPoint (Msg.position (InteractiveMarker.pose e)),
           InteractiveMarker.copyQuat (Msg.orientation (InteractiveMarker.pose e)))
      | None => foldl Drag.userPose start steps
      end
  ∧ Forall (fun f => InteractiveMarker.fb_type f = "user-pose-change")
           (Drag.feedbackOf start steps)
  ∧ InteractiveMarker.fb_controlName <$> Drag.feedbackOf start steps
    = Drag.userControls steps.
Proof.
  intros Hnone start. cbv zeta.
  set (m1 := InteractiveMarker.startDrag m c 0).
  set (released := InteractiveMarker.stopDrag (InteractiveMarker.run m1 steps) c' 0).
  assert (Hd1 : InteractiveMarker.dragging m1 = true) by done.
  destruct (run_feedback_dragging steps m1 Hd1) as (Hd & Hpose & Hfb).
  destruct (run_dragging steps m1 Hd1) as (_ & _ & Hbuf).
  destruct (stopDrag_applies_buffer (InteractiveMarker.run m1 steps) c')
    as (_ & _ & _ & Hp & Hq).
  fold released in Hp, Hq.
  split; [|split; [|split]].
  - unfold released. rewrite stopDrag_dispatched. fold released.
    rewrite Hfb. unfold m1. destruct (startDrag_fields m c) as (_ & -> & -> & ->).
    rewrite <- !app_assoc. done.
  - rewrite Hp, Hq, Hbuf.
    destruct (last (InteractiveMarker.serverPoses steps)) as [e|]; [done|].
    cbn [from_option].
    change (InteractiveMarker.bufferedPoseEvent m1)
      with (InteractiveMarker.bufferedPoseEvent m).
    rewrite Hnone. cbn [from_option]. by rewrite Hpose.
  - apply feedbackOf_types.
  - apply feedbackOf_types.
Qed.

(** X18 on a marker created at the origin: a press, a server pose, a
    pointer move to x = 7, two more server poses, and the release, which
    reports the last server pose. *)
Lemma drag_feedback_in_order_witness :
  InteractiveMarker.fb_type
    <$> InteractiveMarker.dispatched
          (InteractiveMarker.stopDrag
             (InteractiveMarker.run
                (InteractiveMarker.startDrag (InteractiveMarker.new (SampleDrag.poseAt 0))
                                             "move_x" 0)
                SampleDrag.steps)
             "move_x" 0)
  = ["user-mousedown"; "user-pose-change"; "user-mouseup"]
  ∧ InteractiveMarker.fb_position
      <$> last (InteractiveMarker.dispatched
                  (InteractiveMarker.stopDrag
                     (InteractiveMarker.run
                        (InteractiveMarker.startDrag
                           (InteractiveMarker.new (SampleDrag.poseAt 0)) "move_x" 0)
                        SampleDrag.steps)
                     "move_x" 0))
    = Some (Vector3.mk 3 0 0).
Proof.
  destruct (drag_feedback_in_order (InteractiveMarker.new (SampleDrag.poseAt 0))
              "move_x" "move_x" SampleDrag.steps eq_refl) as (Hfb & Hfinal & _).
  rewrite Hfb. cbv zeta in Hfinal. rewrite Hfinal. split; reflexivity.
Defined.

(** X19: only the primary button drags.  A press and a release of any
    other button change nothing and dispatch nothing; on a marker that is
    not being dragged every server pose is applied as it arrives, in
    order, nothing is buffered, and the only events dispatched are the
    ["user-pose-change"] events of the user steps. *)
Theorem other_buttons_start_no_drag
    (m : InteractiveMarker.t) (c c' : string) (button : Z)
    (steps : list InteractiveMarker.DragStep) :
  button ≠ 0%Z →
  InteractiveMarker.dragging m = false →
  let after :=
    InteractiveMarker.stopDrag
      (InteractiveMarker.run (InteractiveMarker.startDrag m c button) steps)
      c' button in
  InteractiveMarker.startDrag m c button = m
  ∧ InteractiveMarker.dragging after = false
  ∧ InteractiveMarker.bufferedPoseEvent after = InteractiveMarker.bufferedPoseEvent m
  ∧ InteractiveMarker.applied after
    = InteractiveMarker.applied m
      ++ (InteractiveMarker.pose <$> InteractiveMarker.serverPoses steps)
  ∧ ∃ changes,
      InteractiveMarker.dispatched after = InteractiveMarker.dispatched m ++ changes
      ∧ Forall (fun f => InteractiveMarker.fb_type f = "user-pose-change") changes
      ∧ InteractiveMarker.fb_controlName <$> changes = Drag.userControls steps.
Proof.
  intros Hbutton Hidle. cbv zeta.
  unfold InteractiveMarker.startDrag, InteractiveMarker.stopDrag.
  destruct (Z.eqb_spec button 0) as [|_]; [done|].
  split; [done|]. by apply run_idle.
Qed.

(** X19 on a marker created at the origin and the right button: the
    three server poses are applied as they arrive. *)
Lemma other_buttons_start_no_drag_witness :
  InteractiveMarker.applied
    (InteractiveMarker.stopDrag
       (InteractiveMarker.run
          (InteractiveMarker.startDrag (InteractiveMarker.new (SampleDrag.poseAt 0))
                                       "move_x" 2)
          SampleDrag.steps)
       "move_x" 2)
  = [SampleDrag.poseAt 0; SampleDrag.poseAt 1; SampleDrag.poseAt 2; SampleDrag.poseAt 3].
Proof.
  destruct (other_buttons_start_no_drag (InteractiveMarker.new (SampleDrag.poseAt 0))
              "move_x" "move_x" 2 SampleDrag.steps) as (_ & _ & _ & Happlied & _).
  - discriminate.
  - reflexivity.
  - exact Happlied.
Defined.

(** ** What an update in place writes *)

Section UpdateContent.
Implicit Types (m : Marker.t) (message : MarkerMessage) (child : MarkerObject).

Import Lifecycle.

Lemma updateColor_shape m message child :
  sameShape child (Marker.updateColor m message child).2
  ∧ Marker.children (Marker.updateColor m message child).1 = Marker.children m.
Proof.
  unfold Marker.updateColor, sameShape.
  destruct (Marker.colorChanged m message); [|done].
  destruct (mm_type message =? MARKER_MESH_RESOURCE)%Z.
  - by destruct (JS.strict_eq _ _).
  - by destruct (mo_material child).
Qed.

Lemma applyScale_shape message child child' :
  Marker.applyScale message child = Ok child' → sameShape child child'.
Proof.
  unfold Marker.applyScale, sameShape.
  destruct ((mm_type message =? MARKER_CUBE)%Z || _ || _).
  { by intros [= <-]. }
  destruct ((mm_type message =? MARKER_LINE_STRIP)%Z || _).
  { destruct (mo_material child); [|done]. by intros [= <-]. }
  destruct (mm_type message =? MARKER_POINTS)%Z.
  { destruct (mo_material child); [|done]. by intros [= <-]. }
  by intros [= <-].
Qed.

(** The loop of [setXYZ] calls writes the rounded coordinates of the
    points to the front of the array. *)
Lemma writePoints_from points : ∀ arr i,
  3 * (i + length points) ≤ length arr →
  (foldl (fun '(a, i) pt =>
            (TypedArray.store
               (TypedArray.store (TypedArray.store a (3 * i) (Msg.x pt))
                                 (3 * i + 1) (Msg.y pt))
               (3 * i + 2) (Msg.z pt), S i))
         (arr, i) points).1
  = take (3 * i) arr ++ Creators.positionsOf points
    ++ drop (3 * (i + length points)) arr.
Proof.
  induction points as [|pt points IH]; intros arr i Hlen.
  { cbn [foldl fst length Creators.positionsOf flat_map app].
    rewrite Nat.add_0_r. by rewrite take_drop. }
  cbn [foldl length] in *. rewrite IH by (rewrite !store_length; lia).
  set (a1 := TypedArray.store arr (3 * i) (Msg.x pt)).
  set (a2 := TypedArray.store a1 (3 * i + 1) (Msg.y pt)).
  set (a3 := TypedArray.store a2 (3 * i + 2) (Msg.z pt)).
  assert (Hl1 : length a1 = length arr) by apply store_length.
  assert (Hl2 : length a2 = length arr) by (unfold a2; by rewrite store_length).
  assert (Htake : take (3 * S i) a3
                  = take (3 * i) arr
                    ++ [TypedArray.Math_fround (Msg.x pt);
                        TypedArray.Math_fround (Msg.y pt);
                        TypedArray.Math_fround (Msg.z pt)]).
  { unfold a3, a2, a1, TypedArray.store.
    replace (3 * S i) with (S (S (S (3 * i)))) by lia.
    rewrite (take_S_r _ (S (S (3 * i))) (TypedArray.Math_fround (Msg.z pt)))
      by (replace (3 * i + 2) with (S (S (3 * i))) by lia;
          apply list_lookup_insert_eq; rewrite !length_insert; lia).
    rewrite take_insert_ge by lia.
    rewrite (take_S_r _ (S (3 * i)) (TypedArray.Math_fround (Msg.y pt)))
      by (replace (3 * i + 1) with (S (3 * i)) by lia;
          apply list_lookup_insert_eq; rewrite !length_insert; lia).
    rewrite take_insert_ge by lia.
    rewrite (take_S_r _ (3 * i) (TypedArray.Math_fround (Msg.x pt)))
      by (apply list_lookup_insert_eq; lia).
    rewrite take_insert_ge by lia.
    by rewrite <- !app_assoc. }
  assert (Hdrop : drop (3 * (S i + length points)) a3
                  = drop (3 * (i + S (length points))) arr).
  { unfold a3, a2, a1, TypedArray.store.
    replace (3 * (S i + length points)) with (3 * (i + S (length points))) by lia.
    by rewrite !drop_insert_lt by lia. }
  rewrite Htake, Hdrop. cbn [Creators.positionsOf flat_map].
  by rewrite <- !app_assoc.
Qed.

Lemma writePoints_positionsOf arr points :
  3 * length points ≤ length arr →
  Marker.writePoints arr points
  = Creators.positionsOf points ++ drop (3 * length points) arr.
Proof.
  intros Hlen. unfold Marker.writePoints.
  rewrite (writePoints_from points arr 0) by (cbn; lia).
  by rewrite Nat.mul_0_r, take_0.
Qed.

Lemma lines_are_not_instanced type :
  Marker.isLineOrPoints type = true → Marker.isInstancedList type = false.
Proof.
  unfold Marker.isLineOrPoints, Marker.isInstancedList, MARKER_LINE_STRIP,
    MARKER_LINE_LIST, MARKER_POINTS, MARKER_CUBE_LIST, MARKER_SPHERE_LIST.
  intros Hline.
  destruct (Z.eqb_spec type 6) as [->|_]; [done|].
  by destruct (Z.eqb_spec type 7) as [->|_].
Qed.

(** What the points step leaves when it does not give up. *)
Lemma updatePoints_content message child child' :
  Marker.updatePoints message child = Ok (Some child') →
  mo_kind child' = mo_kind child
  ∧ mo_material child' = mo_material child
  ∧ mo_scale child' = mo_scale child
  ∧ (Marker.isInstancedList (mm_type message) = true →
       mo_count child' = Some (length (mm_points message))
       ∧ mo_instances child' = Creators.instancesOf (mm_points message)
       ∧ mo_geometry child' = mo_geometry child)
  ∧ (Marker.isLineOrPoints (mm_type message) = true →
       ∃ arr, mo_geometry child = Some arr
              ∧ length (mm_points message) = length arr / 3
              ∧ mo_geometry child'
                = Some (Creators.positionsOf (mm_points message)
                        ++ drop (3 * length (mm_points message)) arr)
              ∧ mo_count child' = mo_count child
              ∧ mo_instances child' = mo_instances child)
  ∧ (Marker.isInstancedList (mm_type message) = false →
     Marker.isLineOrPoints (mm_type message) = false →
     child' = child).
Proof.
  unfold Marker.updatePoints.
  destruct (Marker.isInstancedList (mm_type message)) eqn:Hinst.
  { case_bool_decide as Hc; [|done]. intros [= <-]. cbn.
    do 3 (split; [done|]). split; [done|]. split; [|done].
    intros Hline. apply lines_are_not_instanced in Hline. congruence. }
  destruct (Marker.isLineOrPoints (mm_type message)) eqn:Hline.
  { destruct (mo_geometry child) as [arr|] eqn:Harr; [|done].
    destruct (Nat.eqb_spec (length (mm_points message) * 3) (length arr / 3 * 3))
      as [Heq|]; [|done].
    intros [= <-]. cbn. do 3 (split; [done|]). split; [done|]. split; [|done].
    intros _. exists arr. split; [done|].
    assert (Hn : length (mm_points message) = length arr / 3) by lia.
    split; [done|]. split; [|done]. f_equal.
    apply writePoints_positionsOf.
    pose proof (Nat.Div0.mul_div_le (length arr) 3). lia. }
  intros [= <-]. by repeat split.
Qed.

(** The steps behind a successful update. *)
Lemma update_true_inv m message m' :
  Marker.update m message = Ok (true, m') →
  ∃ child rest child1 child2,
    Marker.children m = child :: rest
    ∧ sameShape child child1
    ∧ Marker.updatePoints message child1 = Ok (Some child2)
    ∧ Marker.children m' = child2 :: rest
    ∧ mm_type message = mm_type (Marker.message m)
    ∧ Marker.message m' = message
    ∧ Marker.position m' = Spec.vec (Msg.position (mm_pose message))
    ∧ Marker.quaternion m'
      = Quaternion.normalize (Spec.quat (Msg.orientation (mm_pose message)))
    ∧ Marker.msgColor m'
      = (if Marker.colorChanged m message then mm_color message
         else Marker.msgColor m)
    ∧ Marker.msgScale m'
      = (if Marker.scaleChanged m message
         then (Msg.x (mm_scale message), Msg.y (mm_scale message),
               Msg.z (mm_scale message))
         else Marker.msgScale m).
Proof.
  unfold Marker.update.
  destruct (Z.eqb_spec (mm_type message) (mm_type (Marker.message m))) as [Etype|];
    [|done].
  cbn [negb].
  destruct (setPose_fields
              (Marker.mk message (Marker.msgScale m) (Marker.msgColor m)
                 (Marker.position m) (Marker.quaternion m) (Marker.children m))
              (mm_pose message)) as (Hmsg & Hscale & Hcolor & Hch & Hpos & Hquat).
  cbn [Marker.children Marker.message Marker.msgScale Marker.msgColor] in *.
  rewrite Hch.
  destruct (Marker.children m) as [|child rest] eqn:Hchildren; [done|].
  set (m1 := Marker.setPose _ _) in *.
  assert (Hchanged : Marker.colorChanged m1 message = Marker.colorChanged m message).
  { unfold Marker.colorChanged. by rewrite Hcolor. }
  destruct (updateColor_shape m1 message child) as (Hshape & Hch1).
  assert (Hm2 : Marker.message (Marker.updateColor m1 message child).1 = message
                ∧ Marker.position (Marker.updateColor m1 message child).1
                  = Spec.vec (Msg.position (mm_pose message))
                ∧ Marker.quaternion (Marker.updateColor m1 message child).1
                  = Quaternion.normalize (Spec.quat (Msg.orientation (mm_pose message)))
                ∧ Marker.msgScale (Marker.updateColor m1 message child).1
                  = Marker.msgScale m
                ∧ Marker.msgColor (Marker.updateColor m1 message child).1
                  = (if Marker.colorChanged m message then mm_color message
                     else Marker.msgColor m)).
  { rewrite <- Hchanged. unfold Marker.updateColor.
    destruct (Marker.colorChanged m1 message); [|done].
    destruct (mm_type message =? MARKER_MESH_RESOURCE)%Z.
    - by destruct (JS.strict_eq _ _).
    - by destruct (mo_material child). }
  destruct (Marker.updateColor m1 message child) as [m2 child1]. cbn [fst snd] in *.
  destruct Hm2 as (Hmsg2 & Hpos2 & Hquat2 & Hscale2 & Hcolor2).
  assert (Hsc : Marker.scaleChanged (Marker.with_child m2 child1) message
                = Marker.scaleChanged m message).
  { unfold Marker.scaleChanged. cbn [Marker.with_child Marker.msgScale].
    by rewrite Hscale2. }
  rewrite Hsc.
  destruct (Marker.scaleChanged m message).
  - destruct (Marker.rebuildOnScale (mm_type message)); [done|].
    destruct (Marker.applyScale message child1) as [child1'|e] eqn:Happly; [|done].
    cbn [mbind Result_bind bindR].
    destruct (Marker.updatePoints message child1') as [[child2|]|e] eqn:Hpts;
      try done.
    cbn [mbind Result_bind bindR]. intros [= <-].
    exists child, rest, child1', child2. split; [done|].
    pose proof (applyScale_shape _ _ _ Happly) as Hshape'.
    split; [|split; [done|split; [|by cbn]]].
    + unfold sameShape in *. destruct Hshape as (H1 & H2 & H3 & H4).
      destruct Hshape' as (H1' & H2' & H3' & H4'). repeat split; congruence.
    + cbn. by rewrite Hch1, Hch.
  - destruct (Marker.updatePoints message child1) as [[child2|]|e] eqn:Hpts;
      try done.
    cbn [mbind Result_bind bindR]. intros [= <-].
    exists child, rest, child1, child2. do 3 (split; [done|]).
    split; [|by cbn]. cbn. by rewrite Hch1, Hch.
Qed.

(** [|x - x| > 1e-6] is false for every number, NaN and the infinities
    included. *)
Lemma sub_self_small (x : float) :
  JS.gt (JS.Math_abs (x - x)) 1e-6%float = false.
Proof.
  unfold JS.gt, JS.Math_abs.
  rewrite FloatAxioms.ltb_spec, FloatAxioms.abs_spec, FloatAxioms.sub_spec.
  destruct (Prim2SF x) as [s|s| |s mx e].
  - by destruct s.
  - by destruct s.
  - done.
  - unfold FloatAxioms.SF64sub, SpecFloat.SFsub. rewrite Z.sub_diag. reflexivity.
Qed.

(** The points step on its own result. *)
Lemma updatePoints_again message child child' :
  Marker.updatePoints message child = Ok (Some child') →
  Marker.updatePoints message child' = Ok (Some child').
Proof.
  unfold Marker.updatePoints.
  destruct (Marker.isInstancedList (mm_type message)).
  { case_bool_decide as Hc; [|done]. intros [= <-]. cbn.
    by rewrite bool_decide_eq_true_2. }
  destruct (Marker.isLineOrPoints (mm_type message)); [|by intros [= <-]].
  destruct (mo_geometry child) as [arr|] eqn:Harr; [|done].
  destruct (Nat.eqb_spec (length (mm_points message) * 3) (length arr / 3 * 3))
    as [Heq|]; [|done].
  intros [= <-]. cbn [mo_geometry].
  rewrite writePoints_length.
  destruct (Nat.eqb_spec (length (mm_points message) * 3) (length arr / 3 * 3));
    [|done].
  do 3 f_equal.
  pose proof (Nat.Div0.mul_div_le (length arr) 3) as Hle.
  rewrite (writePoints_positionsOf arr) by lia.
  rewrite writePoints_positionsOf
    by (rewrite length_app, positionsOf_length, length_drop; lia).
  f_equal. rewrite drop_app_length'; [done|]. rewrite positionsOf_length. lia.
Qed.

(** A marker already in the state the message asks for. *)
Lemma update_settled m message child rest :
  Marker.message m = message →
  Marker.position m = Spec.vec (Msg.position (mm_pose message)) →
  Marker.quaternion m
    = Quaternion.normalize (Spec.quat (Msg.orientation (mm_pose message))) →
  Marker.children m = child :: rest →
  Marker.colorChanged m message = false →
  Marker.scaleChanged m message = false →
  Marker.updatePoints message child = Ok (Some child) →
  Marker.update m message = Ok (true, m).
Proof.
  intros Hmsg Hpos Hquat Hch Hcolor Hscale Hpts.
  destruct m as [msg sc col pos quat ch]. cbn in Hmsg, Hpos, Hquat, Hch. subst.
  unfold Marker.update. cbn [Marker.message].
  rewrite Z.eqb_refl. cbn [negb].
  change (Marker.setPose _ (mm_pose message))
    with (Marker.mk message sc col (Spec.vec (Msg.position (mm_pose message)))
            (Quaternion.normalize (Spec.quat (Msg.orientation (mm_pose message))))
            (child :: rest)).
  cbn [Marker.children]. unfold Marker.updateColor. rewrite Hcolor.
  change (Marker.with_child _ child)
    with (Marker.mk message sc col (Spec.vec (Msg.position (mm_pose message)))
            (Quaternion.normalize (Spec.quat (Msg.orientation (mm_pose message))))
            (child :: rest)).
  rewrite Hscale, Hpts. reflexivity.
Qed.

End UpdateContent.

(** X20: what an update in place writes.  When [update] answers [true],
    the marker keeps its children, only the first one being changed, and
    that one keeps its kind; for a line strip, line list or points marker
    its position array holds the binary32 roundings of the coordinates of
    the message's points, in order (exactly the array a rebuild would
    create when the old array had three slots per point); for a cube or
    sphere list its instances sit at the message's points and their count
    is the number of points; for every other type geometry and instances
    are untouched. *)
Theorem update_in_place_writes_the_points
    (m m' : Marker.t) (message : MarkerMessage) :
  Marker.update m message = Ok (true, m') →
  ∃ child child' rest,
    Marker.children m = child :: rest
    ∧ Marker.children m' = child' :: rest
    ∧ mo_kind child' = mo_kind child
    ∧ (Marker.isInstancedList (mm_type message) = true →
         mo_count child' = Some (length (mm_points message))
         ∧ mo_instances child' = Creators.instancesOf (mm_points message))
    ∧ (Marker.isLineOrPoints (mm_type message) = true →
         ∃ arr, mo_geometry child = Some arr
                ∧ length (mm_points message) = length arr / 3
                ∧ mo_geometry child'
                  = Some (Creators.positionsOf (mm_points message)
                          ++ drop (3 * length (mm_points message)) arr)
                ∧ (length arr = 3 * length (mm_points message) →
                   mo_geometry child'
                   = Some (Creators.positionsOf (mm_points message))))
    ∧ (Marker.isInstancedList (mm_type message) = false →
       Marker.isLineOrPoints (mm_type message) = false →
       mo_geometry child' = mo_geometry child
       ∧ mo_count child' = mo_count child
       ∧ mo_instances child' = mo_instances child).
Proof.
  intros Hrun.
  destruct (update_true_inv m message m' Hrun)
    as (child & rest & child1 & child2 & Hch & Hshape & Hpts & Hch' & _).
  destruct Hshape as (Hkind & Hgeo & Hcount & Hinst).
  destruct (updatePoints_content message child1 child2 Hpts)
    as (Hkind2 & _ & _ & Hlist & Hline & Hother).
  exists child, child2, rest. do 2 (split; [done|]). split; [congruence|].
  split; [|split].
  - intros Hi. by destruct (Hlist Hi) as (-> & -> & _).
  - intros Hl. destruct (Hline Hl) as (arr & Harr & Hn & Hgeo2 & _).
    exists arr. split; [congruence|]. split; [done|]. split; [done|].
    intros Hlen. rewrite Hgeo2, drop_ge by lia. by rewrite app_nil_r.
  - intros Hi Hl. rewrite (Hother Hi Hl). by rewrite Hgeo, Hcount, Hinst.
Qed.

(** X20 on a strip of two points updated with two other points. *)
Lemma update_in_place_writes_the_points_witness :
  ∃ m' child',
    Marker.update (Marker.new (SampleMarkers.strip SampleMarkers.twoPoints))
                  (SampleMarkers.strip [Msg.mkPoint 2 0 0; Msg.mkPoint 3 0 0])
    = Ok (true, m')
    ∧ Marker.children m' = [child']
    ∧ mo_geometry child' = Some [2; 0; 0; 3; 0; 0]%float.
Proof.
  destruct (Marker.update (Marker.new (SampleMarkers.strip SampleMarkers.twoPoints))
              (SampleMarkers.strip [Msg.mkPoint 2 0 0; Msg.mkPoint 3 0 0]))
    as [[ok m']|e] eqn:Hrun; [|vm_compute in Hrun; discriminate Hrun].
  assert (Hok : ok = true) by (vm_compute in Hrun; congruence). subst ok.
  destruct (update_in_place_writes_the_points _ _ _ Hrun)
    as (child & child' & rest & Hch & Hch' & _ & _ & Hline & _).
  vm_compute in Hch. injection Hch as <- <-.
  destruct (Hline eq_refl) as (arr & Harr & _ & _ & Hgeo).
  vm_compute in Harr. injection Harr as <-.
  exists m', child'. split; [reflexivity|]. split; [exact Hch'|].
  rewrite (Hgeo eq_refl). vm_compute. reflexivity.
Defined.

(** X21: sending a marker message again changes nothing.  When [update]
    has answered [true] for a message whose colour has no NaN component,
    a second [update] with the same message answers [true] again and
    leaves the marker exactly as the first one left it: same message,
    pose, stored colour and scale, and the same children with the same
    materials and geometry. *)
Theorem update_twice_is_update_once
    (m m' : Marker.t) (message : MarkerMessage) :
  Marker.update m message = Ok (true, m') →
  Lifecycle.numericColor (mm_color message) = true →
  Marker.update m' message = Ok (true, m').
Proof.
  intros Hrun Hnum.
  destruct (update_true_inv m message m' Hrun)
    as (child & rest & child1 & child2 & Hch & _ & Hpts & Hch' & _ & Hmsg & Hpos
        & Hquat & Hcolor & Hscale).
  apply (update_settled m' message child2 rest); try done.
  - unfold Marker.colorChanged. rewrite Hcolor.
    destruct (Marker.colorChanged m message) eqn:Hchanged; [|exact Hchanged].
    unfold Lifecycle.numericColor, JS.strict_eq in Hnum. unfold JS.strict_ne.
    apply andb_true_iff in Hnum as [Hnum Ha].
    apply andb_true_iff in Hnum as [Hnum Hb].
    apply andb_true_iff in Hnum as [Hr Hg].
    by rewrite Hr, Hg, Hb, Ha.
  - unfold Marker.scaleChanged. rewrite Hscale.
    destruct (Marker.scaleChanged m message) eqn:Hchanged.
    + by rewrite !sub_self_small.
    + exact Hchanged.
  - by apply (updatePoints_again message child1).
Qed.

(** X21 on a strip of two points updated with two other points, twice. *)
Lemma update_twice_is_update_once_witness :
  ∃ m',
    Marker.update (Marker.new (SampleMarkers.strip SampleMarkers.twoPoints))
                  (SampleMarkers.strip [Msg.mkPoint 2 0 0; Msg.mkPoint 3 0 0])
    = Ok (true, m')
    ∧ Marker.update m' (SampleMarkers.strip [Msg.mkPoint 2 0 0; Msg.mkPoint 3 0 0])
      = Ok (true, m').
Proof.
  destruct (Marker.update (Marker.new (SampleMarkers.strip SampleMarkers.twoPoints))
              (SampleMarkers.strip [Msg.mkPoint 2 0 0; Msg.mkPoint 3 0 0]))
    as [[ok m']|e] eqn:Hrun; [|vm_compute in Hrun; discriminate Hrun].
  assert (Hok : ok = true) by (vm_compute in Hrun; congruence). subst ok.
  exists m'. split; [reflexivity|].
  apply (update_twice_is_update_once _ _ _ Hrun). reflexivity.
Defined.

(** ** Rays with the same direction *)

Section ClosestPoint.

Lemma SFeqb_finite_refl s mx e :
  SpecFloat.SFeqb (SpecFloat.S754_finite s mx e) (SpecFloat.S754_finite s mx e) = true.
Proof.
  unfold SpecFloat.SFeqb, SpecFloat.SFcompare.
  rewrite Z.compare_refl, Pos.compare_cont_refl. by destruct s.
Qed.

(** [|x - x| <= 0.0001] holds exactly for the finite numbers: the
    difference is 0 for them and NaN for the infinities and NaN. *)
Lemma sub_self_tiny (x : float) :
  JS.le (JS.Math_abs (x - x)) 0.0001%float = PrimFloat.is_finite x.
Proof.
  unfold JS.le, JS.Math_abs, PrimFloat.is_finite, PrimFloat.is_nan,
    PrimFloat.is_infinity.
  rewrite FloatAxioms.leb_spec, !FloatAxioms.eqb_spec, !FloatAxioms.abs_spec,
    FloatAxioms.sub_spec.
  destruct (Prim2SF x) as [s|s| |s mx e].
  - by destruct s.
  - by destruct s.
  - done.
  - unfold FloatAxioms.SF64sub, SpecFloat.SFsub. rewrite Z.sub_diag.
    rewrite SFeqb_finite_refl. reflexivity.
Qed.

End ClosestPoint.

(** X22: rays with the same direction.  For two rays with the same
    direction vector [d], [findClosestPoint] answers [undefined] exactly
    when the square of [d . d] is a finite number: the denominator is
    then the difference of a number with itself.  (When the square
    overflows the denominator is NaN, the test [Math.abs(denom) <=
    0.0001] fails and the function returns a number.) *)
Theorem same_direction_gives_undefined (targetRay mouseRay : Geometry.Ray) :
  Geometry.direction targetRay = Geometry.direction mouseRay →
  let d := Geometry.direction mouseRay in
  Geometry.findClosestPoint targetRay mouseRay = None
  ↔ PrimFloat.is_finite (Vector3.dot d d * Vector3.dot d d) = true.
Proof.
  intros Hdir d. rewrite findClosestPoint_undefined_iff.
  unfold Geometry.denom. rewrite Hdir. fold d.
  by rewrite sub_self_tiny.
Qed.

(** X22 on a ray along the x axis and itself. *)
Lemma same_direction_gives_undefined_witness :
  Geometry.findClosestPoint SampleRays.alongX SampleRays.alongX = None.
Proof.
  apply (same_direction_gives_undefined SampleRays.alongX SampleRays.alongX eq_refl).
  reflexivity.
Defined.

(** ** Markers that are sent again *)

Section KeepAlive.
Import Lifecycle.

(** Every branch of ADD/MODIFY leaves the key live and stamps it. *)
Lemma add_stamps this message now this' :
  clientInv this →
  mm_action message = 0%Z →
  MarkerClient.processMessage this message now = Ok this' →
  ∃ entry,
    MarkerClient.markers this' !! MarkerClient.keyOf message = Some entry
    ∧ MarkerClient.updatedTime entry = now.
Proof.
  intros Hc Haction. unfold MarkerClient.processMessage. rewrite Haction.
  cbn [Z.eqb].
  destruct (MarkerClient.markers this !! MarkerClient.keyOf message)
    as [entry|] eqn:Hl.
  - destruct (Hc _ _ Hl) as (Hid & m & rest & Hch & Hready).
    rewrite Hch. destruct (update_spec m message Hready) as (m' & -> & _).
    destruct (Lifecycle.updatable m message); intros [= <-]; eexists;
      (split; [apply lookup_insert_eq|done]).
  - intros [= <-]. eexists. split; [apply lookup_insert_eq|done].
Qed.

End KeepAlive.

(** X23: a marker that is sent again in time stays.  An ADD/MODIFY
    message received at time [t] leaves its key live with time stamp [t],
    whether the marker was created, rebuilt or updated in place; an
    expiry check at a time [now] with [now - t <= lifetime] keeps that
    marker: its key is still live with the same node, which is in the
    scene and not disposed. *)
Theorem refreshed_marker_survives_expiry
    (this : MarkerClient.t) (message : MarkerMessage) (t lifetime now : nat) :
  Lifecycle.clientInv this →
  Lifecycle.sceneInv this →
  mm_action message = 0%Z →
  now - t ≤ lifetime →
  ∃ this1 entry,
    MarkerClient.processMessage this message t = Ok this1
    ∧ MarkerClient.markers this1 !! MarkerClient.keyOf message = Some entry
    ∧ MarkerClient.updatedTime entry = t
    ∧ let this2 := MarkerClient.checkExpiredMarkers this1 lifetime now in
      MarkerClient.markers this2 !! MarkerClient.keyOf message = Some entry
      ∧ MarkerClient.id entry ∈ MarkerClient.rootObject this2
      ∧ (MarkerClient.id entry ∉ MarkerClient.disposed this2).
Proof.
  intros Hc Hs Haction Hfresh.
  destruct (processMessage_returns this message t Hc) as [this1 Hrun].
  pose proof (processMessage_inv this message t this1 Hc Hrun) as Hc1.
  pose proof (processMessage_sceneInv this message t this1 Hc Hs Hrun) as Hs1.
  destruct (add_stamps this message t this1 Hc Haction Hrun) as (entry & Hl & Ht).
  exists this1, entry. do 3 (split; [done|]). cbv zeta.
  destruct (checkExpiredMarkers_spec this1 lifetime now Hc1 Hs1)
    as (_ & Hs2 & _ & _ & Hkept).
  assert (Hl2 : MarkerClient.markers
                  (MarkerClient.checkExpiredMarkers this1 lifetime now)
                  !! MarkerClient.keyOf message = Some entry).
  { rewrite Hkept, Hl. unfold Lifecycle.kept, MarkerClient.expired.
    rewrite Ht. by destruct (Nat.ltb_spec lifetime (now - t)); [lia|]. }
  split; [done|].
  destruct Hs2 as (_ & Hroot & _ & _ & _ & Hdisj & _).
  assert (Hin : MarkerClient.id entry
                ∈ MarkerClient.rootObject
                    (MarkerClient.checkExpiredMarkers this1 lifetime now)).
  { apply Hroot. by exists (MarkerClient.keyOf message), entry. }
  split; [done|]. by apply Hdisj.
Qed.

(** X23 on the strip added at time 0 and a check at time 800 with a
    lifetime of one second. *)
Lemma refreshed_marker_survives_expiry_witness :
  is_Some (MarkerClient.markers
             (MarkerClient.checkExpiredMarkers SampleMarkers.withStrip 1000 800)
             !! "path/7").
Proof.
  destruct (refreshed_marker_survives_expiry SampleMarkers.client
              (SampleMarkers.strip SampleMarkers.twoPoints) 0 1000 800)
    as (this1 & entry & Hrun & _ & _ & Hkept & _).
  - apply new_inv.
  - apply new_sceneInv.
  - reflexivity.
  - lia.
  - exists entry. unfold SampleMarkers.withStrip. rewrite Hrun. exact Hkept.
Defined.

(** ** Subsampling in [decode64] *)

From Stdlib Require Import ZifyNat.

Ltac nat_div_lia := zify; Z.div_mod_to_equations; lia.

Section Subsampling.
Import Encoding.

Lemma byteAt_range bytes k : (0 ≤ Base64.byteAt bytes k < 256)%Z.
Proof.
  unfold Base64.byteAt. destruct (bytes !! k); [apply Z_of_byte_range|lia].
Qed.

Lemma byteAt_cons c bytes k : Base64.byteAt (c :: bytes) (S k) = Base64.byteAt bytes k.
Proof. done. Qed.

(** Every six-bit group is cut from the bytes as [sextetAt] says. *)
Lemma sextets_lookup : ∀ n bytes i t,
  length bytes ≤ n →
  Base64.sextets bytes !! i = Some t → t = Base64.sextetAt bytes i.
Proof.
  induction n as [|n IH]; intros bytes i t Hn Hi.
  { destruct bytes; [done|cbn in Hn; lia]. }
  destruct bytes as [|a [|b [|c rest]]].
  - done.
  - cbn [Base64.sextets] in Hi.
    destruct i as [|[|i]]; cbn in Hi; [| |done]; injection Hi as <-;
      unfold Base64.sextetAt, Base64.byteAt; cbn;
      rewrite ?Zdiv_0_l, ?Z.add_0_r; reflexivity.
  - cbn [Base64.sextets] in Hi.
    destruct i as [|[|[|i]]]; cbn in Hi; [| | |done]; injection Hi as <-;
      unfold Base64.sextetAt, Base64.byteAt; cbn;
      rewrite ?Zdiv_0_l, ?Z.add_0_r; reflexivity.
  - cbn [Base64.sextets] in Hi.
    destruct i as [|[|[|[|i]]]];
      try (cbn in Hi; injection Hi as <-;
           unfold Base64.sextetAt, Base64.byteAt; cbn; reflexivity).
    change (Base64.sextets rest !! i = Some t) in Hi.
    rewrite (IH rest i t) by (done || (cbn in Hn; lia)).
    unfold Base64.sextetAt.
    replace (S (S (S (S i))) / 4) with (S (i / 4)) by nat_div_lia.
    replace (S (S (S (S i))) mod 4) with (i mod 4) by nat_div_lia.
    replace (3 * S (i / 4)) with (S (S (S (3 * (i / 4))))) by lia.
    cbn [Nat.add]. by rewrite !byteAt_cons.
Qed.

Lemma sextets_length : ∀ n bytes,
  length bytes ≤ n →
  8 * length bytes ≤ 6 * length (Base64.sextets bytes)
  ∧ 6 * length (Base64.sextets bytes) < 8 * length bytes + 6.
Proof.
  induction n as [|n IH]; intros bytes Hn.
  { destruct bytes; [cbn; lia|cbn in Hn; lia]. }
  destruct bytes as [|a [|b [|c rest]]]; cbn [Base64.sextets length]; try lia.
  rewrite length_app. cbn [length].
  destruct (IH rest) as [? ?]; [cbn in Hn; lia|]. lia.
Qed.

Lemma toUint32_shift_add b t :
  (0 ≤ t < 64)%Z →
  toUint32 (shift_add b (Some t)) = ((toUint32 b * 64 + t) mod 4294967296)%Z.
Proof.
  intros Ht. unfold shift_add, toUint32, toInt32.
  rewrite Z.shiftl_mul_pow2 by lia. change (2 ^ 6)%Z with 64%Z.
  destruct b as [v|]; Z.div_mod_to_equations; lia.
Qed.

Lemma toUint32_range b : (0 ≤ toUint32 b < 4294967296)%Z.
Proof. unfold toUint32. destruct b; [apply Z.mod_pos_bound|]; lia. Qed.

(** The pending bits after each of the four characters of a group. *)
Lemma pending_first b t :
  (0 ≤ t < 64)%Z → (toUint32 (shift_add b (Some t)) mod 64 = t)%Z.
Proof.
  intros Ht. rewrite toUint32_shift_add by done.
  pose proof (toUint32_range b). Z.div_mod_to_equations. lia.
Qed.

Lemma byte_second b B n :
  (0 ≤ B < 256)%Z → (0 ≤ n < 256)%Z →
  (toUint32 b mod 64 = B / 4)%Z →
  extract (shift_add b (Some (B mod 4 * 16 + n / 16)%Z)) 4 = B
  ∧ (toUint32 (shift_add b (Some (B mod 4 * 16 + n / 16)%Z)) mod 16 = n / 16)%Z.
Proof.
  intros HB Hn Hb. rewrite extract_spec, toUint32_shift_add
    by (Z.div_mod_to_equations; lia).
  change (2 ^ Z.of_nat 4)%Z with 16%Z.
  pose proof (toUint32_range b). Z.div_mod_to_equations. lia.
Qed.

Lemma byte_third b B n :
  (0 ≤ B < 256)%Z → (0 ≤ n < 256)%Z →
  (toUint32 b mod 16 = B / 16)%Z →
  extract (shift_add b (Some (B mod 16 * 4 + n / 64)%Z)) 2 = B
  ∧ (toUint32 (shift_add b (Some (B mod 16 * 4 + n / 64)%Z)) mod 4 = n / 64)%Z.
Proof.
  intros HB Hn Hb. rewrite extract_spec, toUint32_shift_add
    by (Z.div_mod_to_equations; lia).
  change (2 ^ Z.of_nat 2)%Z with 4%Z.
  pose proof (toUint32_range b). Z.div_mod_to_equations. lia.
Qed.

Lemma byte_fourth b B :
  (0 ≤ B < 256)%Z →
  (toUint32 b mod 4 = B / 64)%Z →
  extract (shift_add b (Some (B mod 64)%Z)) 0 = B.
Proof.
  intros HB Hb. rewrite extract_spec, toUint32_shift_add
    by (Z.div_mod_to_equations; lia).
  change (2 ^ Z.of_nat 0)%Z with 1%Z.
  pose proof (toUint32_range b). Z.div_mod_to_equations. lia.
Qed.

Lemma sampledIndex_succ size r j :
  0 < size → 1 ≤ r →
  Base64.sampledIndex size r (S j)
  = if S j mod size =? 0
    then Base64.sampledIndex size r j + 1 + (r - 1) * size
    else Base64.sampledIndex size r j + 1.
Proof.
  intros Hsize Hr. unfold Base64.sampledIndex.
  pose proof (Nat.div_mod_eq j size) as Hj.
  pose proof (Nat.mod_upper_bound j size ltac:(lia)) as Hc.
  set (a := j / size) in *. set (c := j mod size) in *.
  destruct (decide (S c = size)) as [Hfull|Hpart].
  - assert (Hdiv : S j / size = S a).
    { symmetry. apply (Nat.div_unique _ _ _ 0); lia. }
    assert (Hmod : S j mod size = 0).
    { symmetry. apply (Nat.mod_unique _ _ (S a)); lia. }
    rewrite Hdiv, Hmod. cbn [Nat.eqb].
    destruct r as [|r]; [lia|]. replace (S r - 1) with r by lia.
    rewrite Nat.add_0_r. rewrite <- Hfull at 3.
    fold a c. nia.
  - assert (Hdiv : S j / size = a).
    { symmetry. apply (Nat.div_unique _ _ _ (S c)); lia. }
    assert (Hmod : S j mod size = S c).
    { symmetry. apply (Nat.mod_unique _ _ a); lia. }
    rewrite Hdiv, Hmod. cbn [Nat.eqb]. lia.
Qed.

End Subsampling.

Section SubsamplingLoop.
Import Encoding.
Context (src : list byte) (size r q : nat) (inbytes : string) (A : nat).
Let L := length (Base64.sextets src).
Let bitskip := (r - 1) * size * 8.
Let idx := Base64.sampledIndex size r.
Hypothesis Hsize : 0 < size.
Hypothesis Hr : 1 ≤ r.
Hypothesis Hq : 6 * q = bitskip.
Hypothesis Htab :
  ∀ i, i < L → DECODE_64_TABLE inbytes i = Some (Base64.sextetAt src i).

Lemma next_index j :
  (if negb (size =? 0) && ((j + 1) mod size =? 0) && (0 <? bitskip)
   then 8 * idx (j + 1) = 8 * (idx j + 1) + 6 * q ∧ 0 < q
   else idx (j + 1) = idx j + 1).
Proof using All.
  unfold idx. replace (j + 1) with (S j) by lia.
  rewrite (sampledIndex_succ size r j Hsize Hr).
  destruct (Nat.eqb_spec size 0) as [|_]; [lia|]. cbn [negb andb].
  destruct (S j mod size =? 0); cbn [andb]; [|done].
  destruct (Nat.ltb_spec 0 bitskip) as [Hpos|Hzero].
  - unfold bitskip in *. lia.
  - unfold bitskip in Hzero. nia.
Qed.

Lemma skip_chars x l : 0 < q → l ≤ 4 → x + (bitskip - l + 5) / 6 = x + q.
Proof using All. intros Hpos Hl. rewrite <- Hq. nat_div_lia. Qed.

Lemma src_byte pos x l :
  x < L → 8 * (pos + 1) + l = 6 * (x + 1) → l ≤ 4 →
  ∃ c, src !! pos = Some c ∧ Base64.byteAt src pos = TypedArray.Z_of_byte c.
Proof using All.
  intros Hx Hpos Hl.
  destruct (sextets_length (length src) src ltac:(done)) as [_ Hlen]. fold L in Hlen.
  destruct (lookup_lt_is_Some_2 src pos ltac:(lia)) as [c Hc].
  exists c. split; [done|]. unfold Base64.byteAt. by rewrite Hc.
Qed.

Lemma table_pending i pos l :
  6 * (i + 1) = 8 * pos + l → l = 4 ∨ l = 2 ∨ l = 0 →
  i + 1 ≤ L →
  Base64.pending src (DECODE_64_TABLE inbytes i) l pos.
Proof using All.
  intros Hpos Hl Hi. rewrite Htab by lia. unfold Base64.sextetAt.
  pose proof (byteAt_range src (3 * (i / 4)) ) as H0.
  pose proof (byteAt_range src (3 * (i / 4) + 1)) as H1.
  pose proof (byteAt_range src (3 * (i / 4) + 2)) as H2.
  destruct Hl as [->|[->| ->]]; [| |done].
  - replace (i mod 4) with 1 by nat_div_lia.
    replace pos with (3 * (i / 4) + 1) by nat_div_lia.
    unfold Base64.pending, toUint32. Z.div_mod_to_equations. lia.
  - replace (i mod 4) with 2 by nat_div_lia.
    replace pos with (3 * (i / 4) + 2) by nat_div_lia.
    unfold Base64.pending, toUint32. Z.div_mod_to_equations. lia.
Qed.

(** What a run of the loop from output index [j] leaves. *)
Let post (j : nat) (out : list byte) (res : nat * list byte) : Prop :=
  j ≤ res.1 ≤ A ∧ length res.2 = length out
  ∧ (∀ k, j ≤ k < res.1 → idx k < length src ∧ res.2 !! k = src !! idx k)
  ∧ (∀ k, k < j ∨ res.1 ≤ k → res.2 !! k = out !! k)
  ∧ (res.1 < A → length src ≤ idx res.1).

Lemma post_stop x l j out :
  6 * x = 8 * idx j + l → l ≤ 6 → L ≤ x ∨ A ≤ j → j ≤ A → post j out (j, out).
Proof using All.
  intros Hpos Hl Hstop Hj.
  destruct (sextets_length (length src) src ltac:(done)) as [Hlen _]. fold L in Hlen.
  unfold post. cbn [fst snd]. split; [lia|]. split; [done|].
  split; [intros; lia|]. split; [done|]. intros. lia.
Qed.

Lemma post_write j out c res :
  j < A → A ≤ length out → src !! idx j = Some c →
  post (j + 1) (<[ j := c ]> out) res → post j out res.
Proof using All.
  intros Hj HA Hc (Hjf & Hlen & Hin & Hout & Hend). unfold post.
  rewrite length_insert in Hlen.
  split; [lia|]. split; [done|]. split; [|split; [|done]].
  - intros k Hk. destruct (decide (k = j)) as [->|Hne].
    + split; [by apply lookup_lt_Some in Hc|].
      rewrite Hout by lia. rewrite Hc. apply list_lookup_insert_eq. lia.
    + apply Hin. lia.
  - intros k Hk. rewrite Hout by lia. apply list_lookup_insert_ne. lia.
Qed.

Lemma loop_subsamples : ∀ fuel x b l j out,
  L - x ≤ fuel → A ≤ length out → j ≤ A →
  6 * x = 8 * idx j + l →
  l = 0 ∨ l = 6 ∨ l = 4 ∨ l = 2 →
  (x ≤ L → Base64.pending src b l (idx j)) →
  post j out (decode64_loop fuel inbytes L A size bitskip x b l j out).
Proof using All.
  induction fuel as [|fuel IH]; intros x b l j out Hfuel HA Hj Hpos Hl Hpend.
  { cbn [decode64_loop]. apply (post_stop x l); lia. }
  cbn [decode64_loop].
  destruct (Nat.ltb_spec x L) as [Hx|Hx]; cbn [andb];
    [|apply (post_stop x l); lia].
  destruct (Nat.ltb_spec j A) as [HjA|HjA]; [|apply (post_stop x l); lia].
  rewrite (Htab x Hx). unfold Base64.sextetAt.
  pose proof (byteAt_range src (idx j)) as HB.
  pose proof (byteAt_range src (idx j + 1)) as HB1.
  pose proof (next_index j) as Hnext.
  destruct Hl as [->|[->|[->| ->]]].
  - replace (x mod 4) with 0 by nat_div_lia.
    replace (3 * (x / 4)) with (idx j) by nat_div_lia.
    cbn [Nat.add Nat.leb]. apply IH; try lia.
    intros _. apply pending_first. Z.div_mod_to_equations. lia.
  - replace (x mod 4) with 1 by nat_div_lia.
    replace (3 * (x / 4)) with (idx j) by nat_div_lia.
    cbn [Nat.add Nat.leb Nat.sub].
    destruct (src_byte (idx j) x 4 Hx ltac:(lia) ltac:(lia)) as (c & Hc & HBc).
    destruct (byte_second b _ _ HB HB1 (Hpend ltac:(lia))) as [Hbyte Hrest].
    rewrite Hbyte, HBc, store8_byte.
    apply (post_write j out c); try done.
    destruct (negb (size =? 0) && ((j + 1) mod size =? 0) && (0 <? bitskip)).
    + destruct Hnext as [Hidx Hqpos].
      rewrite (skip_chars x 4) by lia. change (4 mod 8) with 4. cbn [Nat.ltb Nat.leb].
      apply IH; try lia; [by rewrite length_insert|].
      intros Hin. apply table_pending; lia.
    + apply IH; try lia; [by rewrite length_insert|].
      intros _. rewrite Hnext, <- HBc. exact Hrest.
  - replace (x mod 4) with 2 by nat_div_lia.
    replace (3 * (x / 4) + 1) with (idx j) by nat_div_lia.
    replace (3 * (x / 4) + 2) with (idx j + 1) by nat_div_lia.
    cbn [Nat.add Nat.leb Nat.sub].
    destruct (src_byte (idx j) x 2 Hx ltac:(lia) ltac:(lia)) as (c & Hc & HBc).
    destruct (byte_third b _ _ HB HB1 (Hpend ltac:(lia))) as [Hbyte Hrest].
    rewrite Hbyte, HBc, store8_byte.
    apply (post_write j out c); try done.
    destruct (negb (size =? 0) && ((j + 1) mod size =? 0) && (0 <? bitskip)).
    + destruct Hnext as [Hidx Hqpos].
      rewrite (skip_chars x 2) by lia. change (2 mod 8) with 2. cbn [Nat.ltb Nat.leb].
      apply IH; try lia; [by rewrite length_insert|].
      intros Hin. apply table_pending; lia.
    + apply IH; try lia; [by rewrite length_insert|].
      intros _. rewrite Hnext, <- HBc. exact Hrest.
  - replace (x mod 4) with 3 by nat_div_lia.
    replace (3 * (x / 4) + 2) with (idx j) by nat_div_lia.
    cbn [Nat.add Nat.leb Nat.sub].
    destruct (src_byte (idx j) x 0 Hx ltac:(lia) ltac:(lia)) as (c & Hc & HBc).
    rewrite (byte_fourth b _ HB (Hpend ltac:(lia))).
    rewrite HBc, store8_byte.
    apply (post_write j out c); try done.
    destruct (negb (size =? 0) && ((j + 1) mod size =? 0) && (0 <? bitskip)).
    + destruct Hnext as [Hidx Hqpos].
      rewrite (skip_chars x 0) by lia. change (0 mod 8) with 0. cbn [Nat.ltb Nat.leb].
      apply IH; try lia; [by rewrite length_insert|]. done.
    + apply IH; try lia; [by rewrite length_insert|]. done.
Qed.

End SubsamplingLoop.

Lemma sampledIndex_0 size r : Base64.sampledIndex size r 0 = 0.
Proof.
  unfold Base64.sampledIndex. destruct size as [|size]; [done|].
  rewrite Nat.Div0.div_0_l, Nat.Div0.mod_0_l. lia.
Qed.

Lemma decode64_sampled (src out : list byte) (record_size pointRatio : nat) :
  let size := if record_size =? 0 then length out else record_size in
  let ratio := if pointRatio =? 0 then 1 else pointRatio in
  0 < size →
  ((ratio - 1) * size) mod 3 = 0 →
  let res := Encoding.decode64 (Base64.encode src) out record_size pointRatio in
  ∃ written,
    written ≤ length out
    ∧ res.1 = written / size
    ∧ length res.2 = length out
    ∧ (∀ k, k < written →
         Base64.sampledIndex size ratio k < length src
         ∧ res.2 !! k = src !! Base64.sampledIndex size ratio k)
    ∧ (∀ k, written ≤ k → res.2 !! k = out !! k)
    ∧ (written < length out → length src ≤ Base64.sampledIndex size ratio written).
Proof.
  intros size ratio Hsize Hdiv res. unfold res, Encoding.decode64. fold size ratio.
  assert (HL : String.length (Base64.encode src) = length (Base64.sextets src)).
  { unfold Base64.encode. by rewrite length_string_of_list, length_map. }
  rewrite HL.
  assert (Hratio : 1 ≤ ratio) by (unfold ratio; destruct pointRatio; cbn; lia).
  pose proof (loop_subsamples src size ratio (4 * ((ratio - 1) * size / 3))
                (Base64.encode src) (length out) Hsize Hratio) as Hloop.
  destruct (Hloop ltac:(nat_div_lia)
              ltac:(intros i Hi;
                    destruct (lookup_lt_is_Some_2 (Base64.sextets src) i Hi) as [t Ht];
                    rewrite (table_encode _ _ _ Ht);
                    by rewrite (sextets_lookup (length src) src i t))
              (length (Base64.sextets src)) 0 (Some 0%Z) 0 0 out)
    as (Hj & Hlen & Hin & Hout & Hend); try lia.
  { rewrite sampledIndex_0. lia. }
  { done. }
  destruct (Encoding.decode64_loop _ _ _ _ _ _ _ _ _ _ _) as [j out'].
  cbn [fst snd] in *. exists j. split; [lia|]. split; [done|]. split; [done|].
  split; [intros k Hk; apply Hin; lia|]. split; [intros k Hk; apply Hout; lia|done].
Qed.

(** X24: subsampling in [decode64].  When [(pointRatio - 1) *
    record_size] is a multiple of three, [decode64] on the unpadded
    base64 encoding of a byte sequence writes, to the front of the output
    array, the records number 0, [pointRatio], [2 * pointRatio], ... of
    the data, byte for byte: output byte [k] is byte [k mod record_size]
    of record [(k / record_size) * pointRatio].  It stops when the array
    is full or the data is used up, leaves the rest of the array as it
    was, and returns the number of whole records written.  (Skipping a
    number of bytes that is a multiple of three skips whole characters;
    otherwise the code resumes at the wrong bit.) *)
Theorem decode64_subsamples_records
    (src out : list byte) (record_size pointRatio : nat) :
  let size := if record_size =? 0 then length out else record_size in
  let ratio := if pointRatio =? 0 then 1 else pointRatio in
  0 < size →
  ((ratio - 1) * size) mod 3 = 0 →
  let res := Encoding.decode64 (Base64.encode src) out record_size pointRatio in
  ∃ written,
    written ≤ length out
    ∧ res.1 = written / size
    ∧ length res.2 = length out
    ∧ (∀ k, k < written →
         Base64.sampledIndex size ratio k < length src
         ∧ res.2 !! k = src !! Base64.sampledIndex size ratio k)
    ∧ (∀ k, written ≤ k → res.2 !! k = out !! k)
    ∧ (written < length out → length src ≤ Base64.sampledIndex size ratio written).
Proof. apply decode64_sampled. Qed.

(** X24 on sixteen bytes, records of three bytes and every second
    record: the fourth output byte is the first byte of the third record. *)
Lemma decode64_subsamples_records_witness :
  (Encoding.decode64 (Base64.encode Base64.sixteen) (TypedArray.Uint8Array 6) 3 2).2 !! 3
  = Some x07.
Proof.
  destruct (decode64_subsamples_records Base64.sixteen (TypedArray.Uint8Array 6) 3 2)
    as (written & _ & _ & _ & Hin & _ & Hend).
  - cbn. lia.
  - reflexivity.
  - cbv zeta in Hin, Hend.
    assert (Hw : 3 < written).
    { destruct written as [|[|[|[|w]]]]; [| | | |lia];
        (assert (Hleft := Hend ltac:(cbn; lia)); vm_compute in Hleft; lia). }
    destruct (Hin 3 Hw) as [_ ->]. reflexivity.
Defined.

(** ** A subsampled cloud sent as text *)

Section CloudSampled.
Context `{Host}.
Import PointCloud2.

(** A read that finds the same bytes in another view gives the same. *)
Lemma bytesAt_same dv dv' o o' w bs :
  0 < w →
  (∀ d, d < w → dv !! (o + d) = dv' !! (o' + d)) →
  DataView.bytesAt dv o w = Ok bs → DataView.bytesAt dv' o' w = Ok bs.
Proof.
  intros Hw Hsame. unfold DataView.bytesAt.
  destruct (decide (o + w ≤ length dv)) as [Hfit|]; [|done]. intros [= <-].
  assert (Hfit' : o' + w ≤ length dv').
  { destruct (lookup_lt_is_Some_2 dv (o + (w - 1)) ltac:(lia)) as [c Hc].
    rewrite Hsame in Hc by lia. apply lookup_lt_Some in Hc. lia. }
  rewrite decide_True by done. f_equal. apply list_eq. intros d.
  destruct (decide (d < w)) as [Hd|Hd].
  - rewrite !lookup_take_lt, !lookup_drop by done. symmetry. by apply Hsame.
  - by rewrite !lookup_take_ge by lia.
Qed.

Lemma getFloat32_same dv dv' o o' le v :
  (∀ d, d < 4 → dv !! (o + d) = dv' !! (o' + d)) →
  DataView.getFloat32 dv o le = Ok v → DataView.getFloat32 dv' o' le = Ok v.
Proof.
  intros Hsame. unfold DataView.getFloat32, DataView.getUint.
  destruct (DataView.bytesAt dv o 4) as [bs|e] eqn:Hbs; [|done].
  by rewrite (bytesAt_same dv dv' o o' 4 bs ltac:(lia) Hsame Hbs).
Qed.

Lemma sampledIndex_record size ratio i e :
  e < size → Base64.sampledIndex size ratio (i * size + e) = i * ratio * size + e.
Proof.
  intros He. unfold Base64.sampledIndex.
  assert (Hk : i * size + e = size * i + e) by lia.
  rewrite <- (Nat.div_unique (i * size + e) size i e He Hk).
  by rewrite <- (Nat.mod_unique (i * size + e) size i e He Hk).
Qed.

(** The handler on the text of a cloud that it subsamples. *)
Lemma processMessage_text_sampled (this : t) (msg : Message) (src : list byte) :
  let pts0 := points this in
  let step := point_step msg in
  let ratio := if Points.pointRatio pts0 =? 0 then 1 else Points.pointRatio pts0 in
  let le := negb (is_bigendian msg) in
  Stream.inv pts0 →
  Stream.cloudProcessed this = true →
  data msg = Text (Base64.encode src) →
  Stream.fieldsFit (Points.setup pts0 (frame_id msg) step (fields msg)).2 step →
  (∀ buf, buffer this = Some buf → length buf ≤ Points.max_pts pts0 * step) →
  ((ratio - 1) * step) mod 3 = 0 →
  ∃ this' p' x y z (n : nat),
    processMessage this msg = Ok this'
    ∧ Points.positions (points this') = Some p'
    ∧ Points.own (Points.fields (points this')) !! "x" = Some x
    ∧ Points.own (Points.fields (points this')) !! "y" = Some y
    ∧ Points.own (Points.fields (points this')) !! "z" = Some z
    ∧ Points.drawRange (points this') = n ∧ count p' = n
    ∧ n ≤ Points.max_pts pts0
    ∧ (n < Points.max_pts pts0 → length src < n * ratio * step + step)
    ∧ (∀ i, i < n →
         ∃ vx vy vz,
           DataView.getFloat32 src (i * ratio * step + pf_offset x) le = Ok vx
           ∧ DataView.getFloat32 src (i * ratio * step + pf_offset y) le = Ok vy
           ∧ DataView.getFloat32 src (i * ratio * step + pf_offset z) le = Ok vz
           ∧ array p' !! (3 * i) = Some (TypedArray.Math_fround vx)
           ∧ array p' !! (3 * i + 1) = Some (TypedArray.Math_fround vy)
           ∧ array p' !! (3 * i + 2) = Some (TypedArray.Math_fround vz)).
Proof.
  intros pts0 step ratio le Hinv Hgate Hdata Hfit Hbuf Hdiv.
  destruct (setup_spec pts0 (frame_id msg) step (fields msg) Hinv)
    as (pts & p & Hsetup & Hp & Hlen & Hmax & Hratio & _ & _ & Hinv').
  unfold Stream.cloudProcessed in Hgate. fold pts0 in Hgate.
  rewrite Hgate in Hsetup. rewrite Hsetup in Hfit. cbn [snd] in Hfit.
  pose proof (fieldsFit_step _ _ Hfit) as Hstep.
  set (bufSz := Points.max_pts pts0 * step) in *.
  pose proof (textBuffer_length this bufSz Hbuf) as HB.
  pose proof (decode64_sampled src (textBuffer this bufSz) step
                (Points.pointRatio pts0)) as Hdec.
  cbv zeta in Hdec. rewrite HB in Hdec.
  destruct (Nat.eqb_spec step 0) as [|_]; [lia|]. fold ratio in Hdec.
  destruct (Hdec ltac:(lia) Hdiv)
    as (written & Hwritten & Hn & Hlenb & Hin & _ & Hend). clear Hdec.
  destruct (Encoding.decode64 (Base64.encode src) (textBuffer this bufSz) step
              (Points.pointRatio pts0)) as [n buf] eqn:Hd.
  cbn [fst snd] in *.
  assert (Hrec : n * step ≤ written).
  { rewrite Hn. rewrite Nat.mul_comm. apply Nat.Div0.mul_div_le. }
  rewrite (processMessage_text this msg pts p (Base64.encode src) n buf Hsetup Hp Hdata)
    by (rewrite Hmax, Hratio; exact Hd).
  destruct (decodeInto_ok pts p msg n buf 1 (mk pts (Some buf)) Hinv' Hp Hfit)
    as (x & y & z & pos' & col' & pts' & Hx & Hy & Hz & Hloop & Hinto & Hp'
        & Hdraw & Hlen' & Hmax' & _ & Hfields & _).
  { intros i Hi. rewrite Hlenb. fold step. nia. }
  destruct (decodeLoop_content _ _ _ _ _ _ _ _ _ _ _ _ _ _ Hloop)
    as (_ & _ & Hslots).
  destruct Hfit as (Hxyz & _).
  assert (Hoff : ∀ name f, name ∈ ["x"; "y"; "z"] →
                           Points.own (Points.fields pts) !! name = Some f →
                           pf_offset f + 4 ≤ step).
  { intros name f Hname Hf. destruct (Hxyz name Hname) as (f' & Hf' & Hle).
    congruence. }
  pose proof (Hoff "x" x ltac:(repeat constructor) Hx) as Hox.
  pose proof (Hoff "y" y ltac:(repeat constructor) Hy) as Hoy.
  pose proof (Hoff "z" z ltac:(repeat constructor) Hz) as Hoz.
  assert (Hread : ∀ i off v, i < n → off + 4 ≤ step →
             DataView.getFloat32 buf (i * 1 * step + off) le = Ok v →
             DataView.getFloat32 src (i * ratio * step + off) le = Ok v).
  { intros i off v Hi Hfits. apply getFloat32_same. intros d Hlt.
    destruct (Hin (i * step + (off + d)) ltac:(nia)) as [_ Hk].
    rewrite sampledIndex_record in Hk by lia.
    replace (i * 1 * step + off + d) with (i * step + (off + d)) by lia.
    replace (i * ratio * step + off + d) with (i * ratio * step + (off + d)) by lia.
    exact Hk. }
  rewrite Hinto.
  exists (mk pts' (Some buf)), (mkBufferAttribute pos' n true), x, y, z, n.
  cbn [points count array]. rewrite Hfields.
  do 7 (split; [done|]).
  assert (Hcap : n ≤ Points.max_pts pts0) by (unfold bufSz in Hwritten; nia).
  split; [done|]. split.
  - intros Hroom.
    assert (Hw : written < bufSz).
    { pose proof (Nat.mul_succ_div_gt written step ltac:(lia)) as Hgt.
      rewrite <- Hn in Hgt. unfold bufSz. nia. }
    specialize (Hend Hw).
    pose proof (Nat.div_mod_eq written step) as Hdm. rewrite <- Hn in Hdm.
    pose proof (Nat.mod_upper_bound written step ltac:(lia)) as Hmod.
    rewrite Hdm in Hend.
    replace (step * n + written mod step) with (n * step + written mod step)
      in Hend by lia.
    rewrite sampledIndex_record in Hend by done. lia.
  - intros i Hi.
    destruct (Hslots i ltac:(lia)) as (vx & vy & vz & Hvx & Hvy & Hvz & Hs).
    exists vx, vy, vz.
    split; [by apply Hread|]. split; [by apply Hread|]. split; [by apply Hread|].
    apply Hs. lia.
Qed.

End CloudSampled.

(** X25: a subsampled cloud sent as text.  When [(pointRatio - 1) *
    point_step] is a multiple of three, the retained buffer (if any) is
    not longer than [max_pts * point_step], the coordinate fields lie
    within a record and a colour array, if there is one, has an accessor
    that reads within a record, the handler on the (unpadded) base64 text
    of a cloud returns normally and draws the records number 0,
    [pointRatio], [2 * pointRatio], ... of the data: slots [3i], [3i+1],
    [3i+2] of the position array hold the binary32 values read at the
    [x], [y] and [z] offsets of record [i * pointRatio].  It draws
    [max_pts] points, or fewer when the data ends before the next record
    to read is complete. *)
Theorem text_cloud_positions `{Host}
    (this : PointCloud2.t) (msg : PointCloud2.Message) (src : list byte) :
  let pts0 := PointCloud2.points this in
  let step := PointCloud2.point_step msg in
  let ratio := if Points.pointRatio pts0 =? 0 then 1 else Points.pointRatio pts0 in
  let le := negb (PointCloud2.is_bigendian msg) in
  Stream.inv pts0 →
  Stream.cloudProcessed this = true →
  PointCloud2.data msg = PointCloud2.Text (Base64.encode src) →
  Stream.fieldsFit
    (Points.setup pts0 (PointCloud2.frame_id msg) step (PointCloud2.fields msg)).2 step →
  (∀ buf, PointCloud2.buffer this = Some buf → length buf ≤ Points.max_pts pts0 * step) →
  ((ratio - 1) * step) mod 3 = 0 →
  ∃ this' p' x y z (n : nat),
    PointCloud2.processMessage this msg = Ok this'
    ∧ Points.positions (PointCloud2.points this') = Some p'
    ∧ Points.own (Points.fields (PointCloud2.points this')) !! "x" = Some x
    ∧ Points.own (Points.fields (PointCloud2.points this')) !! "y" = Some y
    ∧ Points.own (Points.fields (PointCloud2.points this')) !! "z" = Some z
    ∧ Points.drawRange (PointCloud2.points this') = n ∧ count p' = n
    ∧ n ≤ Points.max_pts pts0
    ∧ (n < Points.max_pts pts0 → length src < n * ratio * step + step)
    ∧ (∀ i, i < n →
         ∃ vx vy vz,
           DataView.getFloat32 src (i * ratio * step + pf_offset x) le = Ok vx
           ∧ DataView.getFloat32 src (i * ratio * step + pf_offset y) le = Ok vy
           ∧ DataView.getFloat32 src (i * ratio * step + pf_offset z) le = Ok vz
           ∧ array p' !! (3 * i) = Some (TypedArray.Math_fround vx)
           ∧ array p' !! (3 * i + 1) = Some (TypedArray.Math_fround vy)
           ∧ array p' !! (3 * i + 2) = Some (TypedArray.Math_fround vz)).
Proof.
  intros pts0 step ratio le Hinv Hgate Hdata Hfit Hbuf Hdiv.
  by apply processMessage_text_sampled.
Qed.

(** X25 on four sample points sent as text to a client that keeps every
    second point and has room for two: both slots are drawn. *)
Lemma text_cloud_positions_witness :
  ∃ this',
    PointCloud2.processMessage (H := sampleHost) SampleCloud.sparseClient
      (PointCloud2.withData SampleCloud.fourPoints
         (PointCloud2.Text
            (Base64.encode (SampleCloud.one ++ SampleCloud.one ++ SampleCloud.one
                            ++ SampleCloud.two ++ SampleCloud.two ++ SampleCloud.two
                            ++ SampleCloud.three ++ SampleCloud.three
                            ++ SampleCloud.three
                            ++ SampleCloud.one ++ SampleCloud.two
                            ++ SampleCloud.three))))
    = Ok this'
    ∧ Points.drawRange (PointCloud2.points this') = 2.
Proof.
  destruct (text_cloud_positions (H := sampleHost) SampleCloud.sparseClient
              (PointCloud2.withData SampleCloud.fourPoints
                 (PointCloud2.Text
                    (Base64.encode
                       (SampleCloud.one ++ SampleCloud.one ++ SampleCloud.one
                        ++ SampleCloud.two ++ SampleCloud.two ++ SampleCloud.two
                        ++ SampleCloud.three ++ SampleCloud.three
                        ++ SampleCloud.three
                        ++ SampleCloud.one ++ SampleCloud.two
                        ++ SampleCloud.three))))
              (SampleCloud.one ++ SampleCloud.one ++ SampleCloud.one
               ++ SampleCloud.two ++ SampleCloud.two ++ SampleCloud.two
               ++ SampleCloud.three ++ SampleCloud.three ++ SampleCloud.three
               ++ SampleCloud.one ++ SampleCloud.two ++ SampleCloud.three))
    as (this' & p' & x & y & z & n & Hrun & _ & _ & _ & _ & Hdraw & _ & Hcap & Hend & _).
  - reflexivity.
  - reflexivity.
  - reflexivity.
  - apply smallClient_fieldsFit.
  - intros buf Hbuf. discriminate Hbuf.
  - reflexivity.
  - exists this'. split; [exact Hrun|]. rewrite Hdraw.
    cbn in Hcap, Hend.
    destruct n as [|[|[|n]]]; [| |reflexivity|lia].
    + assert (Hleft := Hend ltac:(lia)). cbn in Hleft. lia.
    + assert (Hleft := Hend ltac:(lia)). cbn in Hleft. lia.
Defined.

(** ** Corner cases of the cloud handler *)

Section CloudCorners.
Context `{Host}.
Import PointCloud2.

(** The first round of the loop on a helper that has a colour array
    and no accessor. *)
Lemma decodeLoop_no_accessor pts dv ratio point_step le x y z pos c rounds :
  Points.getColor pts = None →
  pf_offset x + 4 ≤ length dv → pf_offset y + 4 ≤ length dv →
  pf_offset z + 4 ≤ length dv →
  decodeLoop (S rounds) pts dv ratio point_step le x y z (pos, Some c) 0
  = Throw TypeError.
Proof.
  intros Hget Hx Hy Hz. cbn [decodeLoop]. unfold decodePoint.
  change (0 * ratio * point_step) with 0. cbn [Nat.add].
  destruct (getFloat32_ok dv (pf_offset x) le Hx) as (vx & ->).
  destruct (getFloat32_ok dv (pf_offset y) le Hy) as (vy & ->).
  destruct (getFloat32_ok dv (pf_offset z) le Hz) as (vz & ->).
  cbn [mbind Result_bind bindR]. unfold pointColor. by rewrite Hget.
Qed.

(** The handler of a fresh client whose colour source is inherited. *)
Lemma processMessage_inherited tfClient max_pts pointRatio messageRatio (s : string)
    colormap colorMin colorMax (msg : Message) (src : list byte) (x y z : PointField) :
  let named n := last (filter (fun f => pf_name f = n) (fields msg)) in
  let view := take (Nat.min (length src) (max_pts * point_step msg)) src in
  s ∈ Points.objectPrototypeKeys →
  named s = None →
  named "x" = Some x → named "y" = Some y → named "z" = Some z →
  1 ≤ messageRatio → 1 ≤ max_pts →
  0 < height msg * width msg → pointRatio ≤ height msg * width msg →
  data msg = Binary src →
  pf_offset x + 4 ≤ length view → pf_offset y + 4 ≤ length view →
  pf_offset z + 4 ≤ length view →
  processMessage
    (new tfClient max_pts pointRatio messageRatio (Some s) colormap colorMin colorMax)
    msg
  = Throw TypeError.
Proof.
  intros named view Hs Hnone Hx Hy Hz Hgate Hcap Hcloud Hratio Hdata Hox Hoy Hoz.
  set (this := new tfClient max_pts pointRatio messageRatio (Some s) colormap
                   colorMin colorMax).
  assert (Hne : s ≠ "" ∧ s ≠ "__proto__").
  { split; intros ->; unfold Points.objectPrototypeKeys in Hs;
      repeat (apply elem_of_cons in Hs as [Hs|Hs]; [discriminate Hs|]);
      by apply elem_of_nil in Hs. }
  destruct Hne as [Hne Hnp].
  destruct (setup_spec (points this) (frame_id msg) (point_step msg) (fields msg)
              eq_refl)
    as (pts & p & Hsetup & Hp & Hlen & Hmax & Hpr & _ & _ & _).
  destruct (setup_first (points this) (frame_id msg) (point_step msg) (fields msg)
              eq_refl)
    as (Hfields & Hsrc & Hcolors & Hreader & _).
  rewrite Hsetup in Hfields, Hsrc, Hcolors, Hreader.
  cbn [snd points this new Points.new Points.colorsrc Points.colors Points.getColor
       Points.max_pts Points.pointRatio Points.messageCount Points.messageRatio]
    in Hsetup, Hfields, Hsrc, Hcolors, Hreader, Hlen, Hmax, Hpr.
  assert (Hdetect : Points.detectColorsrc (Some s) (Points.indexFields (fields msg))
                    = Some s).
  { unfold Points.detectColorsrc. cbn.
    by destruct (String.eqb_spec s ""). }
  rewrite Hdetect in Hcolors, Hreader.
  rewrite colorField_spec, decide_False in Hcolors, Hreader by done.
  rewrite (get_inherited _ s Hs) in Hcolors, Hreader
    by (rewrite indexFields_own by done; exact Hnone).
  cbn in Hcolors, Hreader.
  assert (Hready : Points.mod_is_zero 0 messageRatio = true).
  { unfold Points.mod_is_zero. destruct (Nat.eqb_spec messageRatio 0); [lia|].
    by rewrite Nat.Div0.mod_0_l. }
  rewrite Hready in Hsetup.
  rewrite (processMessage_binary this msg pts p src Hsetup Hp Hdata).
  rewrite Hpr, Hlen, Hmax.
  rewrite (pointCount_Some _ _ _ _ ltac:(right; exact Hcloud)).
  assert (Hn : ∃ n, Stream.cloudPoints (height msg) (width msg) pointRatio max_pts
                    = S n).
  { unfold Stream.cloudPoints. destruct (Nat.eqb_spec pointRatio 0) as [|Hr].
    - exists (max_pts - 1). lia.
    - assert (1 ≤ height msg * width msg / pointRatio)
        by (apply Nat.div_le_lower_bound; lia).
      exists (Nat.min (height msg * width msg / pointRatio) max_pts - 1). lia. }
  destruct Hn as [n ->].
  unfold decodeInto. change (rounds (Some (S n))) with (S n).
  rewrite Hfields, !indexFields_own by done.
  fold (named "x") (named "y") (named "z"). rewrite Hx, Hy, Hz.
  rewrite Hcolors. cbn [fmap option_fmap option_map array].
  fold view.
  by rewrite (decodeLoop_no_accessor pts view) by done.
Qed.

(** The handler on an empty cloud with a zero ratio. *)
Lemma processMessage_NaN (this : t) (msg : Message) (src : list byte) :
  let pts0 := points this in
  let pts := (Points.setup pts0 (frame_id msg) (point_step msg) (fields msg)).2 in
  Stream.inv pts0 →
  Stream.cloudProcessed this = true →
  data msg = Binary src →
  Points.pointRatio pts0 = 0 →
  height msg * width msg = 0 →
  (∀ name, name ∈ ["x"; "y"; "z"] → is_Some (Points.own (Points.fields pts) !! name)) →
  ∃ pts' p p',
    processMessage this msg = Ok (mk pts' (buffer this))
    ∧ Points.positions pts = Some p
    ∧ Points.positions pts' = Some p'
    ∧ array p' = array p
    ∧ count p' = JS.NaN
    ∧ Points.drawRange pts' = JS.NaN.
Proof.
  intros pts0 pts Hinv Hgate Hdata Hzero Hempty Hxyz.
  destruct (setup_spec pts0 (frame_id msg) (point_step msg) (fields msg) Hinv)
    as (pts1 & p & Hsetup & Hp & Hlen & Hmax & Hratio & _ & _ & _).
  unfold Stream.cloudProcessed in Hgate. fold pts0 in Hgate.
  rewrite Hgate in Hsetup.
  assert (pts = pts1) as -> by (unfold pts; by rewrite Hsetup).
  rewrite (processMessage_binary this msg pts1 p src Hsetup Hp Hdata).
  rewrite Hratio, Hzero, Hlen, (pointCount_NaN _ _ _ Hempty).
  destruct (Hxyz "x" ltac:(repeat constructor)) as [x Hx].
  destruct (Hxyz "y" ltac:(repeat constructor)) as [y Hy].
  destruct (Hxyz "z" ltac:(repeat constructor)) as [z Hz].
  unfold decodeInto. change (rounds None) with 0. rewrite Hx, Hy, Hz.
  cbn [decodeLoop mbind Result_bind bindR fst snd].
  unfold Points.update, Points.with_buffers. cbn [Points.positions Points.colors].
  eexists _, p, _. split; [reflexivity|]. by cbn.
Qed.

End CloudCorners.

(** X26: a colour source that names no field of the message but a
    property every object inherits, such as ["constructor"] or
    ["toString"], breaks the client.  [setup] finds the inherited
    function under that name in its field table, takes it for a field
    and allocates the colour array, but gets no accessor from it; the
    first message that is processed and has a point to decode then throws
    a [TypeError] when the loop calls the missing accessor, after the
    three coordinates of the first record have been read. *)
Theorem inherited_colour_source_throws `{Host}
    (tfClient : option SceneNode.TFClient)
    (max_pts pointRatio messageRatio : nat) (s : string)
    (colormap : option (float → Color)) (colorMin colorMax : float)
    (msg : PointCloud2.Message) (src : list byte) (x y z : PointField) :
  let named n := last (filter (fun f => pf_name f = n) (PointCloud2.fields msg)) in
  let cloud := PointCloud2.height msg * PointCloud2.width msg in
  let view :=
    take (Nat.min (length src) (max_pts * PointCloud2.point_step msg)) src in
  s ∈ ["constructor"; "hasOwnProperty"; "isPrototypeOf"; "propertyIsEnumerable";
       "toLocaleString"; "toString"; "valueOf"; "__defineGetter__";
       "__defineSetter__"; "__lookupGetter__"; "__lookupSetter__"] →
  named s = None →
  named "x" = Some x → named "y" = Some y → named "z" = Some z →
  1 ≤ messageRatio → 1 ≤ max_pts →
  0 < cloud → pointRatio ≤ cloud →
  PointCloud2.data msg = PointCloud2.Binary src →
  pf_offset x + 4 ≤ length view → pf_offset y + 4 ≤ length view →
  pf_offset z + 4 ≤ length view →
  PointCloud2.processMessage
    (PointCloud2.new tfClient max_pts pointRatio messageRatio (Some s) colormap
                     colorMin colorMax) msg
  = Throw TypeError.
Proof.
  intros named cloud view Hs Hnone Hx Hy Hz Hgate Hcap Hcloud Hratio Hdata Hox Hoy Hoz.
  by apply (processMessage_inherited tfClient max_pts pointRatio messageRatio s colormap
              colorMin colorMax msg src x y z).
Qed.

(** X26 on the three sample points and a client configured with the
    colour source ["constructor"]. *)
Lemma inherited_colour_source_throws_witness :
  PointCloud2.processMessage (H := sampleHost) SampleCloud.inheritedClient
                             SampleCloud.threePoints = Throw TypeError.
Proof.
  apply (inherited_colour_source_throws (H := sampleHost)
           (Some SceneNode.tfClientHandle) 2 1 1 "constructor" None 0 1
           SampleCloud.threePoints
           (SampleCloud.one ++ SampleCloud.one ++ SampleCloud.one
            ++ SampleCloud.two ++ SampleCloud.two ++ SampleCloud.two
            ++ SampleCloud.three ++ SampleCloud.three ++ SampleCloud.three)
           (mkPointField "x" 0 7 1) (mkPointField "y" 4 7 1) (mkPointField "z" 8 7 1)).
  - repeat constructor.
  - reflexivity.
  - reflexivity.
  - reflexivity.
  - reflexivity.
  - lia.
  - lia.
  - cbn. lia.
  - cbn. lia.
  - reflexivity.
  - cbn. lia.
  - cbn. lia.
  - cbn. lia.
Defined.

(** X27: an empty cloud meets a zero ratio.  On a client with
    [pointRatio] 0 whose coordinate fields are registered, a binary
    message with [height * width = 0] makes the point count
    [Math.floor (Math.min (0 / 0, max_pts))], which is NaN: the loop runs
    no round, the position array is left as it was, and [update] sets the
    draw range of the geometry and the count of the position attribute to
    NaN. *)
Theorem empty_cloud_with_zero_ratio_counts_NaN `{Host}
    (this : PointCloud2.t) (msg : PointCloud2.Message) (src : list byte) :
  let pts0 := PointCloud2.points this in
  let pts :=
    (Points.setup pts0 (PointCloud2.frame_id msg) (PointCloud2.point_step msg)
                  (PointCloud2.fields msg)).2 in
  Stream.inv pts0 →
  Stream.cloudProcessed this = true →
  PointCloud2.data msg = PointCloud2.Binary src →
  Points.pointRatio pts0 = 0 →
  PointCloud2.height msg * PointCloud2.width msg = 0 →
  (∀ name, name ∈ ["x"; "y"; "z"] → is_Some (Points.own (Points.fields pts) !! name)) →
  ∃ pts' p p',
    PointCloud2.processMessage this msg
    = Ok (PointCloud2.mk pts' (PointCloud2.buffer this))
    ∧ Points.positions pts = Some p
    ∧ Points.positions pts' = Some p'
    ∧ array p' = array p
    ∧ count p' = JS.NaN
    ∧ Points.drawRange pts' = JS.NaN.
Proof.
  intros pts0 pts Hinv Hgate Hdata Hzero Hempty Hxyz.
  by apply (processMessage_NaN this msg src).
Qed.

(** X27 on a message without points and a client with ratio 0. *)
Lemma empty_cloud_with_zero_ratio_counts_NaN_witness :
  ∃ pts',
    PointCloud2.processMessage (H := sampleHost) SampleCloud.zeroRatioClient
                               SampleCloud.noPoints
    = Ok (PointCloud2.mk pts' None)
    ∧ Points.drawRange pts' = JS.NaN.
Proof.
  destruct (empty_cloud_with_zero_ratio_counts_NaN (H := sampleHost)
              SampleCloud.zeroRatioClient SampleCloud.noPoints [])
    as (pts' & p & p' & Hrun & _ & _ & _ & _ & Hdraw).
  - reflexivity.
  - reflexivity.
  - reflexivity.
  - reflexivity.
  - reflexivity.
  - intros name Hname.
    apply elem_of_cons in Hname as [->|Hname];
      [|apply elem_of_cons in Hname as [->|Hname];
        [|apply elem_of_cons in Hname as [->|Hname]; [|by apply elem_of_nil in Hname]]];
      vm_compute; by eexists.
  - exists pts'. split; [exact Hrun|exact Hdraw].
Defined.
